(** * A segregated free-list allocator with boundary tags (mm.c)

    Shallow embedding of [src/mm.c] and proofs of the properties its
    specification states.

    - [size_t] and pointers are 64-bit: they are modelled as [Z] with the
      wrap-around written out ([wrap]).
    - The heap is a flat, byte-addressed memory; header/footer words and
      free-list links are read and written as little-endian 64-bit words
      ([load64], [store64]).
    - The globals [heap] and [freelists] and the break pointer of the
      memory library are the fields of [state].
    - C loops whose termination depends on the contents of memory (the
      alignment probe of [mm_init], the first-fit scan, the retry of
      [malloc], the traversals of [mm_checkheap]) take a [fuel] argument;
      [None] means the fuel ran out. *)

From Stdlib Require Import ZArith List Bool Lia.
Import ListNotations.
Local Open Scope Z_scope.

(* ================================================================== *)
(** * Machine words and memory *)
(* ================================================================== *)

Definition wrap (x : Z) : Z := x mod 2 ^ 64.

Definition NULL : Z := 0.

(** [(void * ) -1], the failure value of [mm_sbrk]. *)
Definition SBRK_FAIL : Z := wrap (-1).

Definition memory := Z -> Z.

(** Little-endian read of [n] bytes starting at [a]. *)
Fixpoint load_n (m : memory) (a : Z) (n : nat) : Z :=
  match n with
  | O => 0
  | S k => m a mod 256 + 256 * load_n m (a + 1) k
  end.

Definition load64 (m : memory) (a : Z) : Z := load_n m a 8.

(** Little-endian write of the low [n] bytes of [v] at [a]. *)
Definition store_n (m : memory) (a : Z) (n : Z) (v : Z) : memory :=
  fun x => if (a <=? x) && (x <? a + n) then (v / 256 ^ (x - a)) mod 256 else m x.

Definition store64 (m : memory) (a : Z) (v : Z) : memory := store_n m a 8 v.

(** Modelled from the spec: [memset] and [memcpy] are library primitives
    "with standard semantics" (section 6.1); their code is not part of
    [mm.c]. *)
Definition memset (m : memory) (p : Z) (c : Z) (n : Z) : memory :=
  fun x => if (p <=? x) && (x <? p + n) then c mod 256 else m x.

Definition memcpy (m : memory) (dst src : Z) (n : Z) : memory :=
  fun x => if (dst <=? x) && (x <? dst + n) then m (src + (x - dst)) else m x.

(* ================================================================== *)
(** * Allocator state *)
(* ================================================================== *)

(** [mem], [heap] and [freelists] are the memory and the two globals of
    [mm.c]; [brk] and [mem_max] are the break and the limit of the memory
    library behind [mm_sbrk]. *)
Record state := mkState {
  mem : memory;
  heap : Z;
  freelists : Z -> Z;
  brk : Z;
  mem_max : Z
}.

Definition set_mem (st : state) (m : memory) : state :=
  mkState m (heap st) (freelists st) (brk st) (mem_max st).

Definition upd (f : Z -> Z) (i v : Z) : Z -> Z :=
  fun j => if j =? i then v else f j.

Definition set_freelist (st : state) (i v : Z) : state :=
  mkState (mem st) (heap st) (upd (freelists st) i v) (brk st) (mem_max st).

(** Modelled from the spec: [mm_sbrk] of the memory library (section 6.1):
    "grows the managed region by [bytes]; returns the address of the first
    newly-added byte, or a sentinel on failure". *)
Definition mm_sbrk (st : state) (incr : Z) : state * Z :=
  if brk st + incr <=? mem_max st
  then (mkState (mem st) (heap st) (freelists st) (brk st + incr) (mem_max st), brk st)
  else (st, SBRK_FAIL).

(* ================================================================== *)
(** * mm.c *)
(* ================================================================== *)

Definition ALIGNMENT : Z := 16.

(** [align]: [ALIGNMENT * ((x+ALIGNMENT-1)/ALIGNMENT)] in [size_t]. *)
Definition align (x : Z) : Z :=
  wrap (ALIGNMENT * (wrap (x + ALIGNMENT - 1) / ALIGNMENT)).

Definition aligned (p : Z) : bool := align p =? p.

(** ** Boundary-tag codec *)

Definition GET_SIZE (m : memory) (header_or_footer : Z) : Z :=
  let mask := wrap (Z.lnot 3) in
  Z.land (load64 m header_or_footer) mask.

Definition GET_FREE_BIT (m : memory) (header_or_footer : Z) : bool :=
  negb (Z.land (load64 m header_or_footer) 1 =? 0).

Definition GET_PREV_BLOCK_FREE_BIT (m : memory) (header_or_footer : Z) : bool :=
  negb (Z.land (load64 m header_or_footer) (Z.shiftl 1 1) =? 0).

(** The word [SET_VALUE] composes: [payload_size | flags]. *)
Definition tag (payload_size : Z) (is_free prev_block_free : bool) : Z :=
  let flags := if prev_block_free then 2 else 0 in
  let flags := Z.lor flags (if is_free then 1 else 0) in
  Z.lor payload_size flags.

Definition SET_VALUE (m : memory) (header_or_footer : Z) (payload_size : Z)
    (is_free prev_block_free : bool) : memory :=
  store64 m header_or_footer (tag payload_size is_free prev_block_free).

Definition SET_FREE_BIT (m : memory) (header_or_footer : Z) (is_free : bool) : memory :=
  let payload_size := GET_SIZE m header_or_footer in
  let prev_flag_free_bit := GET_PREV_BLOCK_FREE_BIT m header_or_footer in
  SET_VALUE m header_or_footer payload_size is_free prev_flag_free_bit.

Definition SET_PREV_BLOCK_FREE_BIT (m : memory) (header_or_footer : Z)
    (prev_flag_free_bit : bool) : memory :=
  let payload_size := GET_SIZE m header_or_footer in
  let is_free := GET_FREE_BIT m header_or_footer in
  SET_VALUE m header_or_footer payload_size is_free prev_flag_free_bit.

(** ** Block navigator *)

Definition Header_size : Z := 8.
Definition Footer_size : Z := 8.

Definition Header_get_payload (header : Z) : Z := wrap (header + Header_size).

Definition Payload_get_header (payload : Z) : Z := wrap (payload - Header_size).

Definition Payload_get_size (m : memory) (payload : Z) : Z :=
  GET_SIZE m (Payload_get_header payload).

Definition Payload_get_footer (m : memory) (payload : Z) : Z :=
  wrap (payload + Payload_get_size m payload).

Definition Header_get_footer (m : memory) (header : Z) : Z :=
  Payload_get_footer m (Header_get_payload header).

Definition Header_get_next_header (m : memory) (header : Z) : Z :=
  wrap (Header_get_footer m header + Footer_size).

Definition Footer_get_header (m : memory) (footer : Z) : Z :=
  Payload_get_header (wrap (footer - GET_SIZE m footer)).

Definition Header_get_prev_header (m : memory) (header : Z) : Z :=
  Footer_get_header m (wrap (header - Footer_size)).

Definition Header_get_list (header : Z) : Z := Header_get_payload header.

(** [sizeof(DList)]: two pointers. *)
Definition sizeof_DList : Z := 16.

Definition Payload_min_size : Z := align sizeof_DList.

Definition Block_min_size : Z := wrap (Header_size + Payload_min_size + Footer_size).

(** ** Doubly linked lists: [prev] at offset 0, [next] at offset 8 *)

Definition DList_prev (m : memory) (list : Z) : Z := load64 m list.
Definition DList_next (m : memory) (list : Z) : Z := load64 m (wrap (list + 8)).
Definition DList_set_prev (m : memory) (list v : Z) : memory := store64 m list v.
Definition DList_set_next (m : memory) (list v : Z) : memory := store64 m (wrap (list + 8)) v.

(** [head] is the index of the slot [&freelists[head]]. *)
Definition LinkedList_insert_at_front (st : state) (head : Z) (list : Z) : state :=
  let m := mem st in
  let m := if freelists st head =? NULL then m
           else DList_set_prev m (freelists st head) list in
  let m := DList_set_prev m list NULL in
  let m := DList_set_next m list (freelists st head) in
  set_freelist (set_mem st m) head list.

Definition LinkedList_remove (st : state) (head : Z) (list : Z) : state :=
  let m := mem st in
  let m := if DList_next m list =? NULL then m
           else DList_set_prev m (DList_next m list) (DList_prev m list) in
  if DList_prev m list =? NULL
  then set_freelist (set_mem st m) head (DList_next m list)
  else set_mem st (DList_set_next m (DList_prev m list) (DList_next m list)).

(** ** Segregated free lists *)

Fixpoint find_free_block_explicit_list_firstfit (fuel : nat) (m : memory)
    (list : Z) (size : Z) : option Z :=
  match fuel with
  | O => None
  | S fuel' =>
      if list =? NULL then Some NULL
      else
        let header := Payload_get_header list in
        if size <=? wrap (GET_SIZE m header + Footer_size) then Some header
        else find_free_block_explicit_list_firstfit fuel' m (DList_next m list) size
  end.

Definition Segregated_get_size_classes : list Z :=
  [16; 32; 48; 64; 80; 96; 112; 128; 144; 160; 176; 192; 208; 224; 0].

(** The loop of [Segregated_get_bucket], from index [i] over the rest
    [sizes] of the table. *)
Fixpoint get_bucket_loop (sizes : list Z) (i : Z) (size : Z) : Z :=
  match sizes with
  | [] => 14
  | s :: rest => if s =? size then i else get_bucket_loop rest (i + 1) size
  end.

Definition Segregated_get_bucket (size : Z) : Z :=
  get_bucket_loop Segregated_get_size_classes 0 size.

Definition Segregated_insert_header (st : state) (header : Z) : state :=
  let size := GET_SIZE (mem st) header in
  let bucket := Segregated_get_bucket size in
  let list := Header_get_list header in
  LinkedList_insert_at_front st bucket list.

Definition Segregated_remove_header (st : state) (header : Z) : state :=
  let size := GET_SIZE (mem st) header in
  let bucket := Segregated_get_bucket size in
  let list := Header_get_list header in
  LinkedList_remove st bucket list.

(** The [for (i = bucket; i < 14; i++)] loop of
    [Segregated_find_free_block]; [n] bounds the remaining iterations. *)
Fixpoint find_exact_loop (n : nat) (fl : Z -> Z) (i : Z) : option Z :=
  match n with
  | O => None
  | S n' =>
      if i <? 14 then
        if fl i =? NULL then find_exact_loop n' fl (i + 1)
        else Some (Payload_get_header (fl i))
      else None
  end.

Definition search_size_of (size : Z) : Z :=
  let search_size := align (wrap (size - 8)) in
  if Payload_min_size <=? search_size then search_size else Payload_min_size.

Definition Segregated_find_free_block (fuel : nat) (st : state) (size : Z) : option Z :=
  let search_size := search_size_of size in
  match find_exact_loop 14 (freelists st) (Segregated_get_bucket search_size) with
  | Some header => Some header
  | None =>
      let others_index := 14 in
      find_free_block_explicit_list_firstfit fuel (mem st) (freelists st others_index) size
  end.

(** ** Coalescing *)

Definition coalesce_left (st : state) (header : Z) : state :=
  if negb (GET_FREE_BIT (mem st) header) then st
  else if negb (GET_PREV_BLOCK_FREE_BIT (mem st) header) then st
  else
    let prev_header := Header_get_prev_header (mem st) header in
    let st := Segregated_remove_header st header in
    let st := Segregated_remove_header st prev_header in
    let size2 := wrap (wrap (Header_size + GET_SIZE (mem st) header) + Footer_size) in
    let size1 := wrap (GET_SIZE (mem st) prev_header + size2) in
    let prev_prev_free_block_bit := GET_PREV_BLOCK_FREE_BIT (mem st) prev_header in
    let m := SET_VALUE (mem st) prev_header size1 true prev_prev_free_block_bit in
    let prev_footer := Header_get_footer m prev_header in
    let m := SET_VALUE m prev_footer size1 true prev_prev_free_block_bit in
    Segregated_insert_header (set_mem st m) prev_header.

Definition coalesce (st : state) (header : Z) : state :=
  let next_header := Header_get_next_header (mem st) header in
  let st := coalesce_left st next_header in
  coalesce_left st header.

(** ** Heap extension *)

(** The payload size [allocate] and [extend_memory] compute from the
    request: [size = align(size - 8); size = size > min ? size : min]. *)
Definition required_payload_size (size : Z) : Z :=
  let size := align (wrap (size - 8)) in
  if Payload_min_size <? size then size else Payload_min_size.

Definition extend_memory (st : state) (size : Z) : state * bool :=
  let size := required_payload_size size in
  let incr := wrap (wrap (size + Footer_size) + Header_size) in
  let (st, payload) := mm_sbrk st incr in
  if payload =? SBRK_FAIL then (st, false)
  else
    let header := Payload_get_header payload in
    let prev_block_free := GET_PREV_BLOCK_FREE_BIT (mem st) header in
    let m := SET_VALUE (mem st) header size true prev_block_free in
    let footer := Header_get_footer m header in
    let m := SET_VALUE m footer size true prev_block_free in
    let next_header := Header_get_next_header m header in
    let m := SET_VALUE m next_header 0 false true in
    let st := Segregated_insert_header (set_mem st m) header in
    let st := coalesce st header in
    (st, true).

(** ** Placement *)

Definition allocate (st : state) (header : Z) (size : Z) : state * Z :=
  let size := required_payload_size size in
  let st :=
    if Block_min_size <=? wrap (GET_SIZE (mem st) header - size) then
      let st := Segregated_remove_header st header in
      let old_size := GET_SIZE (mem st) header in
      let new_size := size in
      let m := SET_VALUE (mem st) header new_size true false in
      let footer := Header_get_footer m header in
      let m := SET_VALUE m footer new_size true false in
      let st := Segregated_insert_header (set_mem st m) header in
      let free_space := wrap (old_size - new_size) in
      let new_payload_size := wrap (free_space - wrap (Header_size + Footer_size)) in
      let new_header := Header_get_next_header (mem st) header in
      let m := SET_VALUE (mem st) new_header new_payload_size true false in
      let new_footer := Header_get_footer m new_header in
      let m := SET_VALUE m new_footer new_payload_size true false in
      Segregated_insert_header (set_mem st m) new_header
    else st in
  let st := Segregated_remove_header st header in
  let next_header := Header_get_next_header (mem st) header in
  let m := SET_FREE_BIT (mem st) header false in
  let m := SET_PREV_BLOCK_FREE_BIT m next_header false in
  let footer := Header_get_footer m header in
  let m := SET_FREE_BIT m footer false in
  (set_mem st m, Header_get_payload header).

Definition mirror_header_to_footer (m : memory) (header : Z) : memory :=
  let footer := Header_get_footer m header in
  let size := GET_SIZE m header in
  let is_free := GET_FREE_BIT m header in
  let is_prev_free := GET_PREV_BLOCK_FREE_BIT m header in
  SET_VALUE m footer size is_free is_prev_free.

(** ** Entry points *)

(** The [do ... while (!aligned(start))] probe of [mm_init]. *)
Fixpoint init_probe (fuel : nat) (st : state) : option (state * Z) :=
  match fuel with
  | O => None
  | S fuel' =>
      let (st, start) := mm_sbrk st 1 in
      if start =? SBRK_FAIL then Some (st, SBRK_FAIL)
      else if aligned start then Some (st, start)
      else init_probe fuel' st
  end.

Definition mm_init (fuel : nat) (st : state) : option (state * bool) :=
  match init_probe fuel st with
  | None => None
  | Some (st, start) =>
      if start =? SBRK_FAIL then Some (st, false)
      else
        let size := wrap (8 + Header_size + Footer_size + Header_size - 1) in
        let (st, r) := mm_sbrk st size in
        if r =? SBRK_FAIL then Some (st, false)
        else
          let hp := wrap (start + 8) in
          let st := mkState (mem st) hp (fun _ => NULL) (brk st) (mem_max st) in
          let header := hp in
          let m := SET_VALUE (mem st) header 0 false false in
          let footer := Header_get_footer m header in
          let m := SET_VALUE m footer 0 false false in
          let next_header := Header_get_next_header m header in
          let m := SET_VALUE m next_header 0 false false in
          Some (set_mem st m, true)
  end.

(** [mm_checkheap] is compiled without [DEBUG]: it returns [true] and
    touches nothing. *)
Definition mm_checkheap (st : state) (line_number : Z) : bool := true.

Fixpoint malloc (fuel : nat) (st : state) (size : Z) : option (state * Z) :=
  match fuel with
  | O => None
  | S fuel' =>
      if size =? 0 then Some (st, NULL)
      else
        match Segregated_find_free_block fuel' st size with
        | None => None
        | Some header =>
            if header =? NULL then
              let (st, extended) := extend_memory st size in
              if extended then malloc fuel' st size
              else Some (st, NULL)
            else Some (allocate st header size)
        end
  end.

Definition free (st : state) (ptr : Z) : state :=
  let payload := ptr in
  let header := Payload_get_header payload in
  let m := SET_FREE_BIT (mem st) header true in
  let m := mirror_header_to_footer m header in
  let next_header := Header_get_next_header m header in
  let m := SET_PREV_BLOCK_FREE_BIT m next_header true in
  let st := Segregated_insert_header (set_mem st m) header in
  coalesce st header.

Definition realloc (fuel : nat) (st : state) (oldptr : Z) (size : Z)
    : option (state * Z) :=
  if oldptr =? NULL then malloc fuel st size
  else if size =? 0 then Some (free st oldptr, NULL)
  else
    let payload := oldptr in
    let header := Payload_get_header payload in
    let payload_size := GET_SIZE (mem st) header in
    if size <=? wrap (payload_size + Footer_size) then Some (st, oldptr)
    else
      match malloc fuel st size with
      | None => None
      | Some (st, new_payload) =>
          if new_payload =? NULL then Some (st, NULL)
          else
            let m := memcpy (mem st) new_payload payload (wrap (payload_size + Footer_size)) in
            Some (free (set_mem st m) payload, new_payload)
      end.

Definition calloc (fuel : nat) (st : state) (nmemb : Z) (size : Z)
    : option (state * Z) :=
  let size := wrap (size * nmemb) in
  match malloc fuel st size with
  | None => None
  | Some (st, ptr) =>
      if ptr =? NULL then Some (st, ptr)
      else Some (set_mem st (memset (mem st) ptr 0 size), ptr)
  end.

(* ================================================================== *)
(** * The heap as a chain of blocks *)
(* ================================================================== *)

Definition b2z (b : bool) : Z := if b then 1 else 0.

(** A block of the heap as its header describes it: header address,
    payload size, free bit, previous-block-free bit.  The epilogue is the
    last block of the chain (size 0, allocated). *)
Record block := mkBlock { hd : Z; sz : Z; fr : bool; pfr : bool }.

(** [adj a bs a']: the blocks [bs] lie one after the other from address
    [a] to address [a']. *)
Fixpoint adj (a : Z) (bs : list block) (a' : Z) : Prop :=
  match bs with
  | [] => a = a'
  | b :: r => hd b = a /\ adj (a + 16 + sz b) r a'
  end.

(** [threaded pf bs]: the previous-block-free bit of each block is the
    free bit of the block before it ([pf] for the first one). *)
Fixpoint threaded (pf : bool) (bs : list block) : Prop :=
  match bs with
  | [] => True
  | b :: r => pfr b = pf /\ threaded (fr b) r
  end.

Definition nonneg (b : block) : Prop := 0 <= sz b.

(** Sizes are multiples of 16; only the epilogue, at [top - 8], has size 0,
    and it is allocated. *)
Definition block_ok (top : Z) (b : block) : Prop :=
  0 <= sz b /\ sz b mod 16 = 0 /\ (sz b = 0 -> fr b = false /\ hd b = top - 8).

(** What memory holds for a block: its header word, and for a free block
    the size in its footer. *)
Definition block_mem (m : memory) (b : block) : Prop :=
  load64 m (hd b) = tag (sz b) (fr b) (pfr b) /\
  (fr b = true -> GET_SIZE m (hd b + 8 + sz b) = sz b).

(** A doubly linked segment in memory: nodes [L] from [head], the first
    one with [prev] as its [prev] field, the [next] field of the last one
    being [nxt]. *)
Fixpoint dlseg (m : memory) (prev head : Z) (L : list Z) (nxt : Z) : Prop :=
  match L with
  | [] => head = nxt
  | p :: L' =>
      head = p /\ 8 < p /\ p + 16 <= 2 ^ 64 /\ load64 m p = prev /\
      dlseg m p (load64 m (p + 8)) L' nxt
  end.

(** The 15 free lists: [Ls i] are the nodes of list [i], in order; no
    node is in two lists or twice in one, and the 16 bytes of two nodes
    do not overlap. *)
Record lists_ok (m : memory) (fl : Z -> Z) (Ls : Z -> list Z) : Prop := {
  lo_dll : forall i, dlseg m 0 (fl i) (Ls i) 0;
  lo_nodup : forall i, NoDup (Ls i);
  lo_sep : forall i j x y, In x (Ls i) -> In y (Ls j) ->
           (x = y /\ i = j) \/ x + 16 <= y \/ y + 16 <= x
}.

Definition fblk (bs : list block) (h s : Z) : Prop :=
  exists b, In b bs /\ hd b = h /\ sz b = s /\ fr b = true.

Definition ablk (bs : list block) (h s : Z) : Prop :=
  exists b, In b bs /\ hd b = h /\ sz b = s /\ fr b = false /\ 16 <= s.

(** The structure the allocator keeps: the block chain [bs] between
    prologue and break, and the node lists [Ls] of the 15 free lists,
    whose nodes are payloads of free blocks of the right size class. *)
Record heap_inv (st : state) (bs : list block) (Ls : Z -> list Z) : Prop := {
  inv_lo : 8 <= heap st;
  inv_al : heap st mod 16 = 8;
  inv_top : brk st <= mem_max st;
  inv_max : mem_max st < 2 ^ 64;
  inv_pro : load64 (mem st) (heap st) = tag 0 false false;
  inv_adj : adj (heap st + 16) bs (brk st + 8);
  inv_epi : exists e, In e bs /\ hd e = brk st - 8;
  inv_ok : Forall (block_ok (brk st)) bs;
  inv_mem : Forall (block_mem (mem st)) bs;
  inv_lists : lists_ok (mem st) (freelists st) Ls;
  inv_sub : forall i p, In p (Ls i) ->
            exists s, fblk bs (p - 8) s /\ Segregated_get_bucket s = i
}.

(** Every free block is in the list of its size class. *)
Definition covered (bs : list block) (Ls : Z -> list Z) : Prop :=
  forall h s, fblk bs h s -> In (h + 8) (Ls (Segregated_get_bucket s)).

(** No free block has a free lower neighbour. *)
Definition coalesced (bs : list block) : Prop :=
  forall b, In b bs -> fr b = true -> pfr b = false.

(** The invariant between operations. [live] lists the payload pointers
    handed out and not yet freed. *)
Definition heap_ok (st : state) (live : list Z) : Prop :=
  exists bs Ls,
    heap_inv st bs Ls /\ threaded false bs /\ covered bs Ls /\ coalesced bs /\
    forall p, In p live -> exists s, ablk bs (p - 8) s.

(** The two phases of [allocate], named for the proofs: the body of its
    [if] (splitting off the tail of the block) and the statements after
    it (unlinking the block and marking it allocated). *)
Definition split_block (st : state) (header : Z) (size : Z) : state :=
  let st := Segregated_remove_header st header in
  let old_size := GET_SIZE (mem st) header in
  let new_size := size in
  let m := SET_VALUE (mem st) header new_size true false in
  let footer := Header_get_footer m header in
  let m := SET_VALUE m footer new_size true false in
  let st := Segregated_insert_header (set_mem st m) header in
  let free_space := wrap (old_size - new_size) in
  let new_payload_size := wrap (free_space - wrap (Header_size + Footer_size)) in
  let new_header := Header_get_next_header (mem st) header in
  let m := SET_VALUE (mem st) new_header new_payload_size true false in
  let new_footer := Header_get_footer m new_header in
  let m := SET_VALUE m new_footer new_payload_size true false in
  Segregated_insert_header (set_mem st m) new_header.

Definition mark_allocated (st : state) (header : Z) : state * Z :=
  let st := Segregated_remove_header st header in
  let next_header := Header_get_next_header (mem st) header in
  let m := SET_FREE_BIT (mem st) header false in
  let m := SET_PREV_BLOCK_FREE_BIT m next_header false in
  let footer := Header_get_footer m header in
  let m := SET_FREE_BIT m footer false in
  (set_mem st m, Header_get_payload header).

Definition set_fr (b : block) (f : bool) : block := mkBlock (hd b) (sz b) f (pfr b).
Definition set_pfr (b : block) (pf : bool) : block := mkBlock (hd b) (sz b) (fr b) pf.

Definition merged (p b : block) : block :=
  mkBlock (hd p) (sz p + 16 + sz b) true (pfr p).

Definition sep16 (L : list Z) : Prop :=
  forall x y, In x L -> In y L -> x = y \/ x + 16 <= y \/ y + 16 <= x.

Definition same_region (st st' : state) : Prop :=
  heap st' = heap st /\ brk st' = brk st /\ mem_max st' = mem_max st.

(** The chain after [allocate] has placed a request of payload [need]
    in the free block [b], whose upper neighbour is [n]. *)
Definition placed (l1 : list block) (b n : block) (l2 : list block) (need : Z)
    : list block :=
  if 32 <=? sz b - need
  then l1 ++ [mkBlock (hd b) need false false;
              mkBlock (hd b + 16 + need) (sz b - need - 16) true false] ++ n :: l2
  else l1 ++ [set_fr b false; set_pfr n false] ++ l2.

(** [live] without the pointer [p]. *)
Definition drop (p : Z) (live : list Z) : list Z :=
  filter (fun q => negb (q =? p)) live.

(** The live pointers after [realloc p n] has returned [q]. *)
Definition live_after_realloc (live : list Z) (p n q : Z) : list Z :=
  if p =? NULL then (if q =? NULL then live else q :: live)
  else if n =? 0 then drop p live
  else if (q =? NULL) || (q =? p) then live
  else q :: drop p live.

Definition updL (Ls : Z -> list Z) (i : Z) (L : list Z) : Z -> list Z :=
  fun j => if j =? i then L else Ls j.

(* ================================================================== *)
(** * Calls of a client *)
(* ================================================================== *)

(** The capacity of the block behind payload pointer [p], as [realloc]
    computes it: [GET_SIZE(header) + Footer_size()]. *)
Definition capacity (st : state) (p : Z) : Z :=
  GET_SIZE (mem st) (Payload_get_header p) + Footer_size.

(** [reach st live]: [st] is a state the allocator is in after
    [mm_init] and a sequence of completed calls that respect the caller
    contract, and [live] are the pointers handed out and not yet freed.
    The contract: [free] and [realloc] get live pointers ([realloc] also
    null); a request, with the two boundary words, is at most [2^64 - 8]
    bytes; the product of [calloc] does not overflow; the client writes
    only into the capacity of live blocks.  A heap extension on its own
    counts as an operation. *)
Inductive reach : state -> list Z -> Prop :=
| reach_init fuel st0 st :
    0 <= brk st0 -> mem_max st0 < 2 ^ 64 ->
    mm_init fuel st0 = Some (st, true) ->
    reach st []
| reach_malloc fuel st live n st' p :
    reach st live -> 0 <= n <= 2 ^ 64 - 24 ->
    malloc fuel st n = Some (st', p) ->
    reach st' (if p =? NULL then live else p :: live)
| reach_free st live p :
    reach st live -> In p live ->
    reach (free st p) (drop p live)
| reach_realloc fuel st live p n st' q :
    reach st live -> p = NULL \/ In p live -> 0 <= n <= 2 ^ 64 - 24 ->
    realloc fuel st p n = Some (st', q) ->
    reach st' (live_after_realloc live p n q)
| reach_calloc fuel st live k n st' p :
    reach st live -> 0 <= k -> 0 <= n -> n * k <= 2 ^ 64 - 24 ->
    calloc fuel st k n = Some (st', p) ->
    reach st' (if p =? NULL then live else p :: live)
| reach_extend st live n :
    reach st live -> 0 <= n <= 2 ^ 64 - 24 ->
    reach (fst (extend_memory st n)) live
| reach_write st live p m' :
    reach st live -> In p live ->
    (forall x, x < p \/ p + capacity st p <= x -> m' x = mem st x) ->
    reach (set_mem st m') live.

(** The traversal of the implicit list in [mm_checkheap] (the [DEBUG]
    build), with the check it makes for blocks that escaped coalescing:
    starting from the prologue header, every block up to the epilogue is
    visited, and the answer is [false] as soon as a block and the block
    before it are both marked free. *)
Fixpoint checkheap_coalesced (fuel : nat) (m : memory) (prev_header : Z) : option bool :=
  match fuel with
  | O => None
  | S fuel' =>
      let header := Header_get_next_header m prev_header in
      if GET_FREE_BIT m header && GET_FREE_BIT m prev_header then Some false
      else if GET_SIZE m header =? 0 then Some true
      else checkheap_coalesced fuel' m header
  end.

(* ================================================================== *)
(** * The invariant checker *)
(* ================================================================== *)

(** Modelled from the spec: [mm_heap_lo] and [mm_heap_hi] of the memory
    library are the "inclusive bounds of the managed region" (section
    6.1).  The upper bound is the last byte below the break; the lower
    bound [lo] is where the region starts, which the allocator does not
    record: it is a parameter of the checker. *)
Definition mm_heap_hi (st : state) : Z := brk st - 1.

Definition in_heap (lo : Z) (st : state) (p : Z) : bool :=
  (p <=? mm_heap_hi st) && (lo <=? p).

(** The [while (node)] loop of [Segregated_bucket_header_exists]. *)
Fixpoint bucket_header_exists_loop (fuel : nat) (m : memory) (node target_header : Z)
    : option bool :=
  match fuel with
  | O => None
  | S fuel' =>
      if node =? NULL then Some false
      else
        let payload := node in
        let header := Payload_get_header payload in
        if header =? target_header then Some true
        else bucket_header_exists_loop fuel' m (DList_next m node) target_header
  end.

Definition Segregated_bucket_header_exists (fuel : nat) (st : state)
    (bucket : Z) (target_header : Z) : option bool :=
  bucket_header_exists_loop fuel (mem st) (freelists st bucket) target_header.

(** The [for] loop of [Segregated_header_exists], with [n] buckets to go
    from [bucket]. *)
Fixpoint header_exists_loop (n : nat) (fuel : nat) (st : state) (bucket : Z)
    (header : Z) : option bool :=
  match n with
  | O => Some false
  | S n' =>
      match Segregated_bucket_header_exists fuel st bucket header with
      | None => None
      | Some true => Some true
      | Some false => header_exists_loop n' fuel st (bucket + 1) header
      end
  end.

Definition Segregated_header_exists (fuel : nat) (st : state) (header : Z)
    : option bool :=
  header_exists_loop 15 fuel st 0 header.

(** How a loop of [mm_checkheap] ends: [Bad] where the code returns
    [false], [Counted n] where the loop is left with its counter at
    [n]. *)
Inductive checked : Type :=
| Bad
| Counted (n : Z).

(** The body of [mm_checkheap] in the [DEBUG] build.  The traversal of
    the implicit list: [fuel] bounds the blocks visited, [lfuel] the
    nodes visited in one list.  ([block_number] is only printed and is
    left out.) *)
Fixpoint checkheap_implicit (fuel lfuel : nat) (st : state) (prev_header : Z)
    (num_free_blocks_implicit_list : Z) : option checked :=
  match fuel with
  | O => None
  | S fuel' =>
      let m := mem st in
      let header := Header_get_next_header m prev_header in
      let prev_block_free_bit := GET_PREV_BLOCK_FREE_BIT m header in
      if (if GET_FREE_BIT m prev_header then negb prev_block_free_bit
          else prev_block_free_bit)
      then Some Bad
      else if GET_FREE_BIT m header then
        let num_free_blocks_implicit_list := wrap (num_free_blocks_implicit_list + 1) in
        match Segregated_header_exists lfuel st header with
        | None => None
        | Some false => Some Bad
        | Some true =>
            if GET_FREE_BIT m prev_header then Some Bad
            else
              let footer := Header_get_footer m header in
              if negb (load64 m header =? load64 m footer) then Some Bad
              else if GET_SIZE m header =? 0
              then Some (Counted num_free_blocks_implicit_list)
              else checkheap_implicit fuel' lfuel st header num_free_blocks_implicit_list
        end
      else
        match Segregated_header_exists lfuel st header with
        | None => None
        | Some true => Some Bad
        | Some false =>
            if GET_SIZE m header =? 0
            then Some (Counted num_free_blocks_implicit_list)
            else checkheap_implicit fuel' lfuel st header num_free_blocks_implicit_list
        end
  end.

(** The [while (head)] loop over the nodes of list [i]. *)
Fixpoint checkheap_list (fuel : nat) (lo : Z) (st : state) (i : Z) (head prev : Z)
    (num_free_blocks_explicit_list : Z) : option checked :=
  match fuel with
  | O => None
  | S fuel' =>
      let m := mem st in
      if head =? NULL then Some (Counted num_free_blocks_explicit_list)
      else if negb (in_heap lo st head) then Some Bad
      else if negb (DList_prev m head =? prev) then Some Bad
      else
        let payload := head in
        let header := Payload_get_header payload in
        if negb (GET_FREE_BIT m header) then Some Bad
        else if negb (i =? 14) &&
                negb (GET_SIZE m header =? nth (Z.to_nat i) Segregated_get_size_classes 0)
        then Some Bad
        else checkheap_list fuel' lo st i (DList_next m head) head
               (wrap (num_free_blocks_explicit_list + 1))
  end.

(** The [for] loop over the 15 lists, with [n] lists to go from [i]. *)
Fixpoint checkheap_explicit (n : nat) (fuel : nat) (lo : Z) (st : state) (i : Z)
    (num_free_blocks_explicit_list : Z) : option checked :=
  match n with
  | O => Some (Counted num_free_blocks_explicit_list)
  | S n' =>
      match checkheap_list fuel lo st i (freelists st i) NULL
              num_free_blocks_explicit_list with
      | None => None
      | Some Bad => Some Bad
      | Some (Counted num) => checkheap_explicit n' fuel lo st (i + 1) num
      end
  end.

Definition mm_checkheap_DEBUG (fuel : nat) (lo : Z) (st : state) (line_number : Z)
    : option bool :=
  let m := mem st in
  if negb (in_heap lo st (heap st)) then Some false
  else
    let prologue_header := heap st in
    if negb (GET_SIZE m prologue_header =? 0) then Some false
    else if GET_FREE_BIT m prologue_header then Some false
    else
      match checkheap_implicit fuel fuel st prologue_header 0 with
      | None => None
      | Some Bad => Some false
      | Some (Counted num_free_blocks_implicit_list) =>
          match checkheap_explicit 15 fuel lo st 0 0 with
          | None => None
          | Some Bad => Some false
          | Some (Counted num_free_blocks_explicit_list) =>
              if negb (num_free_blocks_implicit_list =? num_free_blocks_explicit_list)
              then Some false
              else Some true
          end
      end.

(* ================================================================== *)
(** * What a call leaves in place *)
(* ================================================================== *)

(** The footer of a free block whose lower neighbour is allocated holds
    the word of its header. *)
Definition mirrored (m : memory) (bs : list block) : Prop :=
  forall b, In b bs -> fr b = true -> pfr b = false ->
    load64 m (hd b + 8 + sz b) = load64 m (hd b).

(** [kept X m m' bs bs']: from the chain [bs] in memory [m] to the chain
    [bs'] in memory [m'], every allocated block whose header is not in
    [X] is still there, with every byte of its payload and of the footer
    lent to it unchanged, and the footers still mirror the headers. *)
Definition kept (X : Z -> Prop) (m m' : memory) (bs bs' : list block) : Prop :=
  (forall h s, ablk bs h s -> ~ X h ->
     ablk bs' h s /\ forall x, h + 8 <= x < h + 16 + s -> m' x = m x) /\
  (mirrored m bs -> mirrored m' bs').

Definition none : Z -> Prop := fun _ => False.

(** The invariant between operations, with the footers. *)
Definition heap_full (st : state) (live : list Z) : Prop :=
  exists bs Ls,
    heap_inv st bs Ls /\ threaded false bs /\ covered bs Ls /\ coalesced bs /\
    mirrored (mem st) bs /\
    forall p, In p live -> exists s, ablk bs (p - 8) s.

(** The block behind the pointer [q] is in [st'] what it is in [st]:
    same capacity, same bytes. *)
Definition same_block (st st' : state) (q : Z) : Prop :=
  capacity st' q = capacity st q /\
  forall x, q <= x < q + capacity st q -> mem st' x = mem st x.

(** How the region of the memory library changes in a call: the heap
    base and the limit stay, the break does not go down and does not pass
    the limit. *)
Definition grown (st st' : state) : Prop :=
  heap st' = heap st /\ mem_max st' = mem_max st /\ brk st <= brk st' /\
  (brk st' = brk st \/ brk st' <= mem_max st).

(* ================================================================== *)
(** * The specification's formulas *)
(* ================================================================== *)

(** Modelled from the spec: section 4.4, request sizing:
    [need = max(align_up(n - 8, 16), 16)], the subtraction saturating
    to 0. *)
Definition align_up (x a : Z) : Z := a * ((x + a - 1) / a).

Definition need_spec (n : Z) : Z := Z.max (align_up (Z.max (n - 8) 0) 16) 16.


(** The indices [i, i+1, ...], [k] of them. *)
Fixpoint indices (i : Z) (k : nat) : list Z :=
  match k with
  | O => []
  | S k' => i :: indices (i + 1) k'
  end.


(* ================================================================== *)
(** * Example heaps *)
(* ================================================================== *)

Definition state_of {A} (d : state) (o : option (state * A)) : state :=
  match o with
  | Some (st, _) => st
  | None => d
  end.

(** Untouched memory with the break at 1003 and [limit] as the end of
    the region the memory library can hand out. *)
Definition raw (limit : Z) : state := mkState (fun _ => 0) 0 (fun _ => 0) 1003 limit.

(** The heap after [mm_init]. *)
Definition fresh (limit : Z) : state := state_of (raw limit) (mm_init 20 (raw limit)).

(** [p = malloc(300); free(p)]: one free block of payload 304, in list 14. *)
Definition big_alloc (limit : Z) : state := state_of (fresh limit) (malloc 10 (fresh limit) 300).
Definition big_free (limit : Z) : state := free (big_alloc limit) 1040.

(** [p = malloc(56); free(p)]: one free block of payload 48. *)
Definition mid_alloc : state := state_of (fresh 100000) (malloc 10 (fresh 100000) 56).
Definition mid_free : state := free mid_alloc 1040.

(** A run with a request of [2^64 - 1] bytes: [a = malloc(16)],
    [b = malloc(16)], [free(a)], [free(b)], [p = malloc(56)],
    [q = realloc(p, 2^64 - 1)], [r = malloc(100)], [free(r)]. *)
Definition result_of (d : state) (o : option (state * Z)) : state * Z :=
  match o with
  | Some r => r
  | None => (d, NULL)
  end.

Definition run_a : state * Z := result_of (fresh 100000) (malloc 10 (fresh 100000) 16).
Definition run_b : state * Z := result_of (fst run_a) (malloc 10 (fst run_a) 16).
Definition run_freed : state := free (free (fst run_b) (snd run_a)) (snd run_b).
Definition run_p : state * Z := result_of run_freed (malloc 10 run_freed 56).
Definition run_q : state * Z :=
  result_of (fst run_p) (realloc 10 (fst run_p) (snd run_p) (2 ^ 64 - 1)).
Definition run_r : state * Z := result_of (fst run_q) (malloc 10 (fst run_q) 100).
Definition run_end : state := free (fst run_r) (snd run_r).

(** A run that ends with a pointer that is not a multiple of 16:
    [p = malloc(1000)], the client stores 56 at [p + 16] and 2 at
    [p + 24], [q = realloc(p, 2^64 - 1)], [r = malloc(2000)]. *)
Definition odd_p : state * Z := result_of (fresh 100000) (malloc 10 (fresh 100000) 1000).
Definition odd_written : state :=
  set_mem (fst odd_p)
    (store64 (store64 (mem (fst odd_p)) (snd odd_p + 16) 56) (snd odd_p + 24) 2).
Definition odd_q : state * Z :=
  result_of odd_written (realloc 10 odd_written (snd odd_p) (2 ^ 64 - 1)).
Definition odd_r : state * Z := result_of (fst odd_q) (malloc 10 (fst odd_q) 2000).

(** Two free blocks of payload 16 side by side, both in list 0, as
    [free] leaves them before it coalesces: prologue at 1016, blocks at
    1032 and 1064, epilogue at 1096. *)
Definition pair_mem : memory :=
  let m := fun _ => 0 in
  let m := store64 m 1032 (tag 16 true false) in
  let m := store64 m 1056 (tag 16 true false) in
  let m := store64 m 1064 (tag 16 true true) in
  let m := store64 m 1088 (tag 16 true true) in
  let m := store64 m 1096 (tag 0 false true) in
  let m := store64 m 1072 0 in
  let m := store64 m 1080 1040 in
  let m := store64 m 1040 1072 in
  store64 m 1048 0.

Definition pair_state : state :=
  mkState pair_mem 1016 (upd (fun _ => 0) 0 1072) 1104 100000.

Definition pair_blocks : list block :=
  [mkBlock 1032 16 true false; mkBlock 1064 16 true true; mkBlock 1096 0 false true].

Definition pair_lists : Z -> list Z := updL (fun _ => []) 0 [1072; 1040].

(* ================================================================== *)
(** * Proof tools *)
(* ================================================================== *)

(** Splits conjunctions only (records such as [heap_inv] stay whole). *)
Ltac split_and := repeat match goal with |- _ /\ _ => split end.


(* ================================================================== *)
(** * Words, memory and tags: basic facts *)
(* ================================================================== *)

Lemma wrap_small x : 0 <= x < 2 ^ 64 -> wrap x = x.
Proof. intros; unfold wrap; apply Z.mod_small; lia. Qed.

Lemma wrap_range x : 0 <= wrap x < 2 ^ 64.
Proof. unfold wrap; apply Z.mod_pos_bound; lia. Qed.

Lemma load_n_ext m1 m2 n : forall a,
  (forall x, a <= x < a + Z.of_nat n -> m1 x = m2 x) ->
  load_n m1 a n = load_n m2 a n.
Proof.
  induction n as [|n IH]; intros a H; [reflexivity|].
  cbn [load_n]. rewrite (H a) by lia. rewrite (IH (a + 1)); [reflexivity|].
  intros x Hx; apply H; lia.
Qed.

Lemma load_n_range m n : forall a, 0 <= load_n m a n < 256 ^ Z.of_nat n.
Proof.
  induction n as [|n IH]; intros a.
  - cbn; lia.
  - cbn [load_n]. rewrite Nat2Z.inj_succ, Z.pow_succ_r by lia.
    specialize (IH (a + 1)). pose proof (Z.mod_pos_bound (m a) 256). lia.
Qed.

Lemma load_n_store_n m a n v k : forall j,
  0 <= j -> j + Z.of_nat k <= n ->
  load_n (store_n m a n v) (a + j) k = (v / 256 ^ j) mod 256 ^ Z.of_nat k.
Proof.
  induction k as [|k IH]; intros j Hj Hk.
  - cbn. now rewrite Z.mod_1_r.
  - cbn [load_n]. replace (a + j + 1) with (a + (j + 1)) by lia.
    rewrite IH by lia.
    unfold store_n at 1.
    replace ((a <=? a + j) && (a + j <? a + n)) with true
      by (symmetry; apply andb_true_iff; split; [apply Z.leb_le|apply Z.ltb_lt]; lia).
    replace (a + j - a) with j by lia.
    rewrite Z.mod_mod by lia.
    rewrite Nat2Z.inj_succ, Z.pow_succ_r by lia.
    rewrite Z.rem_mul_r by lia.
    rewrite Z.pow_add_r, Z.pow_1_r by lia.
    rewrite Z.div_div by lia. reflexivity.
Qed.

Lemma load64_range m a : 0 <= load64 m a < 2 ^ 64.
Proof. exact (load_n_range m 8 a). Qed.

Lemma load64_ext m1 m2 a :
  (forall x, a <= x < a + 8 -> m1 x = m2 x) -> load64 m1 a = load64 m2 a.
Proof. intros H; apply load_n_ext; exact H. Qed.

Lemma load64_store64_same m a v : load64 (store64 m a v) a = wrap v.
Proof.
  unfold load64, store64. replace a with (a + 0) at 2 by lia.
  rewrite load_n_store_n by (cbn; lia).
  rewrite Z.pow_0_r, Z.div_1_r. reflexivity.
Qed.

Lemma load64_store64_eq m a v : 0 <= v < 2 ^ 64 -> load64 (store64 m a v) a = v.
Proof. intros; rewrite load64_store64_same; apply wrap_small; assumption. Qed.

Lemma load64_store64_other m a v b :
  a + 8 <= b \/ b + 8 <= a -> load64 (store64 m a v) b = load64 m b.
Proof.
  intros H; apply load64_ext; intros x Hx. unfold store64, store_n.
  destruct (Z.leb_spec a x), (Z.ltb_spec x (a + 8)); cbn; try reflexivity; lia.
Qed.

Lemma load64_memset_other m p c n b :
  b + 8 <= p \/ p + n <= b -> load64 (memset m p c n) b = load64 m b.
Proof.
  intros H; apply load64_ext; intros x Hx. unfold memset.
  destruct (Z.leb_spec p x), (Z.ltb_spec x (p + n)); cbn; try reflexivity; lia.
Qed.

(** ** Bit operations on tags *)

Lemma land_mask x : 0 <= x < 2 ^ 64 -> Z.land x (wrap (Z.lnot 3)) = 4 * (x / 4).
Proof.
  intros Hx.
  replace (wrap (Z.lnot 3)) with (Z.ldiff (Z.ones 64) (Z.ones 2)) by reflexivity.
  rewrite !Z.ldiff_land, Z.land_assoc, Z.land_ones by lia.
  rewrite Z.mod_small by lia.
  rewrite <- Z.ldiff_land, Z.ldiff_ones_r by lia.
  rewrite Z.shiftr_div_pow2, Z.shiftl_mul_pow2 by lia.
  change (2 ^ 2) with 4. lia.
Qed.

Lemma land_3 x : Z.land x 3 = x mod 4.
Proof. change 3 with (Z.ones 2). rewrite Z.land_ones by lia. reflexivity. Qed.

Lemma land_2 x : Z.land x 2 = Z.land (x mod 4) 2.
Proof.
  change 2 with (Z.land 3 2) at 1. rewrite Z.land_assoc, land_3. reflexivity.
Qed.

Lemma land_1 x : Z.land x 1 = Z.land (x mod 4) 1.
Proof.
  change 1 with (Z.land 3 1) at 1. rewrite Z.land_assoc, land_3. reflexivity.
Qed.

Lemma tag_sum s f pf : 0 <= s -> s mod 4 = 0 ->
  tag s f pf = s + 2 * b2z pf + b2z f.
Proof.
  intros Hs Hm. unfold tag.
  assert (Hfl : Z.lor (if pf then 2 else 0) (if f then 1 else 0) = 2 * b2z pf + b2z f)
    by (destruct pf, f; reflexivity).
  rewrite Hfl.
  set (fl := 2 * b2z pf + b2z f).
  assert (Hfl3 : Z.land fl 3 = fl) by (subst fl; destruct pf, f; reflexivity).
  assert (Hd : Z.land s fl = 0).
  { rewrite <- Hfl3, (Z.land_comm fl 3), Z.land_assoc, land_3, Hm. apply Z.land_0_l. }
  rewrite <- Z.lxor_lor by exact Hd.
  replace (s + 2 * b2z pf + b2z f) with (s + fl) by (subst fl; lia).
  symmetry. apply Z.add_nocarry_lxor. exact Hd.
Qed.

Lemma mod16_mod4 s : s mod 16 = 0 -> s mod 4 = 0.
Proof.
  intros H. pose proof (Z.div_mod s 16 ltac:(lia)) as E. rewrite H in E.
  replace s with ((4 * (s / 16)) * 4) by lia. apply Z.mod_mul. lia.
Qed.

Lemma tag_mod4 s f pf : 0 <= s -> s mod 4 = 0 ->
  tag s f pf mod 4 = 2 * b2z pf + b2z f.
Proof.
  intros Hs Hm. rewrite tag_sum by assumption.
  rewrite <- Z.add_assoc, Z.add_mod, Hm by lia. cbn [Z.add].
  rewrite Z.mod_mod by lia. destruct pf, f; reflexivity.
Qed.

Lemma tag_range s f pf : 0 <= s < 2 ^ 64 -> s mod 4 = 0 -> 0 <= tag s f pf < 2 ^ 64.
Proof.
  intros Hs Hm. rewrite tag_sum by lia.
  assert (s <= 2 ^ 64 - 4).
  { pose proof (Z.div_mod s 4 ltac:(lia)) as E. rewrite Hm in E.
    assert (s / 4 < 2 ^ 62) by (apply Z.div_lt_upper_bound; lia). lia. }
  destruct pf, f; cbn; lia.
Qed.

Lemma tag_size s f pf : 0 <= s < 2 ^ 64 -> s mod 4 = 0 ->
  Z.land (tag s f pf) (wrap (Z.lnot 3)) = s.
Proof.
  intros Hs Hm. rewrite land_mask by (apply tag_range; assumption).
  rewrite tag_sum by lia.
  pose proof (Z.div_mod s 4 ltac:(lia)) as E. rewrite Hm in E.
  replace (s + 2 * b2z pf + b2z f) with ((2 * b2z pf + b2z f) + (s / 4) * 4) by lia.
  rewrite Z.div_add by lia.
  rewrite (Z.div_small (2 * b2z pf + b2z f)) by (destruct pf, f; cbn; lia). lia.
Qed.

Lemma tag_free s f pf : 0 <= s -> s mod 4 = 0 ->
  negb (Z.land (tag s f pf) 1 =? 0) = f.
Proof.
  intros Hs Hm. rewrite land_1, tag_mod4 by assumption. destruct pf, f; reflexivity.
Qed.

Lemma tag_prev_free s f pf : 0 <= s -> s mod 4 = 0 ->
  negb (Z.land (tag s f pf) (Z.shiftl 1 1) =? 0) = pf.
Proof.
  intros Hs Hm. change (Z.shiftl 1 1) with 2.
  rewrite land_2, tag_mod4 by assumption. destruct pf, f; reflexivity.
Qed.

(** ** The codec on a word known to be a tag *)

Section Codec.
Variables (m : memory) (a s : Z) (f pf : bool).
Hypothesis Hs : 0 <= s < 2 ^ 64.
Hypothesis Hm : s mod 16 = 0.
Hypothesis Hw : load64 m a = tag s f pf.

Lemma GET_SIZE_tag : GET_SIZE m a = s.
Proof. unfold GET_SIZE. rewrite Hw. apply tag_size; auto using mod16_mod4. Qed.

Lemma GET_FREE_BIT_tag : GET_FREE_BIT m a = f.
Proof. unfold GET_FREE_BIT. rewrite Hw. apply tag_free; auto using mod16_mod4; lia. Qed.

Lemma GET_PREV_BLOCK_FREE_BIT_tag : GET_PREV_BLOCK_FREE_BIT m a = pf.
Proof.
  unfold GET_PREV_BLOCK_FREE_BIT. rewrite Hw.
  apply tag_prev_free; auto using mod16_mod4; lia.
Qed.

Lemma SET_FREE_BIT_tag f' : SET_FREE_BIT m a f' = store64 m a (tag s f' pf).
Proof.
  unfold SET_FREE_BIT, SET_VALUE.
  rewrite GET_SIZE_tag, GET_PREV_BLOCK_FREE_BIT_tag. reflexivity.
Qed.

Lemma SET_PREV_BLOCK_FREE_BIT_tag pf' :
  SET_PREV_BLOCK_FREE_BIT m a pf' = store64 m a (tag s f pf').
Proof.
  unfold SET_PREV_BLOCK_FREE_BIT, SET_VALUE.
  rewrite GET_SIZE_tag, GET_FREE_BIT_tag. reflexivity.
Qed.
End Codec.

Lemma GET_SIZE_same m m' a : load64 m' a = load64 m a -> GET_SIZE m' a = GET_SIZE m a.
Proof. unfold GET_SIZE; intros ->; reflexivity. Qed.

Lemma load64_SET_VALUE_same m a s f pf :
  0 <= s < 2 ^ 64 -> s mod 16 = 0 ->
  load64 (SET_VALUE m a s f pf) a = tag s f pf.
Proof.
  intros Hs Hm. unfold SET_VALUE. apply load64_store64_eq.
  apply tag_range; auto using mod16_mod4.
Qed.

Lemma load64_SET_VALUE_other m a s f pf b :
  a + 8 <= b \/ b + 8 <= a -> load64 (SET_VALUE m a s f pf) b = load64 m b.
Proof. apply load64_store64_other. Qed.

(** ** Size classes *)

Lemma Segregated_get_bucket_range s : 0 <= Segregated_get_bucket s <= 14.
Proof.
  unfold Segregated_get_bucket, Segregated_get_size_classes. cbn [get_bucket_loop].
  repeat match goal with |- context [?x =? s] => destruct (Z.eqb_spec x s) end; cbn; lia.
Qed.

(** The table lookup of [Segregated_get_bucket] is [p/16 - 1] on the
    classes 16..224 and 14 elsewhere. *)
Lemma Segregated_get_bucket_spec s :
  s mod 16 = 0 ->
  Segregated_get_bucket s = if (16 <=? s) && (s <=? 224) then s / 16 - 1 else 14.
Proof.
  intros Hm. pose proof (Z.div_mod s 16 ltac:(lia)) as E. rewrite Hm in E.
  destruct (Z.leb_spec 16 s), (Z.leb_spec s 224); cbn [andb].
  - assert (H1 : 1 <= s / 16 <= 14) by lia.
    assert (Hc : s / 16 = 1 \/ s / 16 = 2 \/ s / 16 = 3 \/ s / 16 = 4 \/ s / 16 = 5 \/
                 s / 16 = 6 \/ s / 16 = 7 \/ s / 16 = 8 \/ s / 16 = 9 \/ s / 16 = 10 \/
                 s / 16 = 11 \/ s / 16 = 12 \/ s / 16 = 13 \/ s / 16 = 14) by lia.
    assert (Es : s = 16 * (s / 16)) by lia.
    repeat (destruct Hc as [Hc|Hc]; [rewrite Es, Hc; reflexivity|]). rewrite Es, Hc; reflexivity.
  - unfold Segregated_get_bucket, Segregated_get_size_classes. cbn [get_bucket_loop].
    repeat (match goal with |- context [?x =? s] => destruct (Z.eqb_spec x s) end;
            try lia).
  - unfold Segregated_get_bucket, Segregated_get_size_classes. cbn [get_bucket_loop].
    repeat (match goal with |- context [?x =? s] => destruct (Z.eqb_spec x s) end;
            try lia).
  - lia.
Qed.


(* ================================================================== *)
(** * The block chain *)
(* ================================================================== *)

Lemma adj_app l1 : forall a l2 a',
  adj a (l1 ++ l2) a' <-> exists am, adj a l1 am /\ adj am l2 a'.
Proof.
  induction l1 as [|b l1 IH]; intros a l2 a'; cbn [app adj].
  - split.
    + intros H. exists a. auto.
    + intros (am & -> & H). exact H.
  - rewrite IH. split.
    + intros (Hh & am & H1 & H2). exists am. auto.
    + intros (am & (Hh & H1) & H2). split; auto. exists am. auto.
Qed.

Lemma threaded_app l1 : forall pf l2,
  threaded pf (l1 ++ l2) <->
  threaded pf l1 /\ threaded (fold_left (fun _ b => fr b) l1 pf) l2.
Proof.
  induction l1 as [|b l1 IH]; intros pf l2; cbn [app threaded fold_left].
  - tauto.
  - rewrite IH. tauto.
Qed.

Lemma block_ok_nonneg top bs : Forall (block_ok top) bs -> Forall nonneg bs.
Proof. apply Forall_impl. intros b (H & _). exact H. Qed.

Lemma adj_bounds bs : forall a a',
  adj a bs a' -> Forall nonneg bs ->
  a <= a' /\ forall b, In b bs -> a <= hd b /\ hd b + 16 + sz b <= a'.
Proof.
  induction bs as [|x bs IH]; intros a a' H Hn; cbn [adj] in H.
  - subst. split; [lia|]. intros b [].
  - destruct H as (Hh & H). inversion Hn as [|? ? Hx Hn']; subst.
    destruct (IH _ _ H Hn') as [Hle Hin]. unfold nonneg in Hx.
    split; [lia|]. intros b [<-|Hb].
    + lia.
    + specialize (Hin b Hb). lia.
Qed.

Lemma adj_sep bs : forall a a',
  adj a bs a' -> Forall nonneg bs ->
  forall b1 b2, In b1 bs -> In b2 bs ->
  b1 = b2 \/ hd b1 + 16 + sz b1 <= hd b2 \/ hd b2 + 16 + sz b2 <= hd b1.
Proof.
  induction bs as [|x bs IH]; intros a a' H Hn b1 b2 H1 H2; [destruct H1|].
  cbn [adj] in H. destruct H as (Hh & H). inversion Hn as [|? ? Hx Hn']; subst.
  destruct (adj_bounds _ _ _ H Hn') as [_ Hb].
  destruct H1 as [<-|H1], H2 as [<-|H2].
  - left; reflexivity.
  - right; left. specialize (Hb _ H2). lia.
  - right; right. specialize (Hb _ H1). lia.
  - eapply IH; eauto.
Qed.

Lemma adj_hd_inj bs a a' b1 b2 :
  adj a bs a' -> Forall nonneg bs ->
  In b1 bs -> In b2 bs -> hd b1 = hd b2 -> b1 = b2.
Proof.
  intros H Hn H1 H2 E.
  destruct (adj_sep _ _ _ H Hn b1 b2 H1 H2) as [?|[?|?]]; [assumption| |].
  - rewrite Forall_forall in Hn. specialize (Hn _ H1). unfold nonneg in Hn. lia.
  - rewrite Forall_forall in Hn. specialize (Hn _ H2). unfold nonneg in Hn. lia.
Qed.

Lemma mod16_step a s : a mod 16 = 8 -> s mod 16 = 0 -> (a + 16 + s) mod 16 = 8.
Proof.
  intros Ha Hs.
  pose proof (Z.div_mod a 16 ltac:(lia)) as E1.
  pose proof (Z.div_mod s 16 ltac:(lia)) as E2.
  rewrite Ha in E1. rewrite Hs in E2.
  replace (a + 16 + s) with (8 + (a / 16 + 1 + s / 16) * 16) by lia.
  rewrite Z.mod_add by lia. reflexivity.
Qed.

Lemma adj_align bs : forall a a',
  adj a bs a' -> a mod 16 = 8 ->
  Forall (fun b => sz b mod 16 = 0) bs ->
  a' mod 16 = 8 /\ forall b, In b bs -> hd b mod 16 = 8.
Proof.
  induction bs as [|x bs IH]; intros a a' H Ha Hm; cbn [adj] in H.
  - subst. split; [assumption|]. intros b [].
  - destruct H as (Hh & H). inversion Hm as [|? ? Hx Hm']; subst.
    destruct (IH _ _ H (mod16_step _ _ Ha Hx) Hm') as [He Hin].
    split; [assumption|]. intros b [<-|Hb]; auto.
Qed.

(** Cutting the chain at a block. *)
Lemma adj_split bs a a' b :
  adj a bs a' -> In b bs ->
  exists l1 l2, bs = l1 ++ b :: l2 /\
    adj a l1 (hd b) /\ adj (hd b + 16 + sz b) l2 a'.
Proof.
  intros H Hb. destruct (in_split _ _ Hb) as (l1 & l2 & ->).
  exists l1, l2. split; [reflexivity|].
  apply adj_app in H. destruct H as (am & H1 & H2). cbn [adj] in H2.
  destruct H2 as (<- & H2). auto.
Qed.

(** ** Facts about a block of a well-formed heap *)

Section BlockFacts.
Variables (st : state) (bs : list block) (Ls : Z -> list Z).
Hypothesis HI : heap_inv st bs Ls.

Lemma inv_nonneg : Forall nonneg bs.
Proof. eapply block_ok_nonneg, inv_ok, HI. Qed.

Lemma blk_ok b : In b bs -> block_ok (brk st) b.
Proof. intros Hb. pose proof (inv_ok _ _ _ HI) as H. rewrite Forall_forall in H. auto. Qed.

Lemma blk_mem b : In b bs -> block_mem (mem st) b.
Proof. intros Hb. pose proof (inv_mem _ _ _ HI) as H. rewrite Forall_forall in H. auto. Qed.

Lemma blk_bounds b : In b bs ->
  heap st + 16 <= hd b /\ hd b + 16 + sz b <= brk st + 8.
Proof.
  intros Hb. destruct (adj_bounds _ _ _ (inv_adj _ _ _ HI) inv_nonneg) as [_ H].
  auto.
Qed.

Lemma blk_align b : In b bs -> hd b mod 16 = 8.
Proof.
  intros Hb.
  assert (Ha : (heap st + 16) mod 16 = 8).
  { replace (heap st + 16) with (heap st + 16 + 0) by lia.
    apply mod16_step; [apply (inv_al _ _ _ HI)|reflexivity]. }
  assert (Hm : Forall (fun b => sz b mod 16 = 0) bs).
  { eapply Forall_impl; [|apply (inv_ok _ _ _ HI)]. intros x (_ & H & _). exact H. }
  destruct (adj_align _ _ _ (inv_adj _ _ _ HI) Ha Hm) as [_ H]. auto.
Qed.

Lemma blk_sep b1 b2 : In b1 bs -> In b2 bs ->
  b1 = b2 \/ hd b1 + 16 + sz b1 <= hd b2 \/ hd b2 + 16 + sz b2 <= hd b1.
Proof. apply (adj_sep _ _ _ (inv_adj _ _ _ HI) inv_nonneg). Qed.

Lemma blk_hd_inj b1 b2 : In b1 bs -> In b2 bs -> hd b1 = hd b2 -> b1 = b2.
Proof. apply (adj_hd_inj _ _ _ _ _ (inv_adj _ _ _ HI) inv_nonneg). Qed.

(** Size bounds in the form the codec lemmas want. *)
Lemma blk_size b : In b bs -> 0 <= sz b < 2 ^ 64 /\ sz b mod 16 = 0.
Proof.
  intros Hb. destruct (blk_ok b Hb) as (H0 & Hm & _).
  pose proof (blk_bounds b Hb). pose proof (inv_top _ _ _ HI).
  pose proof (inv_max _ _ _ HI). pose proof (inv_lo _ _ _ HI). split; [lia|assumption].
Qed.

Lemma blk_real b : In b bs -> sz b <> 0 -> 16 <= sz b.
Proof.
  intros Hb Hne. destruct (blk_ok b Hb) as (H0 & Hm & _).
  pose proof (Z.div_mod (sz b) 16 ltac:(lia)) as E. rewrite Hm in E. lia.
Qed.

Lemma blk_free_real b : In b bs -> fr b = true -> 16 <= sz b.
Proof.
  intros Hb Hf. apply blk_real; [assumption|]. intros E.
  destruct (blk_ok b Hb) as (_ & _ & H). destruct (H E). congruence.
Qed.

Lemma blk_header b : In b bs -> load64 (mem st) (hd b) = tag (sz b) (fr b) (pfr b).
Proof. intros Hb. apply (blk_mem b Hb). Qed.

Lemma blk_GET_SIZE b : In b bs -> GET_SIZE (mem st) (hd b) = sz b.
Proof.
  intros Hb. destruct (blk_size b Hb).
  eapply GET_SIZE_tag; eauto using blk_header.
Qed.

Lemma blk_GET_FREE_BIT b : In b bs -> GET_FREE_BIT (mem st) (hd b) = fr b.
Proof.
  intros Hb. destruct (blk_size b Hb).
  eapply GET_FREE_BIT_tag; eauto using blk_header.
Qed.

Lemma blk_GET_PREV_BLOCK_FREE_BIT b :
  In b bs -> GET_PREV_BLOCK_FREE_BIT (mem st) (hd b) = pfr b.
Proof.
  intros Hb. destruct (blk_size b Hb).
  eapply GET_PREV_BLOCK_FREE_BIT_tag; eauto using blk_header.
Qed.

(** The epilogue is the last block. *)
Lemma epilogue_last :
  exists l e, bs = l ++ [e] /\ hd e = brk st - 8 /\ sz e = 0 /\ fr e = false.
Proof.
  destruct (inv_epi _ _ _ HI) as (e & He & Hh).
  destruct (adj_split _ _ _ _ (inv_adj _ _ _ HI) He) as (l1 & l2 & E & H1 & H2).
  pose proof (blk_bounds e He) as B. destruct (blk_ok e He) as (H0 & _ & Hz).
  assert (Hs : sz e = 0) by lia.
  destruct l2 as [|x l2].
  - exists l1, e. destruct (Hz Hs). auto.
  - exfalso. assert (Hx : In x bs) by (rewrite E; apply in_or_app; right; right; left; reflexivity).
    pose proof (blk_bounds x Hx). destruct (blk_ok x Hx) as (? & _ & _).
    cbn [adj] in H2. lia.
Qed.

(** Every block other than the epilogue has an upper neighbour. *)
Lemma blk_next b : In b bs -> sz b <> 0 ->
  exists l1 n l2, bs = l1 ++ b :: n :: l2 /\ hd n = hd b + 16 + sz b.
Proof.
  intros Hb Hne.
  destruct (adj_split _ _ _ _ (inv_adj _ _ _ HI) Hb) as (l1 & l2 & E & H1 & H2).
  destruct l2 as [|n l2].
  - exfalso. destruct epilogue_last as (l & e & E' & Hh & Hs & _).
    rewrite E in E'. apply app_inj_tail in E'. destruct E' as [_ ->]. congruence.
  - cbn [adj] in H2. destruct H2 as (Hh & H2).
    exists l1, n, l2. auto.
Qed.

End BlockFacts.


(* ================================================================== *)
(** * Doubly linked free lists *)
(* ================================================================== *)

Lemma dlseg_cons m pv h p L nx :
  dlseg m pv h (p :: L) nx <->
  h = p /\ 8 < p /\ p + 16 <= 2 ^ 64 /\ load64 m p = pv /\
  dlseg m p (load64 m (p + 8)) L nx.
Proof. reflexivity. Qed.

Lemma dlseg_frame m m' L : forall pv h nx,
  (forall p, In p L -> load64 m' p = load64 m p /\ load64 m' (p + 8) = load64 m (p + 8)) ->
  dlseg m pv h L nx -> dlseg m' pv h L nx.
Proof.
  induction L as [|p L IH]; intros pv h nx HF H; cbn [dlseg] in *; [assumption|].
  destruct H as (Hh & H0 & H1 & Hp & H).
  destruct (HF p (or_introl eq_refl)) as [E1 E2].
  repeat split; try assumption; [congruence|].
  rewrite E2. apply IH; [|assumption]. intros q Hq. apply HF. right; assumption.
Qed.

Lemma dlseg_store_other m a v L pv h nx :
  (forall p, In p L -> a + 8 <= p \/ p + 16 <= a) ->
  dlseg m pv h L nx -> dlseg (store64 m a v) pv h L nx.
Proof.
  intros HD. apply dlseg_frame. intros p Hp. specialize (HD p Hp).
  split; apply load64_store64_other; lia.
Qed.

Lemma last_cons_default {A} (L : list A) : forall p d, last (p :: L) d = last L p.
Proof.
  induction L as [|q L IH]; intros p d; [reflexivity|].
  change (last (p :: q :: L) d) with (last (q :: L) d).
  rewrite (IH q d), (IH q p). reflexivity.
Qed.

Lemma dlseg_app m L1 : forall pv h L2 nx,
  dlseg m pv h (L1 ++ L2) nx <->
  exists mid, dlseg m pv h L1 mid /\ dlseg m (last L1 pv) mid L2 nx.
Proof.
  induction L1 as [|p L1 IH]; intros pv h L2 nx.
  - cbn. split.
    + intros H. exists h. auto.
    + intros (mid & -> & H). exact H.
  - cbn [app dlseg]. rewrite IH.
    rewrite last_cons_default. split.
    + intros (A & B & C & D & mid & E & F). exists mid. repeat split; assumption.
    + intros (mid & (A & B & C & D & E) & F). repeat split; try assumption.
      exists mid. auto.
Qed.

Lemma dlseg_nodes m L : forall pv h nx p,
  dlseg m pv h L nx -> In p L -> 8 < p /\ p + 16 <= 2 ^ 64.
Proof.
  induction L as [|q L IH]; intros pv h nx p H Hp; [destruct Hp|].
  cbn [dlseg] in H. destruct H as (_ & H0 & H1 & _ & H).
  destruct Hp as [<-|Hp]; [lia|eauto].
Qed.

Lemma dlseg_head m L pv h nx :
  dlseg m pv h L nx -> h = match L with [] => nx | p :: _ => p end.
Proof. destruct L; cbn [dlseg]; [auto|]. intros (H & _). exact H. Qed.

Lemma last_in {A} (l : list A) d : l <> [] -> In (last l d) l.
Proof.
  intros H. destruct (exists_last H) as (l' & x & ->).
  rewrite last_last. apply in_or_app. right. left. reflexivity.
Qed.

Lemma sep16_tail x L : sep16 (x :: L) -> sep16 L.
Proof. intros H a b Ha Hb. apply H; right; assumption. Qed.

(** Redirecting the [next] field of the last node of a segment. *)
Lemma dlseg_set_next m L : forall pv h nx nx',
  L <> [] -> NoDup L -> sep16 L -> 0 <= nx' < 2 ^ 64 ->
  dlseg m pv h L nx ->
  dlseg (store64 m (last L 0 + 8) nx') pv h L nx'.
Proof.
  induction L as [|x L IH]; intros pv h nx nx' Hne Hnd Hsep Hr H; [congruence|].
  cbn [dlseg] in H. destruct H as (Hh & H0 & H1 & Hp & H).
  destruct L as [|y L].
  - cbn [last dlseg] in *. repeat split; try assumption.
    + rewrite load64_store64_other by lia. assumption.
    + rewrite load64_store64_eq by assumption. reflexivity.
  - change (last (x :: y :: L) 0) with (last (y :: L) 0).
    assert (Hl : In (last (y :: L) 0) (y :: L)) by (apply last_in; discriminate).
    set (l := last (y :: L) 0) in *.
    assert (Hx : l <> x).
    { inversion Hnd; subst. intros E. rewrite E in Hl. contradiction. }
    assert (Hd : x + 16 <= l \/ l + 16 <= x).
    { destruct (Hsep x l (or_introl eq_refl) (or_intror Hl)) as [?|?]; [congruence|assumption]. }
    apply dlseg_cons. split; [assumption|]. split; [assumption|].
    split; [assumption|]. split.
    + rewrite load64_store64_other by lia. assumption.
    + rewrite (load64_store64_other _ _ _ (x + 8)) by lia.
      apply IH with (nx := nx); try assumption; try discriminate.
      * inversion Hnd; assumption.
      * eapply sep16_tail; eassumption.
Qed.

(** ** First fit *)

(** The nodes of a well-formed list, scanned front to back. *)
Lemma firstfit_spec m size L : forall fuel pv h,
  dlseg m pv h L 0 -> (length L < fuel)%nat ->
  find_free_block_explicit_list_firstfit fuel m h size =
  Some match find (fun p => size <=? wrap (GET_SIZE m (p - 8) + Footer_size)) L with
       | Some p => p - 8
       | None => NULL
       end.
Proof.
  induction L as [|p L IH]; intros fuel pv h H Hf.
  - cbn [dlseg] in H. subst h. destruct fuel; [cbn in Hf; lia|]. reflexivity.
  - cbn [dlseg] in H. destruct H as (-> & H0 & H1 & Hp & H).
    destruct fuel as [|fuel]; [cbn in Hf; lia|].
    cbn [find_free_block_explicit_list_firstfit find].
    unfold NULL at 1. destruct (Z.eqb_spec p 0) as [E|_]; [lia|].
    unfold Payload_get_header, Header_size. rewrite (wrap_small (p - 8)) by lia.
    destruct (size <=? wrap (GET_SIZE m (p - 8) + Footer_size)); [reflexivity|].
    unfold DList_next. rewrite (wrap_small (p + 8)) by lia.
    apply IH with (pv := p); [assumption|]. cbn [length] in Hf. lia.
Qed.

(** ** Insertion at the front *)

Lemma updL_same Ls i L : updL Ls i L i = L.
Proof. unfold updL. rewrite Z.eqb_refl. reflexivity. Qed.

Lemma updL_other Ls i L j : j <> i -> updL Ls i L j = Ls j.
Proof. unfold updL. intros H. destruct (Z.eqb_spec j i); [contradiction|reflexivity]. Qed.

Lemma upd_same f i v : upd f i v i = v.
Proof. unfold upd. rewrite Z.eqb_refl. reflexivity. Qed.

Lemma upd_other f i v j : j <> i -> upd f i v j = f j.
Proof. unfold upd. intros H. destruct (Z.eqb_spec j i); [contradiction|reflexivity]. Qed.

Section ListOps.
Variables (st : state) (Ls : Z -> list Z).
Hypothesis HL : lists_ok (mem st) (freelists st) Ls.

Lemma lists_head i : freelists st i = match Ls i with [] => 0 | p :: _ => p end.
Proof. apply (dlseg_head _ _ _ _ _ (lo_dll _ _ _ HL i)). Qed.

Lemma lists_node i p : In p (Ls i) -> 8 < p /\ p + 16 <= 2 ^ 64.
Proof. apply (dlseg_nodes _ _ _ _ _ _ (lo_dll _ _ _ HL i)). Qed.

Lemma lists_sep16 i : sep16 (Ls i).
Proof.
  intros x y Hx Hy. destruct (lo_sep _ _ _ HL i i x y Hx Hy) as [[? _]|?]; auto.
Qed.

Lemma LinkedList_insert_at_front_ok k p :
  8 < p -> p + 16 <= 2 ^ 64 ->
  (forall i y, In y (Ls i) -> p + 16 <= y \/ y + 16 <= p) ->
  let st' := LinkedList_insert_at_front st k p in
  lists_ok (mem st') (freelists st') (updL Ls k (p :: Ls k)) /\
  heap st' = heap st /\ brk st' = brk st /\ mem_max st' = mem_max st /\
  (forall a, a + 8 <= p \/ p + 16 <= a ->
             (forall i y, In y (Ls i) -> a + 8 <= y \/ y + 16 <= a) ->
             load64 (mem st') a = load64 (mem st) a).
Proof.
  intros Hp0 Hp1 Hfresh st'.
  assert (Hst' : st' = LinkedList_insert_at_front st k p) by reflexivity.
  unfold LinkedList_insert_at_front, DList_set_prev, DList_set_next, NULL in Hst'.
  rewrite (wrap_small (p + 8)) in Hst' by lia.
  pose proof (lists_head k) as Hhead.
  set (q := freelists st k) in *.
  set (m1 := if q =? 0 then mem st else store64 (mem st) q p) in *.
  assert (Hm1 : forall a, (q = 0 \/ a + 8 <= q \/ q + 8 <= a) -> load64 m1 a = load64 (mem st) a).
  { intros a Ha. subst m1. destruct (Z.eqb_spec q 0); [reflexivity|].
    apply load64_store64_other. lia. }
  assert (Hq : q = 0 \/ In q (Ls k)).
  { destruct (Ls k); [left; assumption|right; left; congruence]. }
  assert (Hframe : forall a, a + 8 <= p \/ p + 16 <= a ->
             (forall i y, In y (Ls i) -> a + 8 <= y \/ y + 16 <= a) ->
             load64 (mem st') a = load64 (mem st) a).
  { intros a Ha Hn. rewrite Hst'. cbn [mem set_freelist set_mem].
    rewrite !load64_store64_other by lia. apply Hm1.
    destruct Hq as [?|Hq]; [left; assumption|right]. specialize (Hn _ _ Hq). lia. }
  assert (Hsame : heap st' = heap st /\ brk st' = brk st /\ mem_max st' = mem_max st)
    by (rewrite Hst'; cbn [heap brk mem_max set_freelist set_mem]; auto).
  split; [|tauto].
  assert (Hfl : freelists st' = upd (freelists st) k p) by (rewrite Hst'; reflexivity).
  constructor.
  - (* the lists *)
    intros i. rewrite Hfl. destruct (Z.eq_dec i k) as [->|Hik].
    + rewrite upd_same, updL_same. cbn [dlseg].
      repeat split; try assumption; try lia.
      * rewrite Hst'. cbn [mem set_freelist set_mem].
        rewrite load64_store64_other by lia. apply load64_store64_eq. lia.
      * assert (E8 : load64 (mem st') (p + 8) = q).
        { rewrite Hst'. cbn [mem set_freelist set_mem]. apply load64_store64_eq.
          destruct Hq as [->|Hq]; [lia|]. pose proof (lists_node _ _ Hq). lia. }
        rewrite E8. pose proof (lo_dll _ _ _ HL k) as HD. fold q in HD.
        destruct (Ls k) as [|y L] eqn:EL; cbn [dlseg] in *; [assumption|].
        destruct HD as (Hy & Hy0 & Hy1 & Hyp & HD). subst y.
        assert (Hqn : q <> 0) by lia.
        assert (Hfq : p + 16 <= q \/ q + 16 <= p).
        { apply (Hfresh k). rewrite EL. left; reflexivity. }
        repeat split; try assumption.
        -- rewrite Hst'. cbn [mem set_freelist set_mem].
           rewrite !load64_store64_other by lia. subst m1.
           destruct (Z.eqb_spec q 0); [contradiction|].
           apply load64_store64_eq. lia.
        -- assert (E : load64 (mem st') (q + 8) = load64 (mem st) (q + 8)).
           { rewrite Hst'. cbn [mem set_freelist set_mem].
             rewrite !load64_store64_other by lia. apply Hm1. lia. }
           rewrite E. eapply dlseg_frame; [|exact HD].
           intros r Hr.
           assert (Hrk : In r (Ls k)) by (rewrite EL; right; assumption).
           pose proof (Hfresh _ _ Hrk).
           assert (r <> q).
           { pose proof (lo_nodup _ _ _ HL k) as ND. rewrite EL in ND.
             inversion ND; subst. intros ->. contradiction. }
           assert (In q (Ls k)) by (rewrite EL; left; reflexivity).
           destruct (lists_sep16 k r q Hrk H1) as [?|?]; [contradiction|].
           split; (rewrite Hst'; cbn [mem set_freelist set_mem];
                   rewrite !load64_store64_other by lia; apply Hm1; lia).
    + rewrite upd_other, updL_other by assumption.
      eapply dlseg_frame; [|apply (lo_dll _ _ _ HL i)].
      intros r Hr. pose proof (Hfresh _ _ Hr).
      assert (Hrq : q = 0 \/ r + 16 <= q \/ q + 16 <= r).
      { destruct Hq as [?|Hq]; [left; assumption|right].
        destruct (lo_sep _ _ _ HL i k r q Hr Hq) as [[_ ?]|?]; [contradiction|assumption]. }
      split; (rewrite Hst'; cbn [mem set_freelist set_mem];
              rewrite !load64_store64_other by lia; apply Hm1; lia).
  - intros i. destruct (Z.eq_dec i k) as [->|Hik].
    + rewrite updL_same. constructor; [|apply (lo_nodup _ _ _ HL)].
      intros Hin. specialize (Hfresh _ _ Hin). lia.
    + rewrite updL_other by assumption. apply (lo_nodup _ _ _ HL).
  - intros i j x y Hx Hy.
    assert (Hx' : (x = p /\ i = k) \/ In x (Ls i)).
    { destruct (Z.eq_dec i k) as [->|Hik].
      - rewrite updL_same in Hx. destruct Hx as [<-|Hx]; auto.
      - rewrite updL_other in Hx by assumption. auto. }
    assert (Hy' : (y = p /\ j = k) \/ In y (Ls j)).
    { destruct (Z.eq_dec j k) as [->|Hjk].
      - rewrite updL_same in Hy. destruct Hy as [<-|Hy]; auto.
      - rewrite updL_other in Hy by assumption. auto. }
    destruct Hx' as [[-> ->]|Hx'], Hy' as [[-> ->]|Hy'].
    + left; auto.
    + right. apply (Hfresh _ _ Hy').
    + right. specialize (Hfresh _ _ Hx'). lia.
    + apply (lo_sep _ _ _ HL i j x y Hx' Hy').
Qed.
End ListOps.

(** ** Removal *)

Lemma in_mid {A} (x : A) l1 l2 : In x (l1 ++ x :: l2).
Proof. apply in_or_app. right. left. reflexivity. Qed.

Lemma in_app_mid {A} (y x : A) l1 l2 : In y (l1 ++ l2) -> In y (l1 ++ x :: l2).
Proof. rewrite !in_app_iff. cbn. tauto. Qed.

Lemma NoDup_app_disjoint {A} (l1 l2 : list A) x :
  NoDup (l1 ++ l2) -> In x l1 -> In x l2 -> False.
Proof.
  induction l1 as [|z l1 IH]; intros ND H1 H2; [destruct H1|].
  cbn in ND. inversion ND; subst. destruct H1 as [->|H1]; [|auto].
  apply H3. apply in_or_app. right. assumption.
Qed.

Section ListRemove.
Variables (st : state) (Ls : Z -> list Z).
Hypothesis HL : lists_ok (mem st) (freelists st) Ls.

Lemma LinkedList_remove_ok k p L1 L2 :
  Ls k = L1 ++ p :: L2 ->
  let st' := LinkedList_remove st k p in
  lists_ok (mem st') (freelists st') (updL Ls k (L1 ++ L2)) /\
  heap st' = heap st /\ brk st' = brk st /\ mem_max st' = mem_max st /\
  (forall a, (forall i y, In y (Ls i) -> a + 8 <= y \/ y + 16 <= a) ->
             load64 (mem st') a = load64 (mem st) a).
Proof.
  intros EL st'.
  assert (Hst' : st' = LinkedList_remove st k p) by reflexivity.
  unfold LinkedList_remove, DList_set_prev, DList_set_next, DList_prev, DList_next, NULL in Hst'.
  pose proof (lo_dll _ _ _ HL k) as HD. rewrite EL in HD.
  apply dlseg_app in HD. destruct HD as (mid & HD1 & HD2).
  apply dlseg_cons in HD2. destruct HD2 as (-> & Hp0 & Hp1 & Hpv & HD2).
  rewrite (wrap_small (p + 8)) in Hst' by lia.
  assert (Hpk : In p (Ls k)) by (rewrite EL; apply in_mid).
  pose proof (lo_nodup _ _ _ HL k) as ND. rewrite EL in ND.
  pose proof (NoDup_remove_1 _ _ _ ND) as ND1.
  pose proof (NoDup_remove_2 _ _ _ ND) as NP.
  pose proof (NoDup_app_remove_l _ _ ND1) as NDL2.
  pose proof (NoDup_app_remove_r _ _ ND1) as NDL1.
  pose proof (lists_sep16 _ _ HL k) as SEP.
  set (m := mem st) in *.
  set (nx := load64 m (p + 8)) in *.
  set (pv := load64 m p) in *.
  set (m1 := if nx =? 0 then m else store64 m nx pv) in *.
  (* the successor *)
  assert (Hnx : nx = 0 \/ (In nx L2 /\ In nx (Ls k) /\ nx <> p)).
  { pose proof (dlseg_head _ _ _ _ _ HD2) as E. destruct L2 as [|q L2']; [left; assumption|].
    right. subst q. split; [left; reflexivity|]. split.
    - rewrite EL. apply in_or_app. right. right. left. reflexivity.
    - intros E. apply NP. apply in_or_app. right. left. assumption. }
  assert (Hnxp : nx = 0 \/ nx + 16 <= p \/ p + 16 <= nx).
  { destruct Hnx as [?|(_ & Hk & Hne)]; [left; assumption|right].
    destruct (SEP nx p Hk Hpk) as [?|?]; [contradiction|assumption]. }
  assert (Hm1 : forall a, (nx = 0 \/ a + 8 <= nx \/ nx + 8 <= a) ->
                          load64 m1 a = load64 m a).
  { intros a Ha. subst m1. destruct (Z.eqb_spec nx 0); [reflexivity|].
    apply load64_store64_other. lia. }
  assert (Hpv1 : load64 m1 p = pv) by (apply Hm1; lia).
  assert (Hnx1 : load64 m1 (p + 8) = nx) by (apply Hm1; lia).
  rewrite Hpv1, Hnx1 in Hst'.
  (* the part of the list after [p] *)
  assert (D2 : dlseg m1 pv nx L2 0).
  { destruct L2 as [|q L2']; [exact HD2|].
    apply dlseg_cons in HD2. destruct HD2 as (Eq & Hq0 & Hq1 & Hqp & HD2).
    assert (Hq : nx <> 0) by lia.
    apply dlseg_cons. split; [assumption|]. split; [assumption|].
    split; [assumption|]. rewrite <- Eq in *. split.
    - subst m1. destruct (Z.eqb_spec nx 0); [contradiction|].
      apply load64_store64_eq. apply load64_range.
    - rewrite (Hm1 (nx + 8)) by lia.
      eapply dlseg_frame; [|exact HD2]. intros r Hr.
      assert (Hrk : In r (Ls k)).
      { rewrite EL. apply in_or_app. right. right. right. assumption. }
      assert (Hnk : In nx (Ls k)) by (destruct Hnx as [?|(_ & ? & _)]; [contradiction|assumption]).
      assert (r <> nx).
      { intros Er. rewrite Er in Hr. inversion NDL2 as [|? ? Hn1 Hn2]. contradiction. }
      destruct (SEP r nx Hrk Hnk) as [?|?]; [contradiction|].
      split; apply Hm1; lia. }
  (* the predecessor *)
  assert (Hpvc : (L1 = [] /\ pv = 0) \/
                 (L1 <> [] /\ pv = last L1 0 /\ In pv L1 /\ In pv (Ls k) /\ pv <> p)).
  { destruct L1 as [|x L1'].
    - left. split; [reflexivity|]. cbn in Hpv. subst pv. assumption.
    - right. split; [discriminate|].
      assert (E : pv = last (x :: L1') 0) by (subst pv; rewrite Hpv; reflexivity).
      assert (Hin : In pv (x :: L1')) by (rewrite E; apply last_in; discriminate).
      split; [assumption|]. split; [assumption|]. split.
      + rewrite EL. apply in_or_app. left. assumption.
      + intros Ep. apply NP. apply in_or_app. left. rewrite <- Ep. assumption. }
  assert (Hsame : heap st' = heap st /\ brk st' = brk st /\ mem_max st' = mem_max st).
  { rewrite Hst'. destruct (pv =? 0); cbn [heap brk mem_max set_freelist set_mem]; auto. }
  assert (Hsub : forall i y, In y (updL Ls k (L1 ++ L2) i) -> In y (Ls i)).
  { intros i y. destruct (Z.eq_dec i k) as [->|Hik].
    - rewrite updL_same, EL. apply in_app_mid.
    - rewrite updL_other by assumption. auto. }
  assert (Hnd : forall i, NoDup (updL Ls k (L1 ++ L2) i)).
  { intros i. destruct (Z.eq_dec i k) as [->|Hik].
    - rewrite updL_same. assumption.
    - rewrite updL_other by assumption. apply (lo_nodup _ _ _ HL). }
  assert (Hsp : forall i j x y, In x (updL Ls k (L1 ++ L2) i) -> In y (updL Ls k (L1 ++ L2) j) ->
                  (x = y /\ i = j) \/ x + 16 <= y \/ y + 16 <= x).
  { intros i j x y Hx Hy. apply (lo_sep _ _ _ HL); auto. }
  destruct Hpvc as [[-> Epv]|(HL1 & Epv & Hpv1' & Hpvk & Hpvp)].
  - (* [p] was the head *)
    rewrite Epv in Hst'. cbn [Z.eqb] in Hst'.
    assert (Hmem : mem st' = m1) by (rewrite Hst'; reflexivity).
    assert (Hfl : freelists st' = upd (freelists st) k nx) by (rewrite Hst'; reflexivity).
    split; [|split; [tauto|split; [tauto|split; [tauto|]]]].
    + constructor; try assumption.
      intros i. rewrite Hmem, Hfl. destruct (Z.eq_dec i k) as [->|Hik].
      * rewrite upd_same, updL_same. cbn [app]. rewrite Epv in D2. exact D2.
      * rewrite upd_other, updL_other by assumption.
        eapply dlseg_frame; [|apply (lo_dll _ _ _ HL i)]. intros r Hr.
        assert (nx = 0 \/ r + 16 <= nx \/ nx + 16 <= r).
        { destruct Hnx as [?|(_ & Hk & _)]; [left; assumption|right].
          destruct (lo_sep _ _ _ HL i k r nx Hr Hk) as [[_ ?]|?]; [contradiction|assumption]. }
        split; apply Hm1; lia.
    + intros a Ha. rewrite Hmem. apply Hm1.
      destruct Hnx as [?|(_ & Hk & _)]; [left; assumption|right].
      specialize (Ha _ _ Hk). lia.
  - (* [p] had a predecessor *)
    pose proof (lists_node _ _ HL _ _ Hpvk) as Bpv.
    destruct (Z.eqb_spec pv 0) as [E0|_]; [lia|].
    rewrite (wrap_small (pv + 8)) in Hst' by lia.
    assert (Hmem : mem st' = store64 m1 (pv + 8) nx) by (rewrite Hst'; reflexivity).
    assert (Hfl : freelists st' = freelists st) by (rewrite Hst'; reflexivity).
    assert (Hm2 : forall a, (nx = 0 \/ a + 8 <= nx \/ nx + 8 <= a) ->
                             (a + 8 <= pv + 8 \/ pv + 16 <= a) ->
                             load64 (mem st') a = load64 m a).
    { intros a H1 H2. rewrite Hmem, load64_store64_other by lia. apply Hm1. assumption. }
    split; [|split; [tauto|split; [tauto|split; [tauto|]]]].
    + constructor; try assumption.
      intros i. rewrite Hfl. destruct (Z.eq_dec i k) as [->|Hik].
      * rewrite updL_same. apply dlseg_app. exists nx. split.
        -- rewrite Hmem, Epv. apply dlseg_set_next with (nx := p); try assumption.
           ++ intros x y Hx Hy. apply SEP; rewrite EL; apply in_or_app; left; assumption.
           ++ apply load64_range.
           ++ eapply dlseg_frame; [|exact HD1]. intros r Hr.
              assert (Hrk : In r (Ls k)) by (rewrite EL; apply in_or_app; left; assumption).
              assert (nx = 0 \/ r + 16 <= nx \/ nx + 16 <= r).
              { destruct Hnx as [?|(H2 & Hk & _)]; [left; assumption|right].
                destruct (SEP r nx Hrk Hk) as [E|?]; [|assumption].
                exfalso. subst r. eapply NoDup_app_disjoint; eassumption. }
              split; apply Hm1; lia.
        -- rewrite <- Epv. rewrite Hmem. apply dlseg_store_other; [|exact D2].
           intros r Hr.
           assert (Hrk : In r (Ls k)).
           { rewrite EL. apply in_or_app. right. right. assumption. }
           destruct (SEP r pv Hrk Hpvk) as [E|?]; [|lia].
           exfalso. subst r. eapply NoDup_app_disjoint; eassumption.
      * rewrite updL_other by assumption.
        eapply dlseg_frame; [|apply (lo_dll _ _ _ HL i)]. intros r Hr.
        assert (nx = 0 \/ r + 16 <= nx \/ nx + 16 <= r).
        { destruct Hnx as [?|(_ & Hk & _)]; [left; assumption|right].
          destruct (lo_sep _ _ _ HL i k r nx Hr Hk) as [[_ ?]|?]; [contradiction|assumption]. }
        assert (r + 16 <= pv \/ pv + 16 <= r).
        { destruct (lo_sep _ _ _ HL i k r pv Hr Hpvk) as [[_ ?]|?]; [contradiction|assumption]. }
        split; apply Hm2; lia.
    + intros a Ha. apply Hm2.
      * destruct Hnx as [?|(_ & Hk & _)]; [left; assumption|right].
        specialize (Ha _ _ Hk). lia.
      * specialize (Ha _ _ Hpvk). lia.
Qed.
End ListRemove.


(* ================================================================== *)
(** * Navigation without wrap-around *)
(* ================================================================== *)

Lemma Header_get_payload_eq h : 0 <= h -> h + 8 < 2 ^ 64 -> Header_get_payload h = h + 8.
Proof. intros. unfold Header_get_payload, Header_size. apply wrap_small. lia. Qed.

Lemma Payload_get_header_eq p : 8 <= p < 2 ^ 64 -> Payload_get_header p = p - 8.
Proof. intros. unfold Payload_get_header, Header_size. apply wrap_small. lia. Qed.

Lemma Header_get_footer_eq m h s :
  GET_SIZE m h = s -> 0 <= h -> 0 <= s -> h + 8 + s < 2 ^ 64 ->
  Header_get_footer m h = h + 8 + s.
Proof.
  intros Hs H0 H1 H2. unfold Header_get_footer, Payload_get_footer, Payload_get_size.
  rewrite Header_get_payload_eq by lia.
  rewrite Payload_get_header_eq by lia.
  replace (h + 8 - 8) with h by lia. rewrite Hs. apply wrap_small. lia.
Qed.

Lemma Header_get_next_header_eq m h s :
  GET_SIZE m h = s -> 0 <= h -> 0 <= s -> h + 16 + s < 2 ^ 64 ->
  Header_get_next_header m h = h + 16 + s.
Proof.
  intros Hs H0 H1 H2. unfold Header_get_next_header, Footer_size.
  rewrite (Header_get_footer_eq m h s) by (assumption || lia).
  rewrite wrap_small by lia. lia.
Qed.

Lemma Header_get_prev_header_eq m h s :
  GET_SIZE m (h - 8) = s -> 0 <= s -> 16 + s <= h -> h < 2 ^ 64 ->
  Header_get_prev_header m h = h - 16 - s.
Proof.
  intros Hs H0 H1 H2. unfold Header_get_prev_header, Footer_get_header, Footer_size.
  rewrite (wrap_small (h - 8)) by lia. rewrite Hs.
  rewrite (wrap_small (h - 8 - s)) by lia.
  rewrite Payload_get_header_eq by lia. lia.
Qed.

(* ================================================================== *)
(** * The break and the heap base only move in [mm_sbrk] and [mm_init] *)
(* ================================================================== *)

Lemma same_region_refl st : same_region st st.
Proof. unfold same_region; auto. Qed.

Lemma same_region_trans st1 st2 st3 :
  same_region st1 st2 -> same_region st2 st3 -> same_region st1 st3.
Proof. unfold same_region. intros (-> & -> & ->) (-> & -> & ->). auto. Qed.

Lemma same_region_set_mem st m : same_region st (set_mem st m).
Proof. unfold same_region; auto. Qed.

Lemma LinkedList_insert_at_front_region st k p :
  same_region st (LinkedList_insert_at_front st k p).
Proof. unfold same_region; auto. Qed.

Lemma LinkedList_remove_region st k p : same_region st (LinkedList_remove st k p).
Proof.
  unfold same_region, LinkedList_remove.
  match goal with |- context [if ?c then _ else _] => destruct c end; auto.
Qed.

Lemma Segregated_insert_header_region st h : same_region st (Segregated_insert_header st h).
Proof. apply LinkedList_insert_at_front_region. Qed.

Lemma Segregated_remove_header_region st h : same_region st (Segregated_remove_header st h).
Proof. apply LinkedList_remove_region. Qed.

Lemma coalesce_left_region st h : same_region st (coalesce_left st h).
Proof.
  unfold coalesce_left.
  destruct (negb (GET_FREE_BIT (mem st) h)); [apply same_region_refl|].
  destruct (negb (GET_PREV_BLOCK_FREE_BIT (mem st) h)); [apply same_region_refl|].
  cbv zeta.
  eapply same_region_trans; [|apply Segregated_insert_header_region].
  eapply same_region_trans; [|apply same_region_set_mem].
  eapply same_region_trans; apply Segregated_remove_header_region.
Qed.

Lemma coalesce_region st h : same_region st (coalesce st h).
Proof.
  unfold coalesce. eapply same_region_trans; apply coalesce_left_region.
Qed.

(* ================================================================== *)
(** * Frames: what a write leaves in place *)
(* ================================================================== *)

Lemma block_mem_frame m m' b :
  load64 m' (hd b) = load64 m (hd b) ->
  (fr b = true -> load64 m' (hd b + 8 + sz b) = load64 m (hd b + 8 + sz b)) ->
  block_mem m b -> block_mem m' b.
Proof.
  intros H1 H2 [Hh Hf]. split; [congruence|].
  intros F. rewrite (GET_SIZE_same m m') by auto. auto.
Qed.

Section Frames.
Variables (st : state) (bs : list block) (Ls : Z -> list Z).
Hypothesis HI : heap_inv st bs Ls.

(** A list node is the payload of a free block. *)
Lemma node_block i y : In y (Ls i) ->
  exists x, In x bs /\ y = hd x + 8 /\ fr x = true /\ 16 <= sz x /\
            Segregated_get_bucket (sz x) = i.
Proof.
  intros Hy. destruct (inv_sub _ _ _ HI _ _ Hy) as (s & (x & Hx & Hh & Hs & Hf) & Hb).
  exists x. repeat split; try assumption; try lia.
  - eapply blk_free_real; eassumption.
  - congruence.
Qed.

Lemma node_of_block i x :
  In x bs -> In (hd x + 8) (Ls i) -> fr x = true /\ Segregated_get_bucket (sz x) = i.
Proof.
  intros Hx Hy. destruct (node_block _ _ Hy) as (x' & Hx' & E & Hf & _ & Hb).
  assert (x' = x) by (eapply blk_hd_inj; eauto; lia). subst x'. auto.
Qed.

(** Header and footer words do not meet the first 16 payload bytes of
    any block. *)
Lemma header_off_nodes b x : In b bs -> In x bs -> 16 <= sz x ->
  hd b + 8 <= hd x + 8 \/ hd x + 24 <= hd b.
Proof.
  intros Hb Hx Hs. destruct (blk_sep _ _ _ HI b x Hb Hx) as [->|[?|?]]; try lia.
  destruct (blk_ok _ _ _ HI b Hb) as (? & _). lia.
Qed.

Lemma footer_off_nodes b x : In b bs -> In x bs -> 16 <= sz x ->
  hd b + 8 + sz b + 8 <= hd x + 8 \/ hd x + 24 <= hd b + 8 + sz b.
Proof.
  intros Hb Hx Hs. destruct (blk_sep _ _ _ HI b x Hb Hx) as [->|[?|?]]; try lia.
  destruct (blk_ok _ _ _ HI b Hb) as (? & _). lia.
Qed.

(** A step that rewrites only list nodes keeps the chain. *)
Lemma heap_inv_list_step st' Ls' :
  heap st' = heap st -> brk st' = brk st -> mem_max st' = mem_max st ->
  lists_ok (mem st') (freelists st') Ls' ->
  (forall i p, In p (Ls' i) ->
     exists s, fblk bs (p - 8) s /\ Segregated_get_bucket s = i) ->
  (forall a, (forall x, In x bs -> 16 <= sz x -> a + 8 <= hd x + 8 \/ hd x + 24 <= a) ->
             load64 (mem st') a = load64 (mem st) a) ->
  heap_inv st' bs Ls'.
Proof.
  intros Eh Eb Em HL Hsub Hfr.
  constructor; rewrite ?Eh, ?Eb, ?Em; try apply HI; try assumption.
  - rewrite Hfr; [apply HI|]. intros x Hx Hs.
    pose proof (blk_bounds _ _ _ HI x Hx). lia.
  - apply Forall_forall. intros b Hb. apply (block_mem_frame (mem st)).
    + apply Hfr. intros x Hx Hs. apply header_off_nodes; assumption.
    + intros _. apply Hfr. intros x Hx Hs.
      pose proof (footer_off_nodes b x Hb Hx Hs). lia.
    + apply (blk_mem _ _ _ HI b Hb).
Qed.

Lemma Header_get_list_eq b : In b bs -> Header_get_list (hd b) = hd b + 8.
Proof.
  intros Hb. unfold Header_get_list. apply Header_get_payload_eq.
  - pose proof (blk_bounds _ _ _ HI b Hb). pose proof (inv_lo _ _ _ HI). lia.
  - pose proof (blk_bounds _ _ _ HI b Hb). destruct (blk_ok _ _ _ HI b Hb) as (? & _).
    pose proof (inv_top _ _ _ HI). pose proof (inv_max _ _ _ HI). lia.
Qed.

(** Unlinking a block that is in its list. *)
Lemma Segregated_remove_header_inv b L1 L2 :
  In b bs ->
  Ls (Segregated_get_bucket (sz b)) = L1 ++ (hd b + 8) :: L2 ->
  heap_inv (Segregated_remove_header st (hd b)) bs
           (updL Ls (Segregated_get_bucket (sz b)) (L1 ++ L2)).
Proof.
  intros Hb EL. unfold Segregated_remove_header.
  rewrite (blk_GET_SIZE _ _ _ HI b Hb), (Header_get_list_eq b Hb).
  destruct (LinkedList_remove_ok st Ls (inv_lists _ _ _ HI) _ _ _ _ EL)
    as (HL' & Eh & Eb & Em & Hfr).
  apply heap_inv_list_step; try assumption.
  - intros i p Hp. apply (inv_sub _ _ _ HI).
    destruct (Z.eq_dec i (Segregated_get_bucket (sz b))) as [->|Hik].
    + rewrite updL_same in Hp. rewrite EL. apply in_app_mid. assumption.
    + rewrite updL_other in Hp by assumption. assumption.
  - intros a Ha. apply Hfr. intros i y Hy.
    destruct (node_block _ _ Hy) as (x & Hx & -> & _ & Hs & _).
    specialize (Ha x Hx Hs). lia.
Qed.

(** Linking a free block that is in no list. *)
Lemma Segregated_insert_header_inv b :
  In b bs -> fr b = true ->
  ~ In (hd b + 8) (Ls (Segregated_get_bucket (sz b))) ->
  heap_inv (Segregated_insert_header st (hd b)) bs
           (updL Ls (Segregated_get_bucket (sz b))
                 (hd b + 8 :: Ls (Segregated_get_bucket (sz b)))).
Proof.
  intros Hb Hf Hnin. unfold Segregated_insert_header.
  rewrite (blk_GET_SIZE _ _ _ HI b Hb), (Header_get_list_eq b Hb).
  set (k := Segregated_get_bucket (sz b)) in *.
  pose proof (blk_bounds _ _ _ HI b Hb) as Bb.
  pose proof (blk_free_real _ _ _ HI b Hb Hf) as Rb.
  pose proof (inv_lo _ _ _ HI). pose proof (inv_top _ _ _ HI).
  pose proof (inv_max _ _ _ HI).
  assert (Hfresh : forall i y, In y (Ls i) -> hd b + 8 + 16 <= y \/ y + 16 <= hd b + 8).
  { intros i y Hy. destruct (node_block _ _ Hy) as (x & Hx & -> & Hfx & Hs & Hbk).
    destruct (blk_sep _ _ _ HI b x Hb Hx) as [E|[?|?]]; try lia.
    exfalso. subst x. apply Hnin. subst k. rewrite Hbk. assumption. }
  destruct (LinkedList_insert_at_front_ok st Ls (inv_lists _ _ _ HI) k (hd b + 8))
    as (HL' & Eh & Eb & Em & Hfr); try lia; try assumption.
  apply heap_inv_list_step; try assumption.
  - intros i p Hp. destruct (Z.eq_dec i k) as [->|Hik].
    + rewrite updL_same in Hp. destruct Hp as [<-|Hp]; [|apply (inv_sub _ _ _ HI); assumption].
      exists (sz b). split; [|reflexivity]. exists b.
      repeat split; try assumption. lia.
    + rewrite updL_other in Hp by assumption. apply (inv_sub _ _ _ HI); assumption.
  - intros a Ha. apply Hfr.
    + specialize (Ha b Hb Rb). lia.
    + intros i y Hy. destruct (node_block _ _ Hy) as (x & Hx & -> & _ & Hs & _).
      specialize (Ha x Hx Hs). lia.
Qed.
End Frames.

(* ================================================================== *)
(** * Rewriting a stretch of the chain *)
(* ================================================================== *)

Lemma adj_app3 l1 old l2 a a' :
  adj a (l1 ++ old ++ l2) a' <->
  exists A B, adj a l1 A /\ adj A old B /\ adj B l2 a'.
Proof.
  rewrite adj_app. split.
  - intros (A & H1 & H2). apply adj_app in H2. destruct H2 as (B & H2 & H3).
    exists A, B. auto.
  - intros (A & B & H1 & H2 & H3). exists A. split; [assumption|].
    apply adj_app. exists B. auto.
Qed.

Lemma lists_ok_frame m m' fl Ls :
  lists_ok m fl Ls ->
  (forall i y, In y (Ls i) ->
     load64 m' y = load64 m y /\ load64 m' (y + 8) = load64 m (y + 8)) ->
  lists_ok m' fl Ls.
Proof.
  intros HL HF. constructor; try apply HL.
  intros i. eapply dlseg_frame; [|apply (lo_dll _ _ _ HL i)].
  intros p Hp. eauto.
Qed.

(** Header and footer writes [writes] inside the stretch [A, B) of the
    chain, occupied by the blocks [old], leave a heap of the blocks
    [new] there. *)
Lemma heap_inv_replace st bs Ls l1 old new l2 m' writes A B :
  heap_inv st bs Ls -> bs = l1 ++ old ++ l2 ->
  adj (heap st + 16) l1 A -> adj B l2 (brk st + 8) -> adj A new B ->
  (forall a, (forall w, In w writes -> a + 8 <= w \/ w + 8 <= a) ->
             load64 m' a = load64 (mem st) a) ->
  (forall w, In w writes -> A <= w /\ w + 8 <= B) ->
  Forall (block_ok (brk st)) new -> Forall (block_mem m') new ->
  (forall i y, In y (Ls i) -> forall w, In w writes -> w + 8 <= y \/ y + 16 <= w) ->
  (forall i p, In p (Ls i) ->
     exists s, fblk (l1 ++ new ++ l2) (p - 8) s /\ Segregated_get_bucket s = i) ->
  (exists e, In e (l1 ++ new ++ l2) /\ hd e = brk st - 8) ->
  heap_inv (set_mem st m') (l1 ++ new ++ l2) Ls.
Proof.
  intros HI -> HA1 HA2 HAn Hfr Hw Hok Hmem Hnodes Hsub Hepi.
  pose proof (inv_ok _ _ _ HI) as OK. rewrite !Forall_app in OK.
  destruct OK as (OK1 & OKo & OK2).
  pose proof (inv_mem _ _ _ HI) as MEM. rewrite !Forall_app in MEM.
  destruct MEM as (MEM1 & MEMo & MEM2).
  destruct (adj_bounds _ _ _ HA1 (block_ok_nonneg _ _ OK1)) as [B1 B1'].
  destruct (adj_bounds _ _ _ HA2 (block_ok_nonneg _ _ OK2)) as [B2 B2'].
  constructor; cbn [heap brk mem_max mem freelists set_mem]; try apply HI.
  - rewrite Hfr; [apply HI|]. intros w Hin. specialize (Hw w Hin). lia.
  - apply adj_app3. exists A, B. auto.
  - assumption.
  - rewrite !Forall_app. auto.
  - rewrite !Forall_app. split; [|split; [assumption|]].
    + rewrite Forall_forall in MEM1 |- *. intros x Hx. specialize (B1' x Hx).
      rewrite Forall_forall in OK1. destruct (OK1 x Hx) as (? & _).
      apply (block_mem_frame (mem st)); [| |auto].
      * apply Hfr. intros w Hin. specialize (Hw w Hin). lia.
      * intros _. apply Hfr. intros w Hin. specialize (Hw w Hin). lia.
    + rewrite Forall_forall in MEM2 |- *. intros x Hx. specialize (B2' x Hx).
      rewrite Forall_forall in OK2. destruct (OK2 x Hx) as (? & _).
      apply (block_mem_frame (mem st)); [| |auto].
      * apply Hfr. intros w Hin. specialize (Hw w Hin). lia.
      * intros _. apply Hfr. intros w Hin. specialize (Hw w Hin). lia.
  - apply (lists_ok_frame (mem st)); [apply HI|].
    intros i y Hy. split; apply Hfr; intros w Hin;
      specialize (Hnodes i y Hy w Hin); lia.
  - assumption.
Qed.

(** Where the blocks before and after a stretch of the chain lie. *)
Lemma chain_cut st bs Ls l1 mid l2 :
  heap_inv st bs Ls -> bs = l1 ++ mid ++ l2 ->
  exists A B,
    adj (heap st + 16) l1 A /\ adj A mid B /\ adj B l2 (brk st + 8) /\
    heap st + 16 <= A /\ A <= B /\ B <= brk st + 8 /\
    (forall x, In x l1 -> heap st + 16 <= hd x /\ hd x + 16 + sz x <= A) /\
    (forall x, In x mid -> A <= hd x /\ hd x + 16 + sz x <= B) /\
    (forall x, In x l2 -> B <= hd x /\ hd x + 16 + sz x <= brk st + 8).
Proof.
  intros HI E. pose proof (inv_adj _ _ _ HI) as AD. rewrite E in AD.
  apply adj_app3 in AD. destruct AD as (A & B & AD1 & ADm & AD2).
  pose proof (inv_ok _ _ _ HI) as OK. rewrite E in OK. rewrite !Forall_app in OK.
  destruct OK as (OK1 & OKm & OK2).
  destruct (adj_bounds _ _ _ AD1 (block_ok_nonneg _ _ OK1)) as [? ?].
  destruct (adj_bounds _ _ _ ADm (block_ok_nonneg _ _ OKm)) as [? ?].
  destruct (adj_bounds _ _ _ AD2 (block_ok_nonneg _ _ OK2)) as [? ?].
  exists A, B. repeat split; auto; try lia; try apply H0; try apply H2; try apply H4; auto.
Qed.

(** The same for a stretch rebuilt by tag writes and list operations
    together: outside the stretch only list nodes may have changed. *)
Lemma heap_inv_rebuild st bs Ls l1 old new l2 st' Ls' A B :
  heap_inv st bs Ls -> bs = l1 ++ old ++ l2 ->
  adj (heap st + 16) l1 A -> adj B l2 (brk st + 8) -> adj A new B ->
  same_region st st' ->
  (forall a, a + 8 <= A \/ B <= a ->
             (forall x, In x (l1 ++ l2) -> 16 <= sz x ->
                        a + 8 <= hd x + 8 \/ hd x + 24 <= a) ->
             load64 (mem st') a = load64 (mem st) a) ->
  Forall (block_ok (brk st)) new -> Forall (block_mem (mem st')) new ->
  lists_ok (mem st') (freelists st') Ls' ->
  (forall i p, In p (Ls' i) ->
     exists s, fblk (l1 ++ new ++ l2) (p - 8) s /\ Segregated_get_bucket s = i) ->
  (exists e, In e (l1 ++ new ++ l2) /\ hd e = brk st - 8) ->
  heap_inv st' (l1 ++ new ++ l2) Ls'.
Proof.
  intros HI Ebs HA1 HA2 HAn (Rh & Rb & Rm) Hfr Hok Hmem HL Hsub Hepi.
  pose proof (inv_ok _ _ _ HI) as OK. rewrite Ebs, !Forall_app in OK.
  destruct OK as (OK1 & OKo & OK2).
  destruct (adj_bounds _ _ _ HA1 (block_ok_nonneg _ _ OK1)) as [B1 B1'].
  destruct (adj_bounds _ _ _ HA2 (block_ok_nonneg _ _ OK2)) as [B2 B2'].
  assert (Hin : forall x, In x (l1 ++ l2) -> In x bs).
  { intros x Hx. rewrite Ebs, !in_app_iff. rewrite in_app_iff in Hx. tauto. }
  assert (Hout : forall x, In x (l1 ++ l2) ->
            hd x + 16 + sz x <= A \/ B <= hd x).
  { intros x Hx. apply in_app_or in Hx. destruct Hx as [Hx|Hx].
    - left. apply B1'. assumption.
    - right. apply B2'. assumption. }
  assert (Hkeep : forall x, In x (l1 ++ l2) -> block_mem (mem st') x).
  { intros x Hx. pose proof (Hin x Hx) as Hxb. destruct (blk_ok _ _ _ HI x Hxb) as (? & _).
    pose proof (Hout x Hx).
    apply (block_mem_frame (mem st)); [| |apply (blk_mem _ _ _ HI x Hxb)].
    - apply Hfr; [lia|]. intros y Hy Hs.
      apply (header_off_nodes _ _ _ HI); auto.
    - intros _. apply Hfr; [lia|]. intros y Hy Hs.
      pose proof (footer_off_nodes _ _ _ HI x y Hxb (Hin y Hy) Hs). lia. }
  constructor; rewrite ?Rh, ?Rb, ?Rm; try apply HI; try assumption.
  - rewrite Hfr; [apply HI|lia|]. intros x Hx Hs.
    pose proof (blk_bounds _ _ _ HI x (Hin x Hx)). lia.
  - apply adj_app3. exists A, B. auto.
  - rewrite !Forall_app. auto.
  - rewrite !Forall_app. split; [|split; [assumption|]]; apply Forall_forall;
      intros x Hx; apply Hkeep; apply in_or_app; auto.
Qed.


(* ================================================================== *)
(** * Bytes a step leaves in place *)
(* ================================================================== *)

Lemma store64_other m a v x : x < a \/ a + 8 <= x -> store64 m a v x = m x.
Proof.
  intros H. unfold store64, store_n.
  destruct (Z.leb_spec a x), (Z.ltb_spec x (a + 8)); cbn; try reflexivity; lia.
Qed.

Lemma SET_VALUE_other m a s f pf x :
  x < a \/ a + 8 <= x -> SET_VALUE m a s f pf x = m x.
Proof. apply store64_other. Qed.

Lemma SET_FREE_BIT_other m a f x : x < a \/ a + 8 <= x -> SET_FREE_BIT m a f x = m x.
Proof. apply store64_other. Qed.

Lemma SET_PREV_BLOCK_FREE_BIT_other m a f x :
  x < a \/ a + 8 <= x -> SET_PREV_BLOCK_FREE_BIT m a f x = m x.
Proof. apply store64_other. Qed.

(** ** The two list operations write link fields only *)

Lemma LinkedList_insert_at_front_bytes st Ls k p :
  lists_ok (mem st) (freelists st) Ls -> 8 < p -> p + 16 <= 2 ^ 64 ->
  forall x, x < p \/ p + 16 <= x ->
    (forall i y, In y (Ls i) -> x < y \/ y + 16 <= x) ->
    mem (LinkedList_insert_at_front st k p) x = mem st x.
Proof.
  intros HL Hp0 Hp1 x Hx Hn.
  unfold LinkedList_insert_at_front, DList_set_prev, DList_set_next, NULL.
  cbn [mem set_freelist set_mem]. rewrite (wrap_small (p + 8)) by lia.
  rewrite !store64_other by lia.
  pose proof (lists_head _ _ HL k) as Hhead.
  destruct (Z.eqb_spec (freelists st k) 0) as [|Nq]; [reflexivity|].
  apply store64_other.
  assert (Hq : In (freelists st k) (Ls k)).
  { destruct (Ls k); [contradiction|left; congruence]. }
  specialize (Hn _ _ Hq). lia.
Qed.

Lemma LinkedList_remove_bytes st Ls k p L1 L2 :
  lists_ok (mem st) (freelists st) Ls -> Ls k = L1 ++ p :: L2 ->
  forall x, (forall i y, In y (Ls i) -> x < y \/ y + 16 <= x) ->
    mem (LinkedList_remove st k p) x = mem st x.
Proof.
  intros HL EL x Hn.
  pose proof (lo_dll _ _ _ HL k) as HD. rewrite EL in HD.
  apply dlseg_app in HD. destruct HD as (mid & HD1 & HD2).
  apply dlseg_cons in HD2. destruct HD2 as (-> & Hp0 & Hp1 & Hpv & HD2).
  assert (Hpk : In p (Ls k)) by (rewrite EL; apply in_mid).
  pose proof (lists_sep16 _ _ HL k) as SEP.
  pose proof (lo_nodup _ _ _ HL k) as ND. rewrite EL in ND.
  pose proof (NoDup_remove_2 _ _ _ ND) as NP.
  unfold LinkedList_remove, DList_set_prev, DList_set_next, DList_prev, DList_next, NULL.
  rewrite (wrap_small (p + 8)) by lia.
  set (m := mem st) in *. set (nx := load64 m (p + 8)) in *. set (pv := load64 m p) in *.
  set (m1 := if nx =? 0 then m else store64 m nx pv).
  assert (Hnx : nx = 0 \/ (In nx (Ls k) /\ nx <> p)).
  { pose proof (dlseg_head _ _ _ _ _ HD2) as E. destruct L2 as [|q L2']; [left; assumption|].
    right. subst q. split.
    - rewrite EL. apply in_or_app. right. right. left. reflexivity.
    - intros E. apply NP. apply in_or_app. right. left. assumption. }
  assert (Hm1 : m1 x = m x).
  { subst m1. destruct (Z.eqb_spec nx 0); [reflexivity|].
    destruct Hnx as [|[Hk _]]; [contradiction|].
    apply store64_other. specialize (Hn _ _ Hk). lia. }
  assert (Hpv1 : load64 m1 p = pv).
  { subst m1. destruct (Z.eqb_spec nx 0); [reflexivity|].
    destruct Hnx as [|[Hk Hne]]; [contradiction|].
    apply load64_store64_other.
    destruct (SEP nx p Hk Hpk) as [?|?]; [contradiction|lia]. }
  rewrite Hpv1.
  destruct (Z.eqb_spec pv 0) as [E0|N0]; cbn [mem set_freelist set_mem]; [exact Hm1|].
  assert (Hpvk : In pv (Ls k)).
  { destruct L1 as [|y L1']; [cbn in Hpv; subst pv; contradiction|].
    assert (E : pv = last (y :: L1') 0) by (subst pv; rewrite Hpv; reflexivity).
    rewrite EL. apply in_or_app. left. rewrite E. apply last_in. discriminate. }
  pose proof (lists_node _ _ HL _ _ Hpvk) as Bpv.
  rewrite (wrap_small (pv + 8)) by lia.
  rewrite store64_other; [exact Hm1|]. specialize (Hn _ _ Hpvk). lia.
Qed.

(** ** [kept] *)

Lemma kept_refl X m bs : kept X m m bs bs.
Proof. split; [|auto]. intros h s H _. split; [assumption|reflexivity]. Qed.

Lemma kept_trans X m1 m2 m3 bs1 bs2 bs3 :
  kept X m1 m2 bs1 bs2 -> kept X m2 m3 bs2 bs3 -> kept X m1 m3 bs1 bs3.
Proof.
  intros [K1 M1] [K2 M2]. split; [|auto].
  intros h s H NX. destruct (K1 h s H NX) as [H2 F1].
  destruct (K2 h s H2 NX) as [H3 F2]. split; [assumption|].
  intros x Hx. rewrite F2, F1 by assumption. reflexivity.
Qed.

Lemma kept_weaken (X Y : Z -> Prop) m m' bs bs' :
  (forall h, X h -> Y h) -> kept X m m' bs bs' -> kept Y m m' bs bs'.
Proof.
  intros HXY [K M]. split; [|assumption]. intros h s H NY. apply K; auto.
Qed.

Section Kept.
Variables (st : state) (bs : list block) (Ls : Z -> list Z).
Hypothesis HI : heap_inv st bs Ls.

(** Bytes of an allocated block are off the link fields of the free
    ones; so are the header and the footer of every free block. *)
Lemma ablk_off_free h s x f :
  ablk bs h s -> h + 8 <= x < h + 16 + s -> In f bs -> fr f = true ->
  x < hd f \/ hd f + 16 + sz f <= x.
Proof.
  intros (c & Hc & Eh & Es & Fc & Rc) Hx Hf Ff.
  destruct (blk_sep _ _ _ HI c f Hc Hf) as [->|D]; [congruence|]. lia.
Qed.

Lemma word_off_free b a f :
  In b bs -> fr b = true -> a = hd b \/ a = hd b + 8 + sz b ->
  In f bs -> fr f = true ->
  forall x, a <= x < a + 8 -> x < hd f + 8 \/ hd f + 24 <= x.
Proof.
  intros Hb Fb Ha Hf Ff x Hx.
  pose proof (blk_free_real _ _ _ HI b Hb Fb) as Rb.
  pose proof (blk_free_real _ _ _ HI f Hf Ff) as Rf.
  destruct (blk_sep _ _ _ HI b f Hb Hf) as [->|D]; lia.
Qed.

(** A step that writes link fields of free blocks only. *)
Lemma kept_same X m' :
  (forall x, (forall f, In f bs -> fr f = true -> x < hd f + 8 \/ hd f + 24 <= x) ->
             m' x = mem st x) ->
  kept X (mem st) m' bs bs.
Proof.
  intros HF. split.
  - intros h s H _. split; [assumption|]. intros x Hx. apply HF.
    intros f Hf Ff. pose proof (ablk_off_free h s x f H Hx Hf Ff).
    pose proof (blk_free_real _ _ _ HI f Hf Ff). lia.
  - intros HM b Hb Fb PFb. specialize (HM b Hb Fb PFb).
    rewrite (load64_ext m' (mem st) (hd b + 8 + sz b)),
            (load64_ext m' (mem st) (hd b)); [assumption| |].
    + intros x Hx. apply HF. intros f Hf Ff.
      apply (word_off_free b (hd b) f); auto.
    + intros x Hx. apply HF. intros f Hf Ff.
      apply (word_off_free b (hd b + 8 + sz b) f); auto.
Qed.

Lemma node_free i y : In y (Ls i) -> exists f, In f bs /\ fr f = true /\ y = hd f + 8.
Proof.
  intros Hy. destruct (node_block _ _ _ HI _ _ Hy) as (f & Hf & E & Ff & _).
  exists f. auto.
Qed.

Lemma seg_remove_kept X b :
  In b bs -> In (hd b + 8) (Ls (Segregated_get_bucket (sz b))) ->
  kept X (mem st) (mem (Segregated_remove_header st (hd b))) bs bs.
Proof.
  intros Hb Hin. destruct (in_split _ _ Hin) as (L1 & L2 & EL).
  apply kept_same. intros x Hx. unfold Segregated_remove_header.
  rewrite (blk_GET_SIZE _ _ _ HI b Hb), (Header_get_list_eq _ _ _ HI b Hb).
  apply (LinkedList_remove_bytes st Ls _ _ L1 L2 (inv_lists _ _ _ HI) EL).
  intros i y Hy. destruct (node_free i y Hy) as (f & Hf & Ff & ->).
  specialize (Hx f Hf Ff). lia.
Qed.

Lemma seg_insert_kept X b :
  In b bs -> fr b = true ->
  kept X (mem st) (mem (Segregated_insert_header st (hd b))) bs bs.
Proof.
  intros Hb Fb. apply kept_same. intros x Hx. unfold Segregated_insert_header.
  rewrite (blk_GET_SIZE _ _ _ HI b Hb), (Header_get_list_eq _ _ _ HI b Hb).
  pose proof (blk_bounds _ _ _ HI b Hb) as Bb.
  pose proof (blk_free_real _ _ _ HI b Hb Fb) as Rb.
  pose proof (inv_lo _ _ _ HI). pose proof (inv_top _ _ _ HI).
  pose proof (inv_max _ _ _ HI).
  apply (LinkedList_insert_at_front_bytes st Ls _ _ (inv_lists _ _ _ HI)); try lia.
  - specialize (Hx b Hb Fb). lia.
  - intros i y Hy. destruct (node_free i y Hy) as (f & Hf & Ff & ->).
    specialize (Hx f Hf Ff). lia.
Qed.

(** A step that rewrites the stretch [A, B) of the chain, occupied by
    the blocks [old], into the blocks [new], and outside of it writes
    link fields of free blocks only. *)
Lemma kept_stretch X l1 old new l2 m' A B :
  bs = l1 ++ old ++ l2 ->
  adj (heap st + 16) l1 A -> adj B l2 (brk st + 8) ->
  (forall x, x < A \/ B <= x ->
     (forall f, In f (l1 ++ l2) -> fr f = true -> x < hd f + 8 \/ hd f + 24 <= x) ->
     m' x = mem st x) ->
  (forall h s, ablk old h s -> ~ X h ->
     ablk new h s /\ forall x, h + 8 <= x < h + 16 + s -> m' x = mem st x) ->
  (mirrored (mem st) bs -> mirrored m' new) ->
  kept X (mem st) m' bs (l1 ++ new ++ l2).
Proof.
  intros Ebs HA1 HA2 HF Hold Hnew.
  pose proof (inv_ok _ _ _ HI) as OK. rewrite Ebs, !Forall_app in OK.
  destruct OK as (OK1 & _ & OK2).
  destruct (adj_bounds _ _ _ HA1 (block_ok_nonneg _ _ OK1)) as [_ B1].
  destruct (adj_bounds _ _ _ HA2 (block_ok_nonneg _ _ OK2)) as [_ B2].
  assert (Hin : forall c, In c (l1 ++ l2) -> In c bs).
  { intros c Hc. rewrite Ebs, !in_app_iff. rewrite in_app_iff in Hc. tauto. }
  assert (Hout : forall c, In c (l1 ++ l2) -> hd c + 16 + sz c <= A \/ B <= hd c).
  { intros c Hc. apply in_app_or in Hc. destruct Hc as [Hc|Hc].
    - left. apply B1. assumption.
    - right. apply B2. assumption. }
  assert (Hnn : forall c, In c bs -> 0 <= sz c).
  { intros c Hc. destruct (blk_ok _ _ _ HI c Hc) as (? & _). assumption. }
  split.
  - intros h s (c & Hc & Eh & Es & Fc & Rc) NX.
    rewrite Ebs, !in_app_iff in Hc.
    assert (Hc' : In c old \/ In c (l1 ++ l2)) by (rewrite in_app_iff; tauto).
    destruct Hc' as [Ho|Hk].
    + destruct (Hold h s) as [(c' & Hc' & E') Fx]; [exists c; auto|assumption|].
      split; [|assumption]. exists c'. split; [|assumption].
      rewrite !in_app_iff. tauto.
    + split.
      * exists c. split; [|auto]. rewrite in_app_iff in Hk. rewrite !in_app_iff. tauto.
      * intros x Hx. pose proof (Hout c Hk). apply HF; [lia|].
        intros f Hf Ff.
        destruct (blk_sep _ _ _ HI c f (Hin c Hk) (Hin f Hf)) as [->|D]; [congruence|].
        pose proof (Hnn f (Hin f Hf)). lia.
  - intros HM b Hb Fb PFb. rewrite !in_app_iff in Hb.
    assert (Hb' : In b new \/ In b (l1 ++ l2)) by (rewrite in_app_iff; tauto).
    destruct Hb' as [Hn|Hk]; [apply (Hnew HM); assumption|].
    pose proof (Hin b Hk) as Hbb. specialize (HM b Hbb Fb PFb).
    pose proof (Hout b Hk). pose proof (blk_free_real _ _ _ HI b Hbb Fb).
    rewrite (load64_ext m' (mem st) (hd b + 8 + sz b)),
            (load64_ext m' (mem st) (hd b)); [assumption| |].
    + intros x Hx. apply HF; [lia|]. intros f Hf Ff.
      apply (word_off_free b (hd b) f); auto.
    + intros x Hx. apply HF; [lia|]. intros f Hf Ff.
      apply (word_off_free b (hd b + 8 + sz b) f); auto.
Qed.
End Kept.

(* ================================================================== *)
(** * The index: membership after [insert] and [remove] *)
(* ================================================================== *)

Section Index.
Variables (st : state) (bs : list block) (Ls : Z -> list Z).
Hypothesis HI : heap_inv st bs Ls.

Lemma seg_remove b :
  In b bs -> In (hd b + 8) (Ls (Segregated_get_bucket (sz b))) ->
  exists Ls',
    heap_inv (Segregated_remove_header st (hd b)) bs Ls' /\
    (forall i y, In y (Ls' i) <-> In y (Ls i) /\ y <> hd b + 8).
Proof.
  intros Hb Hin. destruct (in_split _ _ Hin) as (L1 & L2 & EL).
  exists (updL Ls (Segregated_get_bucket (sz b)) (L1 ++ L2)).
  split; [apply Segregated_remove_header_inv; assumption|].
  pose proof (lo_nodup _ _ _ (inv_lists _ _ _ HI) (Segregated_get_bucket (sz b))) as ND.
  rewrite EL in ND. pose proof (NoDup_remove_2 _ _ _ ND) as NP.
  intros i y. destruct (Z.eq_dec i (Segregated_get_bucket (sz b))) as [->|Hik].
  - rewrite updL_same, EL, !in_app_iff. cbn [In]. split.
    + intros H. split; [tauto|]. intros ->. apply NP. apply in_or_app. assumption.
    + intros [[H|[H|H]] Hne]; auto. congruence.
  - rewrite updL_other by assumption. split; [|tauto].
    intros H. split; [assumption|]. intros ->.
    destruct (node_of_block _ _ _ HI _ _ Hb H) as [_ E]. congruence.
Qed.

Lemma seg_insert b :
  In b bs -> fr b = true ->
  ~ In (hd b + 8) (Ls (Segregated_get_bucket (sz b))) ->
  exists Ls',
    heap_inv (Segregated_insert_header st (hd b)) bs Ls' /\
    (forall i y, In y (Ls' i) <->
                 In y (Ls i) \/ (y = hd b + 8 /\ i = Segregated_get_bucket (sz b))) /\
    Ls' (Segregated_get_bucket (sz b)) =
      hd b + 8 :: Ls (Segregated_get_bucket (sz b)).
Proof.
  intros Hb Hf Hn.
  exists (updL Ls (Segregated_get_bucket (sz b))
               (hd b + 8 :: Ls (Segregated_get_bucket (sz b)))).
  split; [apply Segregated_insert_header_inv; assumption|].
  split; [|apply updL_same].
  intros i y. destruct (Z.eq_dec i (Segregated_get_bucket (sz b))) as [->|Hik].
  - rewrite updL_same. cbn [In]. split; [intros [<-|H]; auto|intros [H|[-> _]]; auto].
  - rewrite updL_other by assumption. split; [auto|intros [H|[_ E]]; [assumption|contradiction]].
Qed.
End Index.

(* ================================================================== *)
(** * Coalescing *)
(* ================================================================== *)

Lemma sum_mod16 a b : a mod 16 = 0 -> b mod 16 = 0 -> (a + 16 + b) mod 16 = 0.
Proof.
  intros Ha Hb.
  pose proof (Z.div_mod a 16 ltac:(lia)) as E1. rewrite Ha in E1.
  pose proof (Z.div_mod b 16 ltac:(lia)) as E2. rewrite Hb in E2.
  replace (a + 16 + b) with ((a / 16 + 1 + b / 16) * 16) by lia.
  apply Z.mod_mul. lia.
Qed.

(** [coalesce_left] returns at once when the block or its lower
    neighbour is allocated. *)
Lemma coalesce_left_noop st h :
  GET_FREE_BIT (mem st) h = false \/ GET_PREV_BLOCK_FREE_BIT (mem st) h = false ->
  coalesce_left st h = st.
Proof.
  intros [H|H]; unfold coalesce_left; rewrite H; cbn [negb].
  - reflexivity.
  - destruct (negb (GET_FREE_BIT (mem st) h)); reflexivity.
Qed.

(** Merging the free block [b] into its free lower neighbour [p]. *)
Lemma coalesce_left_merge_kept st bs Ls l1 p b l2 :
  heap_inv st bs Ls -> bs = l1 ++ p :: b :: l2 ->
  fr p = true -> fr b = true -> pfr b = true ->
  In (hd p + 8) (Ls (Segregated_get_bucket (sz p))) ->
  In (hd b + 8) (Ls (Segregated_get_bucket (sz b))) ->
  let st' := coalesce_left st (hd b) in
  let k := Segregated_get_bucket (sz p + 16 + sz b) in
  exists Ls',
    heap_inv st' (l1 ++ merged p b :: l2) Ls' /\
    (forall i y, In y (Ls' i) <->
       (In y (Ls i) /\ y <> hd p + 8 /\ y <> hd b + 8) \/ (y = hd p + 8 /\ i = k)) /\
    (exists T, Ls' k = hd p + 8 :: T) /\
    load64 (mem st') (hd p) = tag (sz p + 16 + sz b) true (pfr p) /\
    load64 (mem st') (hd b + 8 + sz b) = tag (sz p + 16 + sz b) true (pfr p) /\
    kept none (mem st) (mem st') bs (l1 ++ merged p b :: l2).
Proof.
  intros HI Ebs Fp Fb PFb Inp Inb st' k.
  assert (Hp : In p bs) by (rewrite Ebs; apply in_mid).
  assert (Hb : In b bs) by (rewrite Ebs; apply in_or_app; right; right; left; reflexivity).
  pose proof (inv_adj _ _ _ HI) as ADJ. rewrite Ebs in ADJ.
  change (l1 ++ p :: b :: l2) with (l1 ++ [p; b] ++ l2) in ADJ.
  apply adj_app3 in ADJ. destruct ADJ as (A & B & AD1 & ADo & AD2).
  cbn [adj] in ADo. destruct ADo as (EA & Ehb & EB).
  subst A. assert (EB' : B = hd b + 16 + sz b) by lia. clear EB. subst B.
  pose proof (blk_bounds _ _ _ HI p Hp) as Bp. pose proof (blk_bounds _ _ _ HI b Hb) as Bb.
  pose proof (blk_size _ _ _ HI p Hp) as [Sp Mp].
  pose proof (blk_size _ _ _ HI b Hb) as [Sb Mb].
  pose proof (blk_free_real _ _ _ HI p Hp Fp) as Rp.
  pose proof (blk_free_real _ _ _ HI b Hb Fb) as Rb.
  pose proof (inv_lo _ _ _ HI) as LO. pose proof (inv_top _ _ _ HI) as TOP.
  pose proof (inv_max _ _ _ HI) as MAX.
  (* reading the two blocks *)
  assert (Eprev : Header_get_prev_header (mem st) (hd b) = hd p).
  { rewrite (Header_get_prev_header_eq _ _ (sz p)); try lia.
    destruct (blk_mem _ _ _ HI p Hp) as [_ Hft]. specialize (Hft Fp).
    replace (hd b - 8) with (hd p + 8 + sz p) by lia. assumption. }
  assert (Est : st' = coalesce_left st (hd b)) by reflexivity.
  unfold coalesce_left in Est.
  rewrite (blk_GET_FREE_BIT _ _ _ HI b Hb), Fb,
          (blk_GET_PREV_BLOCK_FREE_BIT _ _ _ HI b Hb), PFb, Eprev in Est.
  cbn [negb] in Est. cbv zeta in Est.
  (* the two removals *)
  destruct (seg_remove _ _ _ HI b Hb Inb) as (Ls1 & HI1 & M1).
  set (st1 := Segregated_remove_header st (hd b)) in *.
  assert (Inp1 : In (hd p + 8) (Ls1 (Segregated_get_bucket (sz p)))).
  { apply M1. split; [assumption|]. lia. }
  destruct (seg_remove _ _ _ HI1 p Hp Inp1) as (Ls2 & HI2 & M2).
  set (st2 := Segregated_remove_header st1 (hd p)) in *.
  assert (M12 : forall i y, In y (Ls2 i) <->
                  In y (Ls i) /\ y <> hd p + 8 /\ y <> hd b + 8).
  { intros i y. rewrite M2, M1. tauto. }
  assert (R2 : same_region st st2).
  { eapply same_region_trans; apply Segregated_remove_header_region. }
  destruct R2 as (Qh & Qb & Qm).
  rewrite (blk_GET_SIZE _ _ _ HI2 b Hb), (blk_GET_SIZE _ _ _ HI2 p Hp),
          (blk_GET_PREV_BLOCK_FREE_BIT _ _ _ HI2 p Hp) in Est.
  unfold Header_size, Footer_size in Est.
  rewrite (wrap_small (8 + sz b)), (wrap_small (8 + sz b + 8)),
          (wrap_small (sz p + (8 + sz b + 8))) in Est by lia.
  replace (sz p + (8 + sz b + 8)) with (sz p + 16 + sz b) in Est by lia.
  set (s1 := sz p + 16 + sz b) in *.
  assert (Ss1 : 0 <= s1 < 2 ^ 64) by (subst s1; lia).
  assert (Ms1 : s1 mod 16 = 0) by (apply sum_mod16; assumption).
  set (m3 := SET_VALUE (mem st2) (hd p) s1 true (pfr p)) in *.
  assert (Eft : Header_get_footer m3 (hd p) = hd b + 8 + sz b).
  { rewrite (Header_get_footer_eq _ _ s1); try lia.
    eapply GET_SIZE_tag; [eassumption|eassumption|].
    apply load64_SET_VALUE_same; assumption. }
  rewrite Eft in Est.
  set (m4 := SET_VALUE m3 (hd b + 8 + sz b) s1 true (pfr p)) in *.
  (* the chain after the two writes *)
  assert (Hm4h : load64 m4 (hd p) = tag s1 true (pfr p)).
  { subst m4. rewrite load64_SET_VALUE_other by lia.
    apply load64_SET_VALUE_same; assumption. }
  assert (Hm4f : load64 m4 (hd b + 8 + sz b) = tag s1 true (pfr p)).
  { apply load64_SET_VALUE_same; assumption. }
  assert (Hfr : forall a, (forall w, In w [hd p; hd b + 8 + sz b] -> a + 8 <= w \/ w + 8 <= a) ->
                          load64 m4 a = load64 (mem st2) a).
  { intros a Ha. subst m4 m3. rewrite !load64_SET_VALUE_other; [reflexivity| |].
    - specialize (Ha (hd p) (or_introl eq_refl)). lia.
    - specialize (Ha (hd b + 8 + sz b) (or_intror (or_introl eq_refl))). lia. }
  assert (Hnode2 : forall i y, In y (Ls2 i) ->
            exists x, In x (l1 ++ l2) /\ y = hd x + 8 /\ fr x = true /\ 16 <= sz x /\
                      Segregated_get_bucket (sz x) = i).
  { intros i y Hy. destruct (node_block _ _ _ HI2 _ _ Hy) as (x & Hx & E & Hfx & Hsx & Hbx).
    apply M12 in Hy. destruct Hy as (_ & N1 & N2).
    exists x. repeat split; try assumption.
    rewrite Ebs in Hx. rewrite in_app_iff in Hx |- *. cbn [In] in Hx.
    destruct Hx as [?|[<-|[<-|?]]]; auto; congruence. }
  pose proof (inv_ok _ _ _ HI) as OK. rewrite Ebs in OK.
  change (l1 ++ p :: b :: l2) with (l1 ++ [p; b] ++ l2) in OK.
  rewrite !Forall_app in OK. destruct OK as (OK1 & _ & OK2).
  destruct (adj_bounds _ _ _ AD1 (block_ok_nonneg _ _ OK1)) as [_ BD1].
  destruct (adj_bounds _ _ _ AD2 (block_ok_nonneg _ _ OK2)) as [_ BD2].
  assert (HI4 : heap_inv (set_mem st2 m4) (l1 ++ [merged p b] ++ l2) Ls2).
  { apply (heap_inv_replace st2 bs Ls2 l1 [p; b] [merged p b] l2 m4
             [hd p; hd b + 8 + sz b] (hd p) (hd b + 16 + sz b));
      rewrite ?Qh, ?Qb, ?Qm; try assumption.
    - cbn [adj merged hd sz]. split; [reflexivity|]. subst s1. lia.
    - intros w [<-|[<-|[]]]; lia.
    - constructor; [|constructor]. unfold block_ok, merged; cbn [hd sz fr].
      fold s1. repeat split; lia.
    - constructor; [|constructor]. unfold block_mem, merged; cbn [hd sz fr pfr].
      fold s1. split; [assumption|]. intros _.
      replace (hd p + 8 + s1) with (hd b + 8 + sz b) by (subst s1; lia).
      eapply GET_SIZE_tag; eassumption.
    - intros i y Hy w Hw. destruct (Hnode2 i y Hy) as (x & Hx & -> & _ & Hsx & _).
      apply in_app_or in Hx. destruct Hx as [Hx|Hx].
      + specialize (BD1 x Hx). destruct Hw as [<-|[<-|[]]]; lia.
      + specialize (BD2 x Hx). destruct Hw as [<-|[<-|[]]]; lia.
    - intros i y Hy. destruct (Hnode2 i y Hy) as (x & Hx & -> & Hfx & _ & Hbx).
      exists (sz x). split; [|assumption]. exists x.
      repeat split; try assumption; try lia.
      rewrite in_app_iff in Hx. rewrite !in_app_iff. tauto.
    - destruct (epilogue_last _ _ _ HI) as (l & e & El & Ehd & Esz & Efr).
      exists e. split; [|congruence].
      assert (He : In e bs) by (rewrite El; apply in_or_app; right; left; reflexivity).
      rewrite Ebs in He. rewrite in_app_iff in He. cbn [In] in He.
      rewrite !in_app_iff. destruct He as [?|[<-|[<-|?]]]; auto; congruence. }
  (* relinking the merged block *)
  assert (Hmb : In (merged p b) (l1 ++ [merged p b] ++ l2)) by (apply in_mid).
  assert (Hnin : ~ In (hd (merged p b) + 8)
                      (Ls2 (Segregated_get_bucket (sz (merged p b))))).
  { cbn [merged hd sz]. intros H. apply M12 in H. lia. }
  destruct (seg_insert _ _ _ HI4 (merged p b) Hmb eq_refl Hnin) as (Ls3 & HI5 & M3 & H3).
  cbn [merged hd sz] in M3, H3, HI5. fold s1 in M3, H3. fold k in M3, H3.
  rewrite <- Est in HI5.
  exists Ls3. split; [exact HI5|]. split; [|split; [eexists; exact H3|]].
  - intros i y. rewrite M3, M12. tauto.
  - (* the two words survive the relinking *)
    assert (Hkeep : forall a, (forall x, In x (l1 ++ [merged p b] ++ l2) -> 16 <= sz x ->
                                 a + 8 <= hd x + 8 \/ hd x + 24 <= a) ->
                    load64 (mem st') a = load64 m4 a).
    { intros a Ha. rewrite Est. unfold Segregated_insert_header.
      pose proof (blk_GET_SIZE _ _ _ HI4 _ Hmb) as G1.
      pose proof (Header_get_list_eq _ _ _ HI4 _ Hmb) as G2.
      cbn [merged hd sz] in G1, G2. fold s1 in G1. rewrite G1, G2.
      destruct (LinkedList_insert_at_front_ok (set_mem st2 m4) Ls2 (inv_lists _ _ _ HI4)
                  (Segregated_get_bucket s1) (hd p + 8)) as (_ & _ & _ & _ & Hf); try lia.
      - intros i y Hy. destruct (Hnode2 i y Hy) as (x & Hx & -> & _ & Hsx & _).
        apply in_app_or in Hx. destruct Hx as [Hx|Hx].
        + specialize (BD1 x Hx). lia.
        + specialize (BD2 x Hx). lia.
      - apply Hf.
        + specialize (Ha _ Hmb). cbn [merged hd sz] in Ha. lia.
        + intros i y Hy. destruct (node_block _ _ _ HI4 _ _ Hy) as (x & Hx & -> & _ & Hsx & _).
          specialize (Ha x Hx Hsx). lia. }
    split; [|split].
    + rewrite Hkeep; [assumption|]. intros x Hx Hsx.
      pose proof (header_off_nodes _ _ _ HI4 (merged p b) x Hmb Hx Hsx) as D.
      cbn [merged hd] in D. lia.
    + rewrite Hkeep; [assumption|]. intros x Hx Hsx.
      pose proof (footer_off_nodes _ _ _ HI4 (merged p b) x Hmb Hx Hsx) as D.
      cbn [merged hd sz] in D. subst s1. lia.
    + (* what the five steps leave in place *)
      pose proof (seg_remove_kept _ _ _ HI none b Hb Inb) as K1. fold st1 in K1.
      pose proof (seg_remove_kept _ _ _ HI1 none p Hp Inp1) as K2. fold st2 in K2.
      assert (K3 : kept none (mem st2) m4 bs (l1 ++ [merged p b] ++ l2)).
      { apply (kept_stretch _ _ _ HI2 none l1 [p; b] [merged p b] l2 m4
                 (hd p) (hd b + 16 + sz b)); rewrite ?Qh, ?Qb; try assumption.
        - intros x Hx _. subst m4 m3. rewrite !SET_VALUE_other by lia. reflexivity.
        - intros h s (c & [<-|[<-|[]]] & _ & _ & Fc & _) _; congruence.
        - intros _ x [<-|[]] _ _. cbn [merged hd sz]. fold s1.
          replace (hd p + 8 + s1) with (hd b + 8 + sz b) by (subst s1; lia).
          congruence. }
      pose proof (seg_insert_kept _ _ _ HI4 none (merged p b) Hmb eq_refl) as K4.
      cbn [merged hd mem set_mem] in K4. rewrite <- Est in K4.
      exact (kept_trans _ _ _ _ _ _ _ (kept_trans _ _ _ _ _ _ _ K1 K2)
                        (kept_trans _ _ _ _ _ _ _ K3 K4)).
Qed.

Lemma coalesce_left_merge st bs Ls l1 p b l2 :
  heap_inv st bs Ls -> bs = l1 ++ p :: b :: l2 ->
  fr p = true -> fr b = true -> pfr b = true ->
  In (hd p + 8) (Ls (Segregated_get_bucket (sz p))) ->
  In (hd b + 8) (Ls (Segregated_get_bucket (sz b))) ->
  let st' := coalesce_left st (hd b) in
  let k := Segregated_get_bucket (sz p + 16 + sz b) in
  exists Ls',
    heap_inv st' (l1 ++ merged p b :: l2) Ls' /\
    (forall i y, In y (Ls' i) <->
       (In y (Ls i) /\ y <> hd p + 8 /\ y <> hd b + 8) \/ (y = hd p + 8 /\ i = k)) /\
    (exists T, Ls' k = hd p + 8 :: T) /\
    load64 (mem st') (hd p) = tag (sz p + 16 + sz b) true (pfr p) /\
    load64 (mem st') (hd b + 8 + sz b) = tag (sz p + 16 + sz b) true (pfr p).
Proof.
  intros HI Ebs Fp Fb PFb Inp Inb st' k.
  destruct (coalesce_left_merge_kept st bs Ls l1 p b l2 HI Ebs Fp Fb PFb Inp Inb)
    as (Ls' & H1 & H2 & H3 & H4 & H5 & _).
  exists Ls'. auto.
Qed.

(** ** The flags and the index across a merge *)

Lemma threaded_merge l1 p b l2 :
  threaded false (l1 ++ p :: b :: l2) -> fr b = true ->
  threaded false (l1 ++ merged p b :: l2).
Proof.
  rewrite !threaded_app. cbn [threaded merged fr pfr].
  intros (H1 & H2 & H3 & H4) Fb. rewrite Fb in H4. auto.
Qed.

Lemma in_mid_iff {A} (x y : A) l1 l2 :
  In x (l1 ++ y :: l2) <-> In x l1 \/ x = y \/ In x l2.
Proof. rewrite in_app_iff. cbn [In]. intuition congruence. Qed.

Lemma in_mid2_iff {A} (x y z : A) l1 l2 :
  In x (l1 ++ y :: z :: l2) <-> In x l1 \/ x = y \/ x = z \/ In x l2.
Proof. rewrite in_app_iff. cbn [In]. intuition congruence. Qed.

Lemma ablk_merge l1 p b l2 h s :
  fr p = true -> fr b = true ->
  ablk (l1 ++ p :: b :: l2) h s -> ablk (l1 ++ merged p b :: l2) h s.
Proof.
  intros Fp Fb (x & Hx & Hh & Hs & Hf & H16). exists x.
  repeat split; try assumption.
  apply in_mid2_iff in Hx. apply in_mid_iff.
  destruct Hx as [?|[->|[->|?]]]; auto; congruence.
Qed.

(** One step of [coalesce]: either nothing to do, or the block is merged
    into its lower neighbour. *)
Lemma coalesce_left_step_kept st bs Ls l1 b l2 :
  heap_inv st bs Ls -> threaded false bs -> covered bs Ls ->
  bs = l1 ++ b :: l2 ->
  (coalesce_left st (hd b) = st /\ (fr b = false \/ pfr b = false)) \/
  (fr b = true /\ pfr b = true /\
   exists l1' p Ls',
     l1 = l1' ++ [p] /\ fr p = true /\
     heap_inv (coalesce_left st (hd b)) (l1' ++ merged p b :: l2) Ls' /\
     threaded false (l1' ++ merged p b :: l2) /\
     covered (l1' ++ merged p b :: l2) Ls' /\
     kept none (mem st) (mem (coalesce_left st (hd b))) bs (l1' ++ merged p b :: l2)).
Proof.
  intros HI HT HC Ebs.
  assert (Hb : In b bs) by (rewrite Ebs; apply in_mid).
  destruct (fr b) eqn:Fb; [|left; split; [|auto]].
  2:{ apply coalesce_left_noop. left.
      rewrite (blk_GET_FREE_BIT _ _ _ HI b Hb). assumption. }
  destruct (pfr b) eqn:PFb; [|left; split; [|auto]].
  2:{ apply coalesce_left_noop. right.
      rewrite (blk_GET_PREV_BLOCK_FREE_BIT _ _ _ HI b Hb). assumption. }
  right. split; [reflexivity|]. split; [reflexivity|].
  destruct (exists_last (l := l1)) as (l1' & p & ->).
  { intros ->. rewrite Ebs in HT. cbn in HT. destruct HT as [HT _]. congruence. }
  rewrite <- app_assoc in Ebs. cbn [app] in Ebs.
  assert (Fp : fr p = true).
  { rewrite Ebs in HT. apply threaded_app in HT. destruct HT as [_ HT].
    cbn [threaded] in HT. destruct HT as (_ & HT & _). congruence. }
  assert (Hp : In p bs) by (rewrite Ebs; apply in_mid).
  assert (Inp : In (hd p + 8) (Ls (Segregated_get_bucket (sz p)))).
  { apply HC. exists p. auto. }
  assert (Inb : In (hd b + 8) (Ls (Segregated_get_bucket (sz b)))).
  { apply HC. exists b. auto. }
  destruct (coalesce_left_merge_kept st bs Ls l1' p b l2 HI Ebs Fp Fb PFb Inp Inb)
    as (Ls' & HI' & M & _ & _ & _ & K).
  exists l1', p, Ls'. split; [reflexivity|]. split; [assumption|].
  split; [assumption|]. split; [|split; [|exact K]].
  - apply threaded_merge; [rewrite <- Ebs; assumption|assumption].
  - intros h s (x & Hx & Hh & Hs & Hf). apply M.
    apply in_mid_iff in Hx. destruct Hx as [Hx|[->|Hx]].
    + left. assert (Hxb : In x bs) by (rewrite Ebs; apply in_mid2_iff; auto).
      split; [apply HC; exists x; auto|].
      destruct (blk_sep _ _ _ HI x p Hxb Hp) as [E|D].
      * exfalso. subst x. pose proof (inv_adj _ _ _ HI) as AD. rewrite Ebs in AD.
        apply adj_app in AD. destruct AD as (am & AD1 & AD2). cbn [adj] in AD2.
        destruct AD2 as [E _].
        pose proof (inv_ok _ _ _ HI) as OK. rewrite Ebs in OK. apply Forall_app in OK.
        destruct OK as [OK1 _].
        destruct (adj_bounds _ _ _ AD1 (block_ok_nonneg _ _ OK1)) as [_ BD].
        specialize (BD _ Hx). destruct (blk_ok _ _ _ HI p Hp) as (? & _). lia.
      * destruct (blk_sep _ _ _ HI x b Hxb Hb) as [E|D'].
        -- exfalso. subst x. pose proof (inv_adj _ _ _ HI) as AD. rewrite Ebs in AD.
           apply adj_app in AD. destruct AD as (am & AD1 & AD2). cbn [adj] in AD2.
           destruct AD2 as [E [E' _]].
           pose proof (inv_ok _ _ _ HI) as OK. rewrite Ebs in OK. apply Forall_app in OK.
           destruct OK as [OK1 _].
           destruct (adj_bounds _ _ _ AD1 (block_ok_nonneg _ _ OK1)) as [_ BD].
           specialize (BD _ Hx). destruct (blk_ok _ _ _ HI p Hp) as (? & _).
           destruct (blk_ok _ _ _ HI b Hb) as (? & _). lia.
        -- destruct (blk_ok _ _ _ HI p Hp) as (? & _).
           destruct (blk_ok _ _ _ HI b Hb) as (? & _).
           destruct (blk_ok _ _ _ HI x Hxb) as (? & _). lia.
    + right. cbn [merged hd sz] in *. subst h s. auto.
    + left. assert (Hxb : In x bs) by (rewrite Ebs; apply in_mid2_iff; auto).
      split; [apply HC; exists x; auto|].
      pose proof (inv_adj _ _ _ HI) as AD. rewrite Ebs in AD.
      change (l1' ++ p :: b :: l2) with (l1' ++ [p; b] ++ l2) in AD.
      apply adj_app3 in AD. destruct AD as (A & B & AD1 & ADo & AD2).
      cbn [adj] in ADo. destruct ADo as (E1 & E2 & E3).
      pose proof (inv_ok _ _ _ HI) as OK. rewrite Ebs in OK.
      change (l1' ++ p :: b :: l2) with (l1' ++ [p; b] ++ l2) in OK.
      rewrite !Forall_app in OK. destruct OK as (_ & _ & OK2).
      destruct (adj_bounds _ _ _ AD2 (block_ok_nonneg _ _ OK2)) as [_ BD].
      specialize (BD _ Hx). destruct (blk_ok _ _ _ HI p Hp) as (? & _).
      destruct (blk_ok _ _ _ HI b Hb) as (? & _). lia.
Qed.

Lemma coalesce_left_step st bs Ls l1 b l2 :
  heap_inv st bs Ls -> threaded false bs -> covered bs Ls ->
  bs = l1 ++ b :: l2 ->
  (coalesce_left st (hd b) = st /\ (fr b = false \/ pfr b = false)) \/
  (fr b = true /\ pfr b = true /\
   exists l1' p Ls',
     l1 = l1' ++ [p] /\ fr p = true /\
     heap_inv (coalesce_left st (hd b)) (l1' ++ merged p b :: l2) Ls' /\
     threaded false (l1' ++ merged p b :: l2) /\
     covered (l1' ++ merged p b :: l2) Ls').
Proof.
  intros HI HT HC Ebs.
  destruct (coalesce_left_step_kept st bs Ls l1 b l2 HI HT HC Ebs)
    as [H|(Fb & PFb & l1' & p & Ls' & H1 & H2 & H3 & H4 & H5 & _)]; [left; exact H|].
  right. split; [assumption|]. split; [assumption|]. exists l1', p, Ls'. auto.
Qed.

(** ** [coalesce]: right neighbour first, then left *)

Lemma coalesce_unfold st header :
  coalesce st header =
  coalesce_left (coalesce_left st (Header_get_next_header (mem st) header)) header.
Proof. reflexivity. Qed.

Lemma blk_next_header st bs Ls b n l1 l2 :
  heap_inv st bs Ls -> bs = l1 ++ b :: n :: l2 ->
  Header_get_next_header (mem st) (hd b) = hd n.
Proof.
  intros HI E.
  assert (Hb : In b bs) by (rewrite E; apply in_mid).
  assert (Hn : In n bs) by (rewrite E; apply in_mid2_iff; auto).
  destruct (chain_cut st bs Ls l1 [b; n] l2 HI E) as (A & B & _ & AD & _).
  cbn [adj] in AD. destruct AD as (E1 & E2 & _).
  pose proof (blk_bounds _ _ _ HI b Hb). pose proof (blk_bounds _ _ _ HI n Hn).
  destruct (blk_ok _ _ _ HI b Hb) as (? & _). destruct (blk_ok _ _ _ HI n Hn) as (? & _).
  pose proof (inv_lo _ _ _ HI). pose proof (inv_top _ _ _ HI). pose proof (inv_max _ _ _ HI).
  rewrite (Header_get_next_header_eq _ _ (sz b)); try lia.
  apply (blk_GET_SIZE _ _ _ HI b Hb).
Qed.

(** After the free block [b] is linked in, with no two adjacent free
    blocks except possibly around [b], [coalesce] restores the full
    invariant. *)
Lemma coalesce_ok_kept st bs Ls b :
  heap_inv st bs Ls -> threaded false bs -> covered bs Ls ->
  In b bs -> fr b = true ->
  (forall x, In x bs -> fr x = true -> pfr x = true ->
             hd x = hd b \/ hd x = hd b + 16 + sz b) ->
  exists bs' Ls',
    heap_inv (coalesce st (hd b)) bs' Ls' /\ threaded false bs' /\
    covered bs' Ls' /\ coalesced bs' /\
    (forall h s, ablk bs h s -> ablk bs' h s) /\
    (exists b', In b' bs' /\ fr b' = true /\ sz b <= sz b') /\
    kept none (mem st) (mem (coalesce st (hd b))) bs bs'.
Proof.
  intros HI HT HC Hb Fb Hdef.
  pose proof (blk_free_real _ _ _ HI b Hb Fb) as Rb.
  destruct (blk_next _ _ _ HI b Hb) as (l1 & n & l2 & Ebs & Ehn); [lia|].
  rewrite coalesce_unfold, (blk_next_header _ _ _ _ _ _ _ HI Ebs).
  destruct (chain_cut st bs Ls l1 [b; n] l2 HI Ebs)
    as (A & B & AD1 & ADo & AD2 & _ & _ & _ & BD1 & _ & BD2).
  cbn [adj] in ADo. destruct ADo as (EA & _ & EB).
  assert (Hn : In n bs) by (rewrite Ebs; apply in_mid2_iff; auto).
  destruct (blk_ok _ _ _ HI n Hn) as (Sn & _).
  (* blocks away from [b] and [n] have no free lower neighbour *)
  assert (Hfar : forall x, In x l1 \/ In x l2 -> fr x = true -> pfr x = false).
  { intros x Hx Fx. destruct (pfr x) eqn:PFx; [exfalso|reflexivity].
    assert (Hxb : In x bs) by (rewrite Ebs; apply in_mid2_iff; tauto).
    specialize (Hdef x Hxb Fx PFx).
    destruct Hx as [Hx|Hx]; [specialize (BD1 x Hx)|specialize (BD2 x Hx)];
      destruct (blk_ok _ _ _ HI x Hxb) as (? & _); lia. }
  (* first step: merge with the right neighbour *)
  assert (Step1 : exists st1 bs1 Ls1 b1 l2',
            st1 = coalesce_left st (hd n) /\
            heap_inv st1 bs1 Ls1 /\ threaded false bs1 /\ covered bs1 Ls1 /\
            bs1 = l1 ++ b1 :: l2' /\ hd b1 = hd b /\ fr b1 = true /\
            pfr b1 = pfr b /\ sz b <= sz b1 /\
            (forall x, In x l2' -> fr x = true -> pfr x = false) /\
            (forall h s, ablk bs h s -> ablk bs1 h s) /\
            kept none (mem st) (mem st1) bs bs1).
  { change (l1 ++ b :: n :: l2) with (l1 ++ [b] ++ n :: l2) in Ebs.
    rewrite app_assoc in Ebs.
    destruct (coalesce_left_step_kept st bs Ls (l1 ++ [b]) n l2 HI HT HC Ebs)
      as [[E Hno]|(Fn & PFn & l1' & p & Ls' & El & Fp & HI' & HT' & HC' & K')].
    - exists st, bs, Ls, b, (n :: l2). rewrite E.
      rewrite <- app_assoc in Ebs. cbn [app] in Ebs.
      split_and; auto; try lia; try apply kept_refl.
      intros x [<-|Hx] Fx.
      + destruct Hno as [?|?]; [congruence|assumption].
      + apply Hfar; auto.
    - apply app_inj_tail in El. destruct El as [<- <-].
      exists (coalesce_left st (hd n)), (l1 ++ merged b n :: l2), Ls', (merged b n), l2.
      cbn [merged hd sz fr pfr]. split_and; auto; try lia.
      intros h s. rewrite Ebs, <- app_assoc. cbn [app]. apply ablk_merge; assumption. }
  destruct Step1 as (st1 & bs1 & Ls1 & b1 & l2' & <- & HI1 & HT1 & HC1 & Ebs1 &
                     Ehb1 & Fb1 & PFb1 & Sb1 & Hfar2 & Habl1 & K1).
  rewrite <- Ehb1.
  (* second step: merge with the left neighbour *)
  destruct (coalesce_left_step_kept st1 bs1 Ls1 l1 b1 l2' HI1 HT1 HC1 Ebs1)
    as [[E Hno]|(_ & PF1 & l1' & p & Ls' & El & Fp & HI' & HT' & HC' & K2)].
  - rewrite E. exists bs1, Ls1. split_and; auto.
    + intros x Hx Fx. rewrite Ebs1 in Hx. apply in_mid_iff in Hx.
      destruct Hx as [Hx|[->|Hx]]; auto.
      destruct Hno as [?|?]; [congruence|assumption].
    + exists b1. split; [rewrite Ebs1; apply in_mid|auto].
  - exists (l1' ++ merged p b1 :: l2'), Ls'. split_and; auto.
    + intros x Hx Fx. apply in_mid_iff in Hx.
      destruct Hx as [Hx|[->|Hx]]; auto.
      * apply Hfar; [|assumption]. left. rewrite El. apply in_or_app. auto.
      * cbn [merged pfr]. apply Hfar; [|assumption]. left. rewrite El. apply in_mid.
    + intros h s Ha. apply Habl1 in Ha. rewrite Ebs1, El in Ha.
      rewrite <- app_assoc in Ha. cbn [app] in Ha.
      apply ablk_merge in Ha; assumption.
    + exists (merged p b1). split; [apply in_mid|]. cbn [merged fr sz].
      split; [reflexivity|].
      assert (Hp : In p bs1) by (rewrite Ebs1, El, <- app_assoc; apply in_mid).
      destruct (blk_ok _ _ _ HI1 p Hp) as (? & _). lia.
    + exact (kept_trans _ _ _ _ _ _ _ K1 K2).
Qed.

Lemma coalesce_ok st bs Ls b :
  heap_inv st bs Ls -> threaded false bs -> covered bs Ls ->
  In b bs -> fr b = true ->
  (forall x, In x bs -> fr x = true -> pfr x = true ->
             hd x = hd b \/ hd x = hd b + 16 + sz b) ->
  exists bs' Ls',
    heap_inv (coalesce st (hd b)) bs' Ls' /\ threaded false bs' /\
    covered bs' Ls' /\ coalesced bs' /\
    (forall h s, ablk bs h s -> ablk bs' h s) /\
    (exists b', In b' bs' /\ fr b' = true /\ sz b <= sz b').
Proof.
  intros HI HT HC Hb Fb Hdef.
  destruct (coalesce_ok_kept st bs Ls b HI HT HC Hb Fb Hdef)
    as (bs' & Ls' & H1 & H2 & H3 & H4 & H5 & H6 & _).
  exists bs', Ls'. split_and; assumption.
Qed.


(* ================================================================== *)
(** * [free] *)
(* ================================================================== *)

Lemma in_drop p q live : In q (drop p live) <-> In q live /\ q <> p.
Proof.
  unfold drop. rewrite filter_In. split; intros [H1 H2]; split; auto.
  - intros ->. rewrite Z.eqb_refl in H2. discriminate.
  - destruct (Z.eqb_spec q p); [contradiction|reflexivity].
Qed.

(** The three tag writes of [free]: the block becomes free, its footer
    mirrors its header, and the upper neighbour learns about it. *)
Lemma free_mark_kept st bs Ls l1 b n l2 :
  heap_inv st bs Ls -> bs = l1 ++ b :: n :: l2 -> fr b = false -> 16 <= sz b ->
  let header := hd b in
  let m := SET_FREE_BIT (mem st) header true in
  let m := mirror_header_to_footer m header in
  let next_header := Header_get_next_header m header in
  let m := SET_PREV_BLOCK_FREE_BIT m next_header true in
  heap_inv (set_mem st m) (l1 ++ [set_fr b true; set_pfr n true] ++ l2) Ls /\
  kept (eq (hd b)) (mem st) m bs (l1 ++ [set_fr b true; set_pfr n true] ++ l2).
Proof.
  intros HI Ebs Fb Rb.
  assert (Hb : In b bs) by (rewrite Ebs; apply in_mid).
  assert (Hn : In n bs) by (rewrite Ebs; apply in_mid2_iff; auto).
  destruct (chain_cut st bs Ls l1 [b; n] l2 HI Ebs)
    as (A & B & AD1 & ADo & AD2 & _ & _ & _ & BD1 & _ & BD2).
  cbn [adj] in ADo. destruct ADo as (EA & En & EB). subst A.
  assert (EB' : B = hd n + 16 + sz n) by lia. clear EB. subst B.
  pose proof (blk_bounds _ _ _ HI b Hb) as Bb. pose proof (blk_bounds _ _ _ HI n Hn) as Bn.
  pose proof (blk_size _ _ _ HI b Hb) as [Sb Mb].
  pose proof (blk_size _ _ _ HI n Hn) as [Sn Mn].
  pose proof (inv_lo _ _ _ HI) as LO. pose proof (inv_top _ _ _ HI) as TOP.
  pose proof (inv_max _ _ _ HI) as MAX.
  cbv zeta.
  rewrite (SET_FREE_BIT_tag _ _ (sz b) (fr b) (pfr b)); try assumption;
    [|apply (blk_header _ _ _ HI b Hb)].
  set (m1 := store64 (mem st) (hd b) (tag (sz b) true (pfr b))).
  assert (H1 : load64 m1 (hd b) = tag (sz b) true (pfr b)).
  { apply load64_store64_eq. apply tag_range; auto using mod16_mod4. }
  unfold mirror_header_to_footer.
  rewrite (Header_get_footer_eq m1 (hd b) (sz b)); try lia;
    [|eapply GET_SIZE_tag; eassumption].
  rewrite (GET_SIZE_tag m1 (hd b) (sz b) true (pfr b)),
          (GET_FREE_BIT_tag m1 (hd b) (sz b) true (pfr b)),
          (GET_PREV_BLOCK_FREE_BIT_tag m1 (hd b) (sz b) true (pfr b)) by assumption.
  set (m2 := SET_VALUE m1 (hd b + 8 + sz b) (sz b) true (pfr b)).
  assert (H2 : load64 m2 (hd b) = tag (sz b) true (pfr b)).
  { subst m2. rewrite load64_SET_VALUE_other by lia. assumption. }
  rewrite (Header_get_next_header_eq m2 (hd b) (sz b)); try lia;
    [|eapply GET_SIZE_tag; eassumption].
  replace (hd b + 16 + sz b) with (hd n) by lia.
  assert (H2n : load64 m2 (hd n) = tag (sz n) (fr n) (pfr n)).
  { subst m2 m1. rewrite load64_SET_VALUE_other, load64_store64_other by lia.
    apply (blk_header _ _ _ HI n Hn). }
  rewrite (SET_PREV_BLOCK_FREE_BIT_tag _ _ (sz n) (fr n) (pfr n)) by assumption.
  set (m3 := store64 m2 (hd n) (tag (sz n) (fr n) true)).
  assert (Hfr : forall a, (forall w, In w [hd b; hd b + 8 + sz b; hd n] ->
                                     a + 8 <= w \/ w + 8 <= a) ->
                          load64 m3 a = load64 (mem st) a).
  { intros a Ha. subst m3 m2 m1.
    pose proof (Ha (hd b) (or_introl eq_refl)).
    pose proof (Ha (hd b + 8 + sz b) (or_intror (or_introl eq_refl))).
    pose proof (Ha (hd n) (or_intror (or_intror (or_introl eq_refl)))).
    rewrite load64_store64_other, load64_SET_VALUE_other, load64_store64_other by lia.
    reflexivity. }
  split.
  2:{ apply (kept_stretch _ _ _ HI (eq (hd b)) l1 [b; n] [set_fr b true; set_pfr n true] l2 m3
               (hd b) (hd n + 16 + sz n)); try assumption.
      - intros x Hx _. subst m3 m2 m1.
        rewrite store64_other, SET_VALUE_other, store64_other by lia. reflexivity.
      - intros h s (c & [<-|[<-|[]]] & Eh & Es & Fc & Rc) NX; [contradiction|].
        split.
        + exists (set_pfr n true). cbn [set_pfr hd sz fr In]. split_and; auto.
        + intros x Hx. subst m3 m2 m1.
          rewrite store64_other, SET_VALUE_other, store64_other by lia. reflexivity.
      - intros _ x [<-|[<-|[]]] _ PFx; cbn [set_fr set_pfr hd sz pfr] in *;
          [|discriminate].
        subst m3. rewrite !load64_store64_other by lia. rewrite H2.
        apply load64_SET_VALUE_same; assumption. }
  apply (heap_inv_replace st bs Ls l1 [b; n] [set_fr b true; set_pfr n true] l2 m3
           [hd b; hd b + 8 + sz b; hd n] (hd b) (hd n + 16 + sz n)); try assumption.
  - cbn [adj set_fr set_pfr hd sz]. split_and; lia.
  - intros w Hw. cbn [In] in Hw. destruct Hw as [<-|[<-|[<-|[]]]]; lia.
  - constructor; [|constructor; [|constructor]].
    + unfold block_ok, set_fr; cbn [hd sz fr]. split_and; (lia || assumption).
    + destruct (blk_ok _ _ _ HI n Hn) as (? & ? & ?).
      unfold block_ok, set_pfr; cbn [hd sz fr]. auto.
  - constructor; [|constructor; [|constructor]].
    + unfold block_mem, set_fr; cbn [hd sz fr pfr]. split.
      * subst m3. rewrite load64_store64_other by lia. assumption.
      * intros _. eapply (GET_SIZE_tag _ _ (sz b) true (pfr b)); try assumption.
        subst m3. rewrite load64_store64_other by lia.
        apply load64_SET_VALUE_same; assumption.
    + unfold block_mem, set_pfr; cbn [hd sz fr pfr]. split.
      * apply load64_store64_eq. apply tag_range; auto using mod16_mod4.
      * intros Fn. destruct (blk_mem _ _ _ HI n Hn) as [_ Hft].
        rewrite (GET_SIZE_same (mem st) m3); [exact (Hft Fn)|]. apply Hfr.
        intros w Hw. cbn [In] in Hw. destruct Hw as [<-|[<-|[<-|[]]]]; lia.
  - intros i y Hy w Hw. destruct (node_block _ _ _ HI _ _ Hy) as (x & Hx & -> & _ & Hsx & _).
    cbn [In] in Hw. destruct Hw as [<-|[<-|[<-|[]]]].
    + pose proof (header_off_nodes _ _ _ HI b x Hb Hx Hsx). lia.
    + pose proof (footer_off_nodes _ _ _ HI b x Hb Hx Hsx). lia.
    + pose proof (header_off_nodes _ _ _ HI n x Hn Hx Hsx). lia.
  - intros i y Hy. destruct (inv_sub _ _ _ HI _ _ Hy) as (s & (x & Hx & Hh & Hs & Hf) & Hk).
    exists s. split; [|assumption].
    rewrite Ebs in Hx. apply in_mid2_iff in Hx.
    destruct Hx as [Hx|[->|[->|Hx]]].
    + exists x. split_and; auto. rewrite !in_app_iff. auto.
    + congruence.
    + exists (set_pfr n true). split_and; auto.
      rewrite !in_app_iff. cbn [In]. tauto.
    + exists x. split_and; auto. rewrite !in_app_iff. auto.
  - destruct (inv_epi _ _ _ HI) as (e & He & Ehd).
    rewrite Ebs in He. apply in_mid2_iff in He.
    destruct He as [He|[->|[->|He]]].
    + exists e. rewrite !in_app_iff. auto.
    + lia.
    + exists (set_pfr n true). rewrite !in_app_iff. cbn [In]. tauto.
    + exists e. rewrite !in_app_iff. auto.
Qed.

Lemma free_mark st bs Ls l1 b n l2 :
  heap_inv st bs Ls -> bs = l1 ++ b :: n :: l2 -> fr b = false -> 16 <= sz b ->
  let header := hd b in
  let m := SET_FREE_BIT (mem st) header true in
  let m := mirror_header_to_footer m header in
  let next_header := Header_get_next_header m header in
  let m := SET_PREV_BLOCK_FREE_BIT m next_header true in
  heap_inv (set_mem st m) (l1 ++ [set_fr b true; set_pfr n true] ++ l2) Ls.
Proof.
  intros HI Ebs Fb Rb. exact (proj1 (free_mark_kept st bs Ls l1 b n l2 HI Ebs Fb Rb)).
Qed.

Lemma threaded_mark l1 b n l2 :
  threaded false (l1 ++ b :: n :: l2) ->
  threaded false (l1 ++ [set_fr b true; set_pfr n true] ++ l2).
Proof.
  rewrite !threaded_app. cbn [threaded app set_fr set_pfr fr pfr fold_left].
  intros (H1 & H2 & H3 & H4). auto.
Qed.

Lemma payload_header st bs Ls b :
  heap_inv st bs Ls -> In b bs -> Payload_get_header (hd b + 8) = hd b.
Proof.
  intros HI Hb. pose proof (blk_bounds _ _ _ HI b Hb).
  destruct (blk_ok _ _ _ HI b Hb) as (? & _).
  pose proof (inv_lo _ _ _ HI). pose proof (inv_top _ _ _ HI). pose proof (inv_max _ _ _ HI).
  rewrite Payload_get_header_eq by lia. lia.
Qed.

(** [free] of an allocated block keeps the invariant and the other
    allocated blocks. *)
Lemma free_kept st bs Ls b :
  heap_inv st bs Ls -> threaded false bs -> covered bs Ls -> coalesced bs ->
  In b bs -> fr b = false -> 16 <= sz b ->
  exists bs' Ls',
    heap_inv (free st (hd b + 8)) bs' Ls' /\ threaded false bs' /\
    covered bs' Ls' /\ coalesced bs' /\
    kept (eq (hd b)) (mem st) (mem (free st (hd b + 8))) bs bs' /\
    (exists b', In b' bs' /\ fr b' = true /\ sz b <= sz b').
Proof.
  intros HI HT HC HCo Hb Fb Rb.
  destruct (blk_next _ _ _ HI b Hb) as (l1 & n & l2 & Ebs & Ehn); [lia|].
  pose proof (free_mark_kept st bs Ls l1 b n l2 HI Ebs Fb Rb) as HI3. cbv zeta in HI3.
  unfold free. rewrite (payload_header _ _ _ _ HI Hb). cbv zeta.
  set (m3 := SET_PREV_BLOCK_FREE_BIT _ _ true) in *.
  set (bs3 := l1 ++ [set_fr b true; set_pfr n true] ++ l2) in *.
  destruct HI3 as [HI3 K3].
  assert (HT3 : threaded false bs3) by (apply threaded_mark; rewrite <- Ebs; assumption).
  assert (Hb3 : In (set_fr b true) bs3).
  { subst bs3. rewrite !in_app_iff. cbn [In]. tauto. }
  assert (Hnin : ~ In (hd (set_fr b true) + 8)
                      (Ls (Segregated_get_bucket (sz (set_fr b true))))).
  { cbn [set_fr hd sz]. intros H.
    destruct (node_of_block _ _ _ HI _ _ Hb H) as [F _]. congruence. }
  destruct (seg_insert _ _ _ HI3 _ Hb3 eq_refl Hnin) as (Ls4 & HI4 & M4 & _).
  pose proof (seg_insert_kept _ _ _ HI3 none _ Hb3 eq_refl) as K4.
  cbn [set_fr hd sz mem set_mem] in HI4, M4, K4.
  (* free blocks of the new chain *)
  assert (Hblocks : forall x, In x bs3 ->
            x = set_fr b true \/ x = set_pfr n true \/
            (In x bs /\ hd x <> hd b /\ hd x <> hd n)).
  { intros x Hx. subst bs3. rewrite !in_app_iff in Hx. cbn [In] in Hx.
    destruct (chain_cut st bs Ls l1 [b; n] l2 HI Ebs)
      as (A & B & _ & ADo & _ & _ & _ & _ & BD1 & _ & BD2).
    cbn [adj] in ADo. destruct ADo as (EA & En & EB).
    assert (Hn : In n bs) by (rewrite Ebs; apply in_mid2_iff; auto).
    destruct (blk_ok _ _ _ HI b Hb) as (? & _). destruct (blk_ok _ _ _ HI n Hn) as (? & _).
    destruct Hx as [Hx|[[<-|[<-|[]]]|Hx]]; auto; right; right.
    - specialize (BD1 x Hx). split; [rewrite Ebs; apply in_mid2_iff; auto|].
      assert (0 <= sz x).
      { assert (Hxb : In x bs) by (rewrite Ebs; apply in_mid2_iff; auto).
        destruct (blk_ok _ _ _ HI x Hxb) as (? & _). assumption. }
      lia.
    - specialize (BD2 x Hx). split; [rewrite Ebs; apply in_mid2_iff; auto|].
      lia. }
  assert (HC4 : covered bs3 Ls4).
  { intros h s (x & Hx & Hh & Hs & Hf). apply M4.
    destruct (Hblocks x Hx) as [->|[->|(Hxb & _)]].
    - right. cbn [set_fr hd sz] in *. subst h s. auto.
    - left. cbn [set_pfr hd sz fr] in *. apply HC. exists n.
      split_and; auto. rewrite Ebs. apply in_mid2_iff. auto.
    - left. apply HC. exists x. auto. }
  assert (Hdef : forall x, In x bs3 -> fr x = true -> pfr x = true ->
            hd x = hd (set_fr b true) \/
            hd x = hd (set_fr b true) + 16 + sz (set_fr b true)).
  { intros x Hx Fx PFx. cbn [set_fr hd sz].
    destruct (Hblocks x Hx) as [->|[->|(Hxb & _)]].
    - left; reflexivity.
    - right. cbn [set_pfr hd]. lia.
    - rewrite (HCo x Hxb Fx) in PFx. discriminate. }
  destruct (coalesce_ok_kept _ _ _ _ HI4 HT3 HC4 Hb3 eq_refl Hdef)
    as (bs' & Ls' & HI' & HT' & HC' & HCo' & _ & Hbig & K5).
  cbn [set_fr hd sz] in HI', K5, Hbig.
  exists bs', Ls'. split_and; try assumption.
  apply (kept_trans _ _ _ _ _ _ _ K3).
  apply (kept_weaken none); [intros h []|].
  exact (kept_trans _ _ _ _ _ _ _ K4 K5).
Qed.

(** [free] of a live pointer keeps the invariant. *)
Lemma free_ok st live p :
  heap_ok st live -> In p live -> heap_ok (free st p) (drop p live).
Proof.
  intros (bs & Ls & HI & HT & HC & HCo & Hlive) Hp.
  destruct (Hlive p Hp) as (s & b & Hb & Ehd & Esz & Fb & Rb). subst s.
  assert (Ep : p = hd b + 8) by lia. subst p.
  destruct (free_kept st bs Ls b HI HT HC HCo Hb Fb Rb)
    as (bs' & Ls' & HI' & HT' & HC' & HCo' & [K _] & _).
  exists bs', Ls'. split_and; try assumption.
  intros q Hq. apply in_drop in Hq. destruct Hq as [Hq Hne].
  destruct (Hlive q Hq) as (s & Hs). exists s. apply K; [assumption|]. lia.
Qed.

(* ================================================================== *)
(** * Request sizing *)
(* ================================================================== *)

Lemma Payload_min_size_eq : Payload_min_size = 16.
Proof. reflexivity. Qed.

Lemma Block_min_size_eq : Block_min_size = 32.
Proof. reflexivity. Qed.

(** [align] rounds up to a multiple of 16 as long as [x + 15] does not
    overflow. *)
Lemma align_eq x : 0 <= x -> x + 15 < 2 ^ 64 -> align x = 16 * ((x + 15) / 16).
Proof.
  intros H0 H1. unfold align, ALIGNMENT.
  replace (x + 16 - 1) with (x + 15) by lia.
  rewrite (wrap_small (x + 15)) by lia.
  apply wrap_small.
  pose proof (Z.mul_div_le (x + 15) 16 ltac:(lia)).
  assert (0 <= (x + 15) / 16) by (apply Z.div_pos; lia). lia.
Qed.

(** [align (n - 8)] with the wrapping subtraction, for every request that
    does not make [x + 15] overflow. *)
Lemma align_request n :
  0 <= n <= 2 ^ 64 - 8 -> align (wrap (n - 8)) = 16 * ((n + 7) / 16).
Proof.
  intros Hn. destruct (Z_lt_le_dec n 8) as [Hlt|Hge].
  - (* the subtraction wraps, and so does the addition in [align] *)
    unfold align, ALIGNMENT, wrap.
    replace ((n - 8) mod 2 ^ 64) with (2 ^ 64 + n - 8).
    2:{ apply Z.mod_unique with (q := -1); lia. }
    replace ((2 ^ 64 + n - 8 + 16 - 1) mod 2 ^ 64) with (n + 7).
    2:{ apply Z.mod_unique with (q := 1); lia. }
    rewrite (Z.div_small (n + 7)) by lia. reflexivity.
  - rewrite (wrap_small (n - 8)) by lia. rewrite align_eq by lia.
    replace (n - 8 + 15) with (n + 7) by lia. reflexivity.
Qed.

Lemma required_payload_size_eq n :
  0 <= n <= 2 ^ 64 - 8 ->
  required_payload_size n = Z.max 16 (16 * ((n + 7) / 16)).
Proof.
  intros Hn. unfold required_payload_size. rewrite align_request by assumption.
  rewrite Payload_min_size_eq.
  destruct (Z.ltb_spec 16 (16 * ((n + 7) / 16))); lia.
Qed.

Lemma search_size_of_eq n : search_size_of n = required_payload_size n.
Proof.
  unfold search_size_of, required_payload_size. rewrite Payload_min_size_eq.
  destruct (Z.leb_spec 16 (align (wrap (n - 8)))), (Z.ltb_spec 16 (align (wrap (n - 8)))); lia.
Qed.

(** What the placement code relies on, for a request below the overflow
    range. *)
Lemma required_payload_size_facts n :
  0 <= n <= 2 ^ 64 - 24 ->
  let need := required_payload_size n in
  16 <= need /\ need mod 16 = 0 /\ n <= need + 8 /\ need + 32 <= 2 ^ 64 /\
  (forall s, s mod 16 = 0 -> n <= s + 8 -> 16 <= s -> need <= s).
Proof.
  intros Hn need. subst need. rewrite required_payload_size_eq by lia.
  pose proof (Z.div_mod (n + 7) 16 ltac:(lia)) as E.
  pose proof (Z.mod_pos_bound (n + 7) 16 ltac:(lia)) as B.
  assert (Hm : Z.max 16 (16 * ((n + 7) / 16)) mod 16 = 0).
  { destruct (Z.max_spec 16 (16 * ((n + 7) / 16))) as [[_ ->]|[_ ->]];
      [rewrite Z.mul_comm; apply Z.mod_mul; lia|reflexivity]. }
  split_and; try lia.
  intros s Hs Hle H16.
  pose proof (Z.div_mod s 16 ltac:(lia)) as E3. rewrite Hs in E3.
  assert ((n + 7) / 16 <= s / 16).
  { apply Z.lt_succ_r. apply Z.div_lt_upper_bound; lia. }
  lia.
Qed.

(** For every request the size computed is a multiple of 16, at least
    16, and no block smaller than it could hold the request. *)
Lemma align_shape x : 0 <= align x <= 2 ^ 64 - 16 /\ align x mod 16 = 0.
Proof.
  unfold align, ALIGNMENT. set (k := wrap (x + 16 - 1) / 16).
  assert (Hm : wrap (16 * k) mod 16 = 0).
  { unfold wrap. change (2 ^ 64) with (16 * 2 ^ 60).
    rewrite Z.mul_mod_distr_l by lia. rewrite Z.mul_comm. apply Z.mod_mul. lia. }
  pose proof (wrap_range (16 * k)) as R.
  pose proof (Z.div_mod (wrap (16 * k)) 16 ltac:(lia)) as E. rewrite Hm in E.
  split; [|assumption]. lia.
Qed.

Lemma required_payload_size_shape n :
  16 <= required_payload_size n <= 2 ^ 64 - 16 /\ required_payload_size n mod 16 = 0.
Proof.
  unfold required_payload_size. rewrite Payload_min_size_eq.
  destruct (align_shape (wrap (n - 8))) as [R M].
  destruct (Z.ltb_spec 16 (align (wrap (n - 8)))); [split; [lia|assumption]|].
  split; [lia|reflexivity].
Qed.

Lemma required_payload_size_min n s :
  0 <= n < 2 ^ 64 -> s mod 16 = 0 -> 16 <= s < 2 ^ 64 -> n <= s + 8 ->
  required_payload_size n <= s.
Proof.
  intros Hn Hs Rs Hle.
  pose proof (Z.div_mod s 16 ltac:(lia)) as Es. rewrite Hs in Es.
  assert (Hs16 : s <= 2 ^ 64 - 16).
  { assert (s / 16 < 2 ^ 60) by (apply Z.div_lt_upper_bound; lia). lia. }
  destruct (Z_le_gt_dec n (2 ^ 64 - 24)) as [Hsane|Hbig].
  - destruct (required_payload_size_facts n (conj (proj1 Hn) Hsane)) as (_ & _ & _ & _ & Nmin).
    apply Nmin; assumption || lia.
  - destruct (required_payload_size_shape n) as [R _]. lia.
Qed.

(* ================================================================== *)
(** * Heap extension *)
(* ================================================================== *)

Lemma brk_aligned st bs Ls : heap_inv st bs Ls -> brk st mod 16 = 0.
Proof.
  intros HI. destruct (inv_epi _ _ _ HI) as (e & He & Ehd).
  pose proof (blk_align _ _ _ HI e He) as A.
  pose proof (Z.div_mod (hd e) 16 ltac:(lia)) as E. rewrite A in E.
  replace (brk st) with ((hd e / 16 + 1) * 16) by lia. apply Z.mod_mul. lia.
Qed.

(** The chain after the old epilogue has become a free block of payload
    [need] and a new epilogue has been written behind it. *)
Lemma heap_inv_extend st bs Ls l e need m3 :
  heap_inv st bs Ls -> bs = l ++ [e] -> hd e = brk st - 8 ->
  16 <= need -> need mod 16 = 0 -> brk st + need + 16 <= mem_max st ->
  load64 m3 (hd e) = tag need true (pfr e) ->
  GET_SIZE m3 (hd e + 8 + need) = need ->
  load64 m3 (hd e + 16 + need) = tag 0 false true ->
  (forall a, a + 8 <= hd e -> load64 m3 a = load64 (mem st) a) ->
  heap_inv (mkState m3 (heap st) (freelists st) (brk st + need + 16) (mem_max st))
           (l ++ [mkBlock (hd e) need true (pfr e);
                  mkBlock (hd e + 16 + need) 0 false true]) Ls.
Proof.
  intros HI Ebs Ehd R16 Rm Hroom Hh Hf He Hfr.
  assert (Hin : In e bs) by (rewrite Ebs; apply in_or_app; right; left; reflexivity).
  pose proof (blk_bounds _ _ _ HI e Hin) as Be.
  destruct (blk_ok _ _ _ HI e Hin) as (Se & _).
  destruct (chain_cut st bs Ls l [e] [] HI Ebs)
    as (A & B & AD1 & ADo & _ & _ & _ & _ & BD1 & _ & _).
  cbn [adj] in ADo. destruct ADo as (EA & _). subst A.
  assert (Hl : forall x, In x l -> In x bs) by (intros x Hx; rewrite Ebs; apply in_or_app; auto).
  constructor; cbn [heap brk mem_max mem freelists]; try apply HI.
  - assumption.
  - rewrite Hfr; [apply HI|]. lia.
  - apply adj_app. exists (hd e). split; [assumption|]. cbn [adj hd sz]. lia.
  - eexists. split; [apply in_or_app; right; right; left; reflexivity|]. cbn [hd]. lia.
  - rewrite Forall_app. split.
    + apply Forall_forall. intros x Hx. destruct (blk_ok _ _ _ HI x (Hl x Hx)) as (H0 & Hm & Hz).
      split; [assumption|]. split; [assumption|]. intros Z0.
      exfalso. specialize (BD1 x Hx). destruct (Hz Z0). lia.
    + constructor; [|constructor; [|constructor]]; unfold block_ok; cbn [hd sz fr].
      * split_and; (lia || assumption).
      * split_and; try lia; reflexivity.
  - rewrite Forall_app. split.
    + apply Forall_forall. intros x Hx. specialize (BD1 x Hx).
      destruct (blk_ok _ _ _ HI x (Hl x Hx)) as (H0 & _).
      apply (block_mem_frame (mem st)).
      * apply Hfr. lia.
      * intros _. apply Hfr. lia.
      * apply (blk_mem _ _ _ HI x (Hl x Hx)).
    + constructor; [|constructor; [|constructor]]; unfold block_mem; cbn [hd sz fr pfr].
      * split; auto.
      * split; [assumption|discriminate].
  - apply (lists_ok_frame (mem st)); [apply HI|].
    intros i y Hy. destruct (node_block _ _ _ HI _ _ Hy) as (x & Hx & -> & Fx & Hsx & _).
    rewrite Ebs in Hx. apply in_app_or in Hx. destruct Hx as [Hx|[<-|[]]].
    + specialize (BD1 x Hx). split; apply Hfr; lia.
    + destruct (epilogue_last _ _ _ HI) as (l' & e' & El & _ & _ & Fe).
      rewrite Ebs in El. apply app_inj_tail in El. destruct El as [_ <-]. congruence.
  - intros i y Hy. destruct (inv_sub _ _ _ HI _ _ Hy) as (s & (x & Hx & Hhx & Hs & Fx) & Hk).
    exists s. split; [|assumption]. exists x. split_and; auto.
    rewrite Ebs in Hx. apply in_app_or in Hx. destruct Hx as [Hx|[<-|[]]].
    + apply in_or_app. auto.
    + exfalso. destruct (epilogue_last _ _ _ HI) as (l' & e' & El & _ & _ & Fe).
      rewrite Ebs in El. apply app_inj_tail in El. destruct El as [_ <-]. congruence.
Qed.

Lemma extend_memory_fail st size :
  let incr := wrap (wrap (required_payload_size size + Footer_size) + Header_size) in
  mem_max st < brk st + incr ->
  extend_memory st size = (st, false).
Proof.
  intros incr H. unfold extend_memory, mm_sbrk. fold incr.
  destruct (Z.leb_spec (brk st + incr) (mem_max st)); [lia|].
  rewrite Z.eqb_refl. reflexivity.
Qed.

Lemma extend_memory_ok_kept st bs Ls n :
  heap_inv st bs Ls -> threaded false bs -> covered bs Ls -> coalesced bs ->
  0 <= n <= 2 ^ 64 - 24 ->
  brk st + required_payload_size n + 16 <= mem_max st ->
  exists st' bs' Ls',
    extend_memory st n = (st', true) /\
    heap_inv st' bs' Ls' /\ threaded false bs' /\ covered bs' Ls' /\ coalesced bs' /\
    (forall h s, ablk bs h s -> ablk bs' h s) /\
    (exists b', In b' bs' /\ fr b' = true /\ required_payload_size n <= sz b') /\
    heap st' = heap st /\ brk st' = brk st + required_payload_size n + 16 /\
    mem_max st' = mem_max st /\
    kept none (mem st) (mem st') bs bs'.
Proof.
  intros HI HT HC HCo Hn Hroom.
  destruct (required_payload_size_facts n Hn) as (N16 & Nm & _ & Nmax & _).
  set (need := required_payload_size n) in *.
  destruct (epilogue_last _ _ _ HI) as (l & e & Ebs & Ehd & Esz & Fe).
  assert (Hin : In e bs) by (rewrite Ebs; apply in_or_app; right; left; reflexivity).
  pose proof (blk_bounds _ _ _ HI e Hin) as Be.
  pose proof (inv_lo _ _ _ HI) as LO. pose proof (inv_top _ _ _ HI) as TOP.
  pose proof (inv_max _ _ _ HI) as MAX.
  pose proof (brk_aligned _ _ _ HI) as BA.
  unfold extend_memory. fold need. unfold Footer_size, Header_size, mm_sbrk.
  rewrite (wrap_small (need + 8)), (wrap_small (need + 8 + 8)) by lia.
  replace (need + 8 + 8) with (need + 16) by lia.
  destruct (Z.leb_spec (brk st + (need + 16)) (mem_max st)) as [_|]; [|lia].
  destruct (Z.eqb_spec (brk st) SBRK_FAIL) as [E|_].
  { exfalso. rewrite E in BA. discriminate BA. }
  cbn [mem].
  rewrite Payload_get_header_eq by lia. rewrite <- Ehd.
  rewrite (blk_GET_PREV_BLOCK_FREE_BIT _ _ _ HI e Hin).
  set (st1 := mkState (mem st) (heap st) (freelists st) (brk st + (need + 16)) (mem_max st)).
  set (m1 := SET_VALUE (mem st) (hd e) need true (pfr e)).
  assert (H1 : load64 m1 (hd e) = tag need true (pfr e)).
  { apply load64_SET_VALUE_same; [lia|assumption]. }
  rewrite (Header_get_footer_eq m1 (hd e) need); try lia;
    [|eapply GET_SIZE_tag; try eassumption; lia].
  set (m2 := SET_VALUE m1 (hd e + 8 + need) need true (pfr e)).
  assert (H2 : load64 m2 (hd e) = tag need true (pfr e)).
  { subst m2. rewrite load64_SET_VALUE_other by lia. assumption. }
  rewrite (Header_get_next_header_eq m2 (hd e) need); try lia;
    [|eapply GET_SIZE_tag; try eassumption; lia].
  set (m3 := SET_VALUE m2 (hd e + 16 + need) 0 false true).
  set (nb := mkBlock (hd e) need true (pfr e)).
  set (e' := mkBlock (hd e + 16 + need) 0 false true).
  assert (HI3 : heap_inv (set_mem st1 m3) (l ++ [nb; e']) Ls).
  { replace (set_mem st1 m3) with
      (mkState m3 (heap st) (freelists st) (brk st + need + 16) (mem_max st))
      by (unfold set_mem, st1; cbn; f_equal; lia).
    apply (heap_inv_extend st bs Ls l e need m3); try assumption.
    - subst m3. rewrite load64_SET_VALUE_other by lia. assumption.
    - eapply (GET_SIZE_tag _ _ need true (pfr e)); try assumption; try lia.
      subst m3. rewrite load64_SET_VALUE_other by lia.
      apply load64_SET_VALUE_same; [lia|assumption].
    - apply load64_SET_VALUE_same; [lia|reflexivity].
    - intros a Ha. subst m3 m2 m1. rewrite !load64_SET_VALUE_other by lia. reflexivity. }
  assert (K3 : kept none (mem st) m3 bs (l ++ [nb; e'])).
  { destruct (chain_cut st bs Ls l [e] [] HI Ebs)
      as (A & B & _ & ADo & _ & _ & _ & _ & BD1 & _ & _).
    cbn [adj] in ADo. destruct ADo as (EA & _). subst A.
    assert (F3 : forall x, x < hd e -> m3 x = mem st x).
    { intros x Hx. subst m3 m2 m1. rewrite !SET_VALUE_other by lia. reflexivity. }
    split.
    - intros h s (c & Hc & Eh & Es & Fc & Rc) _.
      rewrite Ebs in Hc. apply in_app_or in Hc. destruct Hc as [Hc|[<-|[]]]; [|lia].
      specialize (BD1 c Hc). split.
      + exists c. split_and; auto. apply in_or_app. auto.
      + intros x Hx. apply F3. lia.
    - intros HM x Hx Fx PFx. apply in_app_or in Hx.
      destruct Hx as [Hx|[<-|[<-|[]]]]; [| |discriminate Fx].
      + assert (Hxb : In x bs) by (rewrite Ebs; apply in_or_app; auto).
        specialize (BD1 x Hx). specialize (HM x Hxb Fx PFx).
        destruct (blk_ok _ _ _ HI x Hxb) as (? & _).
        rewrite (load64_ext m3 (mem st) (hd x + 8 + sz x)),
                (load64_ext m3 (mem st) (hd x)); [assumption| |];
          intros y Hy; apply F3; lia.
      + cbn [nb hd sz]. subst m3. rewrite !load64_SET_VALUE_other by lia.
        rewrite H2. apply load64_SET_VALUE_same; [lia|assumption]. }
  assert (HT3 : threaded false (l ++ [nb; e'])).
  { rewrite Ebs in HT. apply threaded_app in HT. apply threaded_app.
    cbn [threaded] in *. subst nb e'. cbn [pfr fr]. tauto. }
  assert (Hnb : In nb (l ++ [nb; e'])) by (apply in_mid).
  assert (Hnin : ~ In (hd nb + 8) (Ls (Segregated_get_bucket (sz nb)))).
  { cbn [nb hd sz]. intros H. destruct (node_of_block _ _ _ HI _ _ Hin H) as [F _]. congruence. }
  destruct (seg_insert _ _ _ HI3 nb Hnb eq_refl Hnin) as (Ls4 & HI4 & M4 & _).
  pose proof (seg_insert_kept _ _ _ HI3 none nb Hnb eq_refl) as K4.
  cbn [nb hd sz mem set_mem] in HI4, M4, K4.
  assert (Hl : forall x, In x l -> In x bs) by (intros x Hx; rewrite Ebs; apply in_or_app; auto).
  assert (HC4 : covered (l ++ [nb; e']) Ls4).
  { intros h s (x & Hx & Hh & Hs & Fx). apply M4.
    apply in_app_or in Hx. destruct Hx as [Hx|[<-|[<-|[]]]].
    - left. apply HC. exists x. auto.
    - right. cbn [nb hd sz] in *. subst h s. auto.
    - discriminate Fx. }
  assert (Hdef : forall x, In x (l ++ [nb; e']) -> fr x = true -> pfr x = true ->
                   hd x = hd nb \/ hd x = hd nb + 16 + sz nb).
  { intros x Hx Fx PFx. apply in_app_or in Hx. destruct Hx as [Hx|[<-|[<-|[]]]].
    - rewrite (HCo x (Hl x Hx) Fx) in PFx. discriminate.
    - left; reflexivity.
    - discriminate Fx. }
  destruct (coalesce_ok_kept _ _ _ _ HI4 HT3 HC4 Hnb eq_refl Hdef)
    as (bs' & Ls' & HI' & HT' & HC' & HCo' & Habl & Hfit & K5).
  cbn [nb hd sz] in HI', Hfit, K5.
  eexists _, bs', Ls'. split; [reflexivity|].
  split_and; try assumption;
    try exact (kept_trans _ _ _ _ _ _ _ K3 (kept_trans _ _ _ _ _ _ _ K4 K5)).
  - intros h s (x & Hx & Hh & Hs & Fx & Rx). apply Habl. exists x. split_and; auto.
    rewrite Ebs in Hx. apply in_app_or in Hx. destruct Hx as [Hx|[<-|[]]].
    + apply in_or_app. auto.
    + lia.
  - destruct (coalesce_region (Segregated_insert_header (set_mem st1 m3) (hd e)) (hd e))
      as (-> & _).
    destruct (Segregated_insert_header_region (set_mem st1 m3) (hd e)) as (-> & _).
    reflexivity.
  - destruct (coalesce_region (Segregated_insert_header (set_mem st1 m3) (hd e)) (hd e))
      as (_ & -> & _).
    destruct (Segregated_insert_header_region (set_mem st1 m3) (hd e)) as (_ & -> & _).
    cbn. lia.
  - destruct (coalesce_region (Segregated_insert_header (set_mem st1 m3) (hd e)) (hd e))
      as (_ & _ & ->).
    destruct (Segregated_insert_header_region (set_mem st1 m3) (hd e)) as (_ & _ & ->).
    reflexivity.
Qed.


Lemma extend_memory_ok st bs Ls n :
  heap_inv st bs Ls -> threaded false bs -> covered bs Ls -> coalesced bs ->
  0 <= n <= 2 ^ 64 - 24 ->
  brk st + required_payload_size n + 16 <= mem_max st ->
  exists st' bs' Ls',
    extend_memory st n = (st', true) /\
    heap_inv st' bs' Ls' /\ threaded false bs' /\ covered bs' Ls' /\ coalesced bs' /\
    (forall h s, ablk bs h s -> ablk bs' h s) /\
    (exists b', In b' bs' /\ fr b' = true /\ required_payload_size n <= sz b') /\
    heap st' = heap st /\ brk st' = brk st + required_payload_size n + 16 /\
    mem_max st' = mem_max st.
Proof.
  intros HI HT HC HCo Hn Hroom.
  destruct (extend_memory_ok_kept st bs Ls n HI HT HC HCo Hn Hroom)
    as (st' & bs' & Ls' & H1 & H2 & H3 & H4 & H5 & H6 & H7 & H8 & H9 & H10 & _).
  exists st', bs', Ls'. split_and; assumption.
Qed.

(* ================================================================== *)
(** * The fit search *)
(* ================================================================== *)

Lemma find_exact_loop_some fl cnt : forall i h,
  find_exact_loop cnt fl i = Some h ->
  exists j, i <= j < 14 /\ fl j <> 0 /\ h = Payload_get_header (fl j) /\
            forall j', i <= j' < j -> fl j' = 0.
Proof.
  induction cnt as [|cnt IH]; intros i h H; cbn [find_exact_loop] in H; [discriminate|].
  destruct (Z.ltb_spec i 14) as [Hi|Hi]; [|discriminate].
  unfold NULL in H. destruct (Z.eqb_spec (fl i) 0) as [E|E].
  - destruct (IH _ _ H) as (j & Hj & Hne & Hh & Hz).
    exists j. split_and; try assumption; try lia.
    intros j' Hj'. destruct (Z.eq_dec j' i) as [->|]; [assumption|apply Hz; lia].
  - inversion H; subst. exists i. split_and; try assumption; try lia; try reflexivity.
Qed.

Lemma find_exact_loop_none fl cnt : forall i,
  find_exact_loop cnt fl i = None -> 14 <= i + Z.of_nat cnt ->
  forall j, i <= j < 14 -> fl j = 0.
Proof.
  induction cnt as [|cnt IH]; intros i H Hc j Hj; cbn [find_exact_loop] in H.
  - cbn in Hc. lia.
  - destruct (Z.ltb_spec i 14) as [Hi|Hi]; [|lia].
    unfold NULL in H. destruct (Z.eqb_spec (fl i) 0) as [E|E]; [|discriminate].
    destruct (Z.eq_dec j i) as [->|]; [assumption|].
    apply (IH (i + 1)); [assumption| |lia]. rewrite Nat2Z.inj_succ in Hc. lia.
Qed.

Lemma bucket_exact s j :
  0 <= s -> s mod 16 = 0 -> 0 <= j < 14 ->
  Segregated_get_bucket s = j -> s = 16 * (j + 1).
Proof.
  intros H0 Hm Hj Hb. rewrite Segregated_get_bucket_spec in Hb by assumption.
  pose proof (Z.div_mod s 16 ltac:(lia)) as E. rewrite Hm in E.
  destruct ((16 <=? s) && (s <=? 224)); lia.
Qed.

Lemma bucket_le s1 s2 :
  16 <= s1 -> s1 mod 16 = 0 -> s2 mod 16 = 0 -> s1 <= s2 -> s2 <= 224 ->
  Segregated_get_bucket s1 <= Segregated_get_bucket s2 < 14.
Proof.
  intros H1 M1 M2 Hle H2. rewrite !Segregated_get_bucket_spec by assumption.
  destruct (Z.leb_spec 16 s1), (Z.leb_spec s1 224), (Z.leb_spec 16 s2), (Z.leb_spec s2 224);
    try lia. cbn [andb].
  pose proof (Z.div_mod s1 16 ltac:(lia)) as E1. rewrite M1 in E1.
  pose proof (Z.div_mod s2 16 ltac:(lia)) as E2. rewrite M2 in E2. lia.
Qed.

Lemma bucket_big s : 224 < s -> Segregated_get_bucket s = 14.
Proof.
  intros H. unfold Segregated_get_bucket, Segregated_get_size_classes.
  cbn [get_bucket_loop].
  repeat (match goal with |- context [?x =? s] => destruct (Z.eqb_spec x s) end; try lia).
Qed.

Lemma firstfit_sound m size L : forall fuel pv h r,
  dlseg m pv h L 0 ->
  find_free_block_explicit_list_firstfit fuel m h size = Some r ->
  r = NULL \/
  exists y, In y L /\ r = y - 8 /\
            (size <=? wrap (GET_SIZE m (y - 8) + Footer_size)) = true.
Proof.
  induction L as [|p L IH]; intros fuel pv h r H Hr.
  - cbn [dlseg] in H. subst h. destruct fuel; [discriminate|].
    cbn in Hr. inversion Hr. left; reflexivity.
  - apply dlseg_cons in H. destruct H as (-> & H0 & H1 & Hp & H).
    destruct fuel as [|fuel]; [discriminate|].
    cbn [find_free_block_explicit_list_firstfit] in Hr.
    unfold NULL in Hr at 1. destruct (Z.eqb_spec p 0) as [E|_]; [lia|].
    rewrite Payload_get_header_eq in Hr by lia.
    destruct (size <=? wrap (GET_SIZE m (p - 8) + Footer_size)) eqn:Hfit.
    + inversion Hr; subst r. right. exists p. split_and; auto. left; reflexivity.
    + unfold DList_next in Hr. rewrite (wrap_small (p + 8)) in Hr by lia.
      destruct (IH _ _ _ _ H Hr) as [?|(y & Hy & ? & ?)]; [left; assumption|].
      right. exists y. split_and; auto. right; assumption.
Qed.

Section Find.
Variables (st : state) (bs : list block) (Ls : Z -> list Z).
Hypothesis HI : heap_inv st bs Ls.

Lemma head_node i : freelists st i <> 0 -> In (freelists st i) (Ls i).
Proof.
  intros H. pose proof (lists_head _ _ (inv_lists _ _ _ HI) i) as E.
  destruct (Ls i); [congruence|]. left. congruence.
Qed.

Lemma empty_list i : freelists st i = 0 -> Ls i = [].
Proof.
  intros H. pose proof (lists_head _ _ (inv_lists _ _ _ HI) i) as E.
  destruct (Ls i) as [|y L] eqn:EL; [reflexivity|].
  assert (Hy : In y (Ls i)) by (rewrite EL; left; reflexivity).
  pose proof (lists_node _ _ (inv_lists _ _ _ HI) _ _ Hy). lia.
Qed.

Lemma node_header i y : In y (Ls i) ->
  exists x, In x bs /\ y = hd x + 8 /\ Payload_get_header y = hd x /\ y - 8 = hd x /\
            fr x = true /\ 16 <= sz x /\ Segregated_get_bucket (sz x) = i.
Proof.
  intros Hy. destruct (node_block _ _ _ HI _ _ Hy) as (x & Hx & -> & Fx & Rx & Bx).
  exists x. split_and; auto; try lia. apply (payload_header _ _ _ _ HI Hx).
Qed.

(** The first-fit test on a node of the index. *)
Lemma fits_node x size :
  In x bs ->
  (size <=? wrap (GET_SIZE (mem st) (hd x) + Footer_size)) = (size <=? sz x + 8).
Proof.
  intros Hx. rewrite (blk_GET_SIZE _ _ _ HI x Hx). unfold Footer_size.
  pose proof (blk_bounds _ _ _ HI x Hx). destruct (blk_ok _ _ _ HI x Hx) as (? & _).
  pose proof (inv_lo _ _ _ HI). pose proof (inv_top _ _ _ HI). pose proof (inv_max _ _ _ HI).
  rewrite wrap_small by lia. reflexivity.
Qed.

(** The search returns, once it has enough fuel for list 14. *)
Lemma find_total fuel size :
  (length (Ls 14%Z) < fuel)%nat ->
  exists h, Segregated_find_free_block fuel st size = Some h.
Proof.
  intros Hf. unfold Segregated_find_free_block.
  destruct (find_exact_loop 14 (freelists st) _) as [h|]; [eauto|].
  cbv zeta. rewrite (firstfit_spec _ _ (Ls 14) fuel 0); [eauto| |assumption].
  apply (lo_dll _ _ _ (inv_lists _ _ _ HI)).
Qed.

(** What it returns is null or a free block of the index that holds the
    request. *)
Lemma find_sound fuel size h :
  0 <= size < 2 ^ 64 ->
  Segregated_find_free_block fuel st size = Some h -> h <> 0 ->
  exists b, In b bs /\ hd b = h /\ fr b = true /\
            required_payload_size size <= sz b /\
            In (hd b + 8) (Ls (Segregated_get_bucket (sz b))).
Proof.
  intros Hn H Hne.
  destruct (required_payload_size_shape size) as ((N16 & Nmax) & Nm).
  pose proof (fun s => required_payload_size_min size s Hn) as Nmin.
  unfold Segregated_find_free_block in H. rewrite search_size_of_eq in H.
  set (need := required_payload_size size) in *.
  destruct (find_exact_loop 14 (freelists st) (Segregated_get_bucket need)) as [h'|] eqn:EX.
  - inversion H; subst h'. clear H.
    destruct (find_exact_loop_some _ _ _ _ EX) as (j & Hj & Hnz & Hh & _).
    pose proof (Segregated_get_bucket_range need) as BR.
    destruct (node_header j _ (head_node j Hnz)) as (x & Hx & Ey & Eh & _ & Fx & Rx & Bx).
    exists x. split_and; try assumption; try congruence.
    + destruct (blk_size _ _ _ HI x Hx) as [Sx Mx].
      pose proof (bucket_exact (sz x) j ltac:(lia) Mx ltac:(lia) Bx) as Es.
      destruct (Z_le_gt_dec need 224) as [Hs|Hb].
      * rewrite Segregated_get_bucket_spec in Hj by assumption.
        destruct (Z.leb_spec 16 need), (Z.leb_spec need 224); try lia. cbn [andb] in Hj.
        pose proof (Z.div_mod need 16 ltac:(lia)) as E. rewrite Nm in E. lia.
      * rewrite bucket_big in Hj by lia. lia.
    + rewrite Bx, <- Ey. apply head_node. assumption.
  - cbv zeta in H.
    destruct (firstfit_sound _ _ _ _ _ _ _ (lo_dll _ _ _ (inv_lists _ _ _ HI) 14) H)
      as [E|(y & Hy & Eh & Hfit)]; [unfold NULL in E; congruence|].
    destruct (node_header 14 y Hy) as (x & Hx & Ey & _ & Ey8 & Fx & Rx & Bx).
    exists x. rewrite Ey8 in Hfit. rewrite (fits_node x size Hx) in Hfit.
    apply Z.leb_le in Hfit. destruct (blk_size _ _ _ HI x Hx) as [Sx Mx].
    split_and; try assumption; try lia.
    + apply Nmin; assumption || lia.
    + rewrite Bx, <- Ey. assumption.
Qed.
End Find.


(* ================================================================== *)
(** * Placement *)
(* ================================================================== *)

Lemma allocate_unfold st header size :
  allocate st header size =
  let need := required_payload_size size in
  mark_allocated
    (if Block_min_size <=? wrap (GET_SIZE (mem st) header - need)
     then split_block st header need else st) header.
Proof. reflexivity. Qed.

(** Unlinking a free block and marking it allocated. *)
Lemma mark_allocated_inv_kept st bs Ls l1 b n l2 :
  heap_inv st bs Ls -> bs = l1 ++ b :: n :: l2 -> fr b = true ->
  In (hd b + 8) (Ls (Segregated_get_bucket (sz b))) ->
  exists Ls',
    heap_inv (fst (mark_allocated st (hd b)))
             (l1 ++ [set_fr b false; set_pfr n false] ++ l2) Ls' /\
    (forall i y, In y (Ls' i) <-> In y (Ls i) /\ y <> hd b + 8) /\
    snd (mark_allocated st (hd b)) = hd b + 8 /\
    ((fr n = true -> pfr n = false) ->
     kept none (mem st) (mem (fst (mark_allocated st (hd b)))) bs
          (l1 ++ [set_fr b false; set_pfr n false] ++ l2)).
Proof.
  intros HI Ebs Fb Hnode.
  assert (Hb : In b bs) by (rewrite Ebs; apply in_mid).
  assert (Hn : In n bs) by (rewrite Ebs; apply in_mid2_iff; auto).
  destruct (seg_remove _ _ _ HI b Hb Hnode) as (Ls1 & HI1 & M1).
  pose proof (Segregated_remove_header_region st (hd b)) as (Rh & Rb & Rm).
  unfold mark_allocated. cbv zeta. cbn [fst snd].
  set (st1 := Segregated_remove_header st (hd b)) in *.
  destruct (chain_cut st1 bs Ls1 l1 [b; n] l2 HI1 Ebs)
    as (A & B & AD1 & ADo & AD2 & _ & _ & _ & BD1 & _ & BD2).
  cbn [adj] in ADo. destruct ADo as (EA & En & EB). subst A.
  assert (EB' : B = hd n + 16 + sz n) by lia. clear EB. subst B.
  pose proof (blk_bounds _ _ _ HI1 b Hb) as Bb. pose proof (blk_bounds _ _ _ HI1 n Hn) as Bn.
  pose proof (blk_size _ _ _ HI1 b Hb) as [Sb Mb].
  pose proof (blk_size _ _ _ HI1 n Hn) as [Sn Mn].
  pose proof (blk_free_real _ _ _ HI1 b Hb Fb) as Rb'.
  pose proof (inv_lo _ _ _ HI1) as LO. pose proof (inv_top _ _ _ HI1) as TOP.
  pose proof (inv_max _ _ _ HI1) as MAX.
  rewrite (blk_next_header _ _ _ _ _ _ _ HI1 Ebs).
  rewrite (SET_FREE_BIT_tag (mem st1) (hd b) (sz b) (fr b) (pfr b)); try assumption;
    [|apply (blk_header _ _ _ HI1 b Hb)].
  set (m1 := store64 (mem st1) (hd b) (tag (sz b) false (pfr b))).
  assert (H1n : load64 m1 (hd n) = tag (sz n) (fr n) (pfr n)).
  { subst m1. rewrite load64_store64_other by lia. apply (blk_header _ _ _ HI1 n Hn). }
  rewrite (SET_PREV_BLOCK_FREE_BIT_tag m1 (hd n) (sz n) (fr n) (pfr n)) by assumption.
  set (m2 := store64 m1 (hd n) (tag (sz n) (fr n) false)).
  assert (H2 : load64 m2 (hd b) = tag (sz b) false (pfr b)).
  { subst m2 m1. rewrite load64_store64_other by lia.
    apply load64_store64_eq. apply tag_range; auto using mod16_mod4. }
  rewrite (Header_get_footer_eq m2 (hd b) (sz b)); try lia;
    [|eapply GET_SIZE_tag; eassumption].
  unfold SET_FREE_BIT at 1. unfold SET_VALUE.
  set (v := tag (GET_SIZE m2 (hd b + 8 + sz b)) false _).
  set (m3 := store64 m2 (hd b + 8 + sz b) v).
  assert (Hfr : forall a, (forall w, In w [hd b; hd n; hd b + 8 + sz b] ->
                                     a + 8 <= w \/ w + 8 <= a) ->
                          load64 m3 a = load64 (mem st1) a).
  { intros a Ha. subst m3 m2 m1.
    pose proof (Ha (hd b) (or_introl eq_refl)).
    pose proof (Ha (hd n) (or_intror (or_introl eq_refl))).
    pose proof (Ha (hd b + 8 + sz b) (or_intror (or_intror (or_introl eq_refl)))).
    rewrite !load64_store64_other by lia. reflexivity. }
  exists Ls1. split; [|split; [assumption|split]].
  2:{ apply Header_get_payload_eq; lia. }
  2:{ intros Hcond. cbn [mem set_mem].
      apply (kept_trans _ _ _ _ _ _ _ (seg_remove_kept _ _ _ HI none b Hb Hnode)).
      fold st1.
      apply (kept_stretch _ _ _ HI1 none l1 [b; n] [set_fr b false; set_pfr n false] l2 m3
               (hd b) (hd n + 16 + sz n)); try assumption.
      - intros x Hx _. subst m3 m2 m1. rewrite !store64_other by lia. reflexivity.
      - intros h s (c & [<-|[<-|[]]] & Eh & Es & Fc & Rc) _; [congruence|].
        split.
        + exists (set_pfr n false). cbn [set_pfr hd sz fr In]. split_and; auto.
        + intros x Hx. subst m3 m2 m1. rewrite !store64_other by lia. reflexivity.
      - intros HM x [<-|[<-|[]]] Fx PFx; cbn [set_fr set_pfr hd sz fr pfr] in *;
          [discriminate|].
        pose proof (Hcond Fx) as PFn. specialize (HM n Hn Fx PFn).
        pose proof (blk_free_real _ _ _ HI1 n Hn Fx) as Rn.
        rewrite Hfr.
        2:{ intros w Hw. cbn [In] in Hw. destruct Hw as [<-|[<-|[<-|[]]]]; lia. }
        rewrite HM, (blk_header _ _ _ HI1 n Hn), PFn.
        subst m3 m2. rewrite load64_store64_other by lia.
        symmetry. apply load64_store64_eq. apply tag_range; auto using mod16_mod4. }
  apply (heap_inv_replace st1 bs Ls1 l1 [b; n] [set_fr b false; set_pfr n false] l2 m3
           [hd b; hd n; hd b + 8 + sz b] (hd b) (hd n + 16 + sz n)); try assumption.
  - cbn [adj set_fr set_pfr hd sz]. split_and; lia.
  - intros w Hw. cbn [In] in Hw. destruct Hw as [<-|[<-|[<-|[]]]]; lia.
  - constructor; [|constructor; [|constructor]].
    + unfold block_ok, set_fr; cbn [hd sz fr]. split_and; (lia || assumption).
    + destruct (blk_ok _ _ _ HI1 n Hn) as (? & ? & ?).
      unfold block_ok, set_pfr; cbn [hd sz fr]. auto.
  - constructor; [|constructor; [|constructor]].
    + unfold block_mem, set_fr; cbn [hd sz fr pfr]. split; [|discriminate].
      subst m3. rewrite load64_store64_other by lia. assumption.
    + unfold block_mem, set_pfr; cbn [hd sz fr pfr]. split.
      * subst m3 m2. rewrite load64_store64_other by lia.
        apply load64_store64_eq. apply tag_range; auto using mod16_mod4.
      * intros Fn. destruct (blk_mem _ _ _ HI1 n Hn) as [_ Hft].
        rewrite (GET_SIZE_same (mem st1) m3); [exact (Hft Fn)|]. apply Hfr.
        intros w Hw. cbn [In] in Hw. destruct Hw as [<-|[<-|[<-|[]]]]; lia.
  - intros i y Hy w Hw. destruct (node_block _ _ _ HI1 _ _ Hy) as (x & Hx & -> & _ & Hsx & _).
    cbn [In] in Hw. destruct Hw as [<-|[<-|[<-|[]]]].
    + pose proof (header_off_nodes _ _ _ HI1 b x Hb Hx Hsx). lia.
    + pose proof (header_off_nodes _ _ _ HI1 n x Hn Hx Hsx). lia.
    + assert (x <> b).
      { intros ->. apply M1 in Hy. lia. }
      destruct (blk_sep _ _ _ HI1 b x Hb Hx) as [?|?]; [congruence|].
      destruct (blk_ok _ _ _ HI1 x Hx) as (? & _). lia.
  - intros i y Hy. destruct (inv_sub _ _ _ HI1 _ _ Hy) as (s & (x & Hx & Hh & Hs & Hf) & Hk).
    exists s. split; [|assumption]. apply M1 in Hy.
    rewrite Ebs in Hx. apply in_mid2_iff in Hx.
    destruct Hx as [Hx|[->|[->|Hx]]].
    + exists x. split_and; auto. rewrite !in_app_iff. auto.
    + lia.
    + exists (set_pfr n false). split_and; auto.
      rewrite !in_app_iff. cbn [In]. tauto.
    + exists x. split_and; auto. rewrite !in_app_iff. auto.
  - destruct (epilogue_last _ _ _ HI1) as (l & e & El & Ehd & Esz & Fe).
    assert (He : In e bs) by (rewrite El; apply in_or_app; right; left; reflexivity).
    rewrite Ebs in He. apply in_mid2_iff in He.
    destruct He as [He|[->|[->|He]]].
    + exists e. rewrite !in_app_iff. auto.
    + congruence.
    + exists (set_pfr n false). rewrite !in_app_iff. cbn [In]. tauto.
    + exists e. rewrite !in_app_iff. auto.
Qed.

Lemma mark_allocated_inv st bs Ls l1 b n l2 :
  heap_inv st bs Ls -> bs = l1 ++ b :: n :: l2 -> fr b = true ->
  In (hd b + 8) (Ls (Segregated_get_bucket (sz b))) ->
  exists Ls',
    heap_inv (fst (mark_allocated st (hd b)))
             (l1 ++ [set_fr b false; set_pfr n false] ++ l2) Ls' /\
    (forall i y, In y (Ls' i) <-> In y (Ls i) /\ y <> hd b + 8) /\
    snd (mark_allocated st (hd b)) = hd b + 8.
Proof.
  intros HI Ebs Fb Hnode.
  destruct (mark_allocated_inv_kept st bs Ls l1 b n l2 HI Ebs Fb Hnode)
    as (Ls' & H1 & H2 & H3 & _).
  exists Ls'. split_and; assumption.
Qed.

(** Splitting a free block: its head keeps payload [need] and its tail
    becomes a free block of its own; both are linked in. *)
Lemma split_block_inv_kept st bs Ls l1 b l2 need :
  heap_inv st bs Ls -> bs = l1 ++ b :: l2 -> fr b = true ->
  In (hd b + 8) (Ls (Segregated_get_bucket (sz b))) ->
  16 <= need -> need mod 16 = 0 -> need + 32 <= sz b ->
  let b1 := mkBlock (hd b) need true false in
  let b2 := mkBlock (hd b + 16 + need) (sz b - need - 16) true false in
  exists Ls',
    heap_inv (split_block st (hd b) need) (l1 ++ [b1; b2] ++ l2) Ls' /\
    (forall i y, In y (Ls' i) <->
       (In y (Ls i) /\ y <> hd b + 8) \/
       (y = hd b + 8 /\ i = Segregated_get_bucket need) \/
       (y = hd b2 + 8 /\ i = Segregated_get_bucket (sz b2))) /\
    kept none (mem st) (mem (split_block st (hd b) need)) bs (l1 ++ [b1; b2] ++ l2).
Proof.
  intros HI Ebs Fb Hnode N16 Nm Nfit b1 b2.
  assert (Hb : In b bs) by (rewrite Ebs; apply in_mid).
  destruct (seg_remove _ _ _ HI b Hb Hnode) as (Ls1 & HI1 & M1).
  unfold split_block. cbv zeta.
  set (st1 := Segregated_remove_header st (hd b)) in *.
  change (l1 ++ b :: l2) with (l1 ++ [b] ++ l2) in Ebs.
  destruct (chain_cut st1 bs Ls1 l1 [b] l2 HI1 Ebs)
    as (A & B & AD1 & ADo & AD2 & _ & _ & _ & BD1 & _ & BD2).
  cbn [adj] in ADo. destruct ADo as (EA & EB). subst A. subst B.
  pose proof (blk_bounds _ _ _ HI1 b Hb) as Bb.
  pose proof (blk_size _ _ _ HI1 b Hb) as [Sb Mb].
  pose proof (inv_lo _ _ _ HI1) as LO. pose proof (inv_top _ _ _ HI1) as TOP.
  pose proof (inv_max _ _ _ HI1) as MAX.
  rewrite (blk_GET_SIZE _ _ _ HI1 b Hb).
  set (h := hd b) in *. set (s := sz b) in *.
  set (ts := s - need - 16).
  assert (Mts : ts mod 16 = 0).
  { subst ts. pose proof (Z.div_mod s 16 ltac:(lia)) as E1. rewrite Mb in E1.
    pose proof (Z.div_mod need 16 ltac:(lia)) as E2. rewrite Nm in E2.
    replace (s - need - 16) with ((s / 16 - need / 16 - 1) * 16) by lia.
    apply Z.mod_mul. lia. }
  (* nodes of the index lie outside the block *)
  assert (Hout : forall i y, In y (Ls1 i) -> y + 16 <= h \/ h + 16 + s + 8 <= y).
  { intros i y Hy. destruct (node_block _ _ _ HI1 _ _ Hy) as (x & Hx & -> & _ & Hsx & _).
    apply M1 in Hy. rewrite Ebs in Hx. apply in_mid_iff in Hx.
    destruct Hx as [Hx|[->|Hx]].
    - specialize (BD1 x Hx). lia.
    - fold h in Hy. lia.
    - specialize (BD2 x Hx). lia. }
  (* head: header and footer *)
  set (m1 := SET_VALUE (mem st1) h need true false).
  assert (H1 : load64 m1 h = tag need true false).
  { apply load64_SET_VALUE_same; [lia|assumption]. }
  rewrite (Header_get_footer_eq m1 h need); try lia;
    [|eapply GET_SIZE_tag; try eassumption; lia].
  set (m2 := SET_VALUE m1 (h + 8 + need) need true false).
  assert (H2h : load64 m2 h = tag need true false).
  { subst m2. rewrite load64_SET_VALUE_other by lia. assumption. }
  assert (H2f : load64 m2 (h + 8 + need) = tag need true false).
  { apply load64_SET_VALUE_same; [lia|assumption]. }
  assert (L2 : lists_ok m2 (freelists st1) Ls1).
  { apply (lists_ok_frame (mem st1)); [apply HI1|]. intros i y Hy.
    specialize (Hout i y Hy). subst m2 m1.
    split; rewrite !load64_SET_VALUE_other by lia; reflexivity. }
  (* linking the head *)
  set (k1 := Segregated_get_bucket need).
  assert (E1 : Segregated_insert_header (set_mem st1 m2) h =
               LinkedList_insert_at_front (set_mem st1 m2) k1 (h + 8)).
  { unfold Segregated_insert_header.
    rewrite (GET_SIZE_tag (mem (set_mem st1 m2)) h need true false);
      try assumption; try lia.
    unfold Header_get_list. rewrite (Header_get_payload_eq h) by lia. reflexivity. }
  rewrite E1. clear E1.
  destruct (LinkedList_insert_at_front_ok (set_mem st1 m2) Ls1 L2 k1 (h + 8))
    as (L3 & R3h & R3b & R3m & F3); try lia.
  { intros i y Hy. specialize (Hout i y Hy). lia. }
  set (st2 := LinkedList_insert_at_front (set_mem st1 m2) k1 (h + 8)) in *.
  set (Ls2 := updL Ls1 k1 (h + 8 :: Ls1 k1)) in *.
  cbn [mem set_mem] in F3.
  assert (M2 : forall i y, In y (Ls2 i) <-> In y (Ls1 i) \/ (y = h + 8 /\ i = k1)).
  { intros i y. subst Ls2. destruct (Z.eq_dec i k1) as [->|Hik].
    - rewrite updL_same. cbn [In]. intuition.
    - rewrite updL_other by assumption. intuition. }
  assert (H3h : load64 (mem st2) h = tag need true false).
  { rewrite F3; [assumption|lia|]. intros i y Hy. specialize (Hout i y Hy). lia. }
  assert (H3f : load64 (mem st2) (h + 8 + need) = tag need true false).
  { rewrite F3; [assumption|lia|]. intros i y Hy. specialize (Hout i y Hy). lia. }
  (* tail: header and footer *)
  unfold Header_size, Footer_size.
  rewrite (wrap_small (s - need)), (wrap_small (8 + 8)), (wrap_small (s - need - (8 + 8)))
    by lia.
  replace (s - need - (8 + 8)) with ts by (subst ts; lia).
  rewrite (Header_get_next_header_eq (mem st2) h need); try lia;
    [|eapply GET_SIZE_tag; try eassumption; lia].
  set (th := h + 16 + need).
  set (m3 := SET_VALUE (mem st2) th ts true false).
  assert (H3t : load64 m3 th = tag ts true false).
  { apply load64_SET_VALUE_same; [subst ts; lia|assumption]. }
  rewrite (Header_get_footer_eq m3 th ts); try (subst th ts; lia);
    [|eapply GET_SIZE_tag; try eassumption; subst ts; lia].
  replace (th + 8 + ts) with (h + 8 + s) by (subst th ts; lia).
  set (m4 := SET_VALUE m3 (h + 8 + s) ts true false).
  assert (H4 : forall a, (a + 8 <= th \/ th + 8 <= a) -> (a + 8 <= h + 8 + s \/ h + 16 + s <= a) ->
                         load64 m4 a = load64 (mem st2) a).
  { intros a Ha1 Ha2. subst m4 m3. rewrite !load64_SET_VALUE_other by lia. reflexivity. }
  assert (H4t : load64 m4 th = tag ts true false).
  { subst m4. rewrite load64_SET_VALUE_other by (subst th; lia). assumption. }
  assert (H4f : load64 m4 (h + 8 + s) = tag ts true false).
  { apply load64_SET_VALUE_same; [subst ts; lia|assumption]. }
  assert (L4 : lists_ok m4 (freelists st2) Ls2).
  { apply (lists_ok_frame (mem st2)); [assumption|]. intros i y Hy.
    apply M2 in Hy. destruct Hy as [Hy|[-> _]].
    - specialize (Hout i y Hy). split; apply H4; subst th; lia.
    - split; apply H4; subst th; lia. }
  (* linking the tail *)
  set (k2 := Segregated_get_bucket ts).
  assert (E2 : Segregated_insert_header (set_mem st2 m4) th =
               LinkedList_insert_at_front (set_mem st2 m4) k2 (th + 8)).
  { unfold Segregated_insert_header.
    rewrite (GET_SIZE_tag (mem (set_mem st2 m4)) th ts true false);
      try assumption; try (subst ts; lia).
    unfold Header_get_list. rewrite (Header_get_payload_eq th) by (subst th; lia).
    reflexivity. }
  rewrite E2. clear E2.
  destruct (LinkedList_insert_at_front_ok (set_mem st2 m4) Ls2 L4 k2 (th + 8))
    as (L5 & R5h & R5b & R5m & F5); try (subst th; lia).
  { intros i y Hy. apply M2 in Hy. destruct Hy as [Hy|[-> _]].
    - specialize (Hout i y Hy). subst th ts. lia.
    - subst th. lia. }
  set (st3 := LinkedList_insert_at_front (set_mem st2 m4) k2 (th + 8)) in *.
  set (Ls3 := updL Ls2 k2 (th + 8 :: Ls2 k2)) in *.
  cbn [mem set_mem heap brk mem_max] in F5, R5h, R5b, R5m, R3h, R3b, R3m.
  assert (M3 : forall i y, In y (Ls3 i) <->
                 In y (Ls1 i) \/ (y = h + 8 /\ i = k1) \/ (y = th + 8 /\ i = k2)).
  { intros i y. subst Ls3. destruct (Z.eq_dec i k2) as [->|Hik].
    - rewrite updL_same. cbn [In]. rewrite M2. intuition.
    - rewrite updL_other by assumption. rewrite M2. intuition. }
  (* a word away from the two new nodes and from the old ones is kept *)
  assert (F35 : forall a, (a + 8 <= h + 8 \/ h + 24 <= a) -> (a + 8 <= th + 8 \/ th + 24 <= a) ->
                  (forall i y, In y (Ls1 i) -> a + 8 <= y \/ y + 16 <= a) ->
                  load64 (mem st3) a = load64 m4 a).
  { intros a Ha1 Ha2 Ha3. apply F5; [lia|]. intros i y Hy.
    apply M2 in Hy. destruct Hy as [Hy|[-> _]]; [eauto|lia]. }
  assert (Eth : th = h + 16 + need) by reflexivity.
  assert (Ets : ts = s - need - 16) by reflexivity.
  clearbody th ts.
  assert (F15 : forall a, (a + 8 <= h + 8 \/ h + 24 <= a) ->
                  (a + 8 <= th \/ th + 24 <= a) ->
                  (a + 8 <= h + 8 + s \/ h + 16 + s <= a) ->
                  (forall i y, In y (Ls1 i) -> a + 8 <= y \/ y + 16 <= a) ->
                  load64 (mem st3) a = load64 (mem st2) a).
  { intros a Ha1 Ha2 Ha3 Ha4. rewrite F35 by (assumption || lia). apply H4; lia. }
  assert (Hout' : forall a, h <= a -> a + 8 <= h + 16 + s ->
                    forall i y, In y (Ls1 i) -> a + 8 <= y \/ y + 16 <= a).
  { intros a Ha1 Ha2 i y Hy. specialize (Hout i y Hy). lia. }
  exists Ls3. split; [|split].
  3:{ apply (kept_trans _ _ _ _ _ _ _ (seg_remove_kept _ _ _ HI none b Hb Hnode)).
      fold st1.
      apply (kept_stretch _ _ _ HI1 none l1 [b] [b1; b2] l2 (mem st3) h (h + 16 + s));
        try assumption.
      - intros x Hx Hn.
        assert (Hn1 : forall i y, In y (Ls1 i) -> x < y \/ y + 16 <= x).
        { intros i y Hy. destruct (node_free _ _ _ HI1 i y Hy) as (f & Hf & Ff & ->).
          apply M1 in Hy. rewrite Ebs in Hf. apply in_mid_iff in Hf.
          destruct Hf as [Hf|[->|Hf]].
          - specialize (Hn f (in_or_app _ _ _ (or_introl Hf)) Ff). lia.
          - fold h in Hy. lia.
          - specialize (Hn f (in_or_app _ _ _ (or_intror Hf)) Ff). lia. }
        unfold st3.
        rewrite (LinkedList_insert_at_front_bytes (set_mem st2 m4) Ls2 k2 (th + 8) L4);
          try lia.
        2:{ intros i y Hy. apply M2 in Hy. destruct Hy as [Hy|[-> _]]; [eauto|lia]. }
        cbn [mem set_mem]. subst m4 m3. rewrite !SET_VALUE_other by lia.
        unfold st2.
        rewrite (LinkedList_insert_at_front_bytes (set_mem st1 m2) Ls1 k1 (h + 8) L2);
          try lia; try assumption.
        cbn [mem set_mem]. subst m2 m1. rewrite !SET_VALUE_other by lia. reflexivity.
      - intros h0 s0 (c & [<-|[]] & _ & _ & Fc & _) _. congruence.
      - intros _ x [<-|[<-|[]]] _ _; cbn [b1 b2 hd sz]; fold h s;
          rewrite <- ?Ets, <- ?Eth.
        + rewrite !F15; [congruence|lia|lia|lia|apply Hout'; lia
                         |lia|lia|lia|apply Hout'; lia].
        + replace (th + 8 + ts) with (h + 8 + s) by lia.
          rewrite !F35; [congruence|lia|lia|apply Hout'; lia|lia|lia|apply Hout'; lia]. }
  - apply (heap_inv_rebuild st1 bs Ls1 l1 [b] [b1; b2] l2 st3 Ls3 h (h + 16 + s));
      try assumption.
    + cbn [adj b1 b2 hd sz]. fold h s. split_and; lia.
    + unfold same_region. split_and; congruence.
    + intros a Ha Hn.
      assert (Hn' : forall i y, In y (Ls1 i) -> a + 8 <= y \/ y + 16 <= a).
      { intros i y Hy. destruct (node_block _ _ _ HI1 _ _ Hy) as (x & Hx & -> & _ & Hsx & _).
        apply M1 in Hy. rewrite Ebs in Hx. apply in_mid_iff in Hx.
        destruct Hx as [Hx|[->|Hx]].
        - specialize (Hn x (in_or_app _ _ _ (or_introl Hx)) Hsx). lia.
        - fold h in Hy. lia.
        - specialize (Hn x (in_or_app _ _ _ (or_intror Hx)) Hsx). lia. }
      rewrite F15 by (assumption || lia).
      rewrite F3 by (assumption || lia).
      subst m2 m1. rewrite !load64_SET_VALUE_other by lia. reflexivity.
    + constructor; [|constructor; [|constructor]]; unfold block_ok; cbn [b1 b2 hd sz fr].
      * split_and; (lia || assumption).
      * fold s. rewrite <- Ets. split_and; (lia || assumption).
    + constructor; [|constructor; [|constructor]]; unfold block_mem;
        cbn [b1 b2 hd sz fr pfr]; fold h s; rewrite <- ?Ets, <- ?Eth.
      * split.
        -- rewrite F15; [assumption|lia|lia|lia|apply Hout'; lia].
        -- intros _. eapply (GET_SIZE_tag _ _ need true false); try assumption; try lia.
           rewrite F15; [assumption|lia|lia|lia|apply Hout'; lia].
      * split.
        -- rewrite F35; [assumption|lia|lia|apply Hout'; lia].
        -- intros _. replace (th + 8 + ts) with (h + 8 + s) by lia.
           eapply (GET_SIZE_tag _ _ ts true false); try assumption; try lia.
           rewrite F35; [assumption|lia|lia|apply Hout'; lia].
    + intros i y Hy. apply M3 in Hy. destruct Hy as [Hy|[[-> ->]|[-> ->]]].
      * destruct (inv_sub _ _ _ HI1 _ _ Hy) as (s' & (x & Hx & Hh & Hs & Hf) & Hk).
        exists s'. split; [|assumption]. exists x. split_and; auto.
        specialize (Hout i y Hy).
        rewrite Ebs in Hx. apply in_mid_iff in Hx. rewrite !in_app_iff.
        destruct Hx as [Hx|[->|Hx]]; auto. fold h in Hh. lia.
      * exists need. split; [|reflexivity]. exists b1. split_and; auto;
          try (rewrite !in_app_iff; cbn [In]; tauto);
          try (cbn [b1 b2 hd sz]; fold h s; lia).
      * exists ts. split; [|reflexivity]. exists b2. split_and; auto;
          try (rewrite !in_app_iff; cbn [In]; tauto);
          try (cbn [b1 b2 hd sz]; fold h s; lia).
    + destruct (epilogue_last _ _ _ HI1) as (l & e & El & Ehd & Esz & Fe).
      assert (He : In e bs) by (rewrite El; apply in_or_app; right; left; reflexivity).
      rewrite Ebs in He. apply in_mid_iff in He. exists e. split; [|assumption].
      rewrite !in_app_iff. destruct He as [He|[->|He]]; auto. congruence.
  - intros i y. rewrite M3, M1. cbn [b2 hd sz]. fold h s.
    rewrite <- Ets, <- Eth. fold k1 k2. tauto.
Qed.

Lemma split_block_inv st bs Ls l1 b l2 need :
  heap_inv st bs Ls -> bs = l1 ++ b :: l2 -> fr b = true ->
  In (hd b + 8) (Ls (Segregated_get_bucket (sz b))) ->
  16 <= need -> need mod 16 = 0 -> need + 32 <= sz b ->
  let b1 := mkBlock (hd b) need true false in
  let b2 := mkBlock (hd b + 16 + need) (sz b - need - 16) true false in
  exists Ls',
    heap_inv (split_block st (hd b) need) (l1 ++ [b1; b2] ++ l2) Ls' /\
    (forall i y, In y (Ls' i) <->
       (In y (Ls i) /\ y <> hd b + 8) \/
       (y = hd b + 8 /\ i = Segregated_get_bucket need) \/
       (y = hd b2 + 8 /\ i = Segregated_get_bucket (sz b2))).
Proof.
  intros HI Ebs Fb Hnode N16 Nm Nfit b1 b2.
  destruct (split_block_inv_kept st bs Ls l1 b l2 need HI Ebs Fb Hnode N16 Nm Nfit)
    as (Ls' & H1 & H2 & _).
  exists Ls'. split; assumption.
Qed.

Lemma allocate_inv_kept st bs Ls l1 b n l2 size :
  heap_inv st bs Ls -> threaded false bs -> covered bs Ls -> coalesced bs ->
  bs = l1 ++ b :: n :: l2 -> fr b = true ->
  required_payload_size size <= sz b ->
  let need := required_payload_size size in
  let bs' := placed l1 b n l2 need in
  exists Ls',
    heap_inv (fst (allocate st (hd b) size)) bs' Ls' /\
    threaded false bs' /\ covered bs' Ls' /\ coalesced bs' /\
    snd (allocate st (hd b) size) = hd b + 8 /\
    (forall h s, ablk bs h s -> ablk bs' h s) /\
    ablk bs' (hd b) (if 32 <=? sz b - need then need else sz b) /\
    kept none (mem st) (mem (fst (allocate st (hd b) size))) bs bs'.
Proof.
  intros HI HT HC HCo Ebs Fb Hfit need bs'.
  destruct (required_payload_size_shape size) as ((N16 & _) & Nm).
  fold need in N16, Nm, Hfit.
  assert (Hb : In b bs) by (rewrite Ebs; apply in_mid).
  assert (Nmax : need + 32 <= 2 ^ 64).
  { pose proof (blk_bounds _ _ _ HI b Hb). pose proof (inv_lo _ _ _ HI).
    pose proof (inv_top _ _ _ HI). pose proof (inv_max _ _ _ HI). lia. }
  assert (Hnb : In n bs) by (rewrite Ebs; apply in_mid2_iff; auto).
  destruct (blk_size _ _ _ HI b Hb) as [Sb Mb].
  pose proof (HCo b Hb Fb) as PFb.
  assert (Hnode : In (hd b + 8) (Ls (Segregated_get_bucket (sz b)))).
  { apply HC. exists b. auto. }
  assert (PFn : pfr n = true).
  { rewrite Ebs in HT. apply threaded_app in HT. destruct HT as [_ HT].
    cbn [threaded] in HT. destruct HT as (_ & HT & _). congruence. }
  assert (Fn : fr n = false).
  { destruct (fr n) eqn:F; [|reflexivity]. rewrite (HCo n Hnb F) in PFn. discriminate. }
  assert (Hfar : forall x, In x l1 \/ In x l2 -> In x bs /\ hd x <> hd b /\ hd x <> hd n).
  { intros x Hx.
    assert (Hxb : In x bs) by (rewrite Ebs; apply in_mid2_iff; tauto).
    split; [assumption|].
    destruct (chain_cut st bs Ls l1 [b; n] l2 HI Ebs)
      as (A & B & _ & ADo & _ & _ & _ & _ & BD1 & _ & BD2).
    cbn [adj] in ADo. destruct ADo as (EA & En & EB).
    destruct (blk_ok _ _ _ HI n Hnb) as (? & _).
    destruct (blk_ok _ _ _ HI x Hxb) as (? & _).
    destruct Hx as [Hx|Hx]; [specialize (BD1 x Hx)|specialize (BD2 x Hx)]; lia. }
  rewrite allocate_unfold. cbv zeta. fold need.
  rewrite (blk_GET_SIZE _ _ _ HI b Hb), Block_min_size_eq.
  rewrite (wrap_small (sz b - need)) by lia.
  subst bs'. unfold placed.
  destruct (Z.leb_spec 32 (sz b - need)) as [Hsplit|Hno].
  - (* split *)
    change (b :: n :: l2) with (b :: (n :: l2)) in Ebs.
    destruct (split_block_inv_kept st bs Ls l1 b (n :: l2) need HI Ebs Fb Hnode N16 Nm)
      as (Ls2 & HI2 & M2 & K2); [lia|]. cbv zeta in HI2, M2, K2. cbn [hd sz] in M2.
    set (b1 := mkBlock (hd b) need true false) in *.
    set (b2 := mkBlock (hd b + 16 + need) (sz b - need - 16) true false) in *.
    assert (Hnode1 : In (hd b1 + 8) (Ls2 (Segregated_get_bucket (sz b1)))).
    { apply M2. right; left. auto. }
    destruct (mark_allocated_inv_kept _ _ _ l1 b1 b2 (n :: l2) HI2 eq_refl eq_refl Hnode1)
      as (Ls3 & HI3 & M3 & Eret & K3).
    specialize (K3 (fun _ => eq_refl)).
    cbn [b1 hd] in HI3, M3, Eret, K3.
    exists Ls3. split; [exact HI3|]. split_and;
      try exact (kept_trans _ _ _ _ _ _ _ K2 K3).
    + rewrite Ebs in HT. rewrite !threaded_app in HT |- *.
      cbn [threaded app set_fr set_pfr b1 b2 fr pfr fold_left] in *.
      destruct HT as (H1 & H2 & H3 & H4). split_and; auto; congruence.
    + intros h s (x & Hx & Hh & Hs & Fx). apply M3.
      rewrite !in_app_iff in Hx. cbn [In] in Hx.
      destruct Hx as [Hx|[[<-|[<-|[]]]|[<-|Hx]]].
      * destruct (Hfar x (or_introl Hx)) as (Hxb & Hne & _).
        split; [|lia]. apply M2. left. split; [|lia]. apply HC. exists x. auto.
      * discriminate Fx.
      * cbn [set_pfr b2 hd sz] in *. split; [|lia]. apply M2. right; right.
        subst h s. auto.
      * congruence.
      * destruct (Hfar x (or_intror Hx)) as (Hxb & Hne & _).
        split; [|lia]. apply M2. left. split; [|lia]. apply HC. exists x. auto.
    + intros x Hx Fx. rewrite !in_app_iff in Hx. cbn [In] in Hx.
      destruct Hx as [Hx|[[<-|[<-|[]]]|[<-|Hx]]]; try reflexivity; try congruence.
      * apply HCo; [rewrite Ebs; apply in_or_app; auto|assumption].
      * apply HCo; [rewrite Ebs; apply in_mid2_iff; auto|assumption].
    + assumption.
    + intros h s (x & Hx & Hh & Hs & Fx & Rx). exists x. split_and; auto.
      rewrite Ebs in Hx. apply in_mid2_iff in Hx.
      destruct Hx as [H|[->|[->|H]]]; try congruence;
        rewrite !in_app_iff; cbn [In]; tauto.
    + exists (set_fr b1 false). cbn [set_fr b1 hd sz fr]. split_and; auto.
      rewrite !in_app_iff. cbn [In]. tauto.
  - (* no split *)
    destruct (mark_allocated_inv_kept _ _ _ l1 b n l2 HI Ebs Fb Hnode)
      as (Ls3 & HI3 & M3 & Eret & K3).
    assert (K : kept none (mem st) (mem (fst (mark_allocated st (hd b)))) bs
                  (l1 ++ [set_fr b false; set_pfr n false] ++ l2)).
    { apply K3. intros F. congruence. }
    exists Ls3. split; [exact HI3|]. split_and; try exact K.
    + rewrite Ebs in HT. rewrite !threaded_app in HT |- *.
      cbn [threaded app set_fr set_pfr fr pfr fold_left] in *. tauto.
    + intros h s (x & Hx & Hh & Hs & Fx). apply M3.
      rewrite !in_app_iff in Hx. cbn [In] in Hx.
      destruct Hx as [Hx|[[<-|[<-|[]]]|Hx]].
      * destruct (Hfar x (or_introl Hx)) as (Hxb & Hne & _).
        split; [|lia]. apply HC. exists x. auto.
      * discriminate Fx.
      * cbn [set_pfr fr] in Fx. congruence.
      * destruct (Hfar x (or_intror Hx)) as (Hxb & Hne & _).
        split; [|lia]. apply HC. exists x. auto.
    + intros x Hx Fx. rewrite !in_app_iff in Hx. cbn [In] in Hx.
      destruct Hx as [Hx|[[<-|[<-|[]]]|Hx]]; try reflexivity; try discriminate.
      * apply HCo; [rewrite Ebs; apply in_or_app; auto|assumption].
      * apply HCo; [rewrite Ebs; apply in_mid2_iff; auto|assumption].
    + assumption.
    + intros h s (x & Hx & Hh & Hs & Fx & Rx).
      rewrite Ebs in Hx. apply in_mid2_iff in Hx.
      destruct Hx as [H|[->|[->|H]]]; try congruence.
      * exists x. split_and; auto. rewrite !in_app_iff. tauto.
      * exists (set_pfr n false). cbn [set_pfr hd sz fr]. split_and; auto.
        rewrite !in_app_iff. cbn [In]. tauto.
      * exists x. split_and; auto. rewrite !in_app_iff. tauto.
    + exists (set_fr b false). cbn [set_fr hd sz fr]. split_and; auto.
      * rewrite !in_app_iff. cbn [In]. tauto.
      * apply (blk_free_real _ _ _ HI b Hb Fb).
Qed.


Lemma allocate_inv st bs Ls l1 b n l2 size :
  heap_inv st bs Ls -> threaded false bs -> covered bs Ls -> coalesced bs ->
  bs = l1 ++ b :: n :: l2 -> fr b = true ->
  required_payload_size size <= sz b ->
  let need := required_payload_size size in
  let bs' := placed l1 b n l2 need in
  exists Ls',
    heap_inv (fst (allocate st (hd b) size)) bs' Ls' /\
    threaded false bs' /\ covered bs' Ls' /\ coalesced bs' /\
    snd (allocate st (hd b) size) = hd b + 8 /\
    (forall h s, ablk bs h s -> ablk bs' h s) /\
    ablk bs' (hd b) (if 32 <=? sz b - need then need else sz b).
Proof.
  intros HI HT HC HCo Ebs Fb Hfit need bs'.
  destruct (allocate_inv_kept st bs Ls l1 b n l2 size HI HT HC HCo Ebs Fb Hfit)
    as (Ls' & H1 & H2 & H3 & H4 & H5 & H6 & H7 & _).
  exists Ls'. split_and; assumption.
Qed.

(* ================================================================== *)
(** * malloc *)
(* ================================================================== *)

(** A first-fit scan that ends with null has tested every node. *)
Lemma firstfit_null m size L : forall fuel pv h,
  dlseg m pv h L 0 ->
  find_free_block_explicit_list_firstfit fuel m h size = Some NULL ->
  forall y, In y L -> (size <=? wrap (GET_SIZE m (y - 8) + Footer_size)) = false.
Proof.
  induction L as [|p L IH]; intros fuel pv h H Hr y Hy; [destruct Hy|].
  apply dlseg_cons in H. destruct H as (-> & H0 & H1 & Hp & H).
  destruct fuel as [|fuel]; [discriminate|].
  cbn [find_free_block_explicit_list_firstfit] in Hr.
  unfold NULL in Hr at 1. destruct (Z.eqb_spec p 0) as [E|_]; [lia|].
  rewrite Payload_get_header_eq in Hr by lia.
  destruct (size <=? wrap (GET_SIZE m (p - 8) + Footer_size)) eqn:Hfit.
  - inversion Hr. unfold NULL in *. lia.
  - unfold DList_next in Hr. rewrite (wrap_small (p + 8)) in Hr by lia.
    destruct Hy as [<-|Hy]; [assumption|]. eapply IH; eassumption.
Qed.

(** When a free block holds the request, the search does not answer null,
    whatever fuel it ran on. *)
Lemma find_nonnull st bs Ls fuel size b h :
  heap_inv st bs Ls -> covered bs Ls ->
  0 <= size <= 2 ^ 64 - 24 ->
  In b bs -> fr b = true -> required_payload_size size <= sz b ->
  Segregated_find_free_block fuel st size = Some h -> h <> 0.
Proof.
  intros HI HC Hn Hb Fb Hfit EF.
  destruct (required_payload_size_facts size Hn) as (N16 & Nm & Nle & Nmax & Nmin).
  pose proof (inv_lo _ _ _ HI) as LO.
  unfold Segregated_find_free_block in EF. rewrite search_size_of_eq in EF.
  set (need := required_payload_size size) in *.
  assert (Hnode : In (hd b + 8) (Ls (Segregated_get_bucket (sz b)))).
  { apply HC. exists b. auto. }
  destruct (blk_size _ _ _ HI b Hb) as [Sb Mb].
  destruct (find_exact_loop 14 (freelists st) (Segregated_get_bucket need)) as [h'|] eqn:EX.
  - inversion EF; subst h'.
    destruct (find_exact_loop_some _ _ _ _ EX) as (j & Hj & Hnz & Hh & _).
    destruct (node_header _ _ _ HI j _ (head_node _ _ _ HI j Hnz))
      as (x & Hx & _ & Eh & _).
    pose proof (blk_bounds _ _ _ HI x Hx). rewrite Hh, Eh. lia.
  - cbv zeta in EF. intros ->.
    pose proof (Segregated_get_bucket_range need) as BR.
    assert (Hemp : forall j, Segregated_get_bucket need <= j < 14 -> Ls j = []).
    { intros j Hj. apply (empty_list _ _ _ HI).
      apply (find_exact_loop_none _ _ _ EX); [change (Z.of_nat 14) with 14; lia|assumption]. }
    assert (Hbig : 224 < sz b).
    { destruct (Z_le_gt_dec (sz b) 224) as [Hs|]; [exfalso|lia].
      pose proof (bucket_le need (sz b) N16 Nm Mb Hfit Hs) as BL.
      rewrite (Hemp _ BL) in Hnode. destruct Hnode. }
    rewrite bucket_big in Hnode by assumption.
    pose proof (firstfit_null _ _ _ _ _ _ (lo_dll _ _ _ (inv_lists _ _ _ HI) 14) EF
                  _ Hnode) as Hno.
    replace (hd b + 8 - 8) with (hd b) in Hno by lia.
    rewrite (fits_node _ _ _ HI b size Hb) in Hno.
    apply Z.leb_gt in Hno. lia.
Qed.

Lemma split_block_region st h need : same_region st (split_block st h need).
Proof.
  unfold split_block. cbv zeta.
  eapply same_region_trans; [|apply Segregated_insert_header_region].
  eapply same_region_trans; [|apply same_region_set_mem].
  eapply same_region_trans; [|apply Segregated_insert_header_region].
  eapply same_region_trans; [|apply same_region_set_mem].
  apply Segregated_remove_header_region.
Qed.

Lemma allocate_region st h size : same_region st (fst (allocate st h size)).
Proof.
  rewrite allocate_unfold. cbv zeta.
  match goal with |- context [mark_allocated ?s _] => set (st1 := s) end.
  assert (R1 : same_region st st1).
  { subst st1. destruct (_ <=? _); [apply split_block_region|apply same_region_refl]. }
  unfold mark_allocated. cbn [fst].
  eapply same_region_trans; [exact R1|].
  eapply same_region_trans; [apply Segregated_remove_header_region|].
  apply same_region_set_mem.
Qed.

(** Placing a request in the block the search returned. *)
Lemma place_kept st bs Ls fuel n h :
  heap_inv st bs Ls -> threaded false bs -> covered bs Ls -> coalesced bs ->
  0 <= n <= 2 ^ 64 - 24 ->
  Segregated_find_free_block fuel st n = Some h -> h <> 0 ->
  let st' := fst (allocate st h n) in
  let p := snd (allocate st h n) in
  p = h + 8 /\ p <> 0 /\ p mod 16 = 0 /\ (forall s0, ~ ablk bs (p - 8) s0) /\
  exists bs' Ls' s,
    heap_inv st' bs' Ls' /\ threaded false bs' /\ covered bs' Ls' /\ coalesced bs' /\
    kept none (mem st) (mem st') bs bs' /\
    ablk bs' (p - 8) s /\ required_payload_size n <= s /\ n <= s + 8.
Proof.
  intros HI HT HC HCo Hn EF Hh st' p.
  destruct (required_payload_size_facts n Hn) as (N16 & Nm & Nle & Nmax & Nmin).
  destruct (find_sound _ _ _ HI fuel n h ltac:(lia) EF Hh) as (b & Hb & Eh & Fb & Hfit & _).
  pose proof (blk_free_real _ _ _ HI b Hb Fb) as Rb.
  destruct (blk_next _ _ _ HI b Hb ltac:(lia)) as (l1 & nx & l2 & Ebs & _).
  destruct (allocate_inv_kept _ _ _ _ _ _ _ n HI HT HC HCo Ebs Fb Hfit)
    as (Ls' & HI' & HT' & HC' & HCo' & Ep & Hpres & Hnew & K).
  subst h st' p.
  pose proof (blk_bounds _ _ _ HI b Hb) as Bb. pose proof (inv_lo _ _ _ HI) as LO.
  pose proof (blk_align _ _ _ HI b Hb) as Ab.
  split_and; try assumption.
  - lia.
  - rewrite Ep, Z.add_mod, Ab by lia. reflexivity.
  - intros s0 (x & Hx & Hhx & _ & Fx & _).
    rewrite Ep in Hhx. replace (hd b + 8 - 8) with (hd b) in Hhx by lia.
    assert (x = b) by (apply (blk_hd_inj _ _ _ HI x b Hx Hb Hhx)). subst x. congruence.
  - exists (placed l1 b nx l2 (required_payload_size n)), Ls',
      (if 32 <=? sz b - required_payload_size n then required_payload_size n else sz b).
    split_and; try assumption.
    + rewrite Ep. replace (hd b + 8 - 8) with (hd b) by lia. exact Hnew.
    + destruct (_ <=? _); lia.
    + destruct (_ <=? _); lia.
Qed.

Lemma place_ok st bs Ls live fuel n h :
  heap_inv st bs Ls -> threaded false bs -> covered bs Ls -> coalesced bs ->
  (forall q, In q live -> exists s, ablk bs (q - 8) s) ->
  0 <= n <= 2 ^ 64 - 24 ->
  Segregated_find_free_block fuel st n = Some h -> h <> 0 ->
  let st' := fst (allocate st h n) in
  let p := snd (allocate st h n) in
  p = h + 8 /\ p <> 0 /\ p mod 16 = 0 /\ ~ In p live /\
  exists bs' Ls' s,
    heap_inv st' bs' Ls' /\ threaded false bs' /\ covered bs' Ls' /\ coalesced bs' /\
    (forall q, In q live -> exists s, ablk bs' (q - 8) s) /\
    ablk bs' (p - 8) s /\ required_payload_size n <= s /\ n <= s + 8.
Proof.
  intros HI HT HC HCo HL Hn EF Hh st' p.
  destruct (place_kept st bs Ls fuel n h HI HT HC HCo Hn EF Hh)
    as (P1 & P2 & P3 & P4 & bs' & Ls' & s & HI' & HT' & HC' & HCo' & [K _] & P5 & P6 & P7).
  split_and; try assumption.
  - intros Hin. destruct (HL _ Hin) as (s0 & Hs0). exact (P4 s0 Hs0).
  - exists bs', Ls', s. split_and; try assumption.
    intros q Hq. destruct (HL _ Hq) as (s0 & Hs0). exists s0. apply K; [assumption|].
    intros [].
Qed.

(** What [malloc] returns and the state it leaves: on failure the state
    it was called in, on success a heap in which the new pointer is to a
    block that was not allocated before, aligned and roomy enough, with
    the allocated blocks as they were. *)
Lemma malloc_kept fuel st bs Ls n st' p :
  heap_inv st bs Ls -> threaded false bs -> covered bs Ls -> coalesced bs ->
  0 <= n <= 2 ^ 64 - 24 ->
  malloc fuel st n = Some (st', p) ->
  (p = NULL /\ st' = st) \/
  (p <> NULL /\ p mod 16 = 0 /\ (forall s0, ~ ablk bs (p - 8) s0) /\
   exists bs' Ls' s,
     heap_inv st' bs' Ls' /\ threaded false bs' /\ covered bs' Ls' /\ coalesced bs' /\
     kept none (mem st) (mem st') bs bs' /\
     ablk bs' (p - 8) s /\ required_payload_size n <= s /\ n <= s + 8).
Proof.
  intros HI HT HC HCo Hn HM.
  destruct (required_payload_size_facts n Hn) as (N16 & Nm & Nle & Nmax & Nmin).
  destruct fuel as [|f]; [discriminate|]. cbn [malloc] in HM.
  destruct (Z.eqb_spec n 0) as [_|N0]; [inversion HM; left; auto|].
  destruct (Segregated_find_free_block f st n) as [h|] eqn:EF; [|discriminate].
  destruct (Z.eqb_spec h NULL) as [Eh|Nh].
  - destruct (Z_le_gt_dec (brk st + required_payload_size n + 16) (mem_max st)) as [Hroom|Hfull].
    + destruct (extend_memory_ok_kept _ _ _ n HI HT HC HCo Hn Hroom)
        as (st1 & bs1 & Ls1 & EE & HI1 & HT1 & HC1 & HCo1 & Hpres &
            (b' & Hb' & Fb' & Sb') & _ & _ & _ & K1).
      rewrite EE in HM. destruct f as [|f']; [discriminate|]. cbn [malloc] in HM.
      destruct (Z.eqb_spec n 0) as [|_]; [contradiction|].
      destruct (Segregated_find_free_block f' st1 n) as [h1|] eqn:EF1; [|discriminate].
      pose proof (find_nonnull _ _ _ _ _ _ _ HI1 HC1 Hn Hb' Fb' Sb' EF1) as Nh1.
      destruct (Z.eqb_spec h1 NULL) as [|_]; [contradiction|].
      pose proof (place_kept _ _ _ _ _ _ HI1 HT1 HC1 HCo1 Hn EF1 Nh1) as P.
      cbv zeta in P. assert (E : allocate st1 h1 n = (st', p)) by congruence.
      rewrite E in P. cbn [fst snd] in P.
      destruct P as (_ & P2 & P3 & P4 & bs' & Ls' & s & HI' & HT' & HC' & HCo' & K2 & P5).
      right. split_and; try assumption.
      * intros s0 Hs0. exact (P4 s0 (Hpres _ _ Hs0)).
      * exists bs', Ls', s. split_and; try apply P5; try assumption.
        exact (kept_trans _ _ _ _ _ _ _ K1 K2).
    + rewrite extend_memory_fail in HM.
      * inversion HM. left. auto.
      * cbv zeta. unfold Footer_size, Header_size.
        rewrite (wrap_small (required_payload_size n + 8)) by lia.
        rewrite wrap_small by lia. lia.
  - pose proof (place_kept _ _ _ _ _ _ HI HT HC HCo Hn EF Nh) as P.
    cbv zeta in P. assert (E : allocate st h n = (st', p)) by congruence.
    rewrite E in P. cbn [fst snd] in P.
    destruct P as (_ & P). right. exact P.
Qed.

Lemma malloc_ok fuel st live n st' p :
  heap_ok st live -> 0 <= n <= 2 ^ 64 - 24 ->
  malloc fuel st n = Some (st', p) ->
  (p = NULL /\ st' = st) \/
  (p <> NULL /\ p mod 16 = 0 /\ ~ In p live /\
   exists bs' Ls' s,
     heap_inv st' bs' Ls' /\ threaded false bs' /\ covered bs' Ls' /\ coalesced bs' /\
     (forall q, In q live -> exists s, ablk bs' (q - 8) s) /\
     ablk bs' (p - 8) s /\ required_payload_size n <= s /\ n <= s + 8).
Proof.
  intros (bs & Ls & HI & HT & HC & HCo & HL) Hn HM.
  destruct (malloc_kept _ _ _ _ _ _ _ HI HT HC HCo Hn HM)
    as [H|(P1 & P2 & P3 & bs' & Ls' & s & HI' & HT' & HC' & HCo' & [K _] & P5 & P6 & P7)];
    [left; exact H|].
  right. split_and; try assumption.
  - intros Hin. destruct (HL _ Hin) as (s0 & Hs0). exact (P3 s0 Hs0).
  - exists bs', Ls', s. split_and; try assumption.
    intros q Hq. destruct (HL _ Hq) as (s0 & Hs0). exists s0. apply K; [assumption|].
    intros [].
Qed.

(** In particular the invariant holds afterwards, with the new pointer
    among the live ones. *)
Lemma malloc_heap_ok fuel st live n st' p :
  heap_ok st live -> 0 <= n <= 2 ^ 64 - 24 ->
  malloc fuel st n = Some (st', p) ->
  heap_ok st' (if p =? NULL then live else p :: live).
Proof.
  intros HO Hn HM.
  destruct (malloc_ok _ _ _ _ _ _ HO Hn HM) as [(-> & ->)|(Np & _ & _ & bs' & Ls' & s & H)].
  - exact HO.
  - destruct (Z.eqb_spec p NULL); [contradiction|].
    destruct H as (HI & HT & HC & HCo & HL & Hp & _).
    exists bs', Ls'. split_and; try assumption.
    intros q [<-|Hq]; [exists s; assumption|auto].
Qed.

(** [malloc] returns once it has fuel for the two searches it may run. *)
Lemma malloc_total st live n :
  heap_ok st live -> 0 <= n <= 2 ^ 64 - 24 ->
  exists k, forall fuel, (k <= fuel)%nat -> exists r, malloc fuel st n = Some r.
Proof.
  intros (bs & Ls & HI & HT & HC & HCo & HL) Hn.
  destruct (required_payload_size_facts n Hn) as (N16 & Nm & Nle & Nmax & Nmin).
  destruct (Z_le_gt_dec (brk st + required_payload_size n + 16) (mem_max st)) as [Hroom|Hfull].
  - destruct (extend_memory_ok _ _ _ n HI HT HC HCo Hn Hroom)
      as (st1 & bs1 & Ls1 & EE & HI1 & HT1 & HC1 & HCo1 & Hpres & (b' & Hb' & Fb' & Sb') & _).
    exists (S (S (S (length (Ls 14%Z) + length (Ls1 14%Z))))). intros fuel Hf.
    destruct fuel as [|[|f]]; try lia. cbn [malloc].
    destruct (Z.eqb_spec n 0); [eauto|].
    destruct (find_total _ _ _ HI (S f) n ltac:(lia)) as (h & EF). rewrite EF.
    destruct (Z.eqb_spec h NULL); [|eauto].
    rewrite EE.
    destruct (find_total _ _ _ HI1 f n ltac:(lia)) as (h1 & EF1). rewrite EF1.
    destruct (Z.eqb_spec h1 NULL); [|eauto].
    exfalso. apply (find_nonnull _ _ _ _ _ _ _ HI1 HC1 Hn Hb' Fb' Sb' EF1). assumption.
  - exists (S (S (length (Ls 14%Z)))). intros fuel Hf.
    destruct fuel as [|f]; try lia. cbn [malloc].
    destruct (Z.eqb_spec n 0); [eauto|].
    destruct (find_total _ _ _ HI f n ltac:(lia)) as (h & EF). rewrite EF.
    destruct (Z.eqb_spec h NULL); [|eauto].
    rewrite extend_memory_fail; [eauto|].
    cbv zeta. unfold Footer_size, Header_size.
        rewrite (wrap_small (required_payload_size n + 8)) by lia.
        rewrite wrap_small by lia. lia.
Qed.


(* ================================================================== *)
(** * Writes of the user, calloc, realloc, mm_init *)
(* ================================================================== *)

(** Bytes written inside the payload and the lent footer of an allocated
    block do not touch what the allocator relies on. *)
Lemma heap_inv_write st bs Ls b m' :
  heap_inv st bs Ls -> In b bs -> fr b = false ->
  (forall x, x < hd b + 8 \/ hd b + 16 + sz b <= x -> m' x = mem st x) ->
  heap_inv (set_mem st m') bs Ls.
Proof.
  intros HI Hb Fb HW.
  assert (W : forall a, a + 8 <= hd b + 8 \/ hd b + 16 + sz b <= a ->
                        load64 m' a = load64 (mem st) a).
  { intros a Ha. apply load64_ext. intros x Hx. apply HW. lia. }
  pose proof (blk_bounds _ _ _ HI b Hb) as Bb.
  assert (Hoff : forall x, In x bs -> x <> b ->
                 hd x + 16 + sz x <= hd b \/ hd b + 16 + sz b <= hd x).
  { intros x Hx Hne. destruct (blk_sep _ _ _ HI x b Hx Hb) as [?|[?|?]]; [contradiction|lia|lia]. }
  constructor; cbn [heap brk mem_max mem freelists set_mem]; try apply HI.
  - rewrite W by lia. apply HI.
  - apply Forall_forall. intros x Hx.
    pose proof (blk_mem _ _ _ HI x Hx) as Mx.
    destruct (blk_ok _ _ _ HI x Hx) as (Sx & _).
    destruct (blk_ok _ _ _ HI b Hb) as (Sb & _).
    apply (block_mem_frame (mem st)); [| |assumption].
    + destruct (blk_sep _ _ _ HI x b Hx Hb) as [->|[?|?]]; apply W; lia.
    + intros Fx. assert (Hne : x <> b) by congruence.
      destruct (Hoff x Hx Hne); apply W; lia.
  - apply (lists_ok_frame (mem st)); [apply HI|].
    intros i y Hy. destruct (node_block _ _ _ HI _ _ Hy) as (x & Hx & -> & Fx & Rx & _).
    assert (Hne : x <> b) by congruence.
    destruct (Hoff x Hx Hne); split; apply W; lia.
Qed.

Lemma heap_ok_write st live p m' :
  heap_ok st live -> In p live ->
  (forall x, x < p \/ p + (GET_SIZE (mem st) (Payload_get_header p) + Footer_size) <= x ->
             m' x = mem st x) ->
  heap_ok (set_mem st m') live.
Proof.
  intros (bs & Ls & HI & HT & HC & HCo & HL) Hp HW.
  destruct (HL _ Hp) as (s & b & Hb & Hh & Hs & Fb & Rb).
  pose proof (blk_bounds _ _ _ HI b Hb) as Bb. pose proof (inv_lo _ _ _ HI) as LO.
  pose proof (inv_top _ _ _ HI). pose proof (inv_max _ _ _ HI).
  rewrite Payload_get_header_eq, <- Hh, (blk_GET_SIZE _ _ _ HI b Hb) in HW by lia.
  unfold Footer_size in HW.
  exists bs, Ls. split_and; try assumption.
  apply (heap_inv_write _ _ _ b); try assumption.
  intros x Hx. apply HW. lia.
Qed.

(** ** calloc *)

Lemma calloc_ok fuel st live k n st' p :
  heap_ok st live -> 0 <= k -> 0 <= n -> n * k <= 2 ^ 64 - 24 ->
  calloc fuel st k n = Some (st', p) ->
  heap_ok st' (if p =? NULL then live else p :: live) /\ (p = NULL \/ p mod 16 = 0).
Proof.
  intros HO Hk Hn Hkn HC. unfold calloc in HC. cbv zeta in HC.
  assert (H0 : 0 <= n * k) by nia.
  rewrite (wrap_small (n * k)) in HC by lia.
  destruct (malloc fuel st (n * k)) as [[st1 q]|] eqn:EM; [|discriminate].
  destruct (malloc_ok _ _ _ _ _ _ HO (conj H0 Hkn) EM)
    as [(-> & ->)|(Nq & Aq & Fq & bs' & Ls' & s & HI & HT & HCv & HCo & HL & Hq & _ & Hcap)].
  - cbn in HC. inversion HC; subst. cbn. auto.
  - destruct (Z.eqb_spec q NULL) as [|_]; [contradiction|].
    inversion HC; subst st' p. destruct (Z.eqb_spec q NULL) as [|_]; [contradiction|].
    split; [|right; assumption].
    destruct Hq as (b & Hb & Hh & Hs & Fb & Rb).
    exists bs', Ls'. split_and; try assumption.
    + apply (heap_inv_write _ _ _ b); try assumption.
      intros x Hx. unfold memset.
      destruct (Z.leb_spec q x), (Z.ltb_spec x (q + n * k)); cbn [andb]; try reflexivity. lia.
    + intros r [<-|Hr]; [exists s, b; auto|auto].
Qed.

(** ** realloc *)

Lemma drop_fresh p q live : q <> p -> drop p (q :: live) = q :: drop p live.
Proof.
  intros H. unfold drop. cbn [filter]. destruct (Z.eqb_spec q p); [contradiction|reflexivity].
Qed.

Lemma realloc_ok fuel st live p n st' q :
  heap_ok st live -> p = NULL \/ In p live -> 0 <= n <= 2 ^ 64 - 24 ->
  realloc fuel st p n = Some (st', q) ->
  heap_ok st' (live_after_realloc live p n q) /\ (q = NULL \/ q mod 16 = 0).
Proof.
  intros HO Hp Hn HR. unfold realloc in HR. unfold live_after_realloc.
  destruct (Z.eqb_spec p NULL) as [Ep|Np].
  - split; [eapply malloc_heap_ok; eassumption|].
    destruct (malloc_ok _ _ _ _ _ _ HO Hn HR) as [(-> & _)|(_ & A & _)]; auto.
  - destruct Hp as [?|Hp]; [contradiction|].
    destruct (Z.eqb_spec n 0) as [En|Nn].
    + inversion HR; subst. split; [apply free_ok; assumption|left; reflexivity].
    + cbv zeta in HR.
      pose proof HO as (bs & Ls & HI & HT & HC & HCo & HL).
      destruct (HL _ Hp) as (s & b & Hb & Hh & Hs & Fb & Rb).
      pose proof (blk_bounds _ _ _ HI b Hb) as Bb. pose proof (inv_lo _ _ _ HI) as LO.
      pose proof (inv_top _ _ _ HI) as TOP. pose proof (inv_max _ _ _ HI) as MAX.
      pose proof (blk_align _ _ _ HI b Hb) as Ab.
      assert (Ap : p mod 16 = 0).
      { replace p with (hd b + 8) by lia. rewrite Z.add_mod, Ab by lia. reflexivity. }
      rewrite Payload_get_header_eq, <- Hh, (blk_GET_SIZE _ _ _ HI b Hb) in HR by lia.
      unfold Footer_size in HR. rewrite (wrap_small (sz b + 8)) in HR by lia.
      destruct (Z.leb_spec n (sz b + 8)) as [Hfit|Hbig].
      * inversion HR; subst st' q.
        destruct (Z.eqb_spec p NULL) as [|_]; [contradiction|].
        rewrite Z.eqb_refl. cbn [orb]. auto.
      * destruct (malloc fuel st n) as [[st1 q1]|] eqn:EM; [|discriminate].
        destruct (malloc_ok _ _ _ _ _ _ HO Hn EM)
          as [(-> & ->)|(Nq & Aq & Fq & bs' & Ls' & s1 & HI1 & HT1 & HC1 & HCo1 & HL1 & Hq & _ & Hcap)].
        -- cbn in HR. inversion HR; subst. cbn. auto.
        -- destruct (Z.eqb_spec q1 NULL) as [|_]; [contradiction|].
           inversion HR; subst st' q. clear HR.
           destruct (Z.eqb_spec q1 NULL) as [|_]; [contradiction|].
           assert (Nqp : q1 <> p) by (intros ->; contradiction).
           destruct (Z.eqb_spec q1 p) as [|_]; [contradiction|]. cbn [orb].
           split; [|right; assumption].
           rewrite <- (drop_fresh p q1 live Nqp).
           apply free_ok; [|right; assumption].
           destruct Hq as (b1 & Hb1 & Hh1 & Hs1 & Fb1 & Rb1).
           exists bs', Ls'. split_and; try assumption.
           ++ apply (heap_inv_write _ _ _ b1); try assumption.
              intros x Hx. unfold memcpy.
              destruct (Z.leb_spec q1 x), (Z.ltb_spec x (q1 + (sz b + 8)));
                cbn [andb]; try reflexivity. lia.
           ++ intros r [<-|Hr]; [exists s1, b1; auto|auto].
Qed.

(** ** mm_init *)

Lemma aligned_true p : 0 <= p < 2 ^ 64 -> aligned p = true -> p mod 16 = 0.
Proof.
  intros Hp H. unfold aligned in H. apply Z.eqb_eq in H.
  destruct (Z_lt_ge_dec (p + 15) (2 ^ 64)) as [Hs|Hb].
  - rewrite align_eq in H by lia. rewrite <- H, Z.mul_comm. apply Z.mod_mul. lia.
  - exfalso. unfold align, ALIGNMENT in H.
    replace (p + 16 - 1) with (p + 15) in H by lia.
    assert (E : wrap (p + 15) = p + 15 - 2 ^ 64).
    { unfold wrap. symmetry. apply (Z.mod_unique _ _ 1); lia. }
    rewrite E in H. rewrite (Z.div_small (p + 15 - 2 ^ 64)) in H by lia.
    cbn in H. lia.
Qed.

Lemma aligned_mod p : 0 <= p < 2 ^ 64 -> p mod 16 = 0 -> aligned p = true.
Proof.
  intros Hp Hm. unfold aligned. apply Z.eqb_eq.
  pose proof (Z.div_mod p 16 ltac:(lia)) as E. rewrite Hm in E.
  assert (p / 16 < 2 ^ 60) by (apply Z.div_lt_upper_bound; lia).
  rewrite align_eq by lia.
  replace (p + 15) with (15 + (p / 16) * 16) by lia.
  rewrite Z.div_add by lia. change (15 / 16) with 0. lia.
Qed.

Lemma init_probe_ok : forall fuel st st' start,
  0 <= brk st -> mem_max st < 2 ^ 64 ->
  init_probe fuel st = Some (st', start) -> start <> SBRK_FAIL ->
  0 <= start /\ start mod 16 = 0 /\ brk st' = start + 1 /\ brk st' <= mem_max st' /\
  mem_max st' = mem_max st /\ mem st' = mem st /\
  brk st <= start /\ (forall a, brk st <= a < start -> a mod 16 <> 0).
Proof.
  induction fuel as [|fuel IH]; intros st st' start H0 HM HP HS; [discriminate|].
  cbn [init_probe] in HP. unfold mm_sbrk in HP.
  destruct (Z.leb_spec (brk st + 1) (mem_max st)) as [Hroom|Hfull].
  - destruct (Z.eqb_spec (brk st) SBRK_FAIL) as [E|_].
    { inversion HP; subst. contradiction. }
    destruct (aligned (brk st)) eqn:EA.
    + inversion HP; subst st' start. cbn [brk mem_max mem].
      split_and; try lia; try reflexivity. apply aligned_true; [lia|assumption].
    + apply IH in HP; cbn [brk mem_max mem] in *; try lia; try assumption.
      destruct HP as (P1 & P2 & P3 & P4 & P5 & P6 & P7 & P8).
      split_and; try assumption; try lia.
      intros a Ha. destruct (Z.eq_dec a (brk st)) as [->|Na]; [|apply P8; lia].
      intros E. rewrite aligned_mod in EA by (assumption || lia). discriminate.
  - rewrite Z.eqb_refl in HP. inversion HP; subst. contradiction.
Qed.

(** A successful [mm_init] leaves the empty heap: the epilogue alone
    between prologue and break, and 15 empty lists. *)
Lemma mm_init_inv fuel st0 st :
  0 <= brk st0 -> mem_max st0 < 2 ^ 64 ->
  mm_init fuel st0 = Some (st, true) ->
  heap_inv st [mkBlock (brk st - 8) 0 false false] (fun _ => []) /\
  brk st = heap st + 24 /\
  load64 (mem st) (heap st + 8) = 0 /\ (forall i, freelists st i = NULL) /\
  brk st0 <= heap st - 8 /\ (forall a, brk st0 <= a < heap st - 8 -> a mod 16 <> 0) /\
  mem_max st = mem_max st0.
Proof.
  intros H0 HM HI. unfold mm_init in HI.
  destruct (init_probe fuel st0) as [[st1 start]|] eqn:EP; [|discriminate].
  destruct (Z.eqb_spec start SBRK_FAIL) as [|NS]; [discriminate|].
  destruct (init_probe_ok _ _ _ _ H0 HM EP NS) as (S0 & SA & B1 & BM & MM & _ & SL & SF).
  cbv zeta in HI. unfold Header_size, Footer_size, mm_sbrk in HI.
  change (wrap (8 + 8 + 8 + 8 - 1)) with 31 in HI.
  destruct (Z.leb_spec (brk st1 + 31) (mem_max st1)) as [Hroom|]; [|rewrite Z.eqb_refl in HI; discriminate].
  destruct (Z.eqb_spec (brk st1) SBRK_FAIL) as [|_]; [discriminate|].
  cbn [mem brk mem_max heap freelists set_mem] in HI.
  rewrite (wrap_small (start + 8)) in HI by lia.
  set (h := start + 8) in *.
  set (m1 := SET_VALUE (mem st1) h 0 false false) in *.
  assert (L1 : load64 m1 h = tag 0 false false).
  { apply load64_SET_VALUE_same; [lia|reflexivity]. }
  assert (G1 : GET_SIZE m1 h = 0).
  { apply (GET_SIZE_tag _ _ 0 false false); [lia|reflexivity|assumption]. }
  rewrite (Header_get_footer_eq m1 h 0 G1) in HI by lia.
  set (m2 := SET_VALUE m1 (h + 8 + 0) 0 false false) in *.
  assert (L2 : load64 m2 h = tag 0 false false).
  { subst m2. rewrite load64_SET_VALUE_other by lia. assumption. }
  assert (G2 : GET_SIZE m2 h = 0).
  { apply (GET_SIZE_tag _ _ 0 false false); [lia|reflexivity|assumption]. }
  rewrite (Header_get_next_header_eq m2 h 0 G2) in HI by lia.
  set (m3 := SET_VALUE m2 (h + 16 + 0) 0 false false) in *.
  inversion HI; subst st. clear HI. cbn [brk heap mem freelists mem_max set_mem].
  assert (Hm : h mod 16 = 8).
  { subst h. rewrite Z.add_mod, SA by lia. reflexivity. }
  split; [|split_and; try lia; try reflexivity].
  2:{ subst m3 m2. rewrite load64_SET_VALUE_other by lia.
      replace (h + 8 + 0) with (h + 8) by lia.
      rewrite load64_SET_VALUE_same by (lia || reflexivity). reflexivity. }
  2:{ intros a Ha. apply SF. subst h. lia. }
  constructor; cbn [heap brk mem_max mem freelists set_mem]; try lia.
  - subst m3. rewrite load64_SET_VALUE_other by lia. assumption.
  - cbn [adj hd sz]. lia.
  - eexists. split; [left; reflexivity|reflexivity].
  - constructor; [|constructor]. unfold block_ok. cbn [sz fr hd]. split_and; auto; lia.
  - constructor; [|constructor]. split; cbn [hd sz fr pfr]; [|discriminate].
    replace (brk st1 + 31 - 8) with (h + 16 + 0) by lia.
    apply load64_SET_VALUE_same; [lia|reflexivity].
  - constructor.
    + intros i. reflexivity.
    + intros i. constructor.
    + intros i j x y [].
  - intros i p [].
Qed.

Lemma mm_init_ok fuel st0 st :
  0 <= brk st0 -> mem_max st0 < 2 ^ 64 ->
  mm_init fuel st0 = Some (st, true) -> heap_ok st [].
Proof.
  intros H0 HM HI. destruct (mm_init_inv _ _ _ H0 HM HI) as [HV _].
  eexists _, _. split_and; [exact HV| | | |].
  - cbn. auto.
  - intros h s (b & [<-|[]] & _ & _ & F). discriminate.
  - intros b [<-|[]] F. discriminate.
  - intros p [].
Qed.

(** The probe needs at most 16 steps. *)
Lemma init_probe_total : forall fuel st,
  0 <= brk st -> mem_max st < 2 ^ 64 ->
  (Z.to_nat ((16 - brk st mod 16) mod 16) < fuel)%nat ->
  exists r, init_probe fuel st = Some r.
Proof.
  induction fuel as [|fuel IH]; intros st H0 HM Hf; [lia|].
  cbn [init_probe]. unfold mm_sbrk.
  destruct (Z.leb_spec (brk st + 1) (mem_max st)) as [Hroom|Hfull].
  - destruct (Z.eqb_spec (brk st) SBRK_FAIL); [eauto|].
    destruct (aligned (brk st)) eqn:EA; [eauto|].
    apply IH; cbn [brk mem_max]; try lia.
    pose proof (Z.mod_pos_bound (brk st) 16 ltac:(lia)) as Hb.
    assert (Hnz : brk st mod 16 <> 0).
    { intros E. rewrite aligned_mod in EA by (assumption || lia). discriminate. }
    assert (E1 : (16 - brk st mod 16) mod 16 = 16 - brk st mod 16) by (apply Z.mod_small; lia).
    rewrite E1 in Hf.
    assert (E2 : (brk st + 1) mod 16 = (brk st mod 16 + 1) mod 16).
    { rewrite Z.add_mod by lia. reflexivity. }
    rewrite E2.
    destruct (Z.eq_dec (brk st mod 16) 15) as [E|NE].
    + rewrite E. cbn. lia.
    + rewrite (Z.mod_small (brk st mod 16 + 1)) by lia.
      rewrite (Z.mod_small (16 - (brk st mod 16 + 1))) by lia. lia.
  - rewrite Z.eqb_refl. eauto.
Qed.

Lemma mm_init_total fuel st0 :
  0 <= brk st0 -> mem_max st0 < 2 ^ 64 -> (16 <= fuel)%nat ->
  exists r, mm_init fuel st0 = Some r.
Proof.
  intros H0 HM Hf. unfold mm_init.
  pose proof (Z.mod_pos_bound (16 - brk st0 mod 16) 16 ltac:(lia)).
  destruct (init_probe_total fuel st0 H0 HM ltac:(lia)) as ([st1 start] & ->).
  destruct (start =? SBRK_FAIL); [eauto|].
  cbv zeta. destruct (mm_sbrk st1 _) as [st2 r]. destruct (r =? SBRK_FAIL); eauto.
Qed.


(* ================================================================== *)
(** * Reachable states *)
(* ================================================================== *)

Lemma extend_heap_ok st live n :
  heap_ok st live -> 0 <= n <= 2 ^ 64 - 24 ->
  heap_ok (fst (extend_memory st n)) live.
Proof.
  intros HO Hn. pose proof HO as (bs & Ls & HI & HT & HC & HCo & HL).
  destruct (required_payload_size_facts n Hn) as (N16 & Nm & Nle & Nmax & Nmin).
  destruct (Z_le_gt_dec (brk st + required_payload_size n + 16) (mem_max st)) as [Hroom|Hfull].
  - destruct (extend_memory_ok _ _ _ n HI HT HC HCo Hn Hroom)
      as (st1 & bs1 & Ls1 & EE & HI1 & HT1 & HC1 & HCo1 & Hpres & _).
    rewrite EE. cbn [fst]. exists bs1, Ls1. split_and; try assumption.
    intros q Hq. destruct (HL _ Hq) as (s & Hs). exists s. auto.
  - rewrite extend_memory_fail; [exact HO|].
    cbv zeta. unfold Footer_size, Header_size.
    rewrite (wrap_small (required_payload_size n + 8)) by lia.
    rewrite wrap_small by lia. lia.
Qed.

(** Every reachable state satisfies the invariant. *)
Lemma reach_heap_ok st live : reach st live -> heap_ok st live.
Proof.
  induction 1 as [fuel st0 st H0 HM HI
                 |fuel st live n st' p _ IH Hn HM
                 |st live p _ IH Hp
                 |fuel st live p n st' q _ IH Hp Hn HR
                 |fuel st live k n st' p _ IH Hk Hn Hkn HC
                 |st live n _ IH Hn
                 |st live p m' _ IH Hp HW].
  - eapply mm_init_ok; eassumption.
  - eapply malloc_heap_ok; eassumption.
  - apply free_ok; assumption.
  - exact (proj1 (realloc_ok _ _ _ _ _ _ _ IH Hp Hn HR)).
  - exact (proj1 (calloc_ok _ _ _ _ _ _ _ IH Hk Hn Hkn HC)).
  - apply extend_heap_ok; assumption.
  - eapply heap_ok_write; eassumption.
Qed.

(** With room beyond the break, [malloc] does not fail. *)
Lemma malloc_room fuel st live n st' p :
  heap_ok st live -> 1 <= n <= 2 ^ 64 - 24 ->
  brk st + required_payload_size n + 16 <= mem_max st ->
  malloc fuel st n = Some (st', p) -> p <> NULL.
Proof.
  intros (bs & Ls & HI & HT & HC & HCo & HL) Hn Hroom HM.
  assert (Hn' : 0 <= n <= 2 ^ 64 - 24) by lia.
  destruct fuel as [|f]; [discriminate|]. cbn [malloc] in HM.
  destruct (Z.eqb_spec n 0) as [|_]; [lia|].
  destruct (Segregated_find_free_block f st n) as [h|] eqn:EF; [|discriminate].
  destruct (Z.eqb_spec h NULL) as [Eh|Nh].
  - destruct (extend_memory_ok _ _ _ n HI HT HC HCo Hn' Hroom)
      as (st1 & bs1 & Ls1 & EE & HI1 & HT1 & HC1 & HCo1 & Hpres & (b' & Hb' & Fb' & Sb') & _).
    rewrite EE in HM. destruct f as [|f']; [discriminate|]. cbn [malloc] in HM.
    destruct (Z.eqb_spec n 0) as [|_]; [lia|].
    destruct (Segregated_find_free_block f' st1 n) as [h1|] eqn:EF1; [|discriminate].
    pose proof (find_nonnull _ _ _ _ _ _ _ HI1 HC1 Hn' Hb' Fb' Sb' EF1) as Nh1.
    destruct (Z.eqb_spec h1 NULL) as [|_]; [contradiction|].
    assert (HL1 : forall q, In q (@nil Z) -> exists s, ablk bs1 (q - 8) s) by (intros ? []).
    pose proof (place_ok _ _ _ _ _ _ _ HI1 HT1 HC1 HCo1 HL1 Hn' EF1 Nh1) as P.
    cbv zeta in P. assert (E : allocate st1 h1 n = (st', p)) by congruence.
    rewrite E in P. cbn [snd] in P. unfold NULL. tauto.
  - assert (HL0 : forall q, In q (@nil Z) -> exists s, ablk bs (q - 8) s) by (intros ? []).
    pose proof (place_ok _ _ _ _ _ _ _ HI HT HC HCo HL0 Hn' EF Nh) as P.
    cbv zeta in P. assert (E : allocate st h n = (st', p)) by congruence.
    rewrite E in P. cbn [snd] in P. unfold NULL. tauto.
Qed.

(** After a successful extension the retried request is placed: the
    search finds a block and [malloc] returns what [allocate] returns,
    with the break where the extension left it. *)
Lemma malloc_retry st live n st1 :
  heap_ok st live -> 0 <= n <= 2 ^ 64 - 24 ->
  extend_memory st n = (st1, true) ->
  (forall f h1, Segregated_find_free_block f st1 n = Some h1 -> h1 <> NULL) /\
  exists k, forall f, (k <= f)%nat ->
    exists h1, Segregated_find_free_block f st1 n = Some h1 /\ h1 <> NULL /\
               (n <> 0 -> malloc (S f) st1 n = Some (allocate st1 h1 n)) /\
               brk (fst (allocate st1 h1 n)) = brk st1.
Proof.
  intros (bs & Ls & HI & HT & HC & HCo & HL) Hn EE.
  destruct (required_payload_size_facts n Hn) as (N16 & Nm & Nle & Nmax & Nmin).
  destruct (Z_le_gt_dec (brk st + required_payload_size n + 16) (mem_max st)) as [Hroom|Hfull].
  - destruct (extend_memory_ok _ _ _ n HI HT HC HCo Hn Hroom)
      as (st1' & bs1 & Ls1 & EE' & HI1 & HT1 & HC1 & HCo1 & Hpres & (b' & Hb' & Fb' & Sb') & _).
    assert (st1' = st1) by congruence. subst st1'.
    assert (NN : forall f h1, Segregated_find_free_block f st1 n = Some h1 -> h1 <> NULL).
    { intros f h1 EF. exact (find_nonnull _ _ _ _ _ _ _ HI1 HC1 Hn Hb' Fb' Sb' EF). }
    split; [exact NN|].
    exists (S (length (Ls1 14%Z))). intros f Hf.
    destruct (find_total _ _ _ HI1 f n ltac:(lia)) as (h1 & EF1).
    exists h1. split_and; try assumption.
    + exact (NN _ _ EF1).
    + intros N0. cbn [malloc]. destruct (Z.eqb_spec n 0) as [|_]; [contradiction|].
      rewrite EF1. destruct (Z.eqb_spec h1 NULL) as [E|_]; [|reflexivity].
      exfalso. exact (NN _ _ EF1 E).
    + apply (allocate_region st1 h1 n).
  - exfalso. rewrite extend_memory_fail in EE; [discriminate|].
    cbv zeta. unfold Footer_size, Header_size.
    rewrite (wrap_small (required_payload_size n + 8)) by lia.
    rewrite wrap_small by lia. lia.
Qed.

Lemma realloc_total st live p n :
  heap_ok st live -> 0 <= n <= 2 ^ 64 - 24 ->
  exists k, forall fuel, (k <= fuel)%nat -> exists r, realloc fuel st p n = Some r.
Proof.
  intros HO Hn. destruct (malloc_total _ _ n HO Hn) as (k & Hk).
  exists k. intros fuel Hf. unfold realloc.
  destruct (p =? NULL); [auto|].
  destruct (n =? 0); [eauto|]. cbv zeta.
  destruct (n <=? _); [eauto|].
  destruct (Hk fuel Hf) as ([st1 q] & ->). destruct (q =? NULL); eauto.
Qed.

Lemma calloc_total st live k n :
  heap_ok st live -> 0 <= k -> 0 <= n -> n * k <= 2 ^ 64 - 24 ->
  exists j, forall fuel, (j <= fuel)%nat -> exists r, calloc fuel st k n = Some r.
Proof.
  intros HO Hk Hn Hkn. assert (H0 : 0 <= n * k) by nia.
  destruct (malloc_total _ _ (n * k) HO (conj H0 Hkn)) as (j & Hj).
  exists j. intros fuel Hf. unfold calloc. cbv zeta.
  rewrite (wrap_small (n * k)) by lia.
  destruct (Hj fuel Hf) as ([st1 q] & ->). destruct (q =? NULL); eauto.
Qed.

(* ================================================================== *)
(** * The heap walk *)
(* ================================================================== *)

Lemma checkheap_suffix st bs Ls :
  heap_inv st bs Ls -> coalesced bs ->
  forall rest l1 prevh prevfr fuel,
    bs = l1 ++ rest -> rest <> [] ->
    Header_get_next_header (mem st) prevh = hd (List.hd (mkBlock 0 0 false false) rest) ->
    GET_FREE_BIT (mem st) prevh = prevfr ->
    threaded prevfr rest -> (length rest <= fuel)%nat ->
    checkheap_coalesced fuel (mem st) prevh = Some true.
Proof.
  intros HI HCo. induction rest as [|x rest IH]; intros l1 prevh prevfr fuel E NE HN HF HT Hfu.
  { contradiction. }
  destruct fuel as [|fuel]; [cbn in Hfu; lia|].
  assert (Hx : In x bs) by (rewrite E; apply in_mid).
  cbn [checkheap_coalesced]. cbn [List.hd] in HN. rewrite HN.
  rewrite (blk_GET_FREE_BIT _ _ _ HI x Hx), (blk_GET_SIZE _ _ _ HI x Hx), HF.
  cbn [threaded] in HT. destruct HT as [Px HT].
  assert (Hand : fr x && prevfr = false).
  { destruct (fr x) eqn:Fx; [|reflexivity]. rewrite <- Px, (HCo x Hx Fx). reflexivity. }
  rewrite Hand.
  destruct (Z.eqb_spec (sz x) 0) as [|Nz]; [reflexivity|].
  destruct rest as [|y rest].
  { exfalso. destruct (epilogue_last _ _ _ HI) as (l & e & E' & _ & Hs & _).
    rewrite E in E'. apply app_inj_tail in E'. destruct E' as [_ ->]. contradiction. }
  apply (IH (l1 ++ [x]) (hd x) (fr x)).
  - rewrite <- app_assoc. exact E.
  - discriminate.
  - cbn [List.hd]. apply (blk_next_header _ _ _ _ _ _ _ HI E).
  - apply (blk_GET_FREE_BIT _ _ _ HI x Hx).
  - exact HT.
  - cbn [length] in Hfu |- *. lia.
Qed.

Lemma checkheap_ok st bs Ls fuel :
  heap_inv st bs Ls -> threaded false bs -> coalesced bs ->
  (length bs <= fuel)%nat ->
  checkheap_coalesced fuel (mem st) (heap st) = Some true.
Proof.
  intros HI HT HCo Hf.
  pose proof (inv_lo _ _ _ HI) as LO. pose proof (inv_top _ _ _ HI) as TOP.
  pose proof (inv_max _ _ _ HI) as MAX. pose proof (inv_pro _ _ _ HI) as PRO.
  destruct (epilogue_last _ _ _ HI) as (l & e & E & Eh & _).
  assert (He : In e bs) by (rewrite E; apply in_or_app; right; left; reflexivity).
  pose proof (blk_bounds _ _ _ HI e He) as Be.
  apply (checkheap_suffix _ _ _ HI HCo bs [] (heap st) false); try assumption.
  - reflexivity.
  - rewrite E. destruct l; discriminate.
  - rewrite (Header_get_next_header_eq _ _ 0); try lia.
    + pose proof (inv_adj _ _ _ HI) as AD. destruct bs as [|x r]; [destruct l; discriminate|].
      cbn [adj] in AD. cbn [List.hd]. lia.
    + apply (GET_SIZE_tag _ _ 0 false false); [lia|reflexivity|assumption].
  - apply (GET_FREE_BIT_tag _ _ 0 false false); [lia|reflexivity|assumption].
Qed.

(* ================================================================== *)
(** * The search policy *)
(* ================================================================== *)






(* ================================================================== *)
(** * The example heaps *)
(* ================================================================== *)

Lemma run_eq {A} (d : state) (o : option (state * A)) (a : A) :
  option_map snd o = Some a -> o = Some (state_of d o, a).
Proof. destruct o as [[s x]|]; cbn; [intros E; inversion E; reflexivity|discriminate]. Qed.

Lemma raw_ok limit : 0 <= brk (raw limit).
Proof. cbn. lia. Qed.

Lemma init_fresh : mm_init 20 (raw 100000) = Some (fresh 100000, true).
Proof. apply run_eq. vm_compute. reflexivity. Qed.

Lemma reach_fresh : reach (fresh 100000) [].
Proof.
  apply (reach_init 20 (raw 100000)); [apply raw_ok|cbn; lia|exact init_fresh].
Qed.

Lemma malloc_mid : malloc 10 (fresh 100000) 56 = Some (mid_alloc, 1040).
Proof. apply run_eq. vm_compute. reflexivity. Qed.

Lemma reach_mid_alloc : reach mid_alloc [1040].
Proof.
  apply (reach_malloc 10 (fresh 100000) [] 56 mid_alloc 1040);
    [exact reach_fresh|lia|exact malloc_mid].
Qed.

Lemma reach_mid_free : reach mid_free [].
Proof.
  apply (reach_free mid_alloc [1040] 1040); [exact reach_mid_alloc|left; reflexivity].
Qed.



Lemma pair_inv : heap_inv pair_state pair_blocks pair_lists.
Proof.
  constructor; cbn [heap brk mem_max mem freelists pair_state].
  - lia.
  - reflexivity.
  - lia.
  - lia.
  - vm_compute. reflexivity.
  - cbn [adj pair_blocks hd sz]. lia.
  - exists (mkBlock 1096 0 false true). split; [right; right; left; reflexivity|reflexivity].
  - unfold pair_blocks, block_ok. repeat constructor; cbn [sz fr hd]; try lia; try discriminate.
  - unfold pair_blocks, block_mem. repeat constructor; cbn [sz fr pfr hd];
      try discriminate; try (intros _); vm_compute; reflexivity.
  - constructor.
    + intros i. unfold pair_lists, updL, upd.
      destruct (Z.eqb_spec i 0) as [->|]; [|reflexivity].
      cbn [dlseg]. split_and; try lia; vm_compute; reflexivity.
    + intros i. unfold pair_lists, updL.
      destruct (i =? 0); [|constructor].
      repeat constructor; cbn [In]; intuition lia.
    + intros i j x y. unfold pair_lists, updL.
      destruct (Z.eqb_spec i 0), (Z.eqb_spec j 0); cbn [In]; intros Hx Hy;
        try contradiction.
      destruct Hx as [<-|[<-|[]]], Hy as [<-|[<-|[]]]; lia.
  - intros i p. unfold pair_lists, updL.
    destruct (Z.eqb_spec i 0) as [->|]; cbn [In]; [|intros []].
    intros [<-|[<-|[]]]; exists 16; (split; [|reflexivity]).
    + exists (mkBlock 1064 16 true true). split_and; try reflexivity. right; left; reflexivity.
    + exists (mkBlock 1032 16 true false). split_and; try reflexivity. left; reflexivity.
Qed.


(* ================================================================== *)
(** * What the calls leave in place *)
(* ================================================================== *)

Lemma heap_full_ok st live : heap_full st live -> heap_ok st live.
Proof.
  intros (bs & Ls & HI & HT & HC & HCo & _ & HL). exists bs, Ls. auto.
Qed.

(** The capacity [realloc] reads behind a pointer to an allocated block. *)
Lemma capacity_ablk st bs Ls q s :
  heap_inv st bs Ls -> ablk bs (q - 8) s -> capacity st q = s + 8.
Proof.
  intros HI (b & Hb & Eh & Es & _ & _).
  pose proof (blk_bounds _ _ _ HI b Hb). pose proof (inv_lo _ _ _ HI).
  destruct (blk_ok _ _ _ HI b Hb) as (? & _).
  pose proof (inv_top _ _ _ HI). pose proof (inv_max _ _ _ HI).
  unfold capacity, Footer_size. rewrite Payload_get_header_eq by lia.
  rewrite <- Eh, (blk_GET_SIZE _ _ _ HI b Hb). lia.
Qed.

Lemma kept_same_block X st st' bs bs' Ls Ls' q s :
  heap_inv st bs Ls -> heap_inv st' bs' Ls' ->
  kept X (mem st) (mem st') bs bs' -> ablk bs (q - 8) s -> ~ X (q - 8) ->
  same_block st st' q.
Proof.
  intros HI HI' [K _] Hq NX. destruct (K _ _ Hq NX) as [Hq' F].
  unfold same_block.
  rewrite (capacity_ablk _ _ _ _ _ HI Hq), (capacity_ablk _ _ _ _ _ HI' Hq').
  split; [reflexivity|]. intros x Hx. apply F. lia.
Qed.

Lemma same_block_refl st q : same_block st st q.
Proof. split; reflexivity. Qed.

Lemma same_block_trans st1 st2 st3 q :
  same_block st1 st2 q -> same_block st2 st3 q -> same_block st1 st3 q.
Proof.
  intros [C1 F1] [C2 F2]. split; [congruence|].
  intros x Hx. rewrite F2, F1; [reflexivity|assumption|]. rewrite C1. assumption.
Qed.

(** Bytes written inside an allocated block leave the other blocks. *)
Lemma kept_write st bs Ls b m' :
  heap_inv st bs Ls -> In b bs -> fr b = false ->
  (forall x, x < hd b + 8 \/ hd b + 16 + sz b <= x -> m' x = mem st x) ->
  kept (eq (hd b)) (mem st) m' bs bs.
Proof.
  intros HI Hb Fb HW. split.
  - intros h s (c & Hc & Eh & Es & Fc & Rc) NX. split; [exists c; auto|].
    intros x Hx. apply HW.
    destruct (blk_sep _ _ _ HI c b Hc Hb) as [->|D]; [contradiction|].
    destruct (blk_ok _ _ _ HI b Hb) as (? & _). lia.
  - intros HM f Hf Ff PFf. specialize (HM f Hf Ff PFf).
    pose proof (blk_free_real _ _ _ HI f Hf Ff).
    destruct (blk_ok _ _ _ HI b Hb) as (? & _).
    assert (D : hd f + 16 + sz f <= hd b \/ hd b + 16 + sz b <= hd f).
    { destruct (blk_sep _ _ _ HI f b Hf Hb) as [->|D]; [congruence|assumption]. }
    rewrite (load64_ext m' (mem st) (hd f + 8 + sz f)),
            (load64_ext m' (mem st) (hd f)); [assumption| |];
      intros x Hx; apply HW; lia.
Qed.

(** ** The invariant with the footers, call by call *)

Lemma mm_init_full fuel st0 st :
  0 <= brk st0 -> mem_max st0 < 2 ^ 64 ->
  mm_init fuel st0 = Some (st, true) -> heap_full st [].
Proof.
  intros H0 HM HI. destruct (mm_init_inv _ _ _ H0 HM HI) as [HV _].
  eexists _, _. split_and; [exact HV| | | | |].
  - cbn. auto.
  - intros h s (b & [<-|[]] & _ & _ & F). discriminate.
  - intros b [<-|[]] F. discriminate.
  - intros b [<-|[]] F. discriminate.
  - intros p [].
Qed.

Lemma malloc_full fuel st live n st' p :
  heap_full st live -> 0 <= n <= 2 ^ 64 - 24 ->
  malloc fuel st n = Some (st', p) ->
  heap_full st' (if p =? NULL then live else p :: live) /\
  (forall q, In q live -> same_block st st' q) /\
  (p = NULL -> st' = st) /\
  (p <> NULL -> ~ In p live /\ p mod 16 = 0 /\ n <= capacity st' p).
Proof.
  intros HF Hn HM. pose proof HF as (bs & Ls & HI & HT & HC & HCo & HMi & HL).
  destruct (malloc_kept _ _ _ _ _ _ _ HI HT HC HCo Hn HM)
    as [[-> ->]|(Np & Ap & Fp & bs' & Ls' & s & HI' & HT' & HC' & HCo' & K & Hp & _ & Hcap)].
  - split; [exact HF|]. split; [intros q _; apply same_block_refl|].
    split; [reflexivity|]. intros N. contradiction.
  - destruct (Z.eqb_spec p NULL) as [|_]; [contradiction|]. split_and.
    + exists bs', Ls'. split_and; try assumption; [apply K; assumption|].
      intros q [<-|Hq]; [exists s; assumption|].
      destruct (HL _ Hq) as (s0 & Hs0). exists s0. apply K; [assumption|intros []].
    + intros q Hq. destruct (HL _ Hq) as (s0 & Hs0).
      apply (kept_same_block none _ _ _ _ _ _ _ _ HI HI' K Hs0). intros [].
    + intros E. contradiction.
    + intros _. split_and; try assumption.
      * intros Hin. destruct (HL _ Hin) as (s0 & Hs0). exact (Fp s0 Hs0).
      * rewrite (capacity_ablk _ _ _ _ _ HI' Hp). lia.
Qed.

Lemma free_full st live p :
  heap_full st live -> In p live ->
  heap_full (free st p) (drop p live) /\
  (forall q, In q live -> q <> p -> same_block st (free st p) q).
Proof.
  intros (bs & Ls & HI & HT & HC & HCo & HMi & HL) Hp.
  destruct (HL p Hp) as (s & b & Hb & Ehd & Esz & Fb & Rb). subst s.
  assert (Ep : p = hd b + 8) by lia. subst p.
  destruct (free_kept st bs Ls b HI HT HC HCo Hb Fb Rb)
    as (bs' & Ls' & HI' & HT' & HC' & HCo' & K & _).
  split.
  - exists bs', Ls'. split_and; try assumption; [apply K; assumption|].
    intros q Hq. apply in_drop in Hq. destruct Hq as [Hq Hne].
    destruct (HL q Hq) as (s & Hs). exists s. apply K; [assumption|]. lia.
  - intros q Hq Hne. destruct (HL q Hq) as (s & Hs).
    apply (kept_same_block _ _ _ _ _ _ _ _ _ HI HI' K Hs). lia.
Qed.

Lemma extend_full st live n :
  heap_full st live -> 0 <= n <= 2 ^ 64 - 24 ->
  heap_full (fst (extend_memory st n)) live /\
  (forall q, In q live -> same_block st (fst (extend_memory st n)) q).
Proof.
  intros HF Hn. pose proof HF as (bs & Ls & HI & HT & HC & HCo & HMi & HL).
  destruct (required_payload_size_facts n Hn) as (N16 & Nm & Nle & Nmax & Nmin).
  destruct (Z_le_gt_dec (brk st + required_payload_size n + 16) (mem_max st)) as [Hroom|Hfull].
  - destruct (extend_memory_ok_kept _ _ _ n HI HT HC HCo Hn Hroom)
      as (st1 & bs1 & Ls1 & EE & HI1 & HT1 & HC1 & HCo1 & _ & _ & _ & _ & _ & K).
    rewrite EE. cbn [fst]. split.
    + exists bs1, Ls1. split_and; try assumption; [apply K; assumption|].
      intros q Hq. destruct (HL _ Hq) as (s & Hs). exists s. apply K; [assumption|intros []].
    + intros q Hq. destruct (HL _ Hq) as (s & Hs).
      apply (kept_same_block none _ _ _ _ _ _ _ _ HI HI1 K Hs). intros [].
  - rewrite extend_memory_fail.
    + split; [exact HF|]. intros q _. apply same_block_refl.
    + cbv zeta. unfold Footer_size, Header_size.
      rewrite (wrap_small (required_payload_size n + 8)) by lia.
      rewrite wrap_small by lia. lia.
Qed.

(** A write of the client inside the block behind [p]. *)
Lemma write_full st live p m' :
  heap_full st live -> In p live ->
  (forall x, x < p \/ p + capacity st p <= x -> m' x = mem st x) ->
  heap_full (set_mem st m') live /\
  (forall q, In q live -> q <> p -> same_block st (set_mem st m') q) /\
  capacity (set_mem st m') p = capacity st p.
Proof.
  intros (bs & Ls & HI & HT & HC & HCo & HMi & HL) Hp HW.
  destruct (HL _ Hp) as (s & Hs). pose proof Hs as (b & Hb & Hh & Hsz & Fb & Rb).
  rewrite (capacity_ablk _ _ _ _ _ HI Hs) in HW.
  assert (HW' : forall x, x < hd b + 8 \/ hd b + 16 + sz b <= x -> m' x = mem st x).
  { intros x Hx. apply HW. lia. }
  pose proof (heap_inv_write _ _ _ b m' HI Hb Fb HW') as HI'.
  pose proof (kept_write _ _ _ b m' HI Hb Fb HW') as K.
  split; [|split].
  - exists bs, Ls. split_and; try assumption. apply K. assumption.
  - intros q Hq Hne. destruct (HL _ Hq) as (s0 & Hs0).
    apply (kept_same_block _ _ _ _ _ _ _ _ _ HI HI' K Hs0). lia.
  - rewrite (capacity_ablk _ _ _ _ _ HI Hs), (capacity_ablk _ _ _ _ _ HI' Hs). reflexivity.
Qed.

Lemma memset_outside m p c n x : x < p \/ p + n <= x -> memset m p c n x = m x.
Proof.
  intros H. unfold memset.
  destruct (Z.leb_spec p x), (Z.ltb_spec x (p + n)); cbn [andb]; try reflexivity; lia.
Qed.

Lemma memset_inside m p c n x : p <= x < p + n -> memset m p c n x = c mod 256.
Proof.
  intros H. unfold memset.
  destruct (Z.leb_spec p x), (Z.ltb_spec x (p + n)); cbn [andb]; try reflexivity; lia.
Qed.

Lemma memcpy_outside m d s n x : x < d \/ d + n <= x -> memcpy m d s n x = m x.
Proof.
  intros H. unfold memcpy.
  destruct (Z.leb_spec d x), (Z.ltb_spec x (d + n)); cbn [andb]; try reflexivity; lia.
Qed.

Lemma memcpy_inside m d s n x : d <= x < d + n -> memcpy m d s n x = m (s + (x - d)).
Proof.
  intros H. unfold memcpy.
  destruct (Z.leb_spec d x), (Z.ltb_spec x (d + n)); cbn [andb]; try reflexivity; lia.
Qed.

Lemma calloc_full fuel st live k n st' p :
  heap_full st live -> 0 <= k -> 0 <= n -> n * k <= 2 ^ 64 - 24 ->
  calloc fuel st k n = Some (st', p) ->
  heap_full st' (if p =? NULL then live else p :: live) /\
  (forall q, In q live -> same_block st st' q) /\
  (p = NULL -> st' = st) /\
  (p <> NULL ->
   ~ In p live /\ p mod 16 = 0 /\ n * k <= capacity st' p /\
   forall x, p <= x < p + n * k -> mem st' x = 0).
Proof.
  intros HF Hk Hn Hkn HC. unfold calloc in HC. cbv zeta in HC.
  assert (H0 : 0 <= n * k) by nia.
  rewrite (wrap_small (n * k)) in HC by lia.
  destruct (malloc fuel st (n * k)) as [[st1 q]|] eqn:EM; [|discriminate].
  destruct (malloc_full _ _ _ _ _ _ HF (conj H0 Hkn) EM) as (HF1 & SB & Hnull & Hnew).
  destruct (Z.eqb_spec q NULL) as [Eq|Nq].
  - inversion HC; subst st' p. destruct (Z.eqb_spec q NULL) as [_|]; [|contradiction].
    split_and; try assumption. intros N. contradiction.
  - inversion HC; subst st' p. clear HC.
    destruct (Z.eqb_spec q NULL) as [|_]; [contradiction|].
    destruct (Hnew Nq) as (Fq & Aq & Cq).
    destruct (write_full st1 (q :: live) q (memset (mem st1) q 0 (n * k)) HF1
                (or_introl eq_refl)) as (HF2 & SB2 & C2).
    { intros x Hx. apply memset_outside. lia. }
    split_and; try assumption.
    + intros r Hr. apply (same_block_trans _ st1); [apply SB; assumption|].
      apply SB2; [right; assumption|]. intros ->. contradiction.
    + intros E. contradiction.
    + intros _. split_and; try assumption.
      * rewrite C2. assumption.
      * intros x Hx. cbn [mem set_mem]. rewrite memset_inside by assumption. reflexivity.
Qed.

Lemma live_not_null st live p : heap_full st live -> In p live -> 24 < p.
Proof.
  intros (bs & Ls & HI & _ & _ & _ & _ & HL) Hp.
  destruct (HL _ Hp) as (s & b & Hb & Hh & _).
  pose proof (blk_bounds _ _ _ HI b Hb). pose proof (inv_lo _ _ _ HI). lia.
Qed.

Lemma realloc_full fuel st live p n st' q :
  heap_full st live -> p = NULL \/ In p live -> 0 <= n <= 2 ^ 64 - 24 ->
  realloc fuel st p n = Some (st', q) ->
  heap_full st' (live_after_realloc live p n q) /\
  (forall r, In r live -> r <> p -> same_block st st' r) /\
  (In p live -> 1 <= n ->
   (q = p -> st' = st) /\ (q = NULL -> st' = st) /\
   (q <> NULL -> q <> p ->
    ~ In q live /\ q mod 16 = 0 /\ capacity st p < n <= capacity st' q /\
    forall x, 0 <= x < capacity st p -> mem st' (q + x) = mem st (p + x))).
Proof.
  intros HF Hp Hn HR. unfold realloc in HR. unfold live_after_realloc.
  destruct (Z.eqb_spec p NULL) as [Ep|Np].
  - destruct (malloc_full _ _ _ _ _ _ HF Hn HR) as (HF1 & SB & _).
    split; [exact HF1|]. split; [intros r Hr _; apply SB; assumption|].
    intros Hin. pose proof (live_not_null _ _ _ HF Hin). unfold NULL in Ep. lia.
  - destruct Hp as [?|Hp]; [contradiction|].
    destruct (Z.eqb_spec n 0) as [En|Nn].
    + inversion HR; subst st' q. destruct (free_full _ _ _ HF Hp) as (HF1 & SB).
      split; [exact HF1|]. split; [intros r Hr Hne; apply SB; assumption|].
      intros _ Hn1. lia.
    + cbv zeta in HR.
      pose proof HF as (bs & Ls & HI & HT & HC & HCo & HMi & HL).
      destruct (HL _ Hp) as (s & Hs). pose proof Hs as (b & Hb & Hh & Hsz & Fb & Rb).
      pose proof (capacity_ablk _ _ _ _ _ HI Hs) as Cp.
      assert (Cp' : wrap (GET_SIZE (mem st) (Payload_get_header p) + Footer_size) = s + 8).
      { fold (capacity st p). rewrite Cp. apply wrap_small.
        pose proof (blk_bounds _ _ _ HI b Hb). pose proof (inv_lo _ _ _ HI).
        pose proof (inv_top _ _ _ HI). pose proof (inv_max _ _ _ HI). lia. }
      rewrite Cp' in HR.
      destruct (Z.leb_spec n (s + 8)) as [Hfit|Hbig].
      * inversion HR; subst st' q.
        destruct (Z.eqb_spec p NULL) as [|_]; [contradiction|].
        rewrite Z.eqb_refl. cbn [orb].
        split; [exact HF|]. split; [intros r _ _; apply same_block_refl|].
        intros _ _. split_and; try reflexivity. intros _ N. contradiction.
      * destruct (malloc fuel st n) as [[st1 q1]|] eqn:EM; [|discriminate].
        destruct (malloc_full _ _ _ _ _ _ HF Hn EM) as (HF1 & SB & Hnull & Hnew).
        destruct (Z.eqb_spec q1 NULL) as [Eq|Nq].
        -- inversion HR; subst st' q. rewrite (Hnull Eq) in *.
           destruct (Z.eqb_spec q1 NULL) as [_|]; [|contradiction]. cbn [orb].
           split; [exact HF|]. split; [intros r _ _; apply same_block_refl|].
           intros _ _. split_and; try reflexivity. intros N. contradiction.
        -- inversion HR; subst st' q. clear HR.
           destruct (Hnew Nq) as (Fq & Aq & Cq).
           destruct (Z.eqb_spec q1 NULL) as [|_]; [contradiction|].
           assert (Nqp : q1 <> p) by (intros ->; contradiction).
           destruct (Z.eqb_spec q1 p) as [|_]; [contradiction|]. cbn [orb].
           set (m2 := memcpy (mem st1) q1 p (s + 8)).
           destruct (write_full st1 (q1 :: live) q1 m2 HF1 (or_introl eq_refl))
             as (HF2 & SB2 & C2).
           { intros x Hx. apply memcpy_outside. lia. }
           destruct (free_full (set_mem st1 m2) (q1 :: live) p HF2 (or_intror Hp))
             as (HF3 & SB3).
           rewrite (drop_fresh p q1 live Nqp) in HF3.
           split; [exact HF3|]. split.
           ++ intros r Hr Hne.
              apply (same_block_trans _ st1); [apply SB; assumption|].
              apply (same_block_trans _ (set_mem st1 m2)).
              ** apply SB2; [right; assumption|]. intros ->. contradiction.
              ** apply SB3; [right; assumption|assumption].
           ++ intros _ _. split; [intros; contradiction|].
              split; [intros; contradiction|]. intros _ _.
              split_and; try assumption.
              ** lia.
              ** destruct (SB3 q1 (or_introl eq_refl) Nqp) as [C3 _].
                 rewrite C3, C2. assumption.
              ** intros x Hx. rewrite Cp in Hx.
                 destruct (SB3 q1 (or_introl eq_refl) Nqp) as [_ F3].
                 rewrite F3 by (rewrite C2; lia). cbn [mem set_mem]. unfold m2.
                 rewrite memcpy_inside by lia.
                 replace (p + (q1 + x - q1)) with (p + x) by lia.
                 destruct (SB p Hp) as [_ F1]. apply F1. rewrite Cp. lia.
Qed.

(** Every reachable state satisfies the invariant with the footers. *)
Lemma reach_heap_full st live : reach st live -> heap_full st live.
Proof.
  induction 1 as [fuel st0 st H0 HM HI
                 |fuel st live n st' p _ IH Hn HM
                 |st live p _ IH Hp
                 |fuel st live p n st' q _ IH Hp Hn HR
                 |fuel st live k n st' p _ IH Hk Hn Hkn HC
                 |st live n _ IH Hn
                 |st live p m' _ IH Hp HW].
  - eapply mm_init_full; eassumption.
  - exact (proj1 (malloc_full _ _ _ _ _ _ IH Hn HM)).
  - exact (proj1 (free_full _ _ _ IH Hp)).
  - exact (proj1 (realloc_full _ _ _ _ _ _ _ IH Hp Hn HR)).
  - exact (proj1 (calloc_full _ _ _ _ _ _ _ IH Hk Hn Hkn HC)).
  - exact (proj1 (extend_full _ _ _ IH Hn)).
  - exact (proj1 (write_full _ _ _ _ IH Hp HW)).
Qed.

(** ** Where the live blocks lie *)

Lemma live_layout st live p :
  heap_full st live -> In p live ->
  p mod 16 = 0 /\ 24 <= capacity st p /\ capacity st p mod 16 = 8 /\
  heap st + 24 <= p /\ p + capacity st p <= brk st - 8 /\
  GET_FREE_BIT (mem st) (Payload_get_header p) = false.
Proof.
  intros (bs & Ls & HI & _ & _ & _ & _ & HL) Hp.
  destruct (HL _ Hp) as (s & Hs). pose proof Hs as (b & Hb & Hh & Hsz & Fb & Rb).
  rewrite (capacity_ablk _ _ _ _ _ HI Hs).
  pose proof (blk_bounds _ _ _ HI b Hb) as Bb. pose proof (inv_lo _ _ _ HI).
  pose proof (inv_top _ _ _ HI). pose proof (inv_max _ _ _ HI).
  pose proof (blk_align _ _ _ HI b Hb) as Ab.
  destruct (blk_size _ _ _ HI b Hb) as [Sb Mb].
  destruct (epilogue_last _ _ _ HI) as (l & e & El & Ehd & Esz & Efr).
  assert (He : In e bs) by (rewrite El; apply in_or_app; right; left; reflexivity).
  assert (Ep : p = hd b + 8) by lia.
  split_and; try lia.
  - rewrite Ep, Z.add_mod, Ab by lia. reflexivity.
  - rewrite <- Hsz, Z.add_mod, Mb by lia. reflexivity.
  - destruct (blk_sep _ _ _ HI b e Hb He) as [->|D]; lia.
  - rewrite Payload_get_header_eq by lia. rewrite <- Hh.
    rewrite (blk_GET_FREE_BIT _ _ _ HI b Hb). assumption.
Qed.

Lemma live_disjoint st live p q :
  heap_full st live -> In p live -> In q live -> p <> q ->
  p + capacity st p <= q - 8 \/ q + capacity st q <= p - 8.
Proof.
  intros (bs & Ls & HI & _ & _ & _ & _ & HL) Hp Hq Hne.
  destruct (HL _ Hp) as (s & Hs). pose proof Hs as (b & Hb & Hh & Hsz & _).
  destruct (HL _ Hq) as (t & Ht). pose proof Ht as (c & Hc & Hh' & Hsz' & _).
  rewrite (capacity_ablk _ _ _ _ _ HI Hs), (capacity_ablk _ _ _ _ _ HI Ht).
  destruct (blk_sep _ _ _ HI b c Hb Hc) as [->|D]; lia.
Qed.

Lemma NoDup_drop p live : NoDup live -> NoDup (drop p live).
Proof. apply NoDup_filter. Qed.

Lemma reach_nodup st live : reach st live -> NoDup live.
Proof.
  induction 1 as [fuel st0 st H0 HM HI
                 |fuel st live n st' p R IH Hn HM
                 |st live p R IH Hp
                 |fuel st live p n st' q R IH Hp Hn HR
                 |fuel st live k n st' p R IH Hk Hn Hkn HC
                 |st live n R IH Hn
                 |st live p m' R IH Hp HW]; try assumption.
  - constructor.
  - destruct (malloc_full _ _ _ _ _ _ (reach_heap_full _ _ R) Hn HM) as (_ & _ & _ & Hnew).
    destruct (Z.eqb_spec p NULL) as [|Np]; [assumption|].
    constructor; [apply Hnew; assumption|assumption].
  - apply NoDup_drop. assumption.
  - pose proof (reach_heap_full _ _ R) as HF.
    unfold live_after_realloc. unfold realloc in HR.
    destruct (Z.eqb_spec p NULL) as [Ep|Np].
    + destruct (malloc_full _ _ _ _ _ _ HF Hn HR) as (_ & _ & _ & Hnew).
      destruct (Z.eqb_spec q NULL) as [|Nq]; [assumption|].
      constructor; [apply Hnew; assumption|assumption].
    + destruct Hp as [?|Hp]; [contradiction|].
      destruct (Z.eqb_spec n 0) as [En|Nn]; [apply NoDup_drop; assumption|].
      assert (HR' : realloc fuel st p n = Some (st', q)).
      { unfold realloc. destruct (Z.eqb_spec p NULL); [contradiction|].
        destruct (Z.eqb_spec n 0); [contradiction|]. exact HR. }
      destruct (realloc_full _ _ _ _ _ _ _ HF (or_intror Hp) Hn HR')
        as (_ & _ & H3). destruct (H3 Hp ltac:(lia)) as (_ & _ & Hmv).
      destruct (Z.eqb_spec q NULL) as [|Nq]; [assumption|].
      destruct (Z.eqb_spec q p) as [|Nqp]; [assumption|]. cbn [orb].
      destruct (Hmv Nq Nqp) as (Fq & _).
      constructor; [|apply NoDup_drop; assumption].
      intros Hin. apply in_drop in Hin. tauto.
  - destruct (calloc_full _ _ _ _ _ _ _ (reach_heap_full _ _ R) Hk Hn Hkn HC)
      as (_ & _ & _ & Hnew).
    destruct (Z.eqb_spec p NULL) as [|Np]; [assumption|].
    constructor; [apply Hnew; assumption|assumption].
Qed.

(** With a free block that holds the request, [malloc] places it
    without moving the break. *)
Lemma malloc_fits fuel st bs Ls n b st' p :
  heap_inv st bs Ls -> threaded false bs -> covered bs Ls -> coalesced bs ->
  1 <= n <= 2 ^ 64 - 24 -> In b bs -> fr b = true ->
  required_payload_size n <= sz b ->
  malloc fuel st n = Some (st', p) -> p <> NULL /\ brk st' = brk st.
Proof.
  intros HI HT HC HCo Hn Hb Fb Hfit HM.
  assert (Hn' : 0 <= n <= 2 ^ 64 - 24) by lia.
  destruct fuel as [|f]; [discriminate|]. cbn [malloc] in HM.
  destruct (Z.eqb_spec n 0) as [|_]; [lia|].
  destruct (Segregated_find_free_block f st n) as [h|] eqn:EF; [|discriminate].
  pose proof (find_nonnull _ _ _ _ _ _ _ HI HC Hn' Hb Fb Hfit EF) as Nh.
  destruct (Z.eqb_spec h NULL) as [|_]; [contradiction|].
  pose proof (place_kept _ _ _ _ _ _ HI HT HC HCo Hn' EF Nh) as P. cbv zeta in P.
  assert (E : allocate st h n = (st', p)) by congruence.
  pose proof (allocate_region st h n) as R.
  rewrite E in P, R. cbn [fst snd] in P, R.
  split; [unfold NULL; tauto|apply R].
Qed.

(* ================================================================== *)
(** * Further facts about the code *)
(* ================================================================== *)

(** ** The codec on any word *)

Lemma mod4_cases w : w mod 4 = 0 \/ w mod 4 = 1 \/ w mod 4 = 2 \/ w mod 4 = 3.
Proof. pose proof (Z.mod_pos_bound w 4 ltac:(lia)). lia. Qed.

Lemma GET_SIZE_shape m a :
  0 <= GET_SIZE m a < 2 ^ 64 /\ GET_SIZE m a mod 4 = 0 /\
  GET_SIZE m a = 4 * (load64 m a / 4).
Proof.
  pose proof (load64_range m a) as R. unfold GET_SIZE.
  rewrite land_mask by assumption.
  assert (0 <= load64 m a / 4) by (apply Z.div_pos; lia).
  pose proof (Z.div_mod (load64 m a) 4 ltac:(lia)).
  pose proof (Z.mod_pos_bound (load64 m a) 4 ltac:(lia)).
  split; [lia|]. split; [|reflexivity].
  rewrite Z.mul_comm. apply Z.mod_mul. lia.
Qed.

(** A word is the tag of the three fields the codec reads from it. *)
Lemma tag_fields m a :
  tag (GET_SIZE m a) (GET_FREE_BIT m a) (GET_PREV_BLOCK_FREE_BIT m a) = load64 m a.
Proof.
  destruct (GET_SIZE_shape m a) as (R & M & E).
  rewrite tag_sum by lia. rewrite E.
  unfold GET_FREE_BIT, GET_PREV_BLOCK_FREE_BIT. change (Z.shiftl 1 1) with 2.
  rewrite land_1, land_2.
  set (w := load64 m a) in *. clearbody w.
  pose proof (Z.div_mod w 4 ltac:(lia)) as D.
  assert (B : 2 * b2z (negb (Z.land (w mod 4) 2 =? 0)) +
              b2z (negb (Z.land (w mod 4) 1 =? 0)) = w mod 4).
  { destruct (mod4_cases w) as [H|[H|[H|H]]]; rewrite H; reflexivity. }
  lia.
Qed.


Lemma SET_VALUE_fields m a s f pf :
  0 <= s < 2 ^ 64 -> s mod 4 = 0 ->
  load64 (SET_VALUE m a s f pf) a = tag s f pf /\
  GET_SIZE (SET_VALUE m a s f pf) a = s /\
  GET_FREE_BIT (SET_VALUE m a s f pf) a = f /\
  GET_PREV_BLOCK_FREE_BIT (SET_VALUE m a s f pf) a = pf.
Proof.
  intros Hs Hm.
  assert (E : load64 (SET_VALUE m a s f pf) a = tag s f pf).
  { unfold SET_VALUE. apply load64_store64_eq. apply tag_range; assumption. }
  unfold GET_SIZE, GET_FREE_BIT, GET_PREV_BLOCK_FREE_BIT. rewrite E.
  split; [reflexivity|]. split; [apply tag_size; assumption|].
  split; [apply tag_free; lia|apply tag_prev_free; lia].
Qed.

Lemma SET_FREE_BIT_word m a f :
  load64 (SET_FREE_BIT m a f) a =
  tag (GET_SIZE m a) f (GET_PREV_BLOCK_FREE_BIT m a).
Proof.
  destruct (GET_SIZE_shape m a) as (R & M & _).
  unfold SET_FREE_BIT. cbv zeta. apply SET_VALUE_fields; assumption.
Qed.

Lemma SET_PREV_BLOCK_FREE_BIT_word m a pf :
  load64 (SET_PREV_BLOCK_FREE_BIT m a pf) a =
  tag (GET_SIZE m a) (GET_FREE_BIT m a) pf.
Proof.
  destruct (GET_SIZE_shape m a) as (R & M & _).
  unfold SET_PREV_BLOCK_FREE_BIT. cbv zeta. apply SET_VALUE_fields; assumption.
Qed.

Lemma fields_of_tag m a s f pf :
  0 <= s < 2 ^ 64 -> s mod 4 = 0 -> load64 m a = tag s f pf ->
  GET_SIZE m a = s /\ GET_FREE_BIT m a = f /\ GET_PREV_BLOCK_FREE_BIT m a = pf.
Proof.
  intros Hs Hm E. unfold GET_SIZE, GET_FREE_BIT, GET_PREV_BLOCK_FREE_BIT. rewrite E.
  split; [apply tag_size; assumption|].
  split; [apply tag_free; lia|apply tag_prev_free; lia].
Qed.

Lemma Header_get_footer_wrap m h :
  0 <= h < 2 ^ 64 -> Header_get_footer m h = wrap (wrap (h + 8) + GET_SIZE m h).
Proof.
  intros Hh. unfold Header_get_footer, Payload_get_footer, Payload_get_size,
    Payload_get_header, Header_get_payload, Header_size.
  replace (wrap (wrap (h + 8) - 8)) with h; [reflexivity|].
  unfold wrap. rewrite Zminus_mod_idemp_l. replace (h + 8 - 8) with h by lia.
  symmetry. apply Z.mod_small. lia.
Qed.




Lemma mirror_header_to_footer_word m h :
  load64 (mirror_header_to_footer m h) (Header_get_footer m h) = load64 m h.
Proof.
  destruct (GET_SIZE_shape m h) as (R & M & _).
  unfold mirror_header_to_footer. cbv zeta.
  destruct (SET_VALUE_fields m (Header_get_footer m h) (GET_SIZE m h) (GET_FREE_BIT m h)
              (GET_PREV_BLOCK_FREE_BIT m h) R M) as (E & _).
  rewrite E. apply tag_fields.
Qed.



Lemma wrap_add8_sub8 h : wrap (wrap (h + 8) - 8) = wrap h.
Proof.
  unfold wrap. rewrite Zminus_mod_idemp_l. f_equal. lia.
Qed.

Lemma wrap_sub8_add8 h : wrap (wrap (h - 8) + 8) = wrap h.
Proof.
  unfold wrap. rewrite Zplus_mod_idemp_l. f_equal. lia.
Qed.

(** ** Lists *)

Lemma dlseg_fields m m' L : forall pv h h' nx,
  dlseg m pv h L nx -> dlseg m' pv h' L nx ->
  forall y, In y L ->
    load64 m' y = load64 m y /\ load64 m' (y + 8) = load64 m (y + 8).
Proof.
  induction L as [|p L IH]; intros pv h h' nx D D' y Hy; [destruct Hy|].
  apply dlseg_cons in D. destruct D as (-> & _ & _ & Hp & D).
  apply dlseg_cons in D'. destruct D' as (-> & _ & _ & Hp' & D').
  destruct Hy as [<-|Hy]; [|exact (IH _ _ _ _ D D' y Hy)].
  split; [congruence|].
  rewrite (dlseg_head _ _ _ _ _ D), (dlseg_head _ _ _ _ _ D'). reflexivity.
Qed.

Lemma lists_ok_ext m fl Ls Ls' :
  lists_ok m fl Ls -> (forall i, Ls' i = Ls i) -> lists_ok m fl Ls'.
Proof.
  intros HL E. constructor.
  - intros i. rewrite E. apply HL.
  - intros i. rewrite E. apply HL.
  - intros i j x y. rewrite !E. apply HL.
Qed.

(** ** The break *)

Lemma grown_refl st : grown st st.
Proof. unfold grown. split_and; auto; lia. Qed.

Lemma grown_trans st1 st2 st3 : grown st1 st2 -> grown st2 st3 -> grown st1 st3.
Proof. unfold grown. intros (A & B & C & D) (A' & B' & C' & D'). split_and; try congruence; lia. Qed.

Lemma same_region_grown st st' : same_region st st' -> grown st st'.
Proof. intros (A & B & C). unfold grown. split_and; auto; lia. Qed.

Lemma free_region st p : same_region st (free st p).
Proof.
  unfold free. cbv zeta.
  eapply same_region_trans; [|apply coalesce_region].
  eapply same_region_trans; [|apply Segregated_insert_header_region].
  apply same_region_set_mem.
Qed.

Lemma extend_memory_grown st n : grown st (fst (extend_memory st n)).
Proof.
  unfold extend_memory. cbv zeta.
  set (incr := wrap (wrap (required_payload_size n + Footer_size) + Header_size)).
  pose proof (wrap_range (wrap (required_payload_size n + Footer_size) + Header_size)) as RI.
  fold incr in RI. unfold mm_sbrk.
  destruct (Z.leb_spec (brk st + incr) (mem_max st)) as [Hroom|Hfull].
  - set (st1 := mkState (mem st) (heap st) (freelists st) (brk st + incr) (mem_max st)).
    assert (G1 : grown st st1).
    { unfold grown, st1. cbn [heap mem_max brk]. split_and; auto; lia. }
    destruct (brk st =? SBRK_FAIL); cbn [fst]; [exact G1|].
    eapply grown_trans; [exact G1|]. apply same_region_grown.
    eapply same_region_trans; [|apply coalesce_region].
    eapply same_region_trans; [|apply Segregated_insert_header_region].
    apply same_region_set_mem.
  - rewrite Z.eqb_refl. cbn [fst]. apply grown_refl.
Qed.

Lemma malloc_grown : forall fuel st n st' p,
  malloc fuel st n = Some (st', p) -> grown st st'.
Proof.
  induction fuel as [|fuel IH]; intros st n st' p HM; [discriminate|].
  cbn [malloc] in HM. destruct (n =? 0); [inversion HM; apply grown_refl|].
  destruct (Segregated_find_free_block fuel st n) as [h|]; [|discriminate].
  destruct (h =? NULL).
  - pose proof (extend_memory_grown st n) as G.
    destruct (extend_memory st n) as [st1 ext]. cbn [fst] in G.
    destruct ext.
    + eapply grown_trans; [exact G|]. eapply IH; eassumption.
    + inversion HM; subst. exact G.
  - assert (E : allocate st h n = (st', p)) by congruence.
    pose proof (allocate_region st h n) as R.
    rewrite E in R. cbn [fst] in R. apply same_region_grown. assumption.
Qed.

Lemma realloc_grown fuel st p n st' q :
  realloc fuel st p n = Some (st', q) -> grown st st'.
Proof.
  unfold realloc. destruct (p =? NULL); [apply malloc_grown|].
  destruct (n =? 0).
  { intros H; inversion H; subst. apply same_region_grown, free_region. }
  cbv zeta. destruct (n <=? _); [intros H; inversion H; apply grown_refl|].
  destruct (malloc fuel st n) as [[st1 q1]|] eqn:EM; [|discriminate].
  pose proof (malloc_grown _ _ _ _ _ EM) as G.
  destruct (q1 =? NULL); intros H; inversion H; subst; [exact G|].
  eapply grown_trans; [exact G|]. apply same_region_grown.
  eapply same_region_trans; [apply same_region_set_mem|apply free_region].
Qed.

Lemma calloc_grown fuel st k n st' p :
  calloc fuel st k n = Some (st', p) -> grown st st'.
Proof.
  unfold calloc. cbv zeta.
  destruct (malloc fuel st (wrap (n * k))) as [[st1 q1]|] eqn:EM; [|discriminate].
  pose proof (malloc_grown _ _ _ _ _ EM) as G.
  destruct (q1 =? NULL); intros H; inversion H; subst; [exact G|].
  eapply grown_trans; [exact G|]. apply same_region_grown, same_region_set_mem.
Qed.

(** ** The alignment probe *)

Lemma init_probe_fail : forall fuel st st',
  0 <= brk st -> mem_max st < 2 ^ 64 ->
  init_probe fuel st = Some (st', SBRK_FAIL) ->
  mem st' = mem st /\ heap st' = heap st /\ freelists st' = freelists st /\
  mem_max st' = mem_max st /\ brk st <= brk st' /\ mem_max st < brk st' + 1 /\
  (forall a, brk st <= a < brk st' -> a mod 16 <> 0).
Proof.
  induction fuel as [|fuel IH]; intros st st' H0 HM HP; [discriminate|].
  cbn [init_probe] in HP. unfold mm_sbrk in HP.
  destruct (Z.leb_spec (brk st + 1) (mem_max st)) as [Hroom|Hfull].
  - assert (NS : brk st <> SBRK_FAIL) by (change SBRK_FAIL with (2 ^ 64 - 1); lia).
    destruct (Z.eqb_spec (brk st) SBRK_FAIL) as [|_]; [contradiction|].
    destruct (aligned (brk st)) eqn:EA.
    + inversion HP. contradiction.
    + apply IH in HP; cbn [brk mem_max mem heap freelists] in *; try lia.
      destruct HP as (P1 & P2 & P3 & P4 & P5 & P6 & P7).
      split_and; try assumption; try lia.
      intros a Ha. destruct (Z.eq_dec a (brk st)) as [->|Na]; [|apply P7; lia].
      intros E. rewrite aligned_mod in EA by (assumption || lia). discriminate.
  - rewrite Z.eqb_refl in HP. inversion HP; subst.
    split_and; try reflexivity; lia.
Qed.

Lemma first_aligned b s :
  b <= s -> s mod 16 = 0 -> (forall a, b <= a < s -> a mod 16 <> 0) ->
  s = 16 * ((b + 15) / 16).
Proof.
  intros Hb Hs Hn.
  pose proof (Z.div_mod (b + 15) 16 ltac:(lia)) as D.
  pose proof (Z.mod_pos_bound (b + 15) 16 ltac:(lia)) as B.
  set (t := 16 * ((b + 15) / 16)) in *.
  assert (Ht : t mod 16 = 0) by (subst t; rewrite Z.mul_comm; apply Z.mod_mul; lia).
  destruct (Z_lt_ge_dec t s) as [L|G].
  - exfalso. apply (Hn t); [lia|assumption].
  - pose proof (Z.div_mod s 16 ltac:(lia)) as Ds. rewrite Hs in Ds.
    subst t. lia.
Qed.

(* ================================================================== *)
(** * The invariant checker on a well-formed heap *)
(* ================================================================== *)

(** ** Searching the index for a header *)

Lemma in_indices j : forall n i, In j (indices i n) <-> i <= j < i + Z.of_nat n.
Proof.
  induction n as [|n IH]; intros i.
  - cbn. lia.
  - cbn [indices In]. rewrite IH, Nat2Z.inj_succ. lia.
Qed.

Lemma bucket_exists_spec m t L : forall fuel pv h,
  dlseg m pv h L 0 -> (length L < fuel)%nat ->
  bucket_header_exists_loop fuel m h t = Some (existsb (fun p => p - 8 =? t) L).
Proof.
  induction L as [|p L IH]; intros fuel pv h H Hf.
  - cbn [dlseg] in H. subst h. destruct fuel; [cbn in Hf; lia|]. reflexivity.
  - cbn [dlseg] in H. destruct H as (-> & H0 & H1 & Hp & H).
    destruct fuel as [|fuel]; [cbn in Hf; lia|].
    cbn [bucket_header_exists_loop existsb].
    unfold NULL at 1. destruct (Z.eqb_spec p 0) as [E|_]; [lia|].
    cbv zeta. unfold Payload_get_header, Header_size. rewrite (wrap_small (p - 8)) by lia.
    destruct (p - 8 =? t); [reflexivity|]. cbn [orb].
    unfold DList_next. rewrite (wrap_small (p + 8)) by lia.
    apply IH with (pv := p); [assumption|]. cbn [length] in Hf. lia.
Qed.

Lemma header_exists_spec st Ls t fuel :
  lists_ok (mem st) (freelists st) Ls ->
  forall n i,
    (forall j, i <= j < i + Z.of_nat n -> (length (Ls j) < fuel)%nat) ->
    header_exists_loop n fuel st i t =
    Some (existsb (fun j => existsb (fun p => p - 8 =? t) (Ls j)) (indices i n)).
Proof.
  intros HL. induction n as [|n IH]; intros i Hf; [reflexivity|].
  cbn [header_exists_loop indices existsb]. unfold Segregated_bucket_header_exists.
  rewrite (bucket_exists_spec _ t (Ls i) fuel 0 _ (lo_dll _ _ _ HL i))
    by (apply Hf; rewrite Nat2Z.inj_succ; lia).
  destruct (existsb (fun p => p - 8 =? t) (Ls i)); [reflexivity|]. cbn [orb].
  apply IH. intros j Hj. apply Hf. rewrite Nat2Z.inj_succ. lia.
Qed.

Section Checker.
Variables (st : state) (bs : list block) (Ls : Z -> list Z).
Hypothesis HI : heap_inv st bs Ls.

Lemma free_header_found fuel x :
  covered bs Ls -> (forall j, 0 <= j < 15 -> (length (Ls j) < fuel)%nat) ->
  In x bs -> fr x = true ->
  Segregated_header_exists fuel st (hd x) = Some true.
Proof.
  intros HC Hf Hx Fx. unfold Segregated_header_exists.
  rewrite (header_exists_spec st Ls (hd x) fuel (inv_lists _ _ _ HI)) by (intros j Hj; apply Hf; lia).
  f_equal. apply existsb_exists. exists (Segregated_get_bucket (sz x)). split.
  - apply in_indices. pose proof (Segregated_get_bucket_range (sz x)). lia.
  - apply existsb_exists. exists (hd x + 8). split.
    + apply HC. exists x. auto.
    + apply Z.eqb_eq. lia.
Qed.

Lemma allocated_header_absent fuel x :
  (forall j, 0 <= j < 15 -> (length (Ls j) < fuel)%nat) ->
  In x bs -> fr x = false ->
  Segregated_header_exists fuel st (hd x) = Some false.
Proof.
  intros Hf Hx Fx. unfold Segregated_header_exists.
  rewrite (header_exists_spec st Ls (hd x) fuel (inv_lists _ _ _ HI)) by (intros j Hj; apply Hf; lia).
  f_equal. destruct (existsb _ _) eqn:E; [exfalso|reflexivity].
  apply existsb_exists in E. destruct E as (j & _ & E).
  apply existsb_exists in E. destruct E as (p & Hp & E). apply Z.eqb_eq in E.
  destruct (inv_sub _ _ _ HI j p Hp) as (s & (b & Hb & Hh & _ & Fb) & _).
  assert (b = x) by (apply (blk_hd_inj _ _ _ HI); [assumption|assumption|lia]).
  subst b. congruence.
Qed.

(** ** The traversal of the implicit list *)

Lemma size_zero_last l1 x rest : bs = l1 ++ x :: rest -> sz x = 0 -> rest = [].
Proof.
  intros E Hz. destruct rest as [|y rest]; [reflexivity|exfalso].
  assert (Hx : In x bs) by (rewrite E; apply in_mid).
  assert (Hy : In y bs).
  { rewrite E. apply in_or_app. right. right. left. reflexivity. }
  destruct (blk_ok _ _ _ HI x Hx) as (_ & _ & Hepi). destruct (Hepi Hz) as [_ Eh].
  pose proof (blk_bounds _ _ _ HI y Hy) as By.
  destruct (blk_ok _ _ _ HI y Hy) as (Sy & _).
  pose proof (inv_adj _ _ _ HI) as AD. rewrite E in AD.
  apply adj_app in AD. destruct AD as (am & _ & AD).
  cbn [adj] in AD. destruct AD as (Ex & Ey & _). lia.
Qed.

Lemma wrap_count num c :
  wrap (wrap (num + 1) + Z.of_nat c) = wrap (num + Z.of_nat (S c)).
Proof.
  unfold wrap. rewrite Zplus_mod_idemp_l, Nat2Z.inj_succ. f_equal. lia.
Qed.

Lemma implicit_suffix lfuel :
  covered bs Ls -> coalesced bs -> mirrored (mem st) bs ->
  (forall j, 0 <= j < 15 -> (length (Ls j) < lfuel)%nat) ->
  forall rest l1 prevh prevfr fuel num,
    bs = l1 ++ rest -> rest <> [] ->
    Header_get_next_header (mem st) prevh = hd (List.hd (mkBlock 0 0 false false) rest) ->
    GET_FREE_BIT (mem st) prevh = prevfr ->
    threaded prevfr rest -> (length rest <= fuel)%nat ->
    0 <= num < 2 ^ 64 ->
    checkheap_implicit fuel lfuel st prevh num =
    Some (Counted (wrap (num + Z.of_nat (length (filter fr rest))))).
Proof.
  intros HC HCo HMi Hlf.
  induction rest as [|x rest IH]; intros l1 prevh prevfr fuel num E NE HN HF HT Hfu Hnum.
  { contradiction. }
  destruct fuel as [|fuel]; [cbn in Hfu; lia|].
  assert (Hx : In x bs) by (rewrite E; apply in_mid).
  cbn [checkheap_implicit]. cbv zeta. cbn [List.hd] in HN. rewrite HN.
  rewrite (blk_GET_FREE_BIT _ _ _ HI x Hx), (blk_GET_SIZE _ _ _ HI x Hx),
    (blk_GET_PREV_BLOCK_FREE_BIT _ _ _ HI x Hx), HF.
  cbn [threaded] in HT. destruct HT as [Px HT]. rewrite Px.
  assert (Hpf : (if prevfr then negb prevfr else prevfr) = false) by (destruct prevfr; reflexivity).
  rewrite Hpf.
  assert (Hnext : forall n, 0 <= n < 2 ^ 64 ->
            sz x <> 0 ->
            checkheap_implicit fuel lfuel st (hd x) n =
            Some (Counted (wrap (n + Z.of_nat (length (filter fr rest)))))).
  { intros n Hn Nz. destruct rest as [|y rest].
    { exfalso. destruct (epilogue_last _ _ _ HI) as (l & e & E' & _ & Hs & _).
      rewrite E in E'. apply app_inj_tail in E'. destruct E' as [_ ->]. contradiction. }
    apply (IH (l1 ++ [x]) (hd x) (fr x)).
    - rewrite <- app_assoc. exact E.
    - discriminate.
    - cbn [List.hd]. apply (blk_next_header _ _ _ _ _ _ _ HI E).
    - apply (blk_GET_FREE_BIT _ _ _ HI x Hx).
    - exact HT.
    - cbn [length] in Hfu |- *. lia.
    - exact Hn. }
  cbn [filter]. destruct (fr x) eqn:Fx.
  - rewrite (free_header_found lfuel x HC Hlf Hx Fx).
    assert (Ppf : prevfr = false) by (rewrite <- Px; apply HCo; assumption).
    rewrite Ppf.
    pose proof (blk_bounds _ _ _ HI x Hx) as Bx. pose proof (inv_lo _ _ _ HI).
    pose proof (inv_top _ _ _ HI). pose proof (inv_max _ _ _ HI).
    destruct (blk_size _ _ _ HI x Hx) as [Sx _].
    rewrite (Header_get_footer_eq _ _ (sz x)) by
      (try apply (blk_GET_SIZE _ _ _ HI); try assumption; lia).
    rewrite (HMi x Hx Fx) by congruence. rewrite Z.eqb_refl. cbn [negb].
    pose proof (blk_free_real _ _ _ HI x Hx Fx) as Rx.
    destruct (Z.eqb_spec (sz x) 0) as [|Nz]; [lia|].
    rewrite Hnext by (try apply wrap_range; assumption).
    cbn [length]. rewrite wrap_count. reflexivity.
  - rewrite (allocated_header_absent lfuel x Hlf Hx Fx).
    destruct (Z.eqb_spec (sz x) 0) as [Hz|Nz].
    + rewrite (size_zero_last l1 x rest E Hz). cbn [filter length].
      rewrite Z.add_0_r, wrap_small by assumption. reflexivity.
    + apply Hnext; assumption.
Qed.

(** ** The traversal of the explicit lists *)

Lemma class_of_bucket s i :
  Segregated_get_bucket s = i -> i <> 14 ->
  nth (Z.to_nat i) Segregated_get_size_classes 0 = s.
Proof.
  intros <-. unfold Segregated_get_bucket, Segregated_get_size_classes.
  cbn [get_bucket_loop].
  repeat (match goal with |- context [?x =? s] =>
            destruct (Z.eqb_spec x s) as [<-|_]; [intros _; reflexivity|] end).
  intros H. exfalso. apply H. reflexivity.
Qed.

Lemma list_pass lo i :
  lo <= heap st ->
  forall L fuel pv h num,
    dlseg (mem st) pv h L 0 -> (forall p, In p L -> In p (Ls i)) ->
    (length L < fuel)%nat -> 0 <= num < 2 ^ 64 ->
    checkheap_list fuel lo st i h pv num =
    Some (Counted (wrap (num + Z.of_nat (length L)))).
Proof.
  intros Hlo. induction L as [|p L IH]; intros fuel pv h num H Hin Hf Hnum.
  - cbn [dlseg] in H. subst h. destruct fuel; [cbn in Hf; lia|].
    cbn [checkheap_list length]. cbv zeta. unfold NULL. rewrite Z.eqb_refl.
    rewrite Z.add_0_r, wrap_small by assumption. reflexivity.
  - cbn [dlseg] in H. destruct H as (-> & H0 & H1 & Hp & H).
    destruct fuel as [|fuel]; [cbn in Hf; lia|].
    cbn [checkheap_list]. cbv zeta.
    unfold NULL at 1. destruct (Z.eqb_spec p 0) as [E|_]; [lia|].
    destruct (inv_sub _ _ _ HI i p (Hin p (or_introl eq_refl)))
      as (s & (b & Hb & Hh & Hs & Fb) & Hbk).
    pose proof (blk_bounds _ _ _ HI b Hb) as Bb.
    pose proof (blk_free_real _ _ _ HI b Hb Fb) as Rb.
    assert (Ein : in_heap lo st p = true).
    { unfold in_heap, mm_heap_hi. apply andb_true_intro. split; apply Z.leb_le; lia. }
    rewrite Ein. cbn [negb].
    unfold DList_prev. rewrite Hp, Z.eqb_refl. cbn [negb].
    unfold Payload_get_header, Header_size. rewrite (wrap_small (p - 8)) by lia.
    rewrite <- Hh, (blk_GET_FREE_BIT _ _ _ HI b Hb), Fb, (blk_GET_SIZE _ _ _ HI b Hb).
    cbn [negb].
    assert (Ecl : negb (i =? 14) &&
                  negb (sz b =? nth (Z.to_nat i) Segregated_get_size_classes 0) = false).
    { destruct (Z.eqb_spec i 14) as [|Ni]; [reflexivity|]. cbn [negb andb].
      rewrite (class_of_bucket s i Hbk Ni), Hs, Z.eqb_refl. reflexivity. }
    rewrite Ecl. unfold DList_next. rewrite (wrap_small (p + 8)) by lia.
    rewrite (IH fuel p _ (wrap (num + 1)) H).
    + cbn [length]. rewrite wrap_count. reflexivity.
    + intros q Hq. apply Hin. right. assumption.
    + cbn [length] in Hf. lia.
    + apply wrap_range.
Qed.

Lemma lists_pass lo fuel :
  lo <= heap st ->
  forall n i num,
    (forall j, i <= j < i + Z.of_nat n -> (length (Ls j) < fuel)%nat) ->
    0 <= num < 2 ^ 64 ->
    checkheap_explicit n fuel lo st i num =
    Some (Counted (wrap (num + Z.of_nat (length (concat (map Ls (indices i n))))))).
Proof.
  intros Hlo. induction n as [|n IH]; intros i num Hf Hnum.
  - cbn. rewrite Z.add_0_r, wrap_small by assumption. reflexivity.
  - cbn [checkheap_explicit indices map concat].
    rewrite (list_pass lo i Hlo (Ls i) fuel NULL (freelists st i) num
               (lo_dll _ _ _ (inv_lists _ _ _ HI) i));
      [|auto|apply Hf; rewrite Nat2Z.inj_succ; lia|assumption].
    rewrite IH; [|intros j Hj; apply Hf; rewrite Nat2Z.inj_succ; lia|apply wrap_range].
    rewrite length_app, Nat2Z.inj_add. unfold wrap.
    rewrite Zplus_mod_idemp_l, Z.add_assoc. reflexivity.
Qed.

(** ** As many free blocks as list nodes *)

Lemma adj_nodup_payloads : forall l a a',
  adj a l a' -> Forall nonneg l ->
  NoDup (map (fun b => hd b + 8) (filter fr l)).
Proof.
  induction l as [|b r IH]; intros a a' HA HN; [constructor|].
  cbn [adj] in HA. destruct HA as [Hb HA]. inversion HN as [|? ? Nb Nr]; subst.
  cbn [filter]. destruct (fr b).
  - cbn [map]. constructor; [|eapply IH; eassumption].
    intros Hin. apply in_map_iff in Hin. destruct Hin as (b' & E & Hb').
    apply filter_In in Hb'. destruct Hb' as [Hb' _].
    destruct (adj_bounds _ _ _ HA Nr) as [_ Hall]. destruct (Hall b' Hb') as [? _].
    unfold nonneg in Nb. lia.
  - eapply IH; eassumption.
Qed.

Lemma lists_nodup : forall n i, NoDup (concat (map Ls (indices i n))).
Proof.
  pose proof (inv_lists _ _ _ HI) as HL.
  induction n as [|n IH]; intros i; [constructor|].
  cbn [indices map concat].
  assert (Hdis : forall x, In x (Ls i) -> ~ In x (concat (map Ls (indices (i + 1) n)))).
  { intros x Hx Hc. apply in_concat in Hc. destruct Hc as (L & HLm & HxL).
    apply in_map_iff in HLm. destruct HLm as (j & <- & Hj). apply in_indices in Hj.
    destruct (lo_sep _ _ _ HL i j x x Hx HxL) as [[_ ?]|[?|?]]; lia. }
  pose proof (lo_nodup _ _ _ HL i) as ND. revert ND Hdis.
  generalize (concat (map Ls (indices (i + 1) n))) (IH (i + 1)). intros C NC.
  induction (Ls i) as [|x L IHL]; intros ND Hdis; [exact NC|].
  inversion ND; subst. cbn [app]. constructor.
  - intros Hin. apply in_app_or in Hin. destruct Hin as [Hin|Hin]; [contradiction|].
    apply (Hdis x); [left; reflexivity|assumption].
  - apply IHL; [assumption|]. intros y Hy. apply Hdis. right. assumption.
Qed.

Lemma free_count :
  covered bs Ls ->
  length (filter fr bs) = length (concat (map Ls (indices 0 15))).
Proof.
  intros HC.
  rewrite <- (length_map (fun b => hd b + 8) (filter fr bs)).
  apply Nat.le_antisymm; apply NoDup_incl_length.
  - apply (adj_nodup_payloads bs _ _ (inv_adj _ _ _ HI)).
    eapply block_ok_nonneg, inv_ok, HI.
  - intros p Hp. apply in_map_iff in Hp. destruct Hp as (b & <- & Hb).
    apply filter_In in Hb. destruct Hb as [Hb Fb].
    apply in_concat. exists (Ls (Segregated_get_bucket (sz b))). split.
    + apply in_map. apply in_indices.
      pose proof (Segregated_get_bucket_range (sz b)). lia.
    + apply HC. exists b. auto.
  - apply lists_nodup.
  - intros p Hp. apply in_concat in Hp. destruct Hp as (L & HLm & HpL).
    apply in_map_iff in HLm. destruct HLm as (j & <- & _).
    destruct (inv_sub _ _ _ HI j p HpL) as (s & (b & Hb & Hh & _ & Fb) & _).
    apply in_map_iff. exists b. split; [lia|]. apply filter_In. auto.
Qed.

(** ** The checker *)

Lemma length_le_sum (f : Z -> nat) j : forall l,
  In j l -> (f j <= list_sum (map f l))%nat.
Proof.
  induction l as [|x l IH]; intros H; [destruct H|].
  cbn [map]. unfold list_sum in *. cbn [fold_right].
  destruct H as [->|H]; [lia|]. apply IH in H. lia.
Qed.

Lemma checkheap_accepts lo line_number fuel :
  threaded false bs -> covered bs Ls -> coalesced bs -> mirrored (mem st) bs ->
  lo <= heap st ->
  (length bs + list_sum (map (fun j => length (Ls j)) (indices 0 15)) < fuel)%nat ->
  mm_checkheap_DEBUG fuel lo st line_number = Some true.
Proof.
  intros HT HC HCo HMi Hlo Hf.
  pose proof (inv_lo _ _ _ HI) as LO. pose proof (inv_top _ _ _ HI) as TOP.
  pose proof (inv_max _ _ _ HI) as MAX. pose proof (inv_pro _ _ _ HI) as PRO.
  destruct (epilogue_last _ _ _ HI) as (l & e & E & Eh & _).
  assert (He : In e bs) by (rewrite E; apply in_or_app; right; left; reflexivity).
  pose proof (blk_bounds _ _ _ HI e He) as Be.
  assert (Hlf : forall j, 0 <= j < 15 -> (length (Ls j) < fuel)%nat).
  { intros j Hj.
    pose proof (length_le_sum (fun j => length (Ls j)) j (indices 0 15)
                  (proj2 (in_indices j 15 0) ltac:(lia))). lia. }
  assert (G0 : GET_SIZE (mem st) (heap st) = 0)
    by (apply (GET_SIZE_tag _ _ 0 false false); [lia|reflexivity|assumption]).
  assert (F0 : GET_FREE_BIT (mem st) (heap st) = false)
    by (apply (GET_FREE_BIT_tag _ _ 0 false false); [lia|reflexivity|assumption]).
  unfold mm_checkheap_DEBUG. cbv zeta.
  assert (Ein : in_heap lo st (heap st) = true).
  { unfold in_heap, mm_heap_hi. apply andb_true_intro. split; apply Z.leb_le; lia. }
  rewrite Ein, G0, F0. cbn [negb Z.eqb].
  rewrite (implicit_suffix fuel HC HCo HMi Hlf bs [] (heap st) false fuel 0);
    try assumption; try reflexivity; try lia.
  - rewrite (lists_pass lo fuel Hlo 15 0 0) by (try lia; intros j Hj; apply Hlf; lia).
    rewrite (free_count HC), Z.eqb_refl. reflexivity.
  - rewrite E. destruct l; discriminate.
  - rewrite (Header_get_next_header_eq _ _ 0 G0) by lia.
    pose proof (inv_adj _ _ _ HI) as AD. destruct bs as [|x r]; [destruct l; discriminate|].
    cbn [adj] in AD. cbn [List.hd]. lia.
Qed.

End Checker.

(** ** The checks of the traversal imply the coalescing check *)

Lemma implicit_covers_coalesced lfuel st : forall fuel prevh num n,
  checkheap_implicit fuel lfuel st prevh num = Some (Counted n) ->
  checkheap_coalesced fuel (mem st) prevh = Some true.
Proof.
  induction fuel as [|fuel IH]; intros prevh num n H; [discriminate|].
  cbn [checkheap_implicit] in H. cbv zeta in H. cbn [checkheap_coalesced]. cbv zeta.
  destruct (GET_FREE_BIT (mem st) prevh) eqn:Fp.
  - destruct (negb _); [discriminate|].
    destruct (GET_FREE_BIT (mem st) (Header_get_next_header (mem st) prevh)) eqn:Fh.
    + destruct (Segregated_header_exists _ _ _) as [[|]|]; discriminate.
    + cbn [andb]. destruct (Segregated_header_exists _ _ _) as [[|]|]; try discriminate.
      destruct (GET_SIZE _ _ =? 0); [reflexivity|]. eapply IH; eassumption.
  - rewrite andb_false_r.
    destruct (GET_PREV_BLOCK_FREE_BIT _ _); [discriminate|].
    destruct (GET_FREE_BIT (mem st) (Header_get_next_header (mem st) prevh)) eqn:Fh.
    + destruct (Segregated_header_exists _ _ _) as [[|]|]; try discriminate.
      destruct (negb _); [discriminate|].
      destruct (GET_SIZE _ _ =? 0); [reflexivity|]. eapply IH; eassumption.
    + destruct (Segregated_header_exists _ _ _) as [[|]|]; try discriminate.
      destruct (GET_SIZE _ _ =? 0); [reflexivity|]. eapply IH; eassumption.
Qed.

(* ================================================================== *)
(** * The properties of the specification *)
(* ================================================================== *)

Lemma need_spec_eq n : 0 <= n -> need_spec n = Z.max 16 (16 * ((n + 7) / 16)).
Proof.
  intros Hn. unfold need_spec, align_up.
  destruct (Z_lt_ge_dec n 8) as [Hs|Hb].
  - rewrite (Z.max_r (n - 8) 0) by lia.
    change ((0 + 16 - 1) / 16) with 0.
    rewrite (Z.div_small (n + 7)) by lia. reflexivity.
  - rewrite (Z.max_l (n - 8) 0) by lia.
    replace (n - 8 + 16 - 1) with (n + 7) by lia. lia.
Qed.

Lemma pair_eq {A B} (x : A * B) (b : B) : snd x = b -> x = (fst x, b).
Proof. destruct x; cbn; congruence. Qed.

(** X6. Along every sequence of calls that keeps the caller contract
    ([reach]: live pointers to [free] and [realloc], and every request at
    most [2^64 - 24] bytes, so that it fits in 64 bits with its two
    boundary words), every non-null pointer that [malloc], [realloc] or
    [calloc] returns for a request of at most [2^64 - 24] bytes is a
    multiple of 16, and so is every pointer handed out before; the three
    functions do return once they have fuel for the searches of
    [malloc]. *)
Theorem returned_pointers_aligned st live :
  reach st live ->
  (forall fuel n st' p,
     0 <= n <= 2 ^ 64 - 24 -> malloc fuel st n = Some (st', p) ->
     p <> NULL -> p mod 16 = 0) /\
  (forall fuel q n st' p,
     q = NULL \/ In q live -> 0 <= n <= 2 ^ 64 - 24 ->
     realloc fuel st q n = Some (st', p) -> p <> NULL -> p mod 16 = 0) /\
  (forall fuel k n st' p,
     0 <= k -> 0 <= n -> n * k <= 2 ^ 64 - 24 ->
     calloc fuel st k n = Some (st', p) -> p <> NULL -> p mod 16 = 0) /\
  (forall p, In p live -> p mod 16 = 0) /\
  (forall n, 0 <= n <= 2 ^ 64 - 24 ->
     exists k, forall fuel, (k <= fuel)%nat -> exists r, malloc fuel st n = Some r) /\
  (forall q n, 0 <= n <= 2 ^ 64 - 24 ->
     exists k, forall fuel, (k <= fuel)%nat -> exists r, realloc fuel st q n = Some r) /\
  (forall k n, 0 <= k -> 0 <= n -> n * k <= 2 ^ 64 - 24 ->
     exists j, forall fuel, (j <= fuel)%nat -> exists r, calloc fuel st k n = Some r).
Proof.
  intros HR. pose proof (reach_heap_ok _ _ HR) as HO. split_and.
  - intros fuel n st' p Hn HM Np.
    destruct (malloc_ok _ _ _ _ _ _ HO Hn HM) as [(E & _)|(_ & A & _)];
      [contradiction|exact A].
  - intros fuel q n st' p Hq Hn HM Np.
    destruct (realloc_ok _ _ _ _ _ _ _ HO Hq Hn HM) as [_ [E|A]]; [contradiction|exact A].
  - intros fuel k n st' p Hk Hn Hkn HM Np.
    destruct (calloc_ok _ _ _ _ _ _ _ HO Hk Hn Hkn HM) as [_ [E|A]]; [contradiction|exact A].
  - intros p Hp. destruct HO as (bs & Ls & HI & _ & _ & _ & HL).
    destruct (HL _ Hp) as (s & b & Hb & Hh & _).
    pose proof (blk_align _ _ _ HI b Hb) as Ab.
    replace p with (hd b + 8) by lia. rewrite Z.add_mod, Ab by lia. reflexivity.
  - intros n Hn. exact (malloc_total _ _ _ HO Hn).
  - intros q n Hn. exact (realloc_total _ _ q _ HO Hn).
  - intros k n Hk Hn Hkn. exact (calloc_total _ _ _ _ HO Hk Hn Hkn).
Qed.

Lemma returned_pointers_aligned_witness :
  malloc 10 (fresh 100000) 56 = Some (mid_alloc, 1040) /\ 1040 mod 16 = 0.
Proof.
  split; [exact malloc_mid|].
  destruct (returned_pointers_aligned (fresh 100000) [] reach_fresh) as (H & _).
  apply (H 10%nat 56 mid_alloc 1040); [lia|exact malloc_mid|discriminate].
Defined.

(** C1. Without the bound on the request the pointers are not all
    multiples of 16.  In the run [odd_p] ... [odd_r]: [p = malloc(1000)]
    is 1040, with capacity 1000; the client stores 56 at [p + 16] and 2 at
    [p + 24], inside the block; [q = realloc(p, 2^64 - 1)] is not refused
    and returns 2048, a block of capacity 24, after copying the 1000 bytes
    of [p] over its footer (which now reads 56) and over the epilogue
    header (which now reads 2, previous block free); the extension for
    [r = malloc(2000)] then takes the 56 for the size of a free block
    before the new one, merges the two into a block with its header at
    2000, and [malloc] returns 2008, which is 8 modulo 16. *)
Theorem huge_realloc_misaligns :
  option_map snd (malloc 10 (fresh 100000) 1000) = Some 1040 /\
  capacity (fst odd_p) 1040 = 1000 /\
  (forall x, x < 1040 \/ 1040 + 1000 <= x -> mem odd_written x = mem (fst odd_p) x) /\
  option_map snd (realloc 10 odd_written 1040 (2 ^ 64 - 1)) = Some 2048 /\
  capacity (fst odd_q) 2048 = 24 /\
  load64 (mem (fst odd_q)) 2064 = 56 /\
  load64 (mem (fst odd_q)) 2072 = 2 /\
  option_map snd (malloc 10 (fst odd_q) 2000) = Some 2008 /\
  snd odd_r = 2008 /\
  snd odd_r mod 16 = 8.
Proof.
  assert (Ep : snd odd_p = 1040) by (vm_compute; reflexivity).
  split; [vm_compute; reflexivity|]. split; [vm_compute; reflexivity|].
  split; [|split_and; vm_compute; reflexivity].
  assert (F : forall m a v y, y < a \/ a + 8 <= y -> store64 m a v y = m y).
  { intros m a v y Hy. unfold store64, store_n.
    destruct (a <=? y) eqn:E1; destruct (y <? a + 8) eqn:E2; cbn; try reflexivity.
    apply Z.leb_le in E1. apply Z.ltb_lt in E2. lia. }
  intros x Hx. unfold odd_written, set_mem. cbn [mem]. rewrite Ep, !F by lia.
  reflexivity.
Qed.

(** X3. A successful [mm_init] lays the heap out as the specification
    draws it: from the first multiple of 16 at or above the break, 8 bytes
    of padding, the prologue header and footer and the epilogue header,
    all three zero words, the break right after them, and 15 empty lists;
    the state is reachable.  The probe returns within 16 steps. *)
Theorem mm_init_layout fuel st0 st :
  0 <= brk st0 -> mem_max st0 < 2 ^ 64 -> mm_init fuel st0 = Some (st, true) ->
  (heap st - 8) mod 16 = 0 /\ brk st0 <= heap st - 8 /\
  (forall a, brk st0 <= a < heap st - 8 -> a mod 16 <> 0) /\
  brk st = heap st + 24 /\
  load64 (mem st) (heap st) = tag 0 false false /\
  load64 (mem st) (heap st + 8) = tag 0 false false /\
  load64 (mem st) (heap st + 16) = tag 0 false false /\
  (forall i, freelists st i = NULL) /\
  reach st [] /\
  (forall fuel', (16 <= fuel')%nat -> exists r, mm_init fuel' st0 = Some r).
Proof.
  intros H0 HM HI.
  destruct (mm_init_inv _ _ _ H0 HM HI) as (HV & EB & LF & FL & SL & SF & _).
  pose proof (inv_al _ _ _ HV) as AL.
  split_and; try assumption.
  - replace (heap st - 8) with (heap st + (-1) * 16 + 8) by lia.
    rewrite Z.add_mod, Z.mod_add, AL by lia. reflexivity.
  - apply (inv_pro _ _ _ HV).
  - pose proof (inv_mem _ _ _ HV) as M. inversion M as [|x l [Hh _] _]; subst.
    cbn [hd sz fr pfr] in Hh. replace (heap st + 16) with (brk st - 8) by lia. exact Hh.
  - eapply reach_init; eassumption.
  - intros fuel' Hf. apply mm_init_total; assumption.
Qed.

Lemma mm_init_layout_witness :
  heap (fresh 100000) = 1016 /\ brk (fresh 100000) = heap (fresh 100000) + 24 /\
  load64 (mem (fresh 100000)) (heap (fresh 100000)) = tag 0 false false.
Proof.
  destruct (mm_init_layout 20 (raw 100000) (fresh 100000) (raw_ok 100000))
    as (_ & _ & _ & B & P & _); [cbn; lia|exact init_fresh|].
  split; [reflexivity|]. split; [exact B|exact P].
Defined.

(** X4. [malloc] of a request [n >= 1] that with its boundary words fits
    in 64 bits, in a reachable state: a null result means the break
    could not be moved by [need + 16] and leaves the state as it was; a
    non-null result is a multiple of 16, differs from every live pointer,
    heads an allocated block of capacity at least [n], and the state is
    reachable with it live. *)
Theorem malloc_contract st live fuel n st' p :
  reach st live -> 1 <= n <= 2 ^ 64 - 24 ->
  malloc fuel st n = Some (st', p) ->
  (p = NULL -> st' = st /\ mem_max st < brk st + required_payload_size n + 16) /\
  (p <> NULL ->
     p mod 16 = 0 /\ ~ In p live /\ n <= capacity st' p /\
     GET_FREE_BIT (mem st') (Payload_get_header p) = false /\
     reach st' (p :: live)).
Proof.
  intros HR Hn HM. pose proof (reach_heap_ok _ _ HR) as HO.
  assert (Hn' : 0 <= n <= 2 ^ 64 - 24) by lia.
  destruct (malloc_ok _ _ _ _ _ _ HO Hn' HM)
    as [(-> & ->)|(Nq & Aq & Fq & bs' & Ls' & s1 & HI1 & _ & _ & _ & _ & Hq & _ & Hcap)].
  - split; [|intros N; contradiction]. intros _. split; [reflexivity|].
    destruct (Z_le_gt_dec (brk st + required_payload_size n + 16) (mem_max st)) as [Hroom|]; [|lia].
    exfalso. exact (malloc_room _ _ _ _ _ _ HO Hn Hroom HM eq_refl).
  - split; [intros E; contradiction|]. intros _.
    destruct Hq as (b1 & Hb1 & Hh1 & Hs1 & Fb1 & Rb1).
    pose proof (blk_bounds _ _ _ HI1 b1 Hb1). pose proof (inv_lo _ _ _ HI1).
    pose proof (inv_top _ _ _ HI1). pose proof (inv_max _ _ _ HI1).
    split_and; try assumption.
    + unfold capacity, Footer_size. rewrite Payload_get_header_eq by lia.
      rewrite <- Hh1, (blk_GET_SIZE _ _ _ HI1 b1 Hb1). lia.
    + rewrite Payload_get_header_eq by lia.
      rewrite <- Hh1, (blk_GET_FREE_BIT _ _ _ HI1 b1 Hb1). exact Fb1.
    + pose proof (reach_malloc fuel st live n st' p HR Hn' HM) as R.
      destruct (Z.eqb_spec p NULL) as [|_]; [contradiction|]. exact R.
Qed.

Lemma malloc_contract_witness :
  1040 mod 16 = 0 /\ ~ In 1040 (@nil Z) /\ 56 <= capacity mid_alloc 1040 /\
  GET_FREE_BIT (mem mid_alloc) (Payload_get_header 1040) = false /\
  reach mid_alloc [1040].
Proof.
  apply (malloc_contract (fresh 100000) [] 10 56 mid_alloc 1040 reach_fresh);
    [lia|exact malloc_mid|discriminate].
Defined.

(** X7. In every reachable state, that is after [mm_init] and after every
    completed [malloc], [free], [realloc], [calloc] or heap extension of
    a run in which every request is at most [2^64 - 24] bytes, the
    walk of [mm_checkheap] from the prologue to the epilogue meets no
    block that is free together with the block before it: a free block
    has an allocated lower neighbour, and (looking from the next block)
    an allocated upper neighbour. *)
Theorem no_adjacent_free_blocks st live :
  reach st live ->
  exists k, forall fuel, (k <= fuel)%nat ->
    checkheap_coalesced fuel (mem st) (heap st) = Some true.
Proof.
  intros HR. destruct (reach_heap_ok _ _ HR) as (bs & Ls & HI & HT & _ & HCo & _).
  exists (length bs). intros fuel Hf. eapply checkheap_ok; eassumption.
Qed.

Lemma no_adjacent_free_blocks_witness :
  exists k, forall fuel, (k <= fuel)%nat ->
    checkheap_coalesced fuel (mem mid_free) (heap mid_free) = Some true.
Proof. exact (no_adjacent_free_blocks mid_free [] reach_mid_free). Defined.

(** C2. Without the bound on the request two neighbours can both be
    free after a completed call.  In the run [run_a] ... [run_end], in
    which every call returns: [a = malloc(16)] and [b = malloc(16)] are
    freed and merge into one block, [p = malloc(56)] takes that block
    (header 1032, payload 48); [q = realloc(p, 2^64 - 1)] is not refused:
    it extends the heap by a block of payload 16 (header 1096), copies
    the 56 bytes of [p] over the footer of [q] and over the epilogue
    header, which then read as the tags of free blocks, and frees [p].
    For [r = malloc(100)] the extension starts its new block at that
    epilogue, takes [q]'s block for a free lower neighbour and merges the
    two; [allocate] then splits the merged block, which clears the
    previous-block-free bit of the header at 1096, and returns [q] once
    more.  [free(r)] finds that bit clear and does not look at the block
    below: at the end the block with its header at 1032 and its upper
    neighbour, with its header at 1096, are both marked free, below the
    break. *)
Theorem huge_realloc_leaves_free_neighbours :
  option_map snd (malloc 10 (fresh 100000) 16) = Some (snd run_a) /\
  option_map snd (malloc 10 (fst run_a) 16) = Some (snd run_b) /\
  option_map snd (malloc 10 run_freed 56) = Some 1040 /\
  option_map snd (realloc 10 (fst run_p) 1040 (2 ^ 64 - 1)) = Some 1104 /\
  option_map snd (malloc 10 (fst run_q) 100) = Some 1104 /\
  run_end = free (fst run_r) 1104 /\
  GET_FREE_BIT (mem run_end) 1032 = true /\
  GET_SIZE (mem run_end) 1032 = 48 /\
  Header_get_next_header (mem run_end) 1032 = 1096 /\
  GET_FREE_BIT (mem run_end) 1096 = true /\
  GET_PREV_BLOCK_FREE_BIT (mem run_end) 1096 = false /\
  0 < GET_SIZE (mem run_end) 1096 /\
  heap run_end < 1032 /\ 1096 + 8 <= brk run_end.
Proof.
  assert (Er : snd run_r = 1104) by (vm_compute; reflexivity).
  do 5 (split; [vm_compute; reflexivity|]).
  split; [unfold run_end; rewrite Er; reflexivity|].
  split_and; vm_compute; first [reflexivity | discriminate].
Qed.

(** C3. The request [n = 2^64 - 1]: the code computes the payload size
    16 where the formula [max(align_up(n - 8, 16), 16)] gives [2^64];
    [align] wraps.  [malloc] then hands out a block of capacity 24 for
    it. *)
Theorem required_payload_size_wraps :
  required_payload_size (2 ^ 64 - 1) = 16 /\
  search_size_of (2 ^ 64 - 1) = 16 /\
  need_spec (2 ^ 64 - 1) = 2 ^ 64 /\
  option_map (fun r => (snd r, capacity (fst r) (snd r)))
    (malloc 10 (fresh 100000) (2 ^ 64 - 1)) = Some (1040, 24).
Proof. split_and; vm_compute; reflexivity. Qed.

(** X1. Below the range where [align] wraps the code computes the formula
    of the specification, the unsigned subtraction notwithstanding. *)
Theorem required_payload_size_formula n :
  1 <= n <= 2 ^ 64 - 8 ->
  required_payload_size n = need_spec n /\
  search_size_of n = need_spec n /\
  (n <= 24 -> required_payload_size n = 16) /\
  (25 <= n <= 40 -> required_payload_size n = 32) /\
  (41 <= n <= 48 -> required_payload_size n = 48).
Proof.
  intros Hn. rewrite search_size_of_eq, required_payload_size_eq, need_spec_eq by lia.
  split_and; try reflexivity; intros H.
  - assert ((n + 7) / 16 <= 1) by (apply Z.lt_succ_r, Z.div_lt_upper_bound; lia). lia.
  - assert (E : (n + 7) / 16 = 2).
    { symmetry. apply (Z.div_unique _ _ _ (n + 7 - 32)); lia. }
    rewrite E. reflexivity.
  - assert (E : (n + 7) / 16 = 3).
    { symmetry. apply (Z.div_unique _ _ _ (n + 7 - 48)); lia. }
    rewrite E. reflexivity.
Qed.

Lemma required_payload_size_formula_witness :
  required_payload_size 25 = need_spec 25 /\
  search_size_of 25 = need_spec 25 /\
  (25 <= 24 -> required_payload_size 25 = 16) /\
  (25 <= 25 <= 40 -> required_payload_size 25 = 32) /\
  (41 <= 25 <= 48 -> required_payload_size 25 = 48).
Proof. apply (required_payload_size_formula 25). lia. Defined.

(** X5. What the wrapped size leads to.  In the run [run_a] ... [run_end]
    the request [realloc(p, 2^64 - 1)] is not refused: it returns a block
    [q] of capacity 24 after copying the 56 bytes of [p] into it, over the
    epilogue header.  The next [malloc(100)] then returns [q] again, and
    after [free] of that pointer the heap walk finds two free blocks side
    by side. *)
Theorem huge_realloc_overflows :
  snd run_p = 1040 /\ capacity (fst run_p) 1040 = 56 /\
  snd run_q = 1104 /\ capacity (fst run_q) 1104 = 24 /\
  load64 (mem (fst run_q)) (brk (fst run_q) - 8) = tag 16 true true /\
  checkheap_coalesced 20 (mem (fst run_q)) (heap (fst run_q)) = Some true /\
  snd run_r = 1104 /\
  checkheap_coalesced 20 (mem run_end) (heap run_end) = Some false.
Proof. split_and; vm_compute; reflexivity. Qed.



(** C5. [allocate] on the free block [h] the search selected for a
    request [n] (any [size_t]) in a reachable state, [p] its payload size
    and [need] the effective size:
    the block ends allocated and its payload is returned; if
    [p - need >= 32] it is split, its size becomes [need] and the block
    after it, at [h + 16 + need], is free with payload [p - need - 16]
    and previous-block-free bit clear, and is in the list of its size; if [p - need < 32] it keeps its
    size [p].  So payload 48 serving need 16 gives 16 plus a free block
    of 16, and payload 32 serving need 16 is not split. *)
Theorem allocate_split_rule st live fuel n h :
  reach st live -> 0 <= n < 2 ^ 64 ->
  Segregated_find_free_block fuel st n = Some h -> h <> NULL ->
  let p := GET_SIZE (mem st) h in
  let need := required_payload_size n in
  let st' := fst (allocate st h n) in
  GET_FREE_BIT (mem st) h = true /\ need <= p /\
  snd (allocate st h n) = h + 8 /\
  GET_FREE_BIT (mem st') h = false /\
  (32 <= p - need ->
     GET_SIZE (mem st') h = need /\
     Header_get_next_header (mem st') h = h + 16 + need /\
     GET_SIZE (mem st') (h + 16 + need) = p - need - 16 /\
     GET_FREE_BIT (mem st') (h + 16 + need) = true /\
     GET_PREV_BLOCK_FREE_BIT (mem st') (h + 16 + need) = false /\
     exists L,
       dlseg (mem st') 0 (freelists st' (Segregated_get_bucket (p - need - 16))) L 0 /\
       In (h + 16 + need + 8) L) /\
  (p - need < 32 ->
     GET_SIZE (mem st') h = p /\
     GET_PREV_BLOCK_FREE_BIT (mem st') (h + 16 + p) = false) /\
  (p = 48 -> need = 16 ->
     GET_SIZE (mem st') h = 16 /\ GET_SIZE (mem st') (h + 32) = 16 /\
     GET_FREE_BIT (mem st') (h + 32) = true) /\
  (p = 32 -> need = 16 -> GET_SIZE (mem st') h = 32).
Proof.
  intros HR Hn EF Nh p need st'.
  destruct (reach_heap_ok _ _ HR) as (bs & Ls & HI & HT & HC & HCo & _).
  destruct (find_sound _ _ _ HI _ _ _ Hn EF Nh) as (b & Hb & Eh & Fb & Hfit & _).
  subst h.
  pose proof (blk_free_real _ _ _ HI b Hb Fb) as Rb.
  destruct (blk_next _ _ _ HI b Hb ltac:(lia)) as (l1 & nx & l2 & Ebs & Ehn).
  destruct (allocate_inv _ _ _ _ _ _ _ n HI HT HC HCo Ebs Fb Hfit)
    as (Ls' & HI' & _ & HC' & _ & Ep & _ & _).
  fold need in HI', HC'. fold st' in HI'.
  assert (Ep' : p = sz b) by (apply (blk_GET_SIZE _ _ _ HI b Hb)).
  pose proof (blk_bounds _ _ _ HI b Hb) as Bb. pose proof (inv_lo _ _ _ HI) as LO.
  pose proof (inv_top _ _ _ HI) as TOP. pose proof (inv_max _ _ _ HI) as MAX.
  destruct (required_payload_size_shape n) as ((N16 & _) & _). fold need in N16.
  assert (Core :
    GET_FREE_BIT (mem st') (hd b) = false /\
    (32 <= p - need ->
       GET_SIZE (mem st') (hd b) = need /\
       Header_get_next_header (mem st') (hd b) = hd b + 16 + need /\
       GET_SIZE (mem st') (hd b + 16 + need) = p - need - 16 /\
       GET_FREE_BIT (mem st') (hd b + 16 + need) = true /\
       GET_PREV_BLOCK_FREE_BIT (mem st') (hd b + 16 + need) = false /\
       exists L,
         dlseg (mem st') 0 (freelists st' (Segregated_get_bucket (p - need - 16))) L 0 /\
         In (hd b + 16 + need + 8) L) /\
    (p - need < 32 ->
       GET_SIZE (mem st') (hd b) = p /\
       GET_PREV_BLOCK_FREE_BIT (mem st') (hd b + 16 + p) = false)).
  { unfold placed in HI', HC'. rewrite Ep'.
    destruct (Z.leb_spec 32 (sz b - need)) as [Hsp|Hns].
    - set (B1 := mkBlock (hd b) need false false) in *.
      set (B2 := mkBlock (hd b + 16 + need) (sz b - need - 16) true false) in *.
      assert (H1 : In B1 (l1 ++ [B1; B2] ++ nx :: l2)).
      { apply in_or_app. right. left. reflexivity. }
      assert (H2 : In B2 (l1 ++ [B1; B2] ++ nx :: l2)).
      { apply in_or_app. right. right. left. reflexivity. }
      pose proof (blk_GET_SIZE _ _ _ HI' B1 H1) as G1.
      pose proof (blk_GET_FREE_BIT _ _ _ HI' B1 H1) as F1.
      pose proof (blk_GET_SIZE _ _ _ HI' B2 H2) as G2.
      pose proof (blk_GET_FREE_BIT _ _ _ HI' B2 H2) as F2.
      pose proof (blk_GET_PREV_BLOCK_FREE_BIT _ _ _ HI' B2 H2) as P2.
      cbn [B1 B2 hd sz fr pfr] in G1, F1, G2, F2, P2.
      split_and; try assumption; try lia; intros _; split_and; try assumption.
      + apply (Header_get_next_header_eq _ _ need); try assumption; lia.
      + exists (Ls' (Segregated_get_bucket (sz b - need - 16))). split.
        * apply (lo_dll _ _ _ (inv_lists _ _ _ HI')).
        * apply (HC' (hd B2) (sz B2)). exists B2. auto.
    - assert (H1 : In (set_fr b false) (l1 ++ [set_fr b false; set_pfr nx false] ++ l2)).
      { apply in_or_app. right. left. reflexivity. }
      assert (H2 : In (set_pfr nx false) (l1 ++ [set_fr b false; set_pfr nx false] ++ l2)).
      { apply in_or_app. right. right. left. reflexivity. }
      pose proof (blk_GET_SIZE _ _ _ HI' _ H1) as G1.
      pose proof (blk_GET_FREE_BIT _ _ _ HI' _ H1) as F1.
      pose proof (blk_GET_PREV_BLOCK_FREE_BIT _ _ _ HI' _ H2) as P2.
      cbn [set_fr set_pfr hd sz fr pfr] in G1, F1, P2. rewrite Ehn in P2.
      split_and; try assumption; try lia; intros _; split_and; assumption. }
  destruct Core as (C1 & C2 & C3).
  split_and; try assumption.
  - apply (blk_GET_FREE_BIT _ _ _ HI b Hb) || (rewrite (blk_GET_FREE_BIT _ _ _ HI b Hb); exact Fb).
  - lia.
  - intros E1 E2. destruct (C2 ltac:(lia)) as (A1 & _ & A3 & A4 & _ & _).
    rewrite E2 in A1, A3, A4. rewrite E1 in A3.
    replace (hd b + 16 + 16) with (hd b + 32) in A3, A4 by lia.
    split_and; assumption.
  - intros E1 E2. destruct (C3 ltac:(lia)) as (A1 & _). congruence.
Qed.

Lemma find_mid : Segregated_find_free_block 10 mid_free 16 = Some 1032.
Proof. vm_compute. reflexivity. Qed.

Lemma allocate_split_rule_witness :
  let p := GET_SIZE (mem mid_free) 1032 in
  let need := required_payload_size 16 in
  let st' := fst (allocate mid_free 1032 16) in
  GET_FREE_BIT (mem mid_free) 1032 = true /\ need <= p /\
  snd (allocate mid_free 1032 16) = 1032 + 8 /\
  GET_FREE_BIT (mem st') 1032 = false /\
  (32 <= p - need ->
     GET_SIZE (mem st') 1032 = need /\
     Header_get_next_header (mem st') 1032 = 1032 + 16 + need /\
     GET_SIZE (mem st') (1032 + 16 + need) = p - need - 16 /\
     GET_FREE_BIT (mem st') (1032 + 16 + need) = true /\
     GET_PREV_BLOCK_FREE_BIT (mem st') (1032 + 16 + need) = false /\
     exists L,
       dlseg (mem st') 0 (freelists st' (Segregated_get_bucket (p - need - 16))) L 0 /\
       In (1032 + 16 + need + 8) L) /\
  (p - need < 32 ->
     GET_SIZE (mem st') 1032 = p /\
     GET_PREV_BLOCK_FREE_BIT (mem st') (1032 + 16 + p) = false) /\
  (p = 48 -> need = 16 ->
     GET_SIZE (mem st') 1032 = 16 /\ GET_SIZE (mem st') (1032 + 32) = 16 /\
     GET_FREE_BIT (mem st') (1032 + 32) = true) /\
  (p = 32 -> need = 16 -> GET_SIZE (mem st') 1032 = 32).
Proof.
  apply (allocate_split_rule mid_free [] 10 16 1032 reach_mid_free);
    [lia|exact find_mid|discriminate].
Defined.

(** C6. [coalesce_left h] returns the state it was given unless [h] is
    free and has its previous-block-free bit set.  When both hold, for the
    block [b] at [h] and the free block [p] before it, both in the index:
    the previous header the code computes is the header of [p]; afterwards
    the header and the footer of [p] hold the size
    [size(p) + 16 + size(b)], free, with the previous-block-free bit [p]
    had; the payloads of [p] and [b] are out of the lists they were in and
    the payload of [p] is at the front of the list of the merged size.
    [coalesce h] is [coalesce_left] on the block after [h], then on [h]. *)
Theorem coalesce_left_contract :
  (forall st h,
     GET_FREE_BIT (mem st) h = false \/ GET_PREV_BLOCK_FREE_BIT (mem st) h = false ->
     coalesce_left st h = st) /\
  (forall st bs Ls l1 p b l2,
     heap_inv st bs Ls -> bs = l1 ++ p :: b :: l2 ->
     fr p = true -> fr b = true -> pfr b = true ->
     In (hd p + 8) (Ls (Segregated_get_bucket (sz p))) ->
     In (hd b + 8) (Ls (Segregated_get_bucket (sz b))) ->
     let st' := coalesce_left st (hd b) in
     let s := sz p + 16 + sz b in
     let k := Segregated_get_bucket s in
     GET_FREE_BIT (mem st) (hd b) = true /\
     GET_PREV_BLOCK_FREE_BIT (mem st) (hd b) = true /\
     Header_get_prev_header (mem st) (hd b) = hd p /\
     GET_SIZE (mem st) (hd p) = sz p /\ GET_SIZE (mem st) (hd b) = sz b /\
     load64 (mem st') (hd p) = tag s true (pfr p) /\
     Header_get_footer (mem st') (hd p) = hd p + 8 + s /\
     load64 (mem st') (hd p + 8 + s) = tag s true (pfr p) /\
     exists Ls',
       heap_inv st' (l1 ++ merged p b :: l2) Ls' /\
       (forall i y, In y (Ls' i) <->
          (In y (Ls i) /\ y <> hd p + 8 /\ y <> hd b + 8) \/ (y = hd p + 8 /\ i = k)) /\
       exists T, Ls' k = hd p + 8 :: T) /\
  (forall st h,
     coalesce st h =
     coalesce_left (coalesce_left st (Header_get_next_header (mem st) h)) h).
Proof.
  split_and.
  - exact coalesce_left_noop.
  - intros st bs Ls l1 p b l2 HI Ebs Fp Fb PFb Inp Inb st' s k.
    destruct (coalesce_left_merge _ _ _ _ _ _ _ HI Ebs Fp Fb PFb Inp Inb)
      as (Ls' & HI' & Hiff & HT & Lh & Lf).
    fold st' in HI', Lh, Lf. fold s in Lh, Lf. fold k in Hiff, HT.
    assert (Hp : In p bs) by (rewrite Ebs; apply in_mid).
    assert (Hb : In b bs) by (rewrite Ebs; apply in_or_app; right; right; left; reflexivity).
    destruct (chain_cut st bs Ls l1 [p; b] l2 HI Ebs) as (A & B & _ & AD & _).
    cbn [adj] in AD. destruct AD as (EA & Ehb & EB).
    pose proof (blk_bounds _ _ _ HI p Hp) as Bp. pose proof (blk_bounds _ _ _ HI b Hb) as Bb.
    pose proof (blk_size _ _ _ HI p Hp) as [Sp Mp].
    pose proof (blk_size _ _ _ HI b Hb) as [Sb Mb].
    pose proof (inv_lo _ _ _ HI) as LO. pose proof (inv_top _ _ _ HI) as TOP.
    pose proof (inv_max _ _ _ HI) as MAX.
    assert (Hm : In (merged p b) (l1 ++ merged p b :: l2)) by apply in_mid.
    pose proof (blk_GET_SIZE _ _ _ HI' _ Hm) as Gm. cbn [merged hd sz] in Gm. fold s in Gm.
    split_and.
    + rewrite (blk_GET_FREE_BIT _ _ _ HI b Hb). exact Fb.
    + rewrite (blk_GET_PREV_BLOCK_FREE_BIT _ _ _ HI b Hb). exact PFb.
    + rewrite (Header_get_prev_header_eq _ _ (sz p)); try lia.
      replace (hd b - 8) with (hd p + 8 + sz p) by lia.
      destruct (blk_mem _ _ _ HI p Hp) as [_ Hf]. exact (Hf Fp).
    + apply (blk_GET_SIZE _ _ _ HI p Hp).
    + apply (blk_GET_SIZE _ _ _ HI b Hb).
    + exact Lh.
    + apply (Header_get_footer_eq _ _ s Gm); subst s; lia.
    + replace (hd p + 8 + s) with (hd b + 8 + sz b) by (subst s; lia). exact Lf.
    + exists Ls'. split_and; assumption.
  - exact coalesce_unfold.
Qed.

Lemma coalesce_left_contract_witness :
  let st' := coalesce_left pair_state 1064 in
  load64 (mem st') 1032 = tag 48 true false /\
  load64 (mem st') (1032 + 8 + 48) = tag 48 true false /\
  Header_get_prev_header (mem pair_state) 1064 = 1032.
Proof.
  destruct coalesce_left_contract as (_ & H & _).
  destruct (H pair_state pair_blocks pair_lists [] (mkBlock 1032 16 true false)
              (mkBlock 1064 16 true true) [mkBlock 1096 0 false true] pair_inv)
    as (_ & _ & E & _ & _ & L1 & _ & L2 & _);
    try reflexivity; try (left; reflexivity); try (right; left; reflexivity).
  cbv zeta. split_and; [exact L1|exact L2|exact E].
Defined.



(** C8. [free] has no test for null.  In the heap [big_free], where
    list 14 holds the block of payload 304, [free(NULL)] takes
    [NULL - 8] for a header, sets the free bit of the word there and
    links the address 0 at the front of list 14: the head of list 14,
    1040 before, is null afterwards. *)
Theorem free_null_not_noop :
  freelists (big_free 100000) 14 = 1040 /\
  freelists (free (big_free 100000) NULL) 14 = NULL /\
  load64 (mem (big_free 100000)) (2 ^ 64 - 8) = 0 /\
  load64 (mem (free (big_free 100000) NULL)) (2 ^ 64 - 8) = 1.
Proof. split_and; vm_compute; reflexivity. Qed.

(** C9. The request [n = 2^64 - 1] in the heap [big_free], whose only
    free block has payload 304 and break 1360, with room for two
    extensions: the search finds no fit, the extension succeeds, the
    retried search finds no fit again, and the one call of [malloc]
    extends the heap twice (the break ends 64 bytes higher) before it
    returns null. *)
Theorem malloc_extends_twice :
  Segregated_find_free_block 10 (big_free 1440) (2 ^ 64 - 1) = Some NULL /\
  snd (extend_memory (big_free 1440) (2 ^ 64 - 1)) = true /\
  Segregated_find_free_block 10 (fst (extend_memory (big_free 1440) (2 ^ 64 - 1)))
    (2 ^ 64 - 1) = Some NULL /\
  brk (big_free 1440) = 1360 /\
  option_map (fun r => (brk (fst r), snd r)) (malloc 10 (big_free 1440) (2 ^ 64 - 1))
  = Some (1424, NULL).
Proof. split_and; vm_compute; reflexivity. Qed.

(** X2. For a request that with its boundary words fits in 64 bits, the
    retry after a successful extension finds a block and places the
    request without moving the break again. *)
Theorem retry_needs_no_extension st live n st1 :
  reach st live -> 1 <= n <= 2 ^ 64 - 24 ->
  extend_memory st n = (st1, true) ->
  (forall f h1, Segregated_find_free_block f st1 n = Some h1 -> h1 <> NULL) /\
  exists k, forall f, (k <= f)%nat ->
    exists h1, Segregated_find_free_block f st1 n = Some h1 /\ h1 <> NULL /\
               malloc (S f) st1 n = Some (allocate st1 h1 n) /\
               brk (fst (allocate st1 h1 n)) = brk st1.
Proof.
  intros HR Hn EE.
  destruct (malloc_retry st live n st1 (reach_heap_ok _ _ HR) ltac:(lia) EE) as (NN & k & Hk).
  split; [exact NN|]. exists k. intros f Hf.
  destruct (Hk f Hf) as (h1 & EF & Nh & HM & HB).
  exists h1. split_and; try assumption. apply HM. lia.
Qed.

Lemma extend_fresh :
  extend_memory (fresh 100000) 8 = (fst (extend_memory (fresh 100000) 8), true).
Proof. apply pair_eq. vm_compute. reflexivity. Qed.

Lemma retry_needs_no_extension_witness :
  (forall f h1,
     Segregated_find_free_block f (fst (extend_memory (fresh 100000) 8)) 8 = Some h1 ->
     h1 <> NULL) /\
  exists k, forall f, (k <= f)%nat ->
    exists h1,
      Segregated_find_free_block f (fst (extend_memory (fresh 100000) 8)) 8 = Some h1 /\
      h1 <> NULL /\
      malloc (S f) (fst (extend_memory (fresh 100000) 8)) 8
      = Some (allocate (fst (extend_memory (fresh 100000) 8)) h1 8) /\
      brk (fst (allocate (fst (extend_memory (fresh 100000) 8)) h1 8))
      = brk (fst (extend_memory (fresh 100000) 8)).
Proof.
  apply (retry_needs_no_extension (fresh 100000) [] 8 _ reach_fresh);
    [lia|exact extend_fresh].
Defined.

(** C10, counterexample. [k = n = 2^32]: the product overflows to 0, and
    [calloc] returns null in every state. *)
Lemma calloc_product_zero :
  ~ (exists fuel st st' p,
       calloc fuel st (2 ^ 32) (2 ^ 32) = Some (st', p) /\ p <> NULL).
Proof.
  intros (fuel & st & st' & p & HC & Np). unfold calloc in HC.
  change (wrap (2 ^ 32 * 2 ^ 32)) with 0 in HC. cbv zeta in HC.
  destruct fuel as [|fuel]; [discriminate|]. cbn [malloc] in HC.
  change (0 =? 0) with true in HC. cbv iota in HC.
  change (NULL =? NULL) with true in HC. cbv iota in HC.
  inversion HC. congruence.
Qed.

(** C10. [calloc k n] is [malloc] of [P = k * n mod 2^64] followed, when
    the pointer is not null, by zeroing [P] bytes from it.  When [P] is 0
    it returns null and leaves the state.  When the product overflows and
    [1 <= P <= 2^64 - 24], a non-null result is aligned, has [P] zero
    bytes, and a capacity of at least [P] and less than [k * n]; with
    room beyond the break, [calloc] does return such a pointer. *)
Theorem calloc_wrapped_product st live k n :
  reach st live ->
  let P := wrap (n * k) in
  (forall fuel,
     calloc fuel st k n =
     match malloc fuel st P with
     | None => None
     | Some (st', p) =>
         Some (if p =? NULL then st' else set_mem st' (memset (mem st') p 0 P), p)
     end) /\
  (P = 0 -> forall fuel st' p,
     calloc fuel st k n = Some (st', p) -> p = NULL /\ st' = st) /\
  (2 ^ 64 <= k * n -> 1 <= P <= 2 ^ 64 - 24 ->
     (forall fuel st' p,
        calloc fuel st k n = Some (st', p) -> p <> NULL ->
        p mod 16 = 0 /\ P <= capacity st' p < k * n /\
        (forall i, 0 <= i < P -> mem st' (p + i) = 0)) /\
     (brk st + required_payload_size P + 16 <= mem_max st ->
      exists fuel st' p, calloc fuel st k n = Some (st', p) /\ p <> NULL)).
Proof.
  intros HR P. pose proof (reach_heap_ok _ _ HR) as HO.
  assert (Unf : forall fuel,
     calloc fuel st k n =
     match malloc fuel st P with
     | None => None
     | Some (st', p) =>
         Some (if p =? NULL then st' else set_mem st' (memset (mem st') p 0 P), p)
     end).
  { intros fuel. unfold calloc. cbv zeta. fold P.
    destruct (malloc fuel st P) as [[st1 q]|]; [|reflexivity].
    destruct (q =? NULL); reflexivity. }
  split_and.
  - exact Unf.
  - intros E fuel st' p HC. rewrite Unf, E in HC.
    destruct fuel as [|fuel]; [discriminate|]. cbn [malloc] in HC.
    change (0 =? 0) with true in HC. cbv iota in HC.
    change (NULL =? NULL) with true in HC. cbv iota in HC.
    inversion HC. auto.
  - intros Hov HP. split.
    + intros fuel st' p HC Np. rewrite Unf in HC.
      destruct (malloc fuel st P) as [[st1 q]|] eqn:EM; [|discriminate].
      assert (HP' : 0 <= P <= 2 ^ 64 - 24) by lia.
      destruct (malloc_ok _ _ _ _ _ _ HO HP' EM)
        as [(-> & ->)|(Nq & Aq & _ & bs' & Ls' & s & HI & _ & _ & _ & _ & Hq & _ & Hcap)].
      * inversion HC. subst p. contradiction.
      * destruct (Z.eqb_spec q NULL) as [|_]; [contradiction|].
        inversion HC. subst st' p. clear HC.
        destruct Hq as (b & Hb & Hh & Hs & _ & Rb).
        pose proof (blk_bounds _ _ _ HI b Hb). pose proof (inv_lo _ _ _ HI).
        pose proof (inv_top _ _ _ HI). pose proof (inv_max _ _ _ HI).
        split_and; try assumption.
        -- unfold capacity, Footer_size. cbn [mem set_mem].
           rewrite Payload_get_header_eq by lia.
           rewrite (GET_SIZE_same (mem st1)) by (apply load64_memset_other; lia).
           rewrite <- Hh, (blk_GET_SIZE _ _ _ HI b Hb). lia.
        -- unfold capacity, Footer_size. cbn [mem set_mem].
           rewrite Payload_get_header_eq by lia.
           rewrite (GET_SIZE_same (mem st1)) by (apply load64_memset_other; lia).
           rewrite <- Hh, (blk_GET_SIZE _ _ _ HI b Hb). lia.
        -- intros i Hi. cbn [mem set_mem]. unfold memset.
           destruct (Z.leb_spec q (q + i)), (Z.ltb_spec (q + i) (q + P)); try lia.
           reflexivity.
    + intros Hroom.
      destruct (malloc_total _ _ P HO ltac:(lia)) as (f & Hf).
      destruct (Hf f (Nat.le_refl f)) as ([st1 q] & EM).
      pose proof (malloc_room _ _ _ _ _ _ HO HP Hroom EM) as Nq.
      exists f. rewrite Unf, EM. eexists _, q. split; [reflexivity|assumption].
Qed.

Lemma calloc_wrapped_product_witness :
  exists fuel st' p,
    calloc fuel (fresh 100000) (2 ^ 63 + 8) 2 = Some (st', p) /\ p <> NULL.
Proof.
  destruct (calloc_wrapped_product (fresh 100000) [] (2 ^ 63 + 8) 2 reach_fresh)
    as (_ & _ & H).
  destruct H as (_ & H); [vm_compute; discriminate|vm_compute; split; discriminate|].
  apply H. vm_compute. discriminate.
Defined.

(* ================================================================== *)
(** * Further properties of the code *)
(* ================================================================== *)

(** X8. The boundary-tag codec is a round trip: what [SET_VALUE] writes
    with a size below [2^64] whose two low bits are clear, [GET_SIZE],
    [GET_FREE_BIT] and [GET_PREV_BLOCK_FREE_BIT] read back, and no byte
    outside the 8-byte word is touched.  The mask of [GET_SIZE] is [~3]:
    bits 2 and 3 belong to the size. *)
Theorem codec_round_trip m a s f pf :
  0 <= s < 2 ^ 64 -> s mod 4 = 0 ->
  GET_SIZE (SET_VALUE m a s f pf) a = s /\
  GET_FREE_BIT (SET_VALUE m a s f pf) a = f /\
  GET_PREV_BLOCK_FREE_BIT (SET_VALUE m a s f pf) a = pf /\
  (forall x, x < a \/ a + 8 <= x -> SET_VALUE m a s f pf x = m x).
Proof.
  intros Hs Hm. destruct (SET_VALUE_fields m a s f pf Hs Hm) as (_ & G1 & G2 & G3).
  split; [assumption|]. split; [assumption|]. split; [assumption|].
  intros x Hx. apply SET_VALUE_other. assumption.
Qed.

Lemma codec_round_trip_witness :
  0 <= 48 < 2 ^ 64 /\ 48 mod 4 = 0 /\
  GET_SIZE (SET_VALUE (fun _ => 0) 1032 48 true false) 1032 = 48.
Proof.
  split; [lia|]. split; [reflexivity|].
  apply (codec_round_trip (fun _ => 0) 1032 48 true false); [lia|reflexivity].
Defined.

(** X9. [SET_FREE_BIT] and [SET_PREV_BLOCK_FREE_BIT] change the one flag
    they name and keep the size and the other flag, whatever word the
    memory holds; setting a flag to the value it has leaves the word. *)
Theorem flag_setters_keep_rest m a f :
  (GET_FREE_BIT (SET_FREE_BIT m a f) a = f /\
   GET_SIZE (SET_FREE_BIT m a f) a = GET_SIZE m a /\
   GET_PREV_BLOCK_FREE_BIT (SET_FREE_BIT m a f) a = GET_PREV_BLOCK_FREE_BIT m a) /\
  (GET_PREV_BLOCK_FREE_BIT (SET_PREV_BLOCK_FREE_BIT m a f) a = f /\
   GET_SIZE (SET_PREV_BLOCK_FREE_BIT m a f) a = GET_SIZE m a /\
   GET_FREE_BIT (SET_PREV_BLOCK_FREE_BIT m a f) a = GET_FREE_BIT m a) /\
  load64 (SET_FREE_BIT m a (GET_FREE_BIT m a)) a = load64 m a /\
  load64 (SET_PREV_BLOCK_FREE_BIT m a (GET_PREV_BLOCK_FREE_BIT m a)) a = load64 m a.
Proof.
  destruct (GET_SIZE_shape m a) as (R & M & _).
  split; [|split; [|split]].
  - destruct (fields_of_tag _ a _ _ _ R M (SET_FREE_BIT_word m a f)) as (G1 & G2 & G3). auto.
  - destruct (fields_of_tag _ a _ _ _ R M (SET_PREV_BLOCK_FREE_BIT_word m a f))
      as (G1 & G2 & G3). auto.
  - rewrite SET_FREE_BIT_word. apply tag_fields.
  - rewrite SET_PREV_BLOCK_FREE_BIT_word. apply tag_fields.
Qed.

(** X10. [mirror_header_to_footer]: when the footer word does not overlap
    the header word, the footer holds the header's word afterwards, the
    header is unchanged (so the footer is found at the same place) and no
    byte outside the footer is touched. *)
Theorem mirror_copies_header m h :
  0 <= h < 2 ^ 64 ->
  Header_get_footer m h + 8 <= h \/ h + 8 <= Header_get_footer m h ->
  load64 (mirror_header_to_footer m h) (Header_get_footer m h) = load64 m h /\
  load64 (mirror_header_to_footer m h) h = load64 m h /\
  Header_get_footer (mirror_header_to_footer m h) h = Header_get_footer m h /\
  (forall x, x < Header_get_footer m h \/ Header_get_footer m h + 8 <= x ->
             mirror_header_to_footer m h x = m x).
Proof.
  intros Hh Hd.
  assert (E : load64 (mirror_header_to_footer m h) h = load64 m h).
  { unfold mirror_header_to_footer. cbv zeta. apply load64_SET_VALUE_other. lia. }
  split; [apply mirror_header_to_footer_word|]. split; [exact E|]. split.
  - rewrite !Header_get_footer_wrap by assumption.
    rewrite (GET_SIZE_same m (mirror_header_to_footer m h) h E). reflexivity.
  - intros x Hx. unfold mirror_header_to_footer. cbv zeta. apply SET_VALUE_other. assumption.
Qed.

Lemma mirror_copies_header_witness :
  let m := store64 (fun _ => 0) 1032 (tag 16 true true) in
  Header_get_footer m 1032 = 1056 /\
  load64 (mirror_header_to_footer m 1032) 1056 = tag 16 true true.
Proof.
  cbv zeta. split; [vm_compute; reflexivity|].
  assert (E : Header_get_footer (store64 (fun _ => 0) 1032 (tag 16 true true)) 1032 = 1056)
    by (vm_compute; reflexivity).
  destruct (mirror_copies_header (store64 (fun _ => 0) 1032 (tag 16 true true)) 1032)
    as (H & _); [lia|rewrite E; lia|].
  rewrite E in H. rewrite H. vm_compute. reflexivity.
Defined.

(** X11. The navigator round trips, wrap-around included: payload and
    header addresses are inverse to each other, and when the footer of a
    block holds the size of its header, walking to the next header and
    back through the footer returns to the header. *)
Theorem navigation_round_trip m h :
  0 <= h < 2 ^ 64 ->
  Payload_get_header (Header_get_payload h) = h /\
  Header_get_payload (Payload_get_header h) = h /\
  (GET_SIZE m (Header_get_footer m h) = GET_SIZE m h ->
   Footer_get_header m (Header_get_footer m h) = h /\
   Header_get_prev_header m (Header_get_next_header m h) = h).
Proof.
  intros Hh.
  assert (P1 : Payload_get_header (Header_get_payload h) = h).
  { unfold Payload_get_header, Header_get_payload, Header_size.
    rewrite wrap_add8_sub8. apply wrap_small. assumption. }
  split; [exact P1|]. split.
  { unfold Payload_get_header, Header_get_payload, Header_size.
    rewrite wrap_sub8_add8. apply wrap_small. assumption. }
  intros E.
  assert (F1 : Footer_get_header m (Header_get_footer m h) = h).
  { unfold Footer_get_header. rewrite E.
    rewrite (Header_get_footer_wrap m h Hh).
    replace (wrap (wrap (wrap (h + 8) + GET_SIZE m h) - GET_SIZE m h))
      with (Header_get_payload h); [exact P1|].
    unfold Header_get_payload, Header_size.
    pose proof (wrap_range (h + 8)) as Rp. set (p := wrap (h + 8)) in *.
    unfold wrap. rewrite Zminus_mod_idemp_l.
    replace (p + GET_SIZE m h - GET_SIZE m h) with p by lia.
    symmetry. apply Z.mod_small. assumption. }
  split; [exact F1|].
  unfold Header_get_prev_header, Header_get_next_header, Footer_size.
  replace (wrap (wrap (Header_get_footer m h + 8) - 8)) with (Header_get_footer m h);
    [exact F1|].
  rewrite wrap_add8_sub8. symmetry. apply wrap_small.
  rewrite Header_get_footer_wrap by assumption. apply wrap_range.
Qed.

Lemma navigation_round_trip_witness :
  0 <= 1032 < 2 ^ 64 /\
  Header_get_next_header pair_mem 1032 = 1064 /\
  Header_get_prev_header pair_mem (Header_get_next_header pair_mem 1032) = 1032.
Proof.
  split; [lia|]. split; [vm_compute; reflexivity|].
  apply (navigation_round_trip pair_mem 1032); [lia|vm_compute; reflexivity].
Defined.

(** X12. [Segregated_get_bucket] inverts the table of
    [Segregated_get_size_classes]: the class at index [i] is sent to [i],
    every size that is not in the table to 14, and an index below 14 is
    answered for the one size [16 * (i + 1)] only. *)
Theorem bucket_table :
  (forall i, 0 <= i < 15 ->
     Segregated_get_bucket (nth (Z.to_nat i) Segregated_get_size_classes 0) = i) /\
  (forall s, ~ In s Segregated_get_size_classes -> Segregated_get_bucket s = 14) /\
  (forall s, 0 <= Segregated_get_bucket s <= 14 /\
     (Segregated_get_bucket s < 14 ->
      nth (Z.to_nat (Segregated_get_bucket s)) Segregated_get_size_classes 0 = s /\
      s = 16 * (Segregated_get_bucket s + 1))).
Proof.
  split; [|split].
  - intros i Hi.
    assert (Hc : i = 0 \/ i = 1 \/ i = 2 \/ i = 3 \/ i = 4 \/ i = 5 \/ i = 6 \/ i = 7 \/
                 i = 8 \/ i = 9 \/ i = 10 \/ i = 11 \/ i = 12 \/ i = 13 \/ i = 14) by lia.
    repeat (destruct Hc as [->|Hc]; [reflexivity|]). subst i. reflexivity.
  - intros s Hs. unfold Segregated_get_bucket, Segregated_get_size_classes in *.
    cbn [get_bucket_loop].
    repeat (match goal with |- context [?x =? s] =>
              destruct (Z.eqb_spec x s) as [E|_];
                [exfalso; apply Hs; rewrite <- E; cbn [In]; tauto|] end).
    reflexivity.
  - intros s. split; [apply Segregated_get_bucket_range|].
    unfold Segregated_get_bucket, Segregated_get_size_classes. cbn [get_bucket_loop].
    repeat (match goal with |- context [?x =? s] =>
              destruct (Z.eqb_spec x s) as [<-|_];
                [intros H; try lia; split; reflexivity|] end).
    lia.
Qed.

(** X13. [align] on the whole 64-bit range: up to [2^64 - 16] it is the
    least multiple of 16 not below its argument, above it the sum wraps
    and the result is 0; [aligned] is exact everywhere. *)
Theorem align_edges x :
  0 <= x < 2 ^ 64 ->
  (x <= 2 ^ 64 - 16 ->
   align x = 16 * ((x + 15) / 16) /\ x <= align x < x + 16 /\ align x mod 16 = 0) /\
  (2 ^ 64 - 16 < x -> align x = 0) /\
  (aligned x = true <-> x mod 16 = 0).
Proof.
  intros Hx. split; [|split].
  - intros Hs. rewrite align_eq by lia.
    pose proof (Z.div_mod (x + 15) 16 ltac:(lia)) as D.
    pose proof (Z.mod_pos_bound (x + 15) 16 ltac:(lia)) as B.
    split; [reflexivity|]. split; [lia|].
    rewrite Z.mul_comm. apply Z.mod_mul. lia.
  - intros Hb. unfold align, ALIGNMENT.
    replace (x + 16 - 1) with (x + 15) by lia.
    assert (E : wrap (x + 15) = x + 15 - 2 ^ 64).
    { unfold wrap. symmetry. apply (Z.mod_unique _ _ 1); lia. }
    rewrite E, (Z.div_small (x + 15 - 2 ^ 64)) by lia. reflexivity.
  - split; [apply aligned_true; assumption|apply aligned_mod; assumption].
Qed.

Lemma align_edges_witness :
  0 <= 2 ^ 64 - 1 < 2 ^ 64 /\ align (2 ^ 64 - 1) = 0 /\ align 17 = 32.
Proof.
  split; [lia|]. split.
  - apply (align_edges (2 ^ 64 - 1)); lia.
  - destruct (align_edges 17) as (H & _); [lia|]. destruct H as (E & _); [lia|].
    rewrite E. reflexivity.
Defined.

(** X14. Inserting the node [p] at the front of list [k] and removing it
    again restores the index: [p] is the head in between, and afterwards
    the 15 lists, their heads, the link fields of their nodes and every
    word off the nodes are as before. *)
Theorem insert_remove_round_trip st Ls k p :
  lists_ok (mem st) (freelists st) Ls ->
  8 < p -> p + 16 <= 2 ^ 64 ->
  (forall i y, In y (Ls i) -> p + 16 <= y \/ y + 16 <= p) ->
  let st1 := LinkedList_insert_at_front st k p in
  let st2 := LinkedList_remove st1 k p in
  freelists st1 k = p /\
  lists_ok (mem st1) (freelists st1) (updL Ls k (p :: Ls k)) /\
  lists_ok (mem st2) (freelists st2) Ls /\
  (forall i, freelists st2 i = freelists st i) /\
  (forall i y, In y (Ls i) ->
     load64 (mem st2) y = load64 (mem st) y /\
     load64 (mem st2) (y + 8) = load64 (mem st) (y + 8)) /\
  (forall a, a + 8 <= p \/ p + 16 <= a ->
     (forall i y, In y (Ls i) -> a + 8 <= y \/ y + 16 <= a) ->
     load64 (mem st2) a = load64 (mem st) a).
Proof.
  intros HL Hp0 Hp1 Hfresh st1 st2.
  destruct (LinkedList_insert_at_front_ok st Ls HL k p Hp0 Hp1 Hfresh)
    as (HL1 & _ & _ & _ & F1). fold st1 in HL1, F1.
  assert (EL : updL Ls k (p :: Ls k) k = [] ++ p :: Ls k) by (rewrite updL_same; reflexivity).
  destruct (LinkedList_remove_ok st1 _ HL1 k p [] (Ls k) EL) as (HL2 & _ & _ & _ & F2).
  fold st2 in HL2, F2. cbn [app] in HL2.
  assert (HL2' : lists_ok (mem st2) (freelists st2) Ls).
  { apply (lists_ok_ext _ _ _ _ HL2). intros i. unfold updL.
    destruct (Z.eqb_spec i k) as [->|]; reflexivity. }
  split; [apply upd_same|]. split; [exact HL1|]. split; [exact HL2'|]. split; [|split].
  - intros i. rewrite (lists_head _ _ HL2' i), (lists_head _ _ HL i). reflexivity.
  - intros i y Hy.
    exact (dlseg_fields _ _ _ _ _ _ _ (lo_dll _ _ _ HL i) (lo_dll _ _ _ HL2' i) y Hy).
  - intros a Ha Hn. rewrite F2, F1; try assumption; [reflexivity|].
    intros i y Hy. unfold updL in Hy. destruct (Z.eqb_spec i k) as [->|].
    + destruct Hy as [<-|Hy]; [lia|eauto].
    + eauto.
Qed.

Lemma insert_remove_round_trip_witness :
  let st1 := LinkedList_insert_at_front pair_state 0 2000 in
  freelists pair_state 0 = 1072 /\ freelists st1 0 = 2000 /\
  freelists (LinkedList_remove st1 0 2000) 0 = 1072.
Proof.
  cbv zeta. split; [reflexivity|]. split; [reflexivity|].
  destruct (insert_remove_round_trip pair_state pair_lists 0 2000
              (inv_lists _ _ _ pair_inv)) as (_ & _ & _ & H & _); try lia.
  - intros i y. unfold pair_lists, updL. destruct (i =? 0); cbn [In]; lia.
  - rewrite H. reflexivity.
Defined.

(** X15. In any state, and whatever the arguments, no call lowers the
    break or moves it past the limit of the memory library, and none
    changes the heap base or the limit; [free] does not move the break. *)
Theorem break_never_lowered :
  (forall st n, grown st (fst (extend_memory st n))) /\
  (forall fuel st n st' p, malloc fuel st n = Some (st', p) -> grown st st') /\
  (forall st p, grown st (free st p) /\ brk (free st p) = brk st) /\
  (forall fuel st p n st' q, realloc fuel st p n = Some (st', q) -> grown st st') /\
  (forall fuel st k n st' p, calloc fuel st k n = Some (st', p) -> grown st st').
Proof.
  split; [exact extend_memory_grown|]. split; [exact malloc_grown|].
  split; [|split; [exact realloc_grown|exact calloc_grown]].
  intros st p. split; [apply same_region_grown, free_region|].
  apply (free_region st p).
Qed.

Lemma break_never_lowered_witness :
  malloc 10 (fresh 100000) 56 = Some (mid_alloc, 1040) /\
  grown (fresh 100000) mid_alloc /\ brk (fresh 100000) = 1040 /\ brk mid_alloc = 1104.
Proof.
  split; [exact malloc_mid|]. split.
  - exact (proj1 (proj2 break_never_lowered) _ _ _ _ _ malloc_mid).
  - split; vm_compute; reflexivity.
Defined.

(** X16. [mm_init] succeeds exactly when 32 bytes fit above the first
    16-byte aligned address at or above the break.  When it fails it has
    written nothing and set neither [heap] nor [freelists], but the break
    stays where the alignment probe has moved it. *)
Theorem mm_init_outcome fuel st0 :
  0 <= brk st0 -> mem_max st0 < 2 ^ 64 -> (16 <= fuel)%nat ->
  exists st,
    mm_init fuel st0 = Some (st, 16 * ((brk st0 + 15) / 16) + 32 <=? mem_max st0) /\
    (mem_max st0 < 16 * ((brk st0 + 15) / 16) + 32 ->
     mem st = mem st0 /\ heap st = heap st0 /\ freelists st = freelists st0 /\
     mem_max st = mem_max st0 /\
     brk st0 <= brk st <= 16 * ((brk st0 + 15) / 16) + 1).
Proof.
  intros H0 HM Hf.
  pose proof (Z.div_mod (brk st0 + 15) 16 ltac:(lia)) as D.
  pose proof (Z.mod_pos_bound (brk st0 + 15) 16 ltac:(lia)) as B.
  set (t := 16 * ((brk st0 + 15) / 16)) in *.
  assert (Ht : t mod 16 = 0) by (subst t; rewrite Z.mul_comm; apply Z.mod_mul; lia).
  pose proof (Z.mod_pos_bound (16 - brk st0 mod 16) 16 ltac:(lia)).
  destruct (init_probe_total fuel st0 H0 HM ltac:(lia)) as ([st1 start] & EP).
  unfold mm_init. rewrite EP.
  destruct (Z.eqb_spec start SBRK_FAIL) as [->|NS].
  - destruct (init_probe_fail _ _ _ H0 HM EP) as (P1 & P2 & P3 & P4 & P5 & P6 & P7).
    assert (brk st1 <= t).
    { destruct (Z_le_gt_dec (brk st1) t); [assumption|exfalso].
      apply (P7 t); [lia|assumption]. }
    exists st1. destruct (Z.leb_spec (t + 32) (mem_max st0)); [lia|].
    split; [reflexivity|]. intros _. split_and; auto; lia.
  - destruct (init_probe_ok _ _ _ _ H0 HM EP NS) as (S0 & SA & B1 & BM & MM & Emem & SL & SF).
    assert (Es : start = t) by (apply first_aligned; assumption).
    cbv zeta. unfold Header_size, Footer_size, mm_sbrk.
    change (wrap (8 + 8 + 8 + 8 - 1)) with 31.
    destruct (Z.leb_spec (brk st1 + 31) (mem_max st1)) as [Hroom|Hfull].
    + destruct (Z.eqb_spec (brk st1) SBRK_FAIL) as [E|_].
      { exfalso. change SBRK_FAIL with (2 ^ 64 - 1) in E. lia. }
      eexists. destruct (Z.leb_spec (t + 32) (mem_max st0)); [|lia].
      split; [reflexivity|]. lia.
    + rewrite Z.eqb_refl. exists st1.
      destruct (Z.leb_spec (t + 32) (mem_max st0)); [lia|].
      split; [reflexivity|]. intros _.
      assert (heap st1 = heap st0 /\ freelists st1 = freelists st0) as [E1 E2].
      { clear - EP NS. revert st0 st1 EP.
        induction fuel as [|fuel IH]; intros st0 st1 EP; [discriminate|].
        cbn [init_probe] in EP. unfold mm_sbrk in EP.
        destruct (brk st0 + 1 <=? mem_max st0).
        - destruct (brk st0 =? SBRK_FAIL); [inversion EP; subst; contradiction|].
          destruct (aligned (brk st0)); [inversion EP; subst; auto|].
          apply IH in EP. cbn [heap freelists] in EP. assumption.
        - rewrite Z.eqb_refl in EP. inversion EP; subst. contradiction. }
      split_and; auto; lia.
Qed.

Lemma mm_init_outcome_witness :
  exists st, mm_init 20 (raw 1030) = Some (st, false) /\ heap st = 0 /\
             1003 <= brk st <= 1009.
Proof.
  destruct (mm_init_outcome 20 (raw 1030)) as (st & E & F);
    [cbn; lia|cbn; lia|lia|].
  exists st. split; [exact E|].
  destruct F as (_ & F2 & _ & _ & F5); [cbn; lia|].
  split; [exact F2|exact F5].
Defined.

(** X17. [malloc] leaves the live blocks alone: in every reachable state
    and for every request that with its boundary words fits in 64 bits,
    each live block has the capacity and the bytes it had, and a block
    handed out lies apart from every live block, a header word between
    them. *)
Theorem malloc_keeps_live_blocks st live fuel n st' p :
  reach st live -> 0 <= n <= 2 ^ 64 - 24 ->
  malloc fuel st n = Some (st', p) ->
  forall q, In q live ->
    capacity st' q = capacity st q /\
    (forall x, q <= x < q + capacity st q -> mem st' x = mem st x) /\
    (p <> NULL -> p + capacity st' p <= q - 8 \/ q + capacity st' q <= p - 8).
Proof.
  intros R Hn HM q Hq.
  destruct (malloc_full _ _ _ _ _ _ (reach_heap_full _ _ R) Hn HM) as (HF & SB & _ & Hnew).
  destruct (SB q Hq) as [C F]. split; [exact C|]. split; [exact F|].
  intros Np. destruct (Hnew Np) as (Fp & _).
  destruct (Z.eqb_spec p NULL) as [|_]; [contradiction|].
  apply (live_disjoint _ _ _ _ HF); [left; reflexivity|right; assumption|].
  intros ->. contradiction.
Qed.

Lemma malloc_keeps_live_blocks_witness :
  malloc 10 mid_alloc 16 = Some (state_of mid_alloc (malloc 10 mid_alloc 16), 1104) /\
  capacity (state_of mid_alloc (malloc 10 mid_alloc 16)) 1040 = capacity mid_alloc 1040.
Proof.
  assert (E : malloc 10 mid_alloc 16 = Some (state_of mid_alloc (malloc 10 mid_alloc 16), 1104))
    by (apply run_eq; vm_compute; reflexivity).
  split; [exact E|].
  assert (B : 0 <= 16 <= 2 ^ 64 - 24) by lia.
  assert (I : In 1040 [1040]) by (left; reflexivity).
  exact (proj1 (malloc_keeps_live_blocks mid_alloc [1040] 10 16 _ 1104
                  reach_mid_alloc B E 1040 I)).
Defined.

(** X18. [free] of a live pointer does not move the break and leaves
    every other live block with its capacity and its bytes; the space is
    there to be used again: a later request of at most the capacity of
    the freed block is served without extending the heap. *)
Theorem free_keeps_other_blocks st live p :
  reach st live -> In p live ->
  brk (free st p) = brk st /\
  (forall q, In q live -> q <> p ->
     capacity (free st p) q = capacity st q /\
     forall x, q <= x < q + capacity st q -> mem (free st p) x = mem st x) /\
  (forall fuel n st' q, 1 <= n <= capacity st p ->
     malloc fuel (free st p) n = Some (st', q) -> q <> NULL /\ brk st' = brk st).
Proof.
  intros R Hp. pose proof (reach_heap_full _ _ R) as HF.
  split; [apply (free_region st p)|]. split.
  - intros q Hq Hne. exact (proj2 (free_full _ _ _ HF Hp) q Hq Hne).
  - intros fuel n st' q Hn HM.
    destruct HF as (bs & Ls & HI & HT & HC & HCo & HMi & HL).
    destruct (HL p Hp) as (s & Hs). pose proof Hs as (b & Hb & Ehd & Esz & Fb & Rb).
    rewrite (capacity_ablk _ _ _ _ _ HI Hs) in Hn. subst s.
    assert (Ep : p = hd b + 8) by lia. subst p.
    destruct (free_kept st bs Ls b HI HT HC HCo Hb Fb Rb)
      as (bs' & Ls' & HI' & HT' & HC' & HCo' & _ & b' & Hb' & Fb' & Sb').
    pose proof (blk_bounds _ _ _ HI b Hb). pose proof (inv_lo _ _ _ HI).
    pose proof (inv_top _ _ _ HI). pose proof (inv_max _ _ _ HI).
    destruct (blk_size _ _ _ HI b Hb) as [Sb Mb].
    assert (Hfit : required_payload_size n <= sz b') .
    { assert (required_payload_size n <= sz b); [|lia].
      apply required_payload_size_min; [lia|exact Mb|lia|lia]. }
    assert (Hn2 : 1 <= n <= 2 ^ 64 - 24) by lia.
    destruct (malloc_fits _ _ _ _ _ _ _ _ HI' HT' HC' HCo' Hn2 Hb' Fb' Hfit HM)
      as [Nq Eb].
    split; [exact Nq|]. rewrite Eb. apply (free_region st (hd b + 8)).
Qed.

Lemma free_keeps_other_blocks_witness :
  let st := free mid_alloc 1040 in
  In 1040 [1040] /\ brk st = brk mid_alloc /\
  malloc 10 st 56 = Some (state_of st (malloc 10 st 56), 1040) /\
  brk (state_of st (malloc 10 st 56)) = brk mid_alloc.
Proof.
  intros st.
  assert (Hin : In 1040 [1040]) by (left; reflexivity).
  assert (E : malloc 10 st 56 = Some (state_of st (malloc 10 st 56), 1040))
    by (apply run_eq; vm_compute; reflexivity).
  assert (B : 1 <= 56 <= capacity mid_alloc 1040) by (vm_compute; split; discriminate).
  pose proof (free_keeps_other_blocks mid_alloc [1040] 1040 reach_mid_alloc Hin)
    as (H1 & _ & H3).
  split; [exact Hin|]. split; [exact H1|]. split; [exact E|].
  exact (proj2 (H3 10%nat 56 _ 1040 B E)).
Defined.

(** X19. [realloc] keeps the contents: when it returns a pointer, the
    block behind it holds at least [n] bytes and its first
    [min (n, old capacity)] bytes are the bytes of the old block; when it
    returns null the state is the one it was called in; every other live
    block keeps its capacity and its bytes. *)
Theorem realloc_keeps_contents st live fuel p n st' q :
  reach st live -> In p live -> 1 <= n <= 2 ^ 64 - 24 ->
  realloc fuel st p n = Some (st', q) ->
  (q = NULL -> st' = st) /\
  (q <> NULL ->
   q mod 16 = 0 /\ n <= capacity st' q /\
   forall x, 0 <= x < Z.min n (capacity st p) -> mem st' (q + x) = mem st (p + x)) /\
  (forall r, In r live -> r <> p ->
     capacity st' r = capacity st r /\
     forall x, r <= x < r + capacity st r -> mem st' x = mem st x).
Proof.
  intros R Hp Hn HR. pose proof (reach_heap_full _ _ R) as HF.
  assert (Hn0 : 0 <= n <= 2 ^ 64 - 24) by lia.
  destruct (realloc_full _ _ _ _ _ _ _ HF (or_intror Hp) Hn0 HR) as (_ & SB & H3).
  destruct (H3 Hp (proj1 Hn)) as (Hsame & Hnull & Hmv).
  split; [exact Hnull|]. split; [|exact SB].
  intros Nq. destruct (Z.eq_dec q p) as [->|Nqp].
  - rewrite (Hsame eq_refl).
    destruct (live_layout _ _ _ HF Hp) as (Ap & _).
    split; [exact Ap|]. split; [|reflexivity].
    unfold realloc in HR. destruct (Z.eqb_spec p NULL) as [|_]; [contradiction|].
    destruct (Z.eqb_spec n 0) as [|_]; [lia|]. cbv zeta in HR.
    destruct (live_layout _ _ _ HF Hp) as (_ & C24 & _ & Hlo & Cb & _).
    pose proof HF as (bs & Ls & HI & _). pose proof (inv_top _ _ _ HI).
    pose proof (inv_max _ _ _ HI). pose proof (inv_lo _ _ _ HI).
    fold (capacity st p) in HR. rewrite (wrap_small (capacity st p)) in HR by lia.
    destruct (Z.leb_spec n (capacity st p)) as [Hfit|Hbig]; [assumption|exfalso].
    destruct (malloc fuel st n) as [[st1 q1]|] eqn:EM; [|discriminate].
    destruct (malloc_full _ _ _ _ _ _ HF Hn0 EM) as (_ & _ & _ & Hnew).
    destruct (Z.eqb_spec q1 NULL) as [E1|N1]; inversion HR; subst; [contradiction|].
    destruct (Hnew N1) as (Fq & _). contradiction.
  - destruct (Hmv Nq Nqp) as (_ & Aq & Cq & F).
    split; [exact Aq|]. split; [lia|]. intros x Hx. apply F. lia.
Qed.

Lemma realloc_keeps_contents_witness :
  realloc 10 mid_alloc 1040 100 =
    Some (state_of mid_alloc (realloc 10 mid_alloc 1040 100), 1104) /\
  mem (state_of mid_alloc (realloc 10 mid_alloc 1040 100)) (1104 + 7) =
    mem mid_alloc (1040 + 7).
Proof.
  assert (E : realloc 10 mid_alloc 1040 100 =
              Some (state_of mid_alloc (realloc 10 mid_alloc 1040 100), 1104))
    by (apply run_eq; vm_compute; reflexivity).
  split; [exact E|].
  assert (I : In 1040 [1040]) by (left; reflexivity).
  assert (B : 1 <= 100 <= 2 ^ 64 - 24) by lia.
  assert (N : 1104 <> NULL) by discriminate.
  assert (B7 : 0 <= 7 < Z.min 100 (capacity mid_alloc 1040))
    by (vm_compute; split; [discriminate|reflexivity]).
  pose proof (realloc_keeps_contents mid_alloc [1040] 10 1040 100 _ 1104
                reach_mid_alloc I B E) as (_ & H & _).
  destruct (H N) as (_ & _ & F). exact (F 7 B7).
Defined.

(** X20. [calloc] with a product that does not overflow: a null answer
    leaves the state as it was; otherwise the pointer is aligned and new,
    the block holds the [k * n] bytes, all of them are zero, and every
    live block keeps its capacity and its bytes. *)
Theorem calloc_zeroes st live fuel k n st' p :
  reach st live -> 0 <= k -> 0 <= n -> n * k <= 2 ^ 64 - 24 ->
  calloc fuel st k n = Some (st', p) ->
  (p = NULL -> st' = st) /\
  (p <> NULL ->
   p mod 16 = 0 /\ ~ In p live /\ n * k <= capacity st' p /\
   forall x, p <= x < p + n * k -> mem st' x = 0) /\
  (forall q, In q live ->
     capacity st' q = capacity st q /\
     forall x, q <= x < q + capacity st q -> mem st' x = mem st x).
Proof.
  intros R Hk Hn Hkn HC.
  destruct (calloc_full _ _ _ _ _ _ _ (reach_heap_full _ _ R) Hk Hn Hkn HC)
    as (_ & SB & Hnull & Hnew).
  split; [exact Hnull|]. split; [|exact SB].
  intros Np. destruct (Hnew Np) as (H1 & H2 & H3 & H4). auto.
Qed.

Lemma calloc_zeroes_witness :
  calloc 10 mid_free 7 8 = Some (state_of mid_free (calloc 10 mid_free 7 8), 1040) /\
  mem mid_free 1088 = 49 /\
  mem (state_of mid_free (calloc 10 mid_free 7 8)) 1088 = 0.
Proof.
  assert (E : calloc 10 mid_free 7 8 = Some (state_of mid_free (calloc 10 mid_free 7 8), 1040))
    by (apply run_eq; vm_compute; reflexivity).
  split; [exact E|]. split; [vm_compute; reflexivity|].
  assert (Hk : 0 <= 7) by lia. assert (Hn : 0 <= 8) by lia.
  assert (Hkn : 8 * 7 <= 2 ^ 64 - 24) by lia.
  assert (N : 1040 <> NULL) by discriminate.
  assert (B : 1040 <= 1088 < 1040 + 8 * 7) by lia.
  pose proof (calloc_zeroes mid_free [] 10 7 8 _ 1040 reach_mid_free Hk Hn Hkn E)
    as (_ & H & _).
  destruct (H N) as (_ & _ & _ & F). exact (F 1088 B).
Defined.

(** X21. In every reachable state the live pointers are pairwise
    distinct and 16-byte aligned; each is to an allocated block of
    capacity at least 24 that lies between the prologue and the
    epilogue, and two live blocks never overlap: a header word lies
    between them. *)
Theorem live_blocks_disjoint st live :
  reach st live ->
  NoDup live /\
  forall p, In p live ->
    p mod 16 = 0 /\ 24 <= capacity st p /\ capacity st p mod 16 = 8 /\
    heap st + 24 <= p /\ p + capacity st p <= brk st - 8 /\
    GET_FREE_BIT (mem st) (Payload_get_header p) = false /\
    forall q, In q live -> q <> p ->
      p + capacity st p <= q - 8 \/ q + capacity st q <= p - 8.
Proof.
  intros R. pose proof (reach_heap_full _ _ R) as HF.
  split; [exact (reach_nodup _ _ R)|].
  intros p Hp. destruct (live_layout _ _ _ HF Hp) as (H1 & H2 & H3 & H4 & H5 & H6).
  split_and; try assumption.
  intros q Hq Hne. apply (live_disjoint _ _ _ _ HF); auto.
Qed.

Lemma live_blocks_disjoint_witness :
  NoDup [1040] /\ capacity mid_alloc 1040 = 56 /\ 1040 + capacity mid_alloc 1040 <= brk mid_alloc - 8.
Proof.
  assert (I : In 1040 [1040]) by (left; reflexivity).
  pose proof (live_blocks_disjoint mid_alloc [1040] reach_mid_alloc) as (ND & H).
  split; [exact ND|]. split; [vm_compute; reflexivity|].
  destruct (H 1040 I) as (_ & _ & _ & _ & H5 & _). exact H5.
Defined.

(** X22. [extend_memory] in a reachable state, for a request that with
    its boundary words fits in 64 bits: it answers true exactly when the
    break can move by [need + 16] bytes, and then the break has moved by
    that much; when it answers false the state is untouched; in both
    cases the state is reachable and the live blocks keep their capacity
    and their bytes. *)
Theorem extend_memory_contract st live n :
  reach st live -> 0 <= n <= 2 ^ 64 - 24 ->
  snd (extend_memory st n) = (brk st + required_payload_size n + 16 <=? mem_max st) /\
  (snd (extend_memory st n) = false -> fst (extend_memory st n) = st) /\
  (snd (extend_memory st n) = true ->
   brk (fst (extend_memory st n)) = brk st + required_payload_size n + 16) /\
  reach (fst (extend_memory st n)) live /\
  (forall q, In q live ->
     capacity (fst (extend_memory st n)) q = capacity st q /\
     forall x, q <= x < q + capacity st q -> mem (fst (extend_memory st n)) x = mem st x).
Proof.
  intros R Hn. pose proof (reach_heap_full _ _ R) as HF.
  destruct (required_payload_size_facts n Hn) as (N16 & Nm & Nle & Nmax & Nmin).
  assert (A : snd (extend_memory st n) =
              (brk st + required_payload_size n + 16 <=? mem_max st) /\
              (snd (extend_memory st n) = false -> fst (extend_memory st n) = st) /\
              (snd (extend_memory st n) = true ->
               brk (fst (extend_memory st n)) = brk st + required_payload_size n + 16)).
  { destruct HF as (bs & Ls & HI & HT & HC & HCo & _).
    destruct (Z.leb_spec (brk st + required_payload_size n + 16) (mem_max st)) as [Hroom|Hfull].
    - destruct (extend_memory_ok _ _ _ n HI HT HC HCo Hn Hroom)
        as (st1 & bs1 & Ls1 & EE & _ & _ & _ & _ & _ & _ & _ & Eb & _).
      rewrite EE. cbn [fst snd]. split; [reflexivity|]. split; [discriminate|auto].
    - rewrite extend_memory_fail.
      + cbn [fst snd]. split; [reflexivity|]. split; [reflexivity|discriminate].
      + cbv zeta. unfold Footer_size, Header_size.
        rewrite (wrap_small (required_payload_size n + 8)) by lia.
        rewrite wrap_small by lia. lia. }
  destruct A as (A1 & A2 & A3).
  split; [exact A1|]. split; [exact A2|]. split; [exact A3|].
  split; [apply reach_extend; assumption|].
  intros q Hq. exact (proj2 (extend_full _ _ _ HF Hn) q Hq).
Qed.

Lemma extend_memory_contract_witness :
  snd (extend_memory mid_alloc 16) = true /\
  brk (fst (extend_memory mid_alloc 16)) = brk mid_alloc + 32 /\
  capacity (fst (extend_memory mid_alloc 16)) 1040 = capacity mid_alloc 1040.
Proof.
  assert (I : In 1040 [1040]) by (left; reflexivity).
  assert (B : 0 <= 16 <= 2 ^ 64 - 24) by lia.
  assert (T : snd (extend_memory mid_alloc 16) = true) by (vm_compute; reflexivity).
  pose proof (extend_memory_contract mid_alloc [1040] 16 reach_mid_alloc B)
    as (_ & _ & H3 & _ & H5).
  split; [exact T|]. split.
  - rewrite (H3 T). vm_compute. reflexivity.
  - exact (proj1 (H5 1040 I)).
Defined.

(** X23. The invariant checker accepts every reachable state: with the
    low bound of the memory library at or below the heap base, the body
    of [mm_checkheap] in the [DEBUG] build runs through all its checks
    (prologue, previous-block-free bits, index membership of the free
    blocks and of no other block, coalescing, footers that mirror the
    headers, well-linked lists of the right size class, equal counts of
    free blocks and list nodes) and returns true, once it has fuel for
    its loops. *)
Theorem checkheap_accepts_reachable st live lo line_number :
  reach st live -> lo <= heap st ->
  exists k, forall fuel, (k <= fuel)%nat ->
    mm_checkheap_DEBUG fuel lo st line_number = Some true.
Proof.
  intros R Hlo.
  destruct (reach_heap_full _ _ R) as (bs & Ls & HI & HT & HC & HCo & HMi & _).
  exists (S (length bs + list_sum (map (fun j => length (Ls j)) (indices 0 15)))).
  intros fuel Hf. apply (checkheap_accepts st bs Ls HI); assumption || lia.
Qed.

Lemma checkheap_accepts_reachable_witness :
  1003 <= heap mid_free /\
  exists k, forall fuel, (k <= fuel)%nat ->
    mm_checkheap_DEBUG fuel 1003 mid_free 0 = Some true.
Proof.
  assert (H : 1003 <= heap mid_free) by (vm_compute; discriminate).
  split; [exact H|].
  exact (checkheap_accepts_reachable mid_free [] 1003 0 reach_mid_free H).
Defined.

(** X24. Whatever the state, when the checker of the [DEBUG] build
    returns true, the walk over the implicit list on its own, with the
    check for blocks that escaped coalescing only, returns true with the
    same fuel: a heap the checker accepts has no two free blocks side by
    side along the walk. *)
Theorem checkheap_implies_coalesced fuel lo st line_number :
  mm_checkheap_DEBUG fuel lo st line_number = Some true ->
  checkheap_coalesced fuel (mem st) (heap st) = Some true.
Proof.
  unfold mm_checkheap_DEBUG. cbv zeta. intros H.
  destruct (negb (in_heap lo st (heap st))); [discriminate|].
  destruct (negb (GET_SIZE (mem st) (heap st) =? 0)); [discriminate|].
  destruct (GET_FREE_BIT (mem st) (heap st)); [discriminate|].
  destruct (checkheap_implicit fuel fuel st (heap st) 0) as [[|n]|] eqn:E; try discriminate.
  exact (implicit_covers_coalesced fuel st fuel (heap st) 0 n E).
Qed.

Lemma checkheap_implies_coalesced_witness :
  mm_checkheap_DEBUG 20 1003 mid_free 0 = Some true /\
  checkheap_coalesced 20 (mem mid_free) (heap mid_free) = Some true.
Proof.
  assert (E : mm_checkheap_DEBUG 20 1003 mid_free 0 = Some true) by (vm_compute; reflexivity).
  split; [exact E|]. exact (checkheap_implies_coalesced 20 1003 mid_free 0 E).
Defined.

(** X25. On well-formed lists [Segregated_header_exists] answers, once it
    has fuel for the longest list, and it answers true exactly for the
    headers of the nodes of the 15 lists: [header + 8] is a node of one
    of them. *)
Theorem header_exists_iff st Ls fuel header :
  lists_ok (mem st) (freelists st) Ls ->
  (forall j, 0 <= j < 15 -> (length (Ls j) < fuel)%nat) ->
  exists b, Segregated_header_exists fuel st header = Some b /\
    (b = true <-> exists i, 0 <= i < 15 /\ In (header + 8) (Ls i)).
Proof.
  intros HL Hf. unfold Segregated_header_exists.
  rewrite (header_exists_spec st Ls header fuel HL) by (intros j Hj; apply Hf; lia).
  eexists. split; [reflexivity|]. rewrite existsb_exists. split.
  - intros (i & Hi & E). apply in_indices in Hi. apply existsb_exists in E.
    destruct E as (p & Hp & E). apply Z.eqb_eq in E.
    exists i. split; [lia|]. replace (header + 8) with p by lia. exact Hp.
  - intros (i & Hi & Hp). exists i. split; [apply in_indices; lia|].
    apply existsb_exists. exists (header + 8). split; [exact Hp|]. apply Z.eqb_eq. lia.
Qed.

Lemma header_exists_iff_witness :
  Segregated_header_exists 3 pair_state 1032 = Some true /\
  exists b, Segregated_header_exists 3 pair_state 1096 = Some b /\
    (b = true <-> exists i, 0 <= i < 15 /\ In (1096 + 8) (pair_lists i)).
Proof.
  split; [vm_compute; reflexivity|].
  apply (header_exists_iff pair_state pair_lists 3 1096 (inv_lists _ _ _ pair_inv)).
  intros j Hj. unfold pair_lists, updL. destruct (j =? 0); cbn [length]; lia.
Defined.
